(** * mtfs: a shallow embedding of the cache engine, the codec, the journal
      and the filesystem coordinator, with the properties of the design
      document stated and settled against the code.

    Conventions.
    - [size_t] and [uint64_t] are 64-bit, [uint32_t] 32-bit, [uint8_t] 8-bit
      unsigned integers; they are [Z] or [N] values with the wrap-around
      written where the code can wrap.
    - [std::string] and [std::vector<uint8_t>] are [list byte]; file names and
      paths are [string].
    - [std::unordered_map<K, V>] used only through find/insert/erase/size is a
      [gmap K V]; [std::unordered_set<K>] is a [gset K].  Where the code
      iterates a hash table the iteration order is kept explicitly.
    - A C++ exception is a value of an error type returned on the left of a
      sum. *)

From Stdlib Require Import ZArith NArith List Strings.Byte Ascii String Lia Floats.
From stdpp Require Import base decidable option list sorting gmap strings pretty.

Local Open Scope Z_scope.

(* ===================================================================== *)
(** * Codec: src/fs/src/compression.cpp                                   *)
(* ===================================================================== *)

Module Codec.

(** [static_cast<uint8_t>] of a non-negative count. *)
Definition u8 (n : N) : byte :=
  match Byte.of_N (n mod 256)%N with
  | Some b => b
  | None => x00
  end.

(** [static_cast<uint32_t>(size)]. *)
Definition u32 (n : Z) : Z := n mod 2 ^ 32.

(** The inner loop of [rleCompress]:
    [while (i + count < data.size() && data[i + count] == currentChar
            && count < 255) count++;]
    [tail] is the part of [data] from position [i + count] on. *)
Fixpoint run_length (currentChar : byte) (tail : list byte) (count : N) : N :=
  match tail with
  | b :: tail' =>
      if Byte.eqb b currentChar && (count <? 255)%N
      then run_length currentChar tail' (count + 1)%N
      else count
  | [] => count
  end.

(** The outer loop of [rleCompress], [data] being the input from position
    [i] on.  Each iteration consumes [count >= 1] bytes, so [length data]
    iterations are always enough; [fuel] counts them. *)
Fixpoint rle_loop (fuel : nat) (data : list byte) : list byte :=
  match fuel, data with
  | S fuel', currentChar :: tail =>
      let count := run_length currentChar tail 1%N in
      u8 count :: currentChar :: rle_loop fuel' (drop (N.to_nat count) data)
  | _, _ => []
  end.

Definition rleCompress (data : list byte) : list byte :=
  rle_loop (length data) data.

(** [rleDecompress]: pairs [(count, character)]; a trailing single byte is
    ignored ([if (i + 1 < data.size())]). *)
Fixpoint rleDecompress (data : list byte) : list byte :=
  match data with
  | count :: character :: rest =>
      replicate (N.to_nat (Byte.to_N count)) character ++ rleDecompress rest
  | _ => []
  end.

Definition COMPRESSION_MAGIC : Z := 0x4D544653.
Definition COMPRESSION_VERSION : Z := 1.

Record CompressionHeader := {
  magic : Z;            (* uint32_t *)
  version : Z;          (* uint16_t *)
  originalSize : Z;     (* uint32_t *)
  compressedSize : Z;   (* uint32_t *)
  compressionType : Z   (* uint8_t  *)
}.

(** Little-endian object representation of an unsigned integer of [n] bytes. *)
Fixpoint le_bytes (n : nat) (v : Z) : list byte :=
  match n with
  | O => []
  | S n' => u8 (Z.to_N (v mod 256)) :: le_bytes n' (v / 256)
  end.

Fixpoint le_value (bs : list byte) : Z :=
  match bs with
  | [] => 0
  | b :: bs' => Z.of_N (Byte.to_N b) + 256 * le_value bs'
  end.

(** [sizeof(CompressionHeader)] under natural alignment: magic at offsets
    0..3, version at 4..5, two padding bytes, originalSize at 8..11,
    compressedSize at 12..15, compressionType at 16 and three padding bytes:
    20 bytes.  [compress] and [decompress] copy the struct with [memcpy], so
    both sides use this one layout. *)
Definition sizeof_CompressionHeader : nat := 20.

Section Layout.
(** Padding bytes are never written by [compress]; their value is
    whatever the stack held.  [padding i] is the byte at offset [i]. *)
Variable padding : nat -> byte.

(** [std::memcpy(result.data(), &header, sizeof(CompressionHeader))]. *)
Definition header_bytes (h : CompressionHeader) : list byte :=
  le_bytes 4 (magic h) ++
  le_bytes 2 (version h) ++ [padding 6; padding 7] ++
  le_bytes 4 (originalSize h) ++
  le_bytes 4 (compressedSize h) ++
  le_bytes 1 (compressionType h) ++ [padding 17; padding 18; padding 19].

Definition compress (data : list byte) : list byte :=
  let rleCompressed := rleCompress data in
  let header := {| magic := COMPRESSION_MAGIC;
                   version := COMPRESSION_VERSION;
                   originalSize := u32 (Z.of_nat (length data));
                   compressedSize := u32 (Z.of_nat (length rleCompressed));
                   compressionType := 0 |} in
  header_bytes header ++ rleCompressed.
End Layout.

(** [std::memcpy(&header, compressedData.data(), sizeof(CompressionHeader))]. *)
Definition read_header (bs : list byte) : CompressionHeader :=
  {| magic := le_value (take 4 bs);
     version := le_value (take 2 (drop 4 bs));
     originalSize := le_value (take 4 (drop 8 bs));
     compressedSize := le_value (take 4 (drop 12 bs));
     compressionType := le_value (take 1 (drop 16 bs)) |}.

Inductive DecompressError :=
  | TooSmall            (* "Invalid compressed data: too small" *)
  | BadMagic            (* "Invalid compression magic number" *)
  | BadVersion          (* "Unsupported compression version" *)
  | BadType (t : Z)     (* "Unsupported compression type: " *)
  | SizeMismatch.       (* "Decompressed size mismatch" *)

Definition decompress (compressedData : list byte)
  : DecompressError + list byte :=
  if (length compressedData <? sizeof_CompressionHeader)%nat then inl TooSmall
  else
    let header := read_header compressedData in
    if negb (magic header =? COMPRESSION_MAGIC) then inl BadMagic
    else if negb (version header =? COMPRESSION_VERSION) then inl BadVersion
    else
      let compressedPayload := drop sizeof_CompressionHeader compressedData in
      if compressionType header =? 0 then
        let result := rleDecompress compressedPayload in
        if negb (Z.of_nat (length result) =? originalSize header)
        then inl SizeMismatch
        else inr result
      else inl (BadType (compressionType header)).

End Codec.

(* ===================================================================== *)
(** * Cache statistics: src/cache/include/cache/enhanced_cache.hpp        *)
(* ===================================================================== *)

(** [size_t] arithmetic. *)
Definition wrap64 (n : Z) : Z := n mod 2 ^ 64.

(** [static_cast<double>] of a [size_t]: the nearest binary64 value. *)
Definition to_double (n : Z) : float :=
  SF2Prim (binary_normalize prec emax n 0 false).

Module Stats.

Record CacheStatistics := {
  hits : Z;
  misses : Z;
  evictions : Z;
  totalAccesses : Z;
  pinnedItems : Z;
  prefetchedItems : Z;
  hitRate : float
  (* lastResetTime is wall-clock time and is left out *)
}.

(** The default constructor: every counter is zero-initialised. *)
Definition init : CacheStatistics :=
  {| hits := 0; misses := 0; evictions := 0; totalAccesses := 0;
     pinnedItems := 0; prefetchedItems := 0; hitRate := 0%float |}.

(** [updateHitRate]:
    [totalAccesses = hits + misses;
     hitRate = totalAccesses > 0
               ? (static_cast<double>(hits) / totalAccesses) * 100.0 : 0.0;] *)
Definition updateHitRate (s : CacheStatistics) : CacheStatistics :=
  let total := wrap64 (hits s + misses s) in
  {| hits := hits s; misses := misses s; evictions := evictions s;
     totalAccesses := total;
     pinnedItems := pinnedItems s; prefetchedItems := prefetchedItems s;
     hitRate := if 0 <? total
                then PrimFloat.mul
                       (PrimFloat.div (to_double (hits s)) (to_double total))
                       100%float
                else 0%float |}.

(** [stats.hits++; stats.updateHitRate();] *)
Definition hit (s : CacheStatistics) : CacheStatistics :=
  updateHitRate
    {| hits := wrap64 (hits s + 1); misses := misses s;
       evictions := evictions s; totalAccesses := totalAccesses s;
       pinnedItems := pinnedItems s; prefetchedItems := prefetchedItems s;
       hitRate := hitRate s |}.

(** [stats.misses++; stats.updateHitRate();] *)
Definition miss (s : CacheStatistics) : CacheStatistics :=
  updateHitRate
    {| hits := hits s; misses := wrap64 (misses s + 1);
       evictions := evictions s; totalAccesses := totalAccesses s;
       pinnedItems := pinnedItems s; prefetchedItems := prefetchedItems s;
       hitRate := hitRate s |}.

(** [stats.evictions++;] *)
Definition evicted (s : CacheStatistics) : CacheStatistics :=
  {| hits := hits s; misses := misses s;
     evictions := wrap64 (evictions s + 1); totalAccesses := totalAccesses s;
     pinnedItems := pinnedItems s; prefetchedItems := prefetchedItems s;
     hitRate := hitRate s |}.

(** [stats.prefetchedItems++;] *)
Definition prefetched (s : CacheStatistics) : CacheStatistics :=
  {| hits := hits s; misses := misses s;
     evictions := evictions s; totalAccesses := totalAccesses s;
     pinnedItems := pinnedItems s;
     prefetchedItems := wrap64 (prefetchedItems s + 1);
     hitRate := hitRate s |}.

(** [getStatistics]: [auto statsCopy = stats;
    statsCopy.pinnedItems = pinnedKeys.size(); return statsCopy;] *)
Definition report (s : CacheStatistics) (pinned : nat) : CacheStatistics :=
  {| hits := hits s; misses := misses s;
     evictions := evictions s; totalAccesses := totalAccesses s;
     pinnedItems := Z.of_nat pinned;
     prefetchedItems := prefetchedItems s;
     hitRate := hitRate s |}.

End Stats.

(** A cache entry.  The two time stamps of the C++ struct are wall-clock
    values that no operation reads back, and its [isPinned] field is never
    written (pinning lives in the caches' [pinnedKeys] sets); they are left
    out. *)
Record CacheEntry (K V : Type) := mkEntry {
  key : K;
  value : V;
  accessCount : Z
}.
Arguments mkEntry {K V}.
Arguments key {K V}.
Arguments value {K V}.
Arguments accessCount {K V}.

(** [EntryType(key, value)]. *)
Definition new_entry {K V} (k : K) (v : V) : CacheEntry K V := mkEntry k v 0.
Definition set_value {K V} (v : V) (e : CacheEntry K V) : CacheEntry K V :=
  mkEntry (key e) v (accessCount e).
(** [accessCount++]. *)
Definition touch {K V} (e : CacheEntry K V) : CacheEntry K V :=
  mkEntry (key e) (value e) (wrap64 (accessCount e + 1)).


(* ===================================================================== *)
(** * EnhancedLRUCache: src/cache/include/cache/enhanced_cache.tpp        *)
(* ===================================================================== *)

(** The recency list [entries] has the most recently used entry at its
    head.  The C++ class keeps beside it [lookup], a hash map from each key
    of the list to the list node; [lookup.find(key)] is modelled by the
    search of the list for the key, and the updates of [lookup] by the
    updates of the list.  The module [LRUContainers] further down keeps
    the two containers apart, and [LRUConsistency] shows that the calls on
    them are the calls on this list. *)
Module EnhancedLRUCache.
Section WithTypes.
Context {K : Type} `{Countable K} {V : Type}.

Record t := mk {
  maxCapacity : nat;
  entries : list (CacheEntry K V);
  pinnedKeys : gset K;
  stats : Stats.CacheStatistics
}.

Definition create (capacity : nat) : t :=
  mk capacity [] ∅ Stats.init.

(** [lookup.find(key)]: the position of the node, if any. *)
Fixpoint find (k : K) (l : list (CacheEntry K V)) : option nat :=
  match l with
  | [] => None
  | e :: l' => if bool_decide (key e = k) then Some O
               else S <$> find k l'
  end.

(** [moveToFront(it)]:
    [if (it != entries.begin()) entries.splice(entries.begin(), entries, it);] *)
Definition moveToFront (i : nat) (l : list (CacheEntry K V))
  : list (CacheEntry K V) :=
  match l !! i with
  | Some e => e :: delete i l
  | None => l
  end.

(** One iteration of the loop of [evict]; [inl] is a [break] (or the loop
    condition failing), [inr] goes round again. *)
Definition evict_step (c : t) : t + t :=
  match last (entries c) with
  | None => inl c                                  (* entries.empty() *)
  | Some lastIt =>
      let n := length (entries c) in
      if bool_decide (key lastIt ∉ pinnedKeys c) then
        inl (mk (maxCapacity c) (take (n - 1) (entries c)) (pinnedKeys c)
                (Stats.evicted (stats c)))
      else
        let c' := mk (maxCapacity c) (moveToFront (n - 1) (entries c))
                     (pinnedKeys c) (stats c) in
        if (length (entries c') <=? 1)%nat then inl c' else inr c'
  end.

(** [evict]: the [while] loop, run for at most [fuel] iterations; [None]
    when it is still running after that. *)
Fixpoint evict_loop (fuel : nat) (c : t) : option t :=
  match fuel with
  | O => None
  | S fuel' =>
      match evict_step c with
      | inl c' => Some c'
      | inr c' => evict_loop fuel' c'
      end
  end.

(** A loop that ever leaves does so within [length entries] iterations
    (lemma [LRUFacts.evict_fuel_enough]), so [None] here stands for a call
    of [evict] that does not return. *)
Definition evict (c : t) : option t :=
  evict_loop (S (length (entries c))) c.

Definition insert_front (k : K) (v : V) (c : t) : t :=
  mk (maxCapacity c) (new_entry k v :: entries c) (pinnedKeys c) (stats c).

Definition put (k : K) (v : V) (c : t) : option t :=
  match find k (entries c) with
  | Some i =>
      Some (mk (maxCapacity c)
               (moveToFront i (alter (set_value v) i (entries c)))
               (pinnedKeys c) (stats c))
  | None =>
      c' ← (if (maxCapacity c <=? length (entries c))%nat
            then evict c else Some c);
      Some (insert_front k v c')
  end.

(** [get]: [None] is the exception "Key not found in cache". *)
Definition get (k : K) (c : t) : option V * t :=
  match find k (entries c) with
  | None =>
      (None, mk (maxCapacity c) (entries c) (pinnedKeys c)
                (Stats.miss (stats c)))
  | Some i =>
      let l := moveToFront i (alter touch i (entries c)) in
      (value <$> entries c !! i,
       mk (maxCapacity c) l (pinnedKeys c) (Stats.hit (stats c)))
  end.

Definition contains (k : K) (c : t) : bool :=
  bool_decide (is_Some (find k (entries c))).

Definition remove (k : K) (c : t) : t :=
  match find k (entries c) with
  | Some i => mk (maxCapacity c) (delete i (entries c))
                 (pinnedKeys c ∖ {[k]}) (stats c)
  | None => c
  end.

Definition clear (c : t) : t := mk (maxCapacity c) [] ∅ (stats c).

Definition size (c : t) : nat := length (entries c).
Definition capacity (c : t) : nat := maxCapacity c.

Definition getStatistics (c : t) : Stats.CacheStatistics :=
  Stats.report (stats c) (stdpp.base.size (pinnedKeys c)).

Definition resetStatistics (c : t) : t :=
  mk (maxCapacity c) (entries c) (pinnedKeys c) Stats.init.

Definition pin (k : K) (c : t) : t :=
  if bool_decide (is_Some (find k (entries c)))
  then mk (maxCapacity c) (entries c) ({[k]} ∪ pinnedKeys c) (stats c)
  else c.

Definition unpin (k : K) (c : t) : t :=
  mk (maxCapacity c) (entries c) (pinnedKeys c ∖ {[k]}) (stats c).

Definition isPinned (k : K) (c : t) : bool :=
  bool_decide (k ∈ pinnedKeys c).

Definition count_prefetch (c : t) : t :=
  mk (maxCapacity c) (entries c) (pinnedKeys c) (Stats.prefetched (stats c)).

Definition prefetch (k : K) (v : V) (c : t) : option t :=
  match find k (entries c) with
  | None =>
      if (length (entries c) <? maxCapacity c)%nat
      then Some (count_prefetch (insert_front k v c))
      else c' ← evict c; Some (count_prefetch (insert_front k v c'))
  | Some i =>
      Some (count_prefetch
              (mk (maxCapacity c)
                  (moveToFront i (alter (set_value v) i (entries c)))
                  (pinnedKeys c) (stats c)))
  end.

Definition getKeys (c : t) : list K := key <$> entries c.

End WithTypes.
Arguments t : clear implicits.
Arguments t K {_ _} V.
End EnhancedLRUCache.


(* ===================================================================== *)
(** * FIFOCache                                                           *)
(* ===================================================================== *)

Module FIFOCache.
Section WithTypes.
Context {K : Type} `{Countable K} {V : Type}.

(** [insertionOrder] is the [std::queue]: its front is the head of the
    list and [push] appends at the end. *)
Record t := mk {
  maxCapacity : nat;
  insertionOrder : list K;
  entries : gmap K (CacheEntry K V);
  pinnedKeys : gset K;
  stats : Stats.CacheStatistics
}.

Definition create (capacity : nat) : t := mk capacity [] ∅ ∅ Stats.init.

(** The loop of [evict]: pops the queue until a key that is still
    resident and not pinned comes up.  Returns what is left of the queue
    and the key to erase, if one was found. *)
Fixpoint evict_loop (queue : list K) (ents : gmap K (CacheEntry K V))
    (pinned : gset K) : list K * option K :=
  match queue with
  | [] => ([], None)
  | oldestKey :: queue' =>
      if bool_decide (is_Some (ents !! oldestKey))
         && bool_decide (oldestKey ∉ pinned)
      then (queue', Some oldestKey)
      else evict_loop queue' ents pinned
  end.

Definition evict (c : t) : t :=
  match evict_loop (insertionOrder c) (entries c) (pinnedKeys c) with
  | (queue', Some oldestKey) =>
      mk (maxCapacity c) queue' (delete oldestKey (entries c))
         (pinnedKeys c) (Stats.evicted (stats c))
  | (queue', None) =>
      mk (maxCapacity c) queue' (entries c) (pinnedKeys c) (stats c)
  end.

(** [entries[key] = EntryType(key, value); insertionOrder.push(key);] *)
Definition insert_new (k : K) (v : V) (c : t) : t :=
  mk (maxCapacity c) (insertionOrder c ++ [k])
     (<[k := new_entry k v]> (entries c)) (pinnedKeys c) (stats c).

Definition put (k : K) (v : V) (c : t) : t :=
  match entries c !! k with
  | Some e =>
      mk (maxCapacity c) (insertionOrder c)
         (<[k := set_value v e]> (entries c)) (pinnedKeys c) (stats c)
  | None =>
      let c' := if (maxCapacity c <=? stdpp.base.size (entries c))%nat
                then evict c else c in
      insert_new k v c'
  end.

Definition get (k : K) (c : t) : option V * t :=
  match entries c !! k with
  | None =>
      (None, mk (maxCapacity c) (insertionOrder c) (entries c)
                (pinnedKeys c) (Stats.miss (stats c)))
  | Some e =>
      (Some (value e),
       mk (maxCapacity c) (insertionOrder c)
          (<[k := touch e]> (entries c)) (pinnedKeys c)
          (Stats.hit (stats c)))
  end.

Definition contains (k : K) (c : t) : bool :=
  bool_decide (is_Some (entries c !! k)).

(** "Note: Can't efficiently remove from queue, will be handled in evict". *)
Definition remove (k : K) (c : t) : t :=
  match entries c !! k with
  | Some _ => mk (maxCapacity c) (insertionOrder c) (delete k (entries c))
                 (pinnedKeys c ∖ {[k]}) (stats c)
  | None => c
  end.

Definition clear (c : t) : t := mk (maxCapacity c) [] ∅ ∅ (stats c).

Definition size (c : t) : nat := stdpp.base.size (entries c).
Definition capacity (c : t) : nat := maxCapacity c.

Definition getStatistics (c : t) : Stats.CacheStatistics :=
  Stats.report (stats c) (stdpp.base.size (pinnedKeys c)).

Definition resetStatistics (c : t) : t :=
  mk (maxCapacity c) (insertionOrder c) (entries c) (pinnedKeys c) Stats.init.

Definition pin (k : K) (c : t) : t :=
  if bool_decide (is_Some (entries c !! k))
  then mk (maxCapacity c) (insertionOrder c) (entries c)
          ({[k]} ∪ pinnedKeys c) (stats c)
  else c.

Definition unpin (k : K) (c : t) : t :=
  mk (maxCapacity c) (insertionOrder c) (entries c)
     (pinnedKeys c ∖ {[k]}) (stats c).

Definition isPinned (k : K) (c : t) : bool :=
  bool_decide (k ∈ pinnedKeys c).

Definition count_prefetch (c : t) : t :=
  mk (maxCapacity c) (insertionOrder c) (entries c) (pinnedKeys c)
     (Stats.prefetched (stats c)).

Definition prefetch (k : K) (v : V) (c : t) : t :=
  match entries c !! k with
  | None =>
      let c' := if (maxCapacity c <=? stdpp.base.size (entries c))%nat
                then evict c else c in
      count_prefetch (insert_new k v c')
  | Some e =>
      count_prefetch
        (mk (maxCapacity c) (insertionOrder c)
            (<[k := set_value v e]> (entries c)) (pinnedKeys c) (stats c))
  end.

End WithTypes.
Arguments t : clear implicits.
Arguments t K {_ _} V.
End FIFOCache.

(* ===================================================================== *)
(** * LIFOCache                                                           *)
(* ===================================================================== *)

Module LIFOCache.
Section WithTypes.
Context {K : Type} `{Countable K} {V : Type}.

(** [insertionOrder] is the [std::stack]: its top is the head of the list. *)
Record t := mk {
  maxCapacity : nat;
  insertionOrder : list K;
  entries : gmap K (CacheEntry K V);
  pinnedKeys : gset K;
  stats : Stats.CacheStatistics
}.

Definition create (capacity : nat) : t := mk capacity [] ∅ ∅ Stats.init.

(** [while (!stack.empty()) { if (stack.top() != key)
      newStack.push(stack.top()); stack.pop(); }] *)
Fixpoint drain_except (k : K) (stack newStack : list K) : list K :=
  match stack with
  | [] => newStack
  | top :: stack' =>
      drain_except k stack'
        (if bool_decide (top ≠ k) then top :: newStack else newStack)
  end.

(** [while (!from.empty()) { to.push(from.top()); from.pop(); }] *)
Fixpoint pour (from to : list K) : list K :=
  match from with
  | [] => to
  | top :: from' => pour from' (top :: to)
  end.

(** The stack rebuilt without [key] ([put] on a resident key, [remove]). *)
Definition without (k : K) (stack : list K) : list K :=
  pour (drain_except k stack []) [].

(** The first loop of [evict]: pops until a resident unpinned key comes
    up, keeping the popped keys in [tempStack]. *)
Fixpoint find_victim (stack tempStack : list K)
    (ents : gmap K (CacheEntry K V)) (pinned : gset K)
    : list K * list K * option K :=
  match stack with
  | [] => ([], tempStack, None)
  | topKey :: stack' =>
      if bool_decide (is_Some (ents !! topKey))
         && bool_decide (topKey ∉ pinned)
      then (stack', tempStack, Some topKey)
      else find_victim stack' (topKey :: tempStack) ents pinned
  end.

Definition evict (c : t) : t :=
  match find_victim (insertionOrder c) [] (entries c) (pinnedKeys c) with
  | (stack', tempStack, Some keyToRemove) =>
      mk (maxCapacity c) (pour tempStack stack')
         (delete keyToRemove (entries c)) (pinnedKeys c)
         (Stats.evicted (stats c))
  | (stack', tempStack, None) =>
      mk (maxCapacity c) (pour tempStack stack') (entries c)
         (pinnedKeys c) (stats c)
  end.

Definition insert_new (k : K) (v : V) (c : t) : t :=
  mk (maxCapacity c) (k :: insertionOrder c)
     (<[k := new_entry k v]> (entries c)) (pinnedKeys c) (stats c).

Definition put (k : K) (v : V) (c : t) : t :=
  match entries c !! k with
  | Some e =>
      mk (maxCapacity c) (k :: without k (insertionOrder c))
         (<[k := set_value v e]> (entries c)) (pinnedKeys c) (stats c)
  | None =>
      let c' := if (maxCapacity c <=? stdpp.base.size (entries c))%nat
                then evict c else c in
      insert_new k v c'
  end.

Definition get (k : K) (c : t) : option V * t :=
  match entries c !! k with
  | None =>
      (None, mk (maxCapacity c) (insertionOrder c) (entries c)
                (pinnedKeys c) (Stats.miss (stats c)))
  | Some e =>
      (Some (value e),
       mk (maxCapacity c) (insertionOrder c)
          (<[k := touch e]> (entries c)) (pinnedKeys c)
          (Stats.hit (stats c)))
  end.

Definition contains (k : K) (c : t) : bool :=
  bool_decide (is_Some (entries c !! k)).

Definition remove (k : K) (c : t) : t :=
  match entries c !! k with
  | Some _ => mk (maxCapacity c) (without k (insertionOrder c))
                 (delete k (entries c)) (pinnedKeys c ∖ {[k]}) (stats c)
  | None => c
  end.

Definition clear (c : t) : t := mk (maxCapacity c) [] ∅ ∅ (stats c).

Definition size (c : t) : nat := stdpp.base.size (entries c).
Definition capacity (c : t) : nat := maxCapacity c.

Definition getStatistics (c : t) : Stats.CacheStatistics :=
  Stats.report (stats c) (stdpp.base.size (pinnedKeys c)).

Definition resetStatistics (c : t) : t :=
  mk (maxCapacity c) (insertionOrder c) (entries c) (pinnedKeys c) Stats.init.

Definition pin (k : K) (c : t) : t :=
  if bool_decide (is_Some (entries c !! k))
  then mk (maxCapacity c) (insertionOrder c) (entries c)
          ({[k]} ∪ pinnedKeys c) (stats c)
  else c.

Definition unpin (k : K) (c : t) : t :=
  mk (maxCapacity c) (insertionOrder c) (entries c)
     (pinnedKeys c ∖ {[k]}) (stats c).

Definition isPinned (k : K) (c : t) : bool :=
  bool_decide (k ∈ pinnedKeys c).

Definition count_prefetch (c : t) : t :=
  mk (maxCapacity c) (insertionOrder c) (entries c) (pinnedKeys c)
     (Stats.prefetched (stats c)).

Definition prefetch (k : K) (v : V) (c : t) : t :=
  match entries c !! k with
  | None =>
      let c' := if (maxCapacity c <=? stdpp.base.size (entries c))%nat
                then evict c else c in
      count_prefetch (insert_new k v c')
  | Some e =>
      count_prefetch
        (mk (maxCapacity c) (insertionOrder c)
            (<[k := set_value v e]> (entries c)) (pinnedKeys c) (stats c))
  end.

End WithTypes.
Arguments t : clear implicits.
Arguments t K {_ _} V.
End LIFOCache.


(* ===================================================================== *)
(** * LFUCache                                                            *)
(* ===================================================================== *)

Module LFUCache.
Section WithTypes.
Context {K : Type} `{Countable K} {V : Type}.

(** [frequencies] is a [std::unordered_map<size_t, std::list<Key>>] that
    [evict] iterates ([++freqIt]), so the table is kept as the list of
    its nodes in iteration order.  The C++ standard leaves open where
    the node of a new key is linked into that order: [place f fs] is the
    position the node of the new frequency [f] takes when the table
    holds the frequencies [fs] (in iteration order).  With libstdc++,
    whose [std::hash<size_t>] is the identity, a node that lands in an
    empty bucket is linked at the very front: [place f fs = 0]. *)
Variable place : Z -> list Z -> nat.

Record t := mk {
  maxCapacity : nat;
  minFrequency : Z;
  frequencies : list (Z * list K);
  keyToEntry : gmap K (CacheEntry K V);
  keyToFreq : gmap K Z;
  pinnedKeys : gset K;
  stats : Stats.CacheStatistics
}.

Definition create (capacity : nat) : t :=
  mk capacity 1 [] ∅ ∅ ∅ Stats.init.

(** [frequencies.find(f)]: the position of the node in iteration order. *)
Fixpoint find_bucket (f : Z) (fs : list (Z * list K)) : option nat :=
  match fs with
  | [] => None
  | (f', _) :: fs' => if f' =? f then Some O else S <$> find_bucket f fs'
  end.

(** The table after [frequencies[f]] was evaluated: [operator[]] links a
    node with an empty list when [f] has none. *)
Definition with_bucket (f : Z) (fs : list (Z * list K))
  : list (Z * list K) :=
  match find_bucket f fs with
  | Some _ => fs
  | None => let i := place f (fs.*1) in take i fs ++ (f, []) :: drop i fs
  end.

(** The list [frequencies[f]] refers to. *)
Definition bucket (f : Z) (fs : list (Z * list K)) : list K :=
  match find_bucket f fs with
  | Some i => default [] (snd <$> fs !! i)
  | None => []
  end.

(** [frequencies[f]] modified in place by [g]. *)
Definition update_bucket (f : Z) (g : list K -> list K)
    (fs : list (Z * list K)) : list (Z * list K) :=
  let fs' := with_bucket f fs in
  match find_bucket f fs' with
  | Some i => alter (fun b => (b.1, g b.2)) i fs'
  | None => fs'
  end.

(** [std::list::remove(key)]. *)
Definition list_remove (k : K) (l : list K) : list K :=
  filter (fun x => x ≠ k) l.

Definition is_empty (l : list K) : bool :=
  match l with [] => true | _ => false end.

(** [updateFrequency(key)]. *)
Definition updateFrequency (k : K) (c : t) : t :=
  let oldFreq := default 0 (keyToFreq c !! k) in
  let newFreq := wrap64 (oldFreq + 1) in
  let fs1 := update_bucket oldFreq (list_remove k) (frequencies c) in
  let minFrequency' :=
    if is_empty (bucket oldFreq fs1) && (oldFreq =? minFrequency c)
    then wrap64 (minFrequency c + 1) else minFrequency c in
  let fs2 := update_bucket newFreq (fun l => l ++ [k]) fs1 in
  mk (maxCapacity c) minFrequency' fs2 (keyToEntry c)
     (<[k := newFreq]> (keyToFreq c)) (pinnedKeys c) (stats c).

(** The inner loop of [evict]: the first key of [keyList] that is not
    pinned, and the list after [keyList.erase(keyIt)]. *)
Fixpoint pick (keyList : list K) (pinned : gset K) : option (K * list K) :=
  match keyList with
  | [] => None
  | k :: rest =>
      if bool_decide (k ∉ pinned) then Some (k, rest)
      else (fun r : K * list K => (r.1, k :: r.2)) <$> pick rest pinned
  end.

(** The outer loop of [evict] over the nodes from [freqIt] on: the key
    removed, the frequency and remaining list of its node, and the nodes
    after the erasure. *)
Fixpoint scan (fs : list (Z * list K)) (pinned : gset K)
    : option (K * Z * list K * list (Z * list K)) :=
  match fs with
  | [] => None
  | (f, keyList) :: fs' =>
      match pick keyList pinned with
      | Some (k, keyList') => Some (k, f, keyList', (f, keyList') :: fs')
      | None =>
          (fun r : K * Z * list K * list (Z * list K) =>
             (r.1.1.1, r.1.1.2, r.1.2, (f, keyList) :: r.2))
            <$> scan fs' pinned
      end
  end.

Definition evict (c : t) : t :=
  match find_bucket (minFrequency c) (frequencies c) with
  | None => c                        (* freqIt == frequencies.end() *)
  | Some i =>
      match scan (drop i (frequencies c)) (pinnedKeys c) with
      | None => c
      | Some (keyToRemove, f, keyList', nodes') =>
          mk (maxCapacity c)
             (if is_empty keyList' && (f =? minFrequency c)
              then wrap64 (minFrequency c + 1) else minFrequency c)
             (take i (frequencies c) ++ nodes')
             (delete keyToRemove (keyToEntry c))
             (delete keyToRemove (keyToFreq c))
             (pinnedKeys c) (Stats.evicted (stats c))
      end
  end.

(** [keyToEntry[key] = EntryType(key, value); keyToFreq[key] = 1;
    frequencies[1].push_back(key); minFrequency = 1;] *)
Definition insert_new (k : K) (v : V) (c : t) : t :=
  mk (maxCapacity c) 1
     (update_bucket 1 (fun l => l ++ [k]) (frequencies c))
     (<[k := new_entry k v]> (keyToEntry c))
     (<[k := 1]> (keyToFreq c)) (pinnedKeys c) (stats c).

Definition set_entry (k : K) (e : CacheEntry K V) (c : t) : t :=
  mk (maxCapacity c) (minFrequency c) (frequencies c)
     (<[k := e]> (keyToEntry c)) (keyToFreq c) (pinnedKeys c) (stats c).

Definition set_stats (s : Stats.CacheStatistics) (c : t) : t :=
  mk (maxCapacity c) (minFrequency c) (frequencies c)
     (keyToEntry c) (keyToFreq c) (pinnedKeys c) s.

Definition put (k : K) (v : V) (c : t) : t :=
  if (maxCapacity c =? 0)%nat then c
  else
    match keyToEntry c !! k with
    | Some e => updateFrequency k (set_entry k (set_value v e) c)
    | None =>
        let c' := if (maxCapacity c <=? stdpp.base.size (keyToEntry c))%nat
                  then evict c else c in
        insert_new k v c'
    end.

Definition get (k : K) (c : t) : option V * t :=
  match keyToEntry c !! k with
  | None => (None, set_stats (Stats.miss (stats c)) c)
  | Some e =>
      let c' := updateFrequency k (set_entry k (touch e) c) in
      (Some (value e), set_stats (Stats.hit (stats c')) c')
  end.

Definition contains (k : K) (c : t) : bool :=
  bool_decide (is_Some (keyToEntry c !! k)).

Definition remove (k : K) (c : t) : t :=
  match keyToEntry c !! k with
  | Some _ =>
      let freq := default 0 (keyToFreq c !! k) in
      let fs1 := update_bucket freq (list_remove k) (frequencies c) in
      mk (maxCapacity c)
         (if is_empty (bucket freq fs1) && (freq =? minFrequency c)
          then wrap64 (minFrequency c + 1) else minFrequency c)
         fs1 (delete k (keyToEntry c)) (delete k (keyToFreq c))
         (pinnedKeys c ∖ {[k]}) (stats c)
  | None => c
  end.

Definition clear (c : t) : t := mk (maxCapacity c) 1 [] ∅ ∅ ∅ (stats c).

Definition size (c : t) : nat := stdpp.base.size (keyToEntry c).
Definition capacity (c : t) : nat := maxCapacity c.

Definition getStatistics (c : t) : Stats.CacheStatistics :=
  Stats.report (stats c) (stdpp.base.size (pinnedKeys c)).

Definition resetStatistics (c : t) : t := set_stats Stats.init c.

Definition pin (k : K) (c : t) : t :=
  if bool_decide (is_Some (keyToEntry c !! k))
  then mk (maxCapacity c) (minFrequency c) (frequencies c) (keyToEntry c)
          (keyToFreq c) ({[k]} ∪ pinnedKeys c) (stats c)
  else c.

Definition unpin (k : K) (c : t) : t :=
  mk (maxCapacity c) (minFrequency c) (frequencies c) (keyToEntry c)
     (keyToFreq c) (pinnedKeys c ∖ {[k]}) (stats c).

Definition isPinned (k : K) (c : t) : bool :=
  bool_decide (k ∈ pinnedKeys c).

Definition prefetch (k : K) (v : V) (c : t) : t :=
  match keyToEntry c !! k with
  | None =>
      let c' := if (maxCapacity c <=? stdpp.base.size (keyToEntry c))%nat
                then evict c else c in
      let c'' := insert_new k v c' in
      set_stats (Stats.prefetched (stats c'')) c''
  | Some e =>
      let c' := set_entry k (set_value v e) c in
      set_stats (Stats.prefetched (stats c')) c'
  end.

End WithTypes.
Arguments t : clear implicits.
Arguments t K {_ _} V.
End LFUCache.


(* ===================================================================== *)
(** * CacheInterface and CacheManager                                     *)
(* ===================================================================== *)

(** The abstract class [CacheInterface<Key, Value>].  [put] and [prefetch]
    return [None] when the call does not return (only the LRU cache can do
    that, through [evict]); [get] returns [None] for the exception
    "Key not found in cache". *)
Class CacheInterface (K V C : Type) := {
  cache_put : K -> V -> C -> option C;
  cache_get : K -> C -> option V * C;
  cache_contains : K -> C -> bool;
  cache_remove : K -> C -> C;
  cache_clear : C -> C;
  cache_size : C -> nat;
  cache_capacity : C -> nat;
  cache_getStatistics : C -> Stats.CacheStatistics;
  cache_resetStatistics : C -> C;
  cache_pin : K -> C -> C;
  cache_unpin : K -> C -> C;
  cache_isPinned : K -> C -> bool;
  cache_prefetch : K -> V -> C -> option C
}.

Section Instances.
Context {K : Type} `{Countable K} {V : Type}.

#[export] Instance LRU_interface : CacheInterface K V (EnhancedLRUCache.t K V) := {
  cache_put := EnhancedLRUCache.put;
  cache_get := EnhancedLRUCache.get;
  cache_contains := EnhancedLRUCache.contains;
  cache_remove := EnhancedLRUCache.remove;
  cache_clear := EnhancedLRUCache.clear;
  cache_size := EnhancedLRUCache.size;
  cache_capacity := EnhancedLRUCache.capacity;
  cache_getStatistics := EnhancedLRUCache.getStatistics;
  cache_resetStatistics := EnhancedLRUCache.resetStatistics;
  cache_pin := EnhancedLRUCache.pin;
  cache_unpin := EnhancedLRUCache.unpin;
  cache_isPinned := EnhancedLRUCache.isPinned;
  cache_prefetch := EnhancedLRUCache.prefetch
}.

Definition LFU_interface (place : Z -> list Z -> nat)
  : CacheInterface K V (LFUCache.t K V) := {|
  cache_put := fun k v c => Some (LFUCache.put place k v c);
  cache_get := LFUCache.get place;
  cache_contains := LFUCache.contains;
  cache_remove := LFUCache.remove place;
  cache_clear := LFUCache.clear;
  cache_size := LFUCache.size;
  cache_capacity := LFUCache.capacity;
  cache_getStatistics := LFUCache.getStatistics;
  cache_resetStatistics := LFUCache.resetStatistics;
  cache_pin := LFUCache.pin;
  cache_unpin := LFUCache.unpin;
  cache_isPinned := LFUCache.isPinned;
  cache_prefetch := fun k v c => Some (LFUCache.prefetch place k v c)
|}.

#[export] Instance FIFO_interface : CacheInterface K V (FIFOCache.t K V) := {
  cache_put := fun k v c => Some (FIFOCache.put k v c);
  cache_get := FIFOCache.get;
  cache_contains := FIFOCache.contains;
  cache_remove := FIFOCache.remove;
  cache_clear := FIFOCache.clear;
  cache_size := FIFOCache.size;
  cache_capacity := FIFOCache.capacity;
  cache_getStatistics := FIFOCache.getStatistics;
  cache_resetStatistics := FIFOCache.resetStatistics;
  cache_pin := FIFOCache.pin;
  cache_unpin := FIFOCache.unpin;
  cache_isPinned := FIFOCache.isPinned;
  cache_prefetch := fun k v c => Some (FIFOCache.prefetch k v c)
}.

#[export] Instance LIFO_interface : CacheInterface K V (LIFOCache.t K V) := {
  cache_put := fun k v c => Some (LIFOCache.put k v c);
  cache_get := LIFOCache.get;
  cache_contains := LIFOCache.contains;
  cache_remove := LIFOCache.remove;
  cache_clear := LIFOCache.clear;
  cache_size := LIFOCache.size;
  cache_capacity := LIFOCache.capacity;
  cache_getStatistics := LIFOCache.getStatistics;
  cache_resetStatistics := LIFOCache.resetStatistics;
  cache_pin := LIFOCache.pin;
  cache_unpin := LIFOCache.unpin;
  cache_isPinned := LIFOCache.isPinned;
  cache_prefetch := fun k v c => Some (LIFOCache.prefetch k v c)
}.
End Instances.

(** The calls a client can make on a cache that change its state. *)
Inductive op (K V : Type) :=
  | Put (k : K) (v : V)
  | Get (k : K)
  | Remove (k : K)
  | Clear
  | Pin (k : K)
  | Unpin (k : K)
  | Prefetch (k : K) (v : V)
  | ResetStatistics.
Arguments Put {K V}.
Arguments Get {K V}.
Arguments Remove {K V}.
Arguments Clear {K V}.
Arguments Pin {K V}.
Arguments Unpin {K V}.
Arguments Prefetch {K V}.
Arguments ResetStatistics {K V}.

Section Run.
Context {K V C : Type} {I : CacheInterface K V C}.

Definition step (o : op K V) (c : C) : option C :=
  match o with
  | Put k v => cache_put k v c
  | Get k => Some (cache_get k c).2
  | Remove k => Some (cache_remove k c)
  | Clear => Some (cache_clear c)
  | Pin k => Some (cache_pin k c)
  | Unpin k => Some (cache_unpin k c)
  | Prefetch k v => cache_prefetch k v c
  | ResetStatistics => Some (cache_resetStatistics c)
  end.

(** A sequence of calls, first call first; [None] when one of them does
    not return. *)
Fixpoint run (ops : list (op K V)) (c : C) : option C :=
  match ops with
  | [] => Some c
  | o :: ops' => c' ← step o c; run ops' c'
  end.
End Run.

(** ** The LRU cache with its two containers *)

(** [EnhancedLRUCache] keeps the entries in a [std::list] and finds them
    through [lookup], an [unordered_map] from keys to list iterators.  The
    module [EnhancedLRUCache] above folds the two into one list searched by
    key; here they are kept apart, so that their agreement is a property of
    the calls and not of the model. *)
Module LRUContainers.
Section WithTypes.
Context {K : Type} `{Countable K} {V : Type}.

(** An [EntryList::iterator] is the address of a list node, a number;
    [entries], a [std::list<EntryType>], is the list of the nodes, front
    first, each with its address. *)

Record t := mk {
  maxCapacity : nat;
  entries : list (nat * CacheEntry K V);
  lookup : gmap K nat;
  pinnedKeys : gset K;
  stats : Stats.CacheStatistics
}.

Definition create (capacity : nat) : t :=
  mk capacity [] ∅ ∅ Stats.init.

(** The position of the node an iterator points to; [None] for an
    iterator whose node is not in the list. *)
Fixpoint node (it : nat) (l : list (nat * CacheEntry K V)) : option nat :=
  match l with
  | [] => None
  | x :: l' => if bool_decide (x.1 = it) then Some O
               else S <$> node it l'
  end.

(** The address of the node that [emplace_front] allocates: one that no
    node of the list has. *)
Definition allocate (l : list (nat * CacheEntry K V)) : nat := S (max_list l.*1).

(** [it->second->field = ...]: the node is updated in place.  (Through an
    iterator whose node is gone the source has no defined behaviour; the
    list is left as it is.) *)
Definition update (f : CacheEntry K V -> CacheEntry K V) (it : nat)
    (l : list (nat * CacheEntry K V)) : list (nat * CacheEntry K V) :=
  match node it l with
  | Some i => alter (fun x => (x.1, f x.2)) i l
  | None => l
  end.

(** [entries.erase(it)]. *)
Definition erase (it : nat) (l : list (nat * CacheEntry K V)) : list (nat * CacheEntry K V) :=
  match node it l with
  | Some i => delete i l
  | None => l
  end.

(** [moveToFront(it)]:
    [if (it != entries.begin()) entries.splice(entries.begin(), entries, it);]
    the node keeps its address. *)
Definition moveToFront (it : nat) (l : list (nat * CacheEntry K V)) : list (nat * CacheEntry K V) :=
  match node it l with
  | Some i => match l !! i with
              | Some x => x :: delete i l
              | None => l
              end
  | None => l
  end.

(** One iteration of the loop of [evict]; [inl] is a [break] (or the loop
    condition failing), [inr] goes round again. *)
Definition evict_step (c : t) : t + t :=
  match last (entries c) with
  | None => inl c                                  (* entries.empty() *)
  | Some (lastIt, e) =>
      if bool_decide (key e ∉ pinnedKeys c) then
        inl (mk (maxCapacity c) (erase lastIt (entries c))
                (delete (key e) (lookup c)) (pinnedKeys c)
                (Stats.evicted (stats c)))
      else
        let c' := mk (maxCapacity c) (moveToFront lastIt (entries c))
                     (lookup c) (pinnedKeys c) (stats c) in
        if (length (entries c') <=? 1)%nat then inl c' else inr c'
  end.

Fixpoint evict_loop (fuel : nat) (c : t) : option t :=
  match fuel with
  | O => None
  | S fuel' =>
      match evict_step c with
      | inl c' => Some c'
      | inr c' => evict_loop fuel' c'
      end
  end.

Definition evict (c : t) : option t :=
  evict_loop (S (length (entries c))) c.

(** [entries.emplace_front(key, value); lookup[key] = entries.begin();] *)
Definition emplace_front (k : K) (v : V) (c : t) : t :=
  let it := allocate (entries c) in
  mk (maxCapacity c) ((it, new_entry k v) :: entries c)
     (<[k := it]> (lookup c)) (pinnedKeys c) (stats c).

Definition put (k : K) (v : V) (c : t) : option t :=
  match lookup c !! k with
  | Some it =>
      Some (mk (maxCapacity c)
               (moveToFront it (update (set_value v) it (entries c)))
               (lookup c) (pinnedKeys c) (stats c))
  | None =>
      c' ← (if (maxCapacity c <=? length (entries c))%nat
            then evict c else Some c);
      Some (emplace_front k v c')
  end.

(** [get]: [None] is the exception "Key not found in cache". *)
Definition get (k : K) (c : t) : option V * t :=
  match lookup c !! k with
  | None =>
      (None, mk (maxCapacity c) (entries c) (lookup c) (pinnedKeys c)
                (Stats.miss (stats c)))
  | Some it =>
      (i ← node it (entries c); x ← entries c !! i; Some (value x.2),
       mk (maxCapacity c) (moveToFront it (update touch it (entries c)))
          (lookup c) (pinnedKeys c) (Stats.hit (stats c)))
  end.

Definition contains (k : K) (c : t) : bool :=
  bool_decide (is_Some (lookup c !! k)).

Definition remove (k : K) (c : t) : t :=
  match lookup c !! k with
  | Some it => mk (maxCapacity c) (erase it (entries c))
                  (delete k (lookup c)) (pinnedKeys c ∖ {[k]}) (stats c)
  | None => c
  end.

Definition clear (c : t) : t := mk (maxCapacity c) [] ∅ ∅ (stats c).

Definition size (c : t) : nat := length (entries c).
Definition capacity (c : t) : nat := maxCapacity c.

Definition getStatistics (c : t) : Stats.CacheStatistics :=
  Stats.report (stats c) (stdpp.base.size (pinnedKeys c)).

Definition resetStatistics (c : t) : t :=
  mk (maxCapacity c) (entries c) (lookup c) (pinnedKeys c) Stats.init.

Definition pin (k : K) (c : t) : t :=
  if bool_decide (is_Some (lookup c !! k))
  then mk (maxCapacity c) (entries c) (lookup c) ({[k]} ∪ pinnedKeys c)
          (stats c)
  else c.

Definition unpin (k : K) (c : t) : t :=
  mk (maxCapacity c) (entries c) (lookup c) (pinnedKeys c ∖ {[k]}) (stats c).

Definition isPinned (k : K) (c : t) : bool :=
  bool_decide (k ∈ pinnedKeys c).

Definition count_prefetch (c : t) : t :=
  mk (maxCapacity c) (entries c) (lookup c) (pinnedKeys c)
     (Stats.prefetched (stats c)).

Definition prefetch (k : K) (v : V) (c : t) : option t :=
  match lookup c !! k with
  | None =>
      if (length (entries c) <? maxCapacity c)%nat
      then Some (count_prefetch (emplace_front k v c))
      else c' ← evict c; Some (count_prefetch (emplace_front k v c'))
  | Some it =>
      Some (count_prefetch
              (mk (maxCapacity c)
                  (moveToFront it (update (set_value v) it (entries c)))
                  (lookup c) (pinnedKeys c) (stats c)))
  end.

Definition getKeys (c : t) : list K := (fun x => key x.2) <$> entries c.

(** The cache with [lookup] forgotten and the entries without their
    addresses: a state of [EnhancedLRUCache]. *)
Definition one_list (c : t) : EnhancedLRUCache.t K V :=
  EnhancedLRUCache.mk (maxCapacity c) (entries c).*2 (pinnedKeys c) (stats c).

#[export] Instance LRU_containers_interface : CacheInterface K V t := {
  cache_put := put;
  cache_get := get;
  cache_contains := contains;
  cache_remove := remove;
  cache_clear := clear;
  cache_size := size;
  cache_capacity := capacity;
  cache_getStatistics := getStatistics;
  cache_resetStatistics := resetStatistics;
  cache_pin := pin;
  cache_unpin := unpin;
  cache_isPinned := isPinned;
  cache_prefetch := prefetch
}.

End WithTypes.
Arguments t : clear implicits.
Arguments t K {_ _} V.
End LRUContainers.

Inductive CachePolicy := LRU | LFU | FIFO | LIFO.

#[export] Instance CachePolicy_eq_dec : EqDecision CachePolicy.
Proof. solve_decision. Defined.

Module CacheManager.
Section WithTypes.
Context {K : Type} `{Countable K} {V : Type}.
Variable place : Z -> list Z -> nat.

(** [std::unique_ptr<CacheInterface<Key, Value>>]: one of the four
    concrete caches. *)
Inductive AnyCache :=
  | OfLRU (c : EnhancedLRUCache.t K V)
  | OfLFU (c : LFUCache.t K V)
  | OfFIFO (c : FIFOCache.t K V)
  | OfLIFO (c : LIFOCache.t K V).

Record t := mk {
  cacheCapacity : nat;
  currentPolicy : CachePolicy;
  cache : AnyCache
}.

Definition recreateCache (capacity : nat) (policy : CachePolicy) : t :=
  mk capacity policy
     match policy with
     | LRU => OfLRU (EnhancedLRUCache.create capacity)
     | LFU => OfLFU (LFUCache.create capacity)
     | FIFO => OfFIFO (FIFOCache.create capacity)
     | LIFO => OfLIFO (LIFOCache.create capacity)
     end.

(** [CacheManager(capacity, policy = CachePolicy::LRU)]. *)
Definition create (capacity : nat) (policy : CachePolicy) : t :=
  recreateCache capacity policy.

Definition with_cache (m : t) (c : AnyCache) : t :=
  mk (cacheCapacity m) (currentPolicy m) c.

Definition put (k : K) (v : V) (m : t) : option t :=
  match cache m with
  | OfLRU c => c' ← EnhancedLRUCache.put k v c; Some (with_cache m (OfLRU c'))
  | OfLFU c => Some (with_cache m (OfLFU (LFUCache.put place k v c)))
  | OfFIFO c => Some (with_cache m (OfFIFO (FIFOCache.put k v c)))
  | OfLIFO c => Some (with_cache m (OfLIFO (LIFOCache.put k v c)))
  end.

Definition get (k : K) (m : t) : option V * t :=
  match cache m with
  | OfLRU c => let r := EnhancedLRUCache.get k c in (r.1, with_cache m (OfLRU r.2))
  | OfLFU c => let r := LFUCache.get place k c in (r.1, with_cache m (OfLFU r.2))
  | OfFIFO c => let r := FIFOCache.get k c in (r.1, with_cache m (OfFIFO r.2))
  | OfLIFO c => let r := LIFOCache.get k c in (r.1, with_cache m (OfLIFO r.2))
  end.

Definition contains (k : K) (m : t) : bool :=
  match cache m with
  | OfLRU c => EnhancedLRUCache.contains k c
  | OfLFU c => LFUCache.contains k c
  | OfFIFO c => FIFOCache.contains k c
  | OfLIFO c => LIFOCache.contains k c
  end.

Definition clear (m : t) : t :=
  with_cache m
    match cache m with
    | OfLRU c => OfLRU (EnhancedLRUCache.clear c)
    | OfLFU c => OfLFU (LFUCache.clear c)
    | OfFIFO c => OfFIFO (FIFOCache.clear c)
    | OfLIFO c => OfLIFO (LIFOCache.clear c)
    end.

Definition size (m : t) : nat :=
  match cache m with
  | OfLRU c => EnhancedLRUCache.size c
  | OfLFU c => LFUCache.size c
  | OfFIFO c => FIFOCache.size c
  | OfLIFO c => LIFOCache.size c
  end.

Definition getStatistics (m : t) : Stats.CacheStatistics :=
  match cache m with
  | OfLRU c => EnhancedLRUCache.getStatistics c
  | OfLFU c => LFUCache.getStatistics c
  | OfFIFO c => FIFOCache.getStatistics c
  | OfLIFO c => LIFOCache.getStatistics c
  end.

Definition setPolicy (policy : CachePolicy) (m : t) : t :=
  if bool_decide (currentPolicy m = policy) then m
  else recreateCache (cacheCapacity m) policy.

Definition resize (newCapacity : nat) (m : t) : t :=
  if bool_decide (cacheCapacity m = newCapacity) then m
  else recreateCache newCapacity (currentPolicy m).

Definition getPolicy (m : t) : CachePolicy := currentPolicy m.

Definition remove (k : K) (m : t) : t :=
  with_cache m
    match cache m with
    | OfLRU c => OfLRU (EnhancedLRUCache.remove k c)
    | OfLFU c => OfLFU (LFUCache.remove place k c)
    | OfFIFO c => OfFIFO (FIFOCache.remove k c)
    | OfLIFO c => OfLIFO (LIFOCache.remove k c)
    end.

Definition pin (k : K) (m : t) : t :=
  with_cache m
    match cache m with
    | OfLRU c => OfLRU (EnhancedLRUCache.pin k c)
    | OfLFU c => OfLFU (LFUCache.pin k c)
    | OfFIFO c => OfFIFO (FIFOCache.pin k c)
    | OfLIFO c => OfLIFO (LIFOCache.pin k c)
    end.

Definition unpin (k : K) (m : t) : t :=
  with_cache m
    match cache m with
    | OfLRU c => OfLRU (EnhancedLRUCache.unpin k c)
    | OfLFU c => OfLFU (LFUCache.unpin k c)
    | OfFIFO c => OfFIFO (FIFOCache.unpin k c)
    | OfLIFO c => OfLIFO (LIFOCache.unpin k c)
    end.

Definition isPinned (k : K) (m : t) : bool :=
  match cache m with
  | OfLRU c => EnhancedLRUCache.isPinned k c
  | OfLFU c => LFUCache.isPinned k c
  | OfFIFO c => FIFOCache.isPinned k c
  | OfLIFO c => LIFOCache.isPinned k c
  end.

Definition prefetch (k : K) (v : V) (m : t) : option t :=
  match cache m with
  | OfLRU c =>
      c' ← EnhancedLRUCache.prefetch k v c; Some (with_cache m (OfLRU c'))
  | OfLFU c => Some (with_cache m (OfLFU (LFUCache.prefetch place k v c)))
  | OfFIFO c => Some (with_cache m (OfFIFO (FIFOCache.prefetch k v c)))
  | OfLIFO c => Some (with_cache m (OfLIFO (LIFOCache.prefetch k v c)))
  end.

Definition resetStatistics (m : t) : t :=
  with_cache m
    match cache m with
    | OfLRU c => OfLRU (EnhancedLRUCache.resetStatistics c)
    | OfLFU c => OfLFU (LFUCache.resetStatistics c)
    | OfFIFO c => OfFIFO (FIFOCache.resetStatistics c)
    | OfLIFO c => OfLIFO (LIFOCache.resetStatistics c)
    end.

(** [warmup]: [for (const auto& pair : data)
      cache->prefetch(pair.first, pair.second);] *)
Fixpoint warmup (data : list (K * V)) (m : t) : option t :=
  match data with
  | [] => Some m
  | kv :: data' => m' ← prefetch kv.1 kv.2 m; warmup data' m'
  end.

End WithTypes.
Arguments t : clear implicits.
Arguments t K {_ _} V.
Arguments AnyCache : clear implicits.
Arguments AnyCache K {_ _} V.
End CacheManager.


(* ===================================================================== *)
(** * Journal: src/journal/src/journal.cpp                                *)
(* ===================================================================== *)

Module Journal.

Inductive JournalEntryType :=
  | CREATE_FILE | DELETE_FILE | WRITE_DATA
  | CREATE_DIR | DELETE_DIR | UPDATE_METADATA.

(** The [timestamp] of an entry is wall-clock time and is left out. *)
Record JournalEntry := mkEntry {
  sequenceNumber : Z;            (* uint64_t *)
  type : JournalEntryType;
  blocks : list Z;
  metadata : list byte
}.

Record t := mk {
  entries : list JournalEntry;
  currentSequence : Z;           (* uint64_t *)
  inTransaction : bool
}.

Definition initialize (j : t) : t := mk [] 0 false.

(** [entry.sequenceNumber = ++currentSequence;] *)
Definition logOperation (operation : list byte) (j : t) : t :=
  let seq := wrap64 (currentSequence j + 1) in
  mk (entries j ++ [mkEntry seq UPDATE_METADATA [] operation]) seq
     (inTransaction j).

Definition logEntry (entry : JournalEntry) (j : t) : t :=
  let seq := wrap64 (currentSequence j + 1) in
  mk (entries j ++ [mkEntry seq (type entry) (blocks entry) (metadata entry)])
     seq (inTransaction j).

Definition getEntries (fromSequence toSequence : Z) (j : t)
  : list JournalEntry :=
  filter (fun e => fromSequence <= sequenceNumber e /\
                   sequenceNumber e <= toSequence) (entries j).

Definition beginTransaction (j : t) : t :=
  mk (entries j) (currentSequence j) true.

Definition commitTransaction (j : t) : t :=
  if inTransaction j then mk (entries j) (currentSequence j) false else j.

Definition rollbackTransaction (j : t) : t :=
  if inTransaction j then mk (entries j) (currentSequence j) false else j.

Definition needsRecovery (j : t) : bool :=
  negb (match entries j with [] => true | _ => false end) && inTransaction j.

Definition recover (j : t) : t := mk (entries j) (currentSequence j) false.

(** [void Journal::checkpoint() { LOG_INFO("Journal checkpoint completed"); }] *)
Definition checkpoint (j : t) : t := j.

Definition clear (j : t) : t := mk [] 0 false.

Definition size (j : t) : nat := length (entries j).

Definition getLastSequenceNumber (j : t) : Z := currentSequence j.

(** The public member functions that are not [const]. *)
Inductive call :=
  | Initialize
  | LogOperation (operation : list byte)
  | LogEntry (entry : JournalEntry)
  | BeginTransaction | CommitTransaction | RollbackTransaction
  | Recover | Checkpoint | ClearJournal.

Definition apply (c : call) (j : t) : t :=
  match c with
  | Initialize => initialize j
  | LogOperation o => logOperation o j
  | LogEntry e => logEntry e j
  | BeginTransaction => beginTransaction j
  | CommitTransaction => commitTransaction j
  | RollbackTransaction => rollbackTransaction j
  | Recover => recover j
  | Checkpoint => checkpoint j
  | ClearJournal => clear j
  end.

(** A journal as [Journal::create] returns it, after the given calls. *)
Definition after (calls : list call) : t :=
  fold_left (fun j c => apply c j) calls (initialize (mk [] 0 false)).

End Journal.


(* ===================================================================== *)
(** * FileSystem::matchesPattern: src/fs/src/filesystem.cpp               *)
(* ===================================================================== *)

Module Glob.

(** The local variables of the glob loop.  [starIdx] is [None] for
    [std::string::npos]. *)
Record vars := mk {
  patternPos : nat;
  filenamePos : nat;
  starIdx : option nat;
  matchPos : nat               (* the variable [match] *)
}.

(** One iteration of [while (filenamePos < filename.length())]; [None] is
    [return false]. *)
Definition glob_step (filename pattern : list ascii) (s : vars)
  : option vars :=
  let p := pattern !! patternPos s in      (* pattern[patternPos] *)
  let c := filename !! filenamePos s in    (* filename[filenamePos] *)
  if bool_decide (patternPos s < length pattern)%nat
     && (bool_decide (p = c) || bool_decide (p = Some "?"%char))
  then Some (mk (S (patternPos s)) (S (filenamePos s)) (starIdx s) (matchPos s))
  else if bool_decide (patternPos s < length pattern)%nat
          && bool_decide (p = Some "*"%char)
  then Some (mk (S (patternPos s)) (filenamePos s) (Some (patternPos s))
                (filenamePos s))
  else match starIdx s with
       | Some star =>
           Some (mk (S star) (S (matchPos s)) (starIdx s) (S (matchPos s)))
       | None => None
       end.

(** The loop, for at most [fuel] iterations.  [None]: still running;
    [Some None]: [return false]; [Some (Some s)]: the loop was left with
    the variables [s]. *)
Fixpoint glob_loop (fuel : nat) (filename pattern : list ascii) (s : vars)
  : option (option vars) :=
  match fuel with
  | O => None
  | S fuel' =>
      if (filenamePos s <? length filename)%nat then
        match glob_step filename pattern s with
        | None => Some None
        | Some s' => glob_loop fuel' filename pattern s'
        end
      else Some (Some s)
  end.

(** [while (patternPos < pattern.length() && pattern[patternPos] == '*')
      patternPos++;] with [rest] the pattern from [patternPos] on; returns
    the final [patternPos]. *)
Fixpoint skip_stars (rest : list ascii) (patternPos : nat) : nat :=
  match rest with
  | c :: rest' =>
      if bool_decide (c = "*"%char) then skip_stars rest' (S patternPos)
      else patternPos
  | [] => patternPos
  end.

(** Iterations that are always enough (lemma [GlobFacts.glob_loop_fuel]). *)
Definition glob_fuel (filename pattern : list ascii) : nat :=
  S (length filename * S (length pattern) + length pattern).

(** [filename.find(pattern)]: the lowest position at which [pattern]
    occurs, [None] for [npos]. *)
Fixpoint find (pattern filename : list ascii) : option nat :=
  if bool_decide (take (length pattern) filename = pattern) then Some O
  else match filename with
       | [] => None
       | _ :: filename' => S <$> find pattern filename'
       end.

Definition matches (filename pattern : list ascii) : bool :=
  if bool_decide ("*"%char ∈ pattern) || bool_decide ("?"%char ∈ pattern)
  then
    match glob_loop (glob_fuel filename pattern) filename pattern
                    (mk 0 0 None 0) with
    | Some (Some s) =>
        let patternPos' :=
          skip_stars (drop (patternPos s) pattern) (patternPos s) in
        bool_decide (patternPos' = length pattern)
    | _ => false
    end
  else bool_decide (is_Some (find pattern filename)).

Definition matchesPattern (filename pattern : string) : bool :=
  matches (list_ascii_of_string filename) (list_ascii_of_string pattern).

End Glob.


(** The octal mode constants 0777 and 0644. *)
Definition mode_0777 : Z := 511.
Definition mode_0644 : Z := 420.

(* ===================================================================== *)
(** * The host filesystem                                                 *)
(* ===================================================================== *)

(** The coordinator works on the host through [stat], [_mkdir], [_chmod],
    [remove], [_findfirst]/[_findnext] and file streams.  The host is not
    part of the repository; this model keeps what the coordinator can
    observe of it: which full paths exist, whether a path is a file or a
    directory, the contents of files and the mode bits.  Paths are plain
    names: a node can be created whether or not a parent directory
    exists, and two spellings of one file are two names.  The cache and
    the metadata table of the coordinator are keyed by the path string as
    well, so what is stated of them does not rest on this. *)
Module Host.

Inductive node :=
  | File (content : string) (mode : Z)
  | Dir (mode : Z).

Definition mode_of (n : node) : Z :=
  match n with File _ m => m | Dir m => m end.

(** [_mkdir(path) == 0]: the host after the call, [None] when it fails. *)
Definition mkdir (path : string) (h : gmap string node)
  : option (gmap string node) :=
  match h !! path with
  | None => Some (<[path := Dir mode_0777]> h)
  | Some _ => None
  end.

(** [std::ofstream file(path)]: creates the file or truncates it; fails on
    a directory. *)
Definition open_truncate (path : string) (h : gmap string node)
  : option (gmap string node) :=
  match h !! path with
  | None => Some (<[path := File "" mode_0644]> h)
  | Some (File _ m) => Some (<[path := File "" m]> h)
  | Some (Dir _) => None
  end.

(** [file << data] on a stream just opened by [open_truncate]. *)
Definition write (path data : string) (h : gmap string node)
  : gmap string node :=
  match h !! path with
  | Some (File _ m) => <[path := File data m]> h
  | _ => h
  end.

(** [std::ifstream file(path)] and [buffer << file.rdbuf()]. *)
Definition read (path : string) (h : gmap string node) : option string :=
  match h !! path with
  | Some (File content _) => Some content
  | _ => None
  end.

(** [remove(path) == 0]. *)
Definition unlink (path : string) (h : gmap string node)
  : option (gmap string node) :=
  match h !! path with
  | Some (File _ _) => Some (delete path h)
  | _ => None
  end.

(** [_chmod(path, mode) == 0]. *)
Definition chmod (path : string) (mode : Z) (h : gmap string node)
  : option (gmap string node) :=
  match h !! path with
  | Some (File content _) => Some (<[path := File content mode]> h)
  | Some (Dir _) => Some (<[path := Dir mode]> h)
  | None => None
  end.

(** The names [_findfirst(dir + "/*")] and [_findnext] enumerate, "." and
    ".." aside: the paths directly below [dir]. *)
Definition child_name (dir path : string) : option string :=
  let prefix := (dir +:+ "/")%string in
  if String.prefix prefix path then
    let name := String.substring (String.length prefix)
                  (String.length path - String.length prefix) path in
    if bool_decide (name = ""%string)
       || bool_decide ("/"%char ∈ list_ascii_of_string name)
    then None else Some name
  else None.

Definition children (dir : string) (h : gmap string node) : list string :=
  omap (fun kv : string * node => child_name dir kv.1) (map_to_list h).

End Host.

(* ===================================================================== *)
(** * AuthManager: src/common/src/auth.cpp                                *)
(* ===================================================================== *)

Module AuthManager.

Record User := mkUser {
  username : string;
  passwordHash : string;
  isAdminUser : bool           (* the field [isAdmin] *)
}.

Record t := mk {
  users : gmap string User;
  currentUser : string
}.

Definition logout (a : t) : t := mk (users a) "".

Definition isLoggedIn (a : t) : bool :=
  negb (bool_decide (currentUser a = ""%string)).

Definition getCurrentUser (a : t) : string := currentUser a.

Definition isAdmin (user : string) (a : t) : bool :=
  match users a !! user with
  | Some u => isAdminUser u
  | None => false
  end.

(** [loadFromFile(filename)].  The file is outside the state: [file] is
    [None] when the stream cannot be opened, and otherwise the records
    [(username, passwordHash, isAdminInt)] that the loop
    [while (ifs >> username >> passwordHash >> isAdminInt)] extracts, in
    file order.  A later record of a name replaces an earlier one. *)
Definition loadFromFile (file : option (list (string * string * Z))) (a : t)
  : bool * t :=
  match file with
  | None => (false, a)
  | Some records =>
      (true,
       mk (fold_left
             (fun us r => <[r.1.1 := mkUser r.1.1 r.1.2 (negb (r.2 =? 0))]> us)
             records ∅)
          (currentUser a))
  end.

Section WithHash.
(** [std::hash<std::string>], which the C++ standard leaves to the
    implementation: [hasher] is the one of the build. *)
Variable hasher : string -> N.

(** [std::to_string(hasher(password))]. *)
Definition hashPassword (password : string) : string :=
  pretty (hasher password).

Definition registerUser (name password : string) (admin : bool) (a : t)
  : bool * t :=
  match users a !! name with
  | Some _ => (false, a)
  | None =>
      (true, mk (<[name := mkUser name (hashPassword password) admin]> (users a))
                (currentUser a))
  end.

Definition authenticate (name password : string) (a : t) : bool * t :=
  match users a !! name with
  | None => (false, a)
  | Some u =>
      if bool_decide (passwordHash u = hashPassword password)
      then (true, mk (users a) name)
      else (false, a)
  end.

(** [return users.erase(username) > 0;] *)
Definition removeUser (name : string) (a : t) : bool * t :=
  (bool_decide (is_Some (users a !! name)),
   mk (delete name (users a)) (currentUser a)).

Definition userExists (name : string) (a : t) : bool :=
  bool_decide (is_Some (users a !! name)).

(** [AuthManager()]: the bootstrap account. *)
Definition create : t :=
  (registerUser "admin" "admin" true (mk ∅ "")).2.

(** The public member functions that are not [const]. *)
Inductive call :=
  | RegisterUser (name password : string) (admin : bool)
  | Authenticate (name password : string)
  | RemoveUser (name : string)
  | Logout
  | LoadFromFile (file : option (list (string * string * Z))).

Definition apply (c : call) (a : t) : t :=
  match c with
  | RegisterUser name password admin => (registerUser name password admin a).2
  | Authenticate name password => (authenticate name password a).2
  | RemoveUser name => (removeUser name a).2
  | Logout => logout a
  | LoadFromFile file => (loadFromFile file a).2
  end.
End WithHash.

End AuthManager.

(* ===================================================================== *)
(** * FileSystem: src/fs/src/filesystem.cpp                               *)
(* ===================================================================== *)

Module FileSystem.

(** The time stamps of the C++ struct are left out. *)
Record FileMetadata := mkMeta {
  name : string;
  size : Z;
  isDirectory : bool;
  permissions : Z;
  owner : string;
  group : string
}.

(** A default-constructed [FileMetadata]. *)
Definition default_metadata : FileMetadata :=
  mkMeta "" 0 false mode_0644 "" "".

(** The timing averages of the C++ struct are left out. *)
Record PerformanceStats := mkPerf {
  cacheHits : Z;
  cacheMisses : Z;
  totalReads : Z;
  totalWrites : Z;
  totalFileOperations : Z
}.

Inductive Exception :=
  | FSException (message : string)
  | FileNotFoundException (path : string).

Definition CACHE_CAPACITY : nat := 1000.

Section WithPlace.
(** See [LFUCache]: where the hash table of the LFU cache links new nodes. *)
Variable place : Z -> list Z -> nat.

Record t := mk {
  rootPath : string;
  host : gmap string Host.node;
  enhancedCache : CacheManager.t string string;
  stats : PerformanceStats;
  authManager : option AuthManager.t;    (* [nullptr] is [None] *)
  fileMetadataMap : gmap string FileMetadata;
  metadataFilePath : string
}.

Definition with_host (h : gmap string Host.node) (fs : t) : t :=
  mk (rootPath fs) h (enhancedCache fs) (stats fs) (authManager fs)
     (fileMetadataMap fs) (metadataFilePath fs).

Definition with_cache (c : CacheManager.t string string) (fs : t) : t :=
  mk (rootPath fs) (host fs) c (stats fs) (authManager fs)
     (fileMetadataMap fs) (metadataFilePath fs).

Definition with_stats (s : PerformanceStats) (fs : t) : t :=
  mk (rootPath fs) (host fs) (enhancedCache fs) s (authManager fs)
     (fileMetadataMap fs) (metadataFilePath fs).

Definition with_metadata (m : gmap string FileMetadata) (fs : t) : t :=
  mk (rootPath fs) (host fs) (enhancedCache fs) (stats fs) (authManager fs)
     m (metadataFilePath fs).

(** [rootPath + "/" + path]. *)
Definition fullPath (path : string) (fs : t) : string :=
  (rootPath fs +:+ "/" +:+ path)%string.

(** One row of the sidecar:
    [path << '\t' << owner << '\t' << permissions << '\t' << size << '\t'
          << isDirectory << '\n']. *)
Definition metadata_row (path : string) (meta : FileMetadata) : string :=
  let tab := String (ascii_of_nat 9) "" in
  let newline := String (ascii_of_nat 10) "" in
  (path +:+ tab +:+ owner meta +:+ tab +:+ pretty (permissions meta)
   +:+ tab +:+ pretty (size meta) +:+ tab
   +:+ (if isDirectory meta then "1" else "0") +:+ newline)%string.

(** [saveMetadata]: rewrites the sidecar, if it can be opened.  The rows
    come in the iteration order of the metadata table. *)
Definition saveMetadata (fs : t) : t :=
  match Host.open_truncate (metadataFilePath fs) (host fs) with
  | None => fs
  | Some h =>
      let rows := (fun kv : string * FileMetadata => metadata_row kv.1 kv.2)
                    <$> map_to_list (fileMetadataMap fs) in
      with_host (Host.write (metadataFilePath fs)
                   (foldr String.append "" rows) h) fs
  end.

(** [exists]: [stat(fullPath) == 0]. *)
Definition exists_ (path : string) (fs : t) : bool :=
  bool_decide (is_Some (host fs !! fullPath path fs)).

(** [path.substr(path.find_last_of("/\\") + 1)]. *)
Fixpoint basename_from (current : list ascii) (rest : list ascii)
  : list ascii :=
  match rest with
  | [] => current
  | c :: rest' =>
      if bool_decide (c = "/"%char) || bool_decide (c = "\"%char)
      then basename_from rest' rest'
      else basename_from current rest'
  end.

Definition basename (path : string) : string :=
  let l := list_ascii_of_string path in
  string_of_list_ascii (basename_from l l).

(** [getMetadata]: built from [stat]; the owner stays empty. *)
Definition getMetadata (path : string) (fs : t) : Exception + FileMetadata :=
  match host fs !! fullPath path fs with
  | None => inl (FileNotFoundException path)
  | Some n =>
      inr (mkMeta (basename path)
             (match n with
              | Host.File content _ => Z.of_nat (String.length content)
              | Host.Dir _ => 0
              end)
             (match n with Host.Dir _ => true | _ => false end)
             (Z.land (Host.mode_of n) mode_0777)
             "" "")
  end.

Definition getFileInfo (path : string) (fs : t) : Exception + FileMetadata :=
  getMetadata path fs.

(** [if (authManager && !authManager->isLoggedIn())]. *)
Definition not_logged_in (fs : t) : bool :=
  match authManager fs with
  | Some a => negb (AuthManager.isLoggedIn a)
  | None => false
  end.

(** The permission check of [readFile], [writeFile] and [deleteFile]:
    [Some e] when it throws [e]. *)
Definition check_owner (path : string) (fs : t) : option Exception :=
  match authManager fs with
  | None => None
  | Some a =>
      match getFileInfo path fs with
      | inl e => Some e
      | inr meta =>
          let user := AuthManager.getCurrentUser a in
          if negb (bool_decide (owner meta = user))
             && negb (AuthManager.isAdmin user a)
          then Some (FSException "Permission denied: not owner or admin")
          else None
      end
  end.

Definition createFile (path : string) (fs : t) : (Exception + bool) * t :=
  if not_logged_in fs
  then (inl (FSException "Authentication required to create file"), fs)
  else
    match Host.open_truncate (fullPath path fs) (host fs) with
    | None => (inl (FSException ("Failed to create file: " +:+ path)), fs)
    | Some h =>
        let meta :=
          mkMeta path 0 false mode_0644
            (match authManager fs with
             | Some a => AuthManager.getCurrentUser a
             | None => "unknown"
             end) "" in
        (inr true,
         saveMetadata
           (with_metadata (<[path := meta]> (fileMetadataMap fs))
              (with_host h fs)))
    end.

(** [readFile].  [None]: the call does not return (the [put] of the LRU
    cache can loop). *)
Definition readFile (path : string) (fs : t)
  : option ((Exception + string) * t) :=
  if not_logged_in fs
  then Some (inl (FSException "Authentication required to read file"), fs)
  else
    match check_owner path fs with
    | Some e => Some (inl e, fs)
    | None =>
        let r := CacheManager.get place path (enhancedCache fs) in
        let fs1 := with_cache r.2 fs in
        match r.1 with
        | Some cachedData =>
            Some (inr cachedData,
                  with_stats
                    (mkPerf (wrap64 (cacheHits (stats fs1) + 1))
                       (cacheMisses (stats fs1))
                       (wrap64 (totalReads (stats fs1) + 1))
                       (totalWrites (stats fs1))
                       (wrap64 (totalFileOperations (stats fs1) + 1)))
                    fs1)
        | None =>
            let fs2 :=
              with_stats
                (mkPerf (cacheHits (stats fs1))
                   (wrap64 (cacheMisses (stats fs1) + 1))
                   (wrap64 (totalReads (stats fs1) + 1))
                   (totalWrites (stats fs1))
                   (wrap64 (totalFileOperations (stats fs1) + 1)))
                fs1 in
            if negb (exists_ path fs2)
            then Some (inl (FileNotFoundException path), fs2)
            else
              match Host.read (fullPath path fs2) (host fs2) with
              | None =>
                  Some (inl (FSException
                               ("Failed to open file for reading: " +:+ path)),
                        fs2)
              | Some data =>
                  c ← CacheManager.put place path data (enhancedCache fs2);
                  Some (inr data, with_cache c fs2)
              end
        end
    end.

Definition writeFile (path data : string) (fs : t)
  : option ((Exception + bool) * t) :=
  if not_logged_in fs
  then Some (inl (FSException "Authentication required to write file"), fs)
  else
    match check_owner path fs with
    | Some e => Some (inl e, fs)
    | None =>
        if negb (exists_ path fs)
        then Some (inl (FileNotFoundException path), fs)
        else
          match Host.open_truncate (fullPath path fs) (host fs) with
          | None =>
              Some (inl (FSException
                           ("Failed to open file for writing: " +:+ path)),
                    fs)
          | Some h =>
              let fs1 := with_host (Host.write (fullPath path fs) data h) fs in
              c ← CacheManager.put place path data (enhancedCache fs1);
              let fs2 :=
                with_stats
                  (mkPerf (cacheHits (stats fs1)) (cacheMisses (stats fs1))
                     (totalReads (stats fs1))
                     (wrap64 (totalWrites (stats fs1) + 1))
                     (wrap64 (totalFileOperations (stats fs1) + 1)))
                  (with_cache c fs1) in
              let old := default default_metadata
                           (fileMetadataMap fs2 !! path) in
              let meta := mkMeta (name old) (Z.of_nat (String.length data))
                            (isDirectory old) (permissions old) (owner old)
                            (group old) in
              Some (inr true,
                    saveMetadata
                      (with_metadata (<[path := meta]> (fileMetadataMap fs2))
                         fs2))
          end
    end.

Definition deleteFile (path : string) (fs : t) : (Exception + bool) * t :=
  if not_logged_in fs
  then (inl (FSException "Authentication required to delete file"), fs)
  else
    match check_owner path fs with
    | Some e => (inl e, fs)
    | None =>
        if negb (exists_ path fs)
        then (inl (FileNotFoundException path), fs)
        else
          let fs1 := with_cache (CacheManager.clear (enhancedCache fs)) fs in
          let fs2 := saveMetadata
                       (with_metadata (delete path (fileMetadataMap fs1)) fs1) in
          match Host.unlink (fullPath path fs2) (host fs2) with
          | Some h => (inr true, with_host h fs2)
          | None => (inr false, fs2)
          end
    end.

Definition createDirectory (path : string) (fs : t) : (Exception + bool) * t :=
  match Host.mkdir (fullPath path fs) (host fs) with
  | Some h => (inr true, with_host h fs)
  | None => (inr false, fs)
  end.

Definition listDirectory (path : string) (fs : t)
  : (Exception + list string) * t :=
  if negb (exists_ path fs)
  then (inl (FileNotFoundException path), fs)
  else (inr (Host.children (fullPath path fs) (host fs)), fs).

Definition setPermissions (path : string) (perms : Z) (fs : t)
  : (Exception + unit) * t :=
  if negb (exists_ path fs)
  then (inl (FileNotFoundException path), fs)
  else
    match Host.chmod (fullPath path fs) perms (host fs) with
    | None => (inl (FSException ("Failed to set permissions: " +:+ path)), fs)
    | Some h =>
        let old := default default_metadata (fileMetadataMap fs !! path) in
        let meta := mkMeta (name old) (size old) (isDirectory old) perms
                      (owner old) (group old) in
        (inr tt,
         saveMetadata
           (with_metadata (<[path := meta]> (fileMetadataMap fs))
              (with_host h fs)))
    end.

Definition findFiles (pattern directory : string) (fs : t)
  : (Exception + list string) * t :=
  match listDirectory directory fs with
  | (inl e, fs') => (inl e, fs')
  | (inr files, fs') =>
      (inr ((fun file => if bool_decide (directory = "."%string) then file
                         else (directory +:+ "/" +:+ file)%string)
              <$> filter (fun file => Glob.matchesPattern file pattern = true)
                    files),
       fs')
  end.

(** [copyFile]: [readFile(source)], [createFile(destination)] and
    [writeFile(destination, content)], each of which can throw. *)
Definition copyFile (source destination : string) (fs : t)
  : option ((Exception + bool) * t) :=
  if negb (exists_ source fs)
  then Some (inl (FileNotFoundException source), fs)
  else
    match readFile source fs with
    | None => None
    | Some (inl e, fs1) => Some (inl e, fs1)
    | Some (inr content, fs1) =>
        match createFile destination fs1 with
        | (inl e, fs2) => Some (inl e, fs2)
        | (inr false, fs2) =>
            Some (inl (FSException ("Failed to create destination file: "
                                    +:+ destination)), fs2)
        | (inr true, fs2) =>
            match writeFile destination content fs2 with
            | None => None
            | Some (inl e, fs3) => Some (inl e, fs3)
            | Some (inr false, fs3) =>
                Some (inl (FSException ("Failed to write to destination file: "
                                        +:+ destination)), fs3)
            | Some (inr true, fs3) => Some (inr true, fs3)
            end
        end
    end.

(** [moveFile]: [copyFile] and then [deleteFile(source)]; when that
    returns false the destination is deleted again. *)
Definition moveFile (source destination : string) (fs : t)
  : option ((Exception + bool) * t) :=
  match copyFile source destination fs with
  | None => None
  | Some (inl e, fs1) => Some (inl e, fs1)
  | Some (inr false, fs1) =>
      Some (inl (FSException "Failed to copy file during move operation"), fs1)
  | Some (inr true, fs1) =>
      match deleteFile source fs1 with
      | (inl e, fs2) => Some (inl e, fs2)
      | (inr true, fs2) => Some (inr true, fs2)
      | (inr false, fs2) =>
          match deleteFile destination fs2 with
          | (inl e, fs3) => Some (inl e, fs3)
          | (inr _, fs3) =>
              Some (inl (FSException
                           "Failed to delete source file during move operation"),
                    fs3)
          end
      end
  end.

Definition renameFile (oldName newName : string) (fs : t)
  : option ((Exception + bool) * t) :=
  moveFile oldName newName fs.

Definition clearCache (fs : t) : t :=
  with_cache (CacheManager.clear (enhancedCache fs)) fs.

(** [getCacheSize]:
    [return enhancedCache->getStatistics().hits
          + enhancedCache->getStatistics().misses;] *)
Definition getCacheSize (fs : t) : Z :=
  let s := CacheManager.getStatistics (enhancedCache fs) in
  wrap64 (Stats.hits s + Stats.misses s).

Definition setCachePolicy (policy : CachePolicy) (fs : t) : t :=
  with_cache (CacheManager.setPolicy policy (enhancedCache fs)) fs.

Definition getCachePolicy (fs : t) : CachePolicy :=
  CacheManager.getPolicy (enhancedCache fs).

Definition resizeCache (newCapacity : nat) (fs : t) : t :=
  with_cache (CacheManager.resize newCapacity (enhancedCache fs)) fs.

(** [pinFile]: reads the file first when it is not cached; an exception of
    [readFile] is caught and logged, and the file is then not pinned. *)
Definition pinFile (path : string) (fs : t) : option t :=
  if CacheManager.contains path (enhancedCache fs)
  then Some (with_cache (CacheManager.pin path (enhancedCache fs)) fs)
  else
    match readFile path fs with
    | None => None
    | Some (inl _, fs1) => Some fs1
    | Some (inr _, fs1) =>
        Some (with_cache (CacheManager.pin path (enhancedCache fs1)) fs1)
    end.

Definition unpinFile (path : string) (fs : t) : t :=
  with_cache (CacheManager.unpin path (enhancedCache fs)) fs.

Definition isFilePinned (path : string) (fs : t) : bool :=
  CacheManager.isPinned path (enhancedCache fs).

(** [prefetchFile]: like [pinFile], exceptions are caught and logged. *)
Definition prefetchFile (path : string) (fs : t) : option t :=
  if negb (exists_ path fs) then Some fs
  else
    match readFile path fs with
    | None => None
    | Some (inl _, fs1) => Some fs1
    | Some (inr data, fs1) =>
        c ← CacheManager.prefetch place path data (enhancedCache fs1);
        Some (with_cache c fs1)
    end.

Definition getCacheStatistics (fs : t) : Stats.CacheStatistics :=
  CacheManager.getStatistics (enhancedCache fs).

Definition resetCacheStatistics (fs : t) : t :=
  with_cache (CacheManager.resetStatistics (enhancedCache fs)) fs.

Definition getStats (fs : t) : PerformanceStats := stats fs.

(** [resetStats]: [stats = PerformanceStats();
    enhancedCache->resetStatistics();] *)
Definition resetStats (fs : t) : t :=
  with_cache (CacheManager.resetStatistics (enhancedCache fs))
    (with_stats (mkPerf 0 0 0 0 0) fs).

(** [FileSystem(rootPath, auth)] on a host where the root exists and no
    sidecar is found. *)
Definition create (root : string) (auth : option AuthManager.t)
    (h : gmap string Host.node) : t :=
  mk root h (CacheManager.create CACHE_CAPACITY LRU)
     (mkPerf 0 0 0 0 0) auth ∅ (root +:+ "/.mtfs_metadata")%string.

End WithPlace.
Arguments t : clear implicits.
End FileSystem.


(* ===================================================================== *)
(** * BlockManager: src/storage/src/block_manager.cpp                     *)
(* ===================================================================== *)

(** Bytes are [Z] values below 256 and a [blockId] is an [int].  The
    [std::fstream storageFile] is kept with the file behind it: the bytes
    of the file and whether the stream is still good.  A [read] that comes
    up short sets [eofbit] and [failbit]; nothing in the class clears them
    again (only [formatStorage] reopens the file), and a stream that is not
    good ignores [seekg], [seekp], [read] and [write].  The Windows
    critical section is left out: the calls are taken one at a time. *)
Module BlockManager.

Definition BLOCK_SIZE : nat := 4096.
Definition MAX_BLOCKS : nat := 1024.
Definition BITMAP_BYTES : nat := (MAX_BLOCKS + 7) / 8.

Record fstream := mkStream {
  bytes : list Z;
  good : bool
}.

(** [seekp(offset); write(data, n); flush();]  A write that starts past the
    end of the file leaves a gap of zero bytes. *)
Definition write_at (offset : nat) (data : list Z) (f : fstream) : fstream :=
  if good f then
    mkStream (take offset (bytes f)
              ++ replicate (offset - length (bytes f)) 0
              ++ data ++ drop (offset + length data) (bytes f)) true
  else f.

(** [seekg(offset); read(buffer, n);]: the bytes that reached the buffer. *)
Definition read_at (offset n : nat) (f : fstream) : list Z * fstream :=
  if good f then
    let got := take n (drop offset (bytes f)) in
    (got, mkStream (bytes f) (bool_decide (length got = n)))
  else ([], f).

Record t := mk {
  blockBitmap : list Z;       (* std::vector<uint8_t>: 1 = used, 0 = free *)
  storageFile : fstream
}.

Definition validateBlockId (blockId : Z) : bool :=
  (0 <=? blockId) && (blockId <? Z.of_nat MAX_BLOCKS).

Definition getBlockOffset (blockId : Z) : nat :=
  Z.to_nat blockId * BLOCK_SIZE + BITMAP_BYTES.

(** [getBit]: [blockBitmap[byteIndex]] is in range, the vector having
    [BITMAP_BYTES] elements from the constructor on. *)
Definition getBit (index : Z) (b : t) : bool :=
  if Z.of_nat MAX_BLOCKS <=? index then false
  else
    let byteIndex := Z.to_nat (index / 8) in
    let bitIndex := index mod 8 in
    negb (Z.land (nth byteIndex (blockBitmap b) 0) (Z.shiftl 1 bitIndex) =? 0).

(** [setBit]: [blockBitmap[byteIndex] |= (1 << bitIndex)] or
    [blockBitmap[byteIndex] &= ~(1 << bitIndex)], stored back as a
    [uint8_t]. *)
Definition setBit (index : Z) (value : bool) (b : t) : t :=
  if Z.of_nat MAX_BLOCKS <=? index then b
  else
    let byteIndex := Z.to_nat (index / 8) in
    let bitIndex := index mod 8 in
    mk (alter (fun x => if value
                        then Z.lor x (Z.shiftl 1 bitIndex) mod 256
                        else Z.land x (Z.lnot (Z.shiftl 1 bitIndex)) mod 256)
              byteIndex (blockBitmap b))
       (storageFile b).

(** [storageFile.seekp(0); storageFile.write(blockBitmap.data(),
    BITMAP_BYTES); storageFile.flush();] *)
Definition saveBitmap (b : t) : t :=
  mk (blockBitmap b)
     (write_at 0 (take BITMAP_BYTES (blockBitmap b)) (storageFile b)).

(** [storageFile.seekg(0); storageFile.read(blockBitmap.data(),
    BITMAP_BYTES);] *)
Definition loadBitmap (b : t) : t :=
  let r := read_at 0 BITMAP_BYTES (storageFile b) in
  mk (r.1 ++ drop (length r.1) (blockBitmap b)) r.2.

(** [BlockManager(storagePath)]; [existing] is the content of the file at
    [storagePath] when there is one.  A new file is filled with
    [MAX_BLOCKS] empty blocks. *)
Definition create (existing : option (list Z)) : t :=
  let file := match existing with
              | Some content => mkStream content true
              | None => mkStream (replicate (MAX_BLOCKS * BLOCK_SIZE) 0) true
              end in
  loadBitmap (mk (replicate BITMAP_BYTES 0) file).

Definition isBlockFree (blockId : Z) (b : t) : bool :=
  if negb (validateBlockId blockId) then true
  else negb (getBit blockId b).

(** The loop of [allocateBlock] from [i] on, [fuel] being the number of
    indices left below [MAX_BLOCKS]. *)
Fixpoint allocate_loop (fuel : nat) (i : Z) (b : t) : Z * t :=
  match fuel with
  | O => (-1, b)
  | S fuel' =>
      if negb (getBit i b) then (i, saveBitmap (setBit i true b))
      else allocate_loop fuel' (i + 1) b
  end.

Definition allocateBlock (b : t) : Z * t := allocate_loop MAX_BLOCKS 0 b.

Definition freeBlock (blockId : Z) (b : t) : bool * t :=
  if negb (validateBlockId blockId) || isBlockFree blockId b then (false, b)
  else (true, saveBitmap (setBit blockId false b)).

(** [getFreeBlocks]: [for (i = 0; i < MAX_BLOCKS; ++i)
      if (!getBit(i)) ++count;] *)
Definition getFreeBlocks (b : t) : nat :=
  length (filter (fun i => getBit i b = false) (seqZ 0 (Z.of_nat MAX_BLOCKS))).

Definition getTotalBlocks (b : t) : nat := MAX_BLOCKS.

Definition writeBlock (blockId : Z) (data : list Z) (b : t) : bool * t :=
  if negb (validateBlockId blockId) || isBlockFree blockId b then (false, b)
  else if (BLOCK_SIZE <? length data)%nat then (false, b)
  else
    let blockData := data ++ replicate (BLOCK_SIZE - length data) 0 in
    (true, mk (blockBitmap b)
              (write_at (getBlockOffset blockId) blockData (storageFile b))).

(** [readBlock(blockId, data)]: the flag returned and the vector [data]
    after the call.  [data.resize(BLOCK_SIZE)] keeps what the caller's
    vector held; a short read overwrites only its front. *)
Definition readBlock (blockId : Z) (data : list Z) (b : t)
  : bool * list Z * t :=
  if negb (validateBlockId blockId) || isBlockFree blockId b
  then (false, data, b)
  else
    let resized := take BLOCK_SIZE data
                   ++ replicate (BLOCK_SIZE - length data) 0 in
    let r := read_at (getBlockOffset blockId) BLOCK_SIZE (storageFile b) in
    (true, r.1 ++ drop (length r.1) resized, mk (blockBitmap b) r.2).

(** [formatStorage]: the bitmap is zeroed and the file is truncated,
    refilled with empty blocks and reopened. *)
Definition formatStorage (b : t) : t :=
  saveBitmap (mk (replicate (length (blockBitmap b)) 0)
                 (mkStream (replicate (MAX_BLOCKS * BLOCK_SIZE) 0) true)).

End BlockManager.



(* ===================================================================== *)
(** * Properties                                                          *)
(* ===================================================================== *)

(** ** Codec round trip *)

Module CodecFacts.
Import Codec.

Lemma u8_to_N (n : N) : (n < 256)%N -> Byte.to_N (u8 n) = n.
Proof.
  intros Hn. unfold u8. rewrite N.mod_small by exact Hn.
  destruct (Byte.of_N n) as [b|] eqn:E.
  - now apply Byte.to_of_N.
  - apply Byte.of_N_None_iff in E. lia.
Qed.

Lemma run_length_bounds cur tail count :
  (count <= 255)%N ->
  (count <= run_length cur tail count <= 255)%N.
Proof.
  revert count. induction tail as [|b tail IH]; intros count Hc; simpl.
  - lia.
  - destruct (Byte.eqb b cur && (count <? 255)%N) eqn:E; [|lia].
    apply andb_true_iff in E as [_ E]. apply N.ltb_lt in E.
    specialize (IH (count + 1)%N). lia.
Qed.

(** The bytes counted by the inner loop are copies of [currentChar]. *)
Lemma run_length_prefix cur tail count :
  (count <= 255)%N ->
  let k := N.to_nat (run_length cur tail count - count) in
  take k tail = replicate k cur /\ (k <= length tail)%nat.
Proof.
  revert count. induction tail as [|b tail IH]; intros count Hc; simpl.
  - rewrite N.sub_diag. simpl. split; [reflexivity | lia].
  - destruct (Byte.eqb b cur && (count <? 255)%N) eqn:E.
    + apply andb_true_iff in E as [Eb E]. apply N.ltb_lt in E.
      apply Byte.byte_dec_bl in Eb. subst b.
      pose proof (run_length_bounds cur tail (count + 1)%N ltac:(lia)) as Hb.
      destruct (IH (count + 1)%N ltac:(lia)) as [IH1 IH2].
      replace (N.to_nat (run_length cur tail (count + 1) - count))
        with (S (N.to_nat (run_length cur tail (count + 1) - (count + 1))))
        by lia.
      simpl. rewrite IH1. split; [reflexivity | lia].
    + rewrite N.sub_diag. simpl. split; [reflexivity | lia].
Qed.

Lemma rle_loop_roundtrip fuel :
  forall data, (length data <= fuel)%nat ->
  rleDecompress (rle_loop fuel data) = data.
Proof.
  induction fuel as [|fuel IH]; intros data Hlen.
  - destruct data; [reflexivity | simpl in Hlen; lia].
  - destruct data as [|cur tail]; [reflexivity|].
    cbn [rle_loop rleDecompress].
    pose proof (run_length_bounds cur tail 1%N ltac:(lia)) as Hb.
    destruct (run_length_prefix cur tail 1%N ltac:(lia)) as [Hp Hk].
    set (count := run_length cur tail 1%N) in *.
    rewrite u8_to_N by lia.
    replace (N.to_nat count) with (S (N.to_nat (count - 1))) by lia.
    cbn [replicate drop skipn].
    rewrite IH.
    + rewrite <- Hp. rewrite <- app_comm_cons. now rewrite take_drop.
    + rewrite length_drop. simpl in Hlen. lia.
Qed.

Lemma rleCompress_roundtrip data : rleDecompress (rleCompress data) = data.
Proof. apply rle_loop_roundtrip. lia. Qed.

Lemma le_bytes_length n v : length (le_bytes n v) = n.
Proof. revert v. induction n; intros v; simpl; [reflexivity|]. now rewrite IHn. Qed.

Lemma le_value_le_bytes n v : le_value (le_bytes n v) = v mod 256 ^ Z.of_nat n.
Proof.
  revert v. induction n as [|n IH]; intros v.
  - simpl. now rewrite Z.mod_1_r.
  - cbn [le_bytes le_value]. rewrite IH.
    rewrite u8_to_N by (pose proof (Z.mod_pos_bound v 256); lia).
    rewrite Z2N.id by (pose proof (Z.mod_pos_bound v 256); lia).
    rewrite Nat2Z.inj_succ, Z.pow_succ_r by lia.
    rewrite (Z.rem_mul_r v 256 (256 ^ Z.of_nat n)) by lia. reflexivity.
Qed.

Lemma header_bytes_length padding h :
  length (header_bytes padding h) = sizeof_CompressionHeader.
Proof.
  unfold header_bytes. rewrite !length_app, !le_bytes_length. reflexivity.
Qed.

Lemma read_header_bytes padding h payload :
  read_header (header_bytes padding h ++ payload) =
  {| magic := magic h mod 2 ^ 32;
     version := version h mod 2 ^ 16;
     originalSize := originalSize h mod 2 ^ 32;
     compressedSize := compressedSize h mod 2 ^ 32;
     compressionType := compressionType h mod 2 ^ 8 |}.
Proof.
  unfold read_header, header_bytes.
  pose proof (le_bytes_length 4 (magic h)) as L1.
  pose proof (le_bytes_length 2 (version h)) as L2.
  pose proof (le_bytes_length 4 (originalSize h)) as L3.
  pose proof (le_bytes_length 4 (compressedSize h)) as L4.
  pose proof (le_bytes_length 1 (compressionType h)) as L5.
  pose proof (le_value_le_bytes 4 (magic h)) as V1.
  pose proof (le_value_le_bytes 2 (version h)) as V2.
  pose proof (le_value_le_bytes 4 (originalSize h)) as V3.
  pose proof (le_value_le_bytes 4 (compressedSize h)) as V4.
  pose proof (le_value_le_bytes 1 (compressionType h)) as V5.
  destruct (le_bytes 4 (magic h)) as [|a0 [|a1 [|a2 [|a3 [|]]]]]; try discriminate.
  destruct (le_bytes 2 (version h)) as [|b0 [|b1 [|]]]; try discriminate.
  destruct (le_bytes 4 (originalSize h)) as [|c0 [|c1 [|c2 [|c3 [|]]]]]; try discriminate.
  destruct (le_bytes 4 (compressedSize h)) as [|d0 [|d1 [|d2 [|d3 [|]]]]]; try discriminate.
  destruct (le_bytes 1 (compressionType h)) as [|e0 [|]]; try discriminate.
  cbn [app take drop firstn skipn].
  rewrite V1, V2, V3, V4, V5. reflexivity.
Qed.

(** What [decompress] returns on every output of [compress]. *)
Lemma decompress_compress padding (x : list byte) :
  decompress (compress padding x) =
  if Z.of_nat (length x) <? 2 ^ 32 then inr x else inl SizeMismatch.
Proof.
  unfold decompress, compress.
  rewrite length_app, header_bytes_length.
  replace (sizeof_CompressionHeader + length (rleCompress x) <? sizeof_CompressionHeader)%nat
    with false by (symmetry; apply Nat.ltb_ge; lia).
  rewrite read_header_bytes. cbn [magic version originalSize compressionType].
  change (negb (COMPRESSION_MAGIC mod 2 ^ 32 =? COMPRESSION_MAGIC)) with false.
  change (negb (COMPRESSION_VERSION mod 2 ^ 16 =? COMPRESSION_VERSION)) with false.
  change (0 mod 2 ^ 8 =? 0) with true. cbv iota.
  rewrite (drop_app_length' _ _ _ (eq_sym (header_bytes_length _ _))).
  rewrite rleCompress_roundtrip.
  unfold u32. rewrite Z.mod_mod by lia.
  destruct (Z.of_nat (length x) <? 2 ^ 32) eqn:E.
  - apply Z.ltb_lt in E. rewrite Z.mod_small by lia. now rewrite Z.eqb_refl.
  - apply Z.ltb_ge in E.
    pose proof (Z.mod_pos_bound (Z.of_nat (length x)) (2 ^ 32) ltac:(lia)).
    replace (Z.of_nat (length x) =? Z.of_nat (length x) mod 2 ^ 32) with false
      by (symmetry; apply Z.eqb_neq; lia).
    reflexivity.
Qed.

End CodecFacts.

(** ** LRU eviction: when the loop of [evict] returns *)

Module LRUFacts.
Import EnhancedLRUCache.
Section WithTypes.
Context {K : Type} `{Countable K} {V : Type}.
Implicit Types (c : t K V) (l : list (CacheEntry K V)).

Definition all_pinned c : Prop :=
  Forall (fun e => key e ∈ pinnedKeys c) (entries c).

Lemma moveToFront_last l e :
  last l = Some e -> moveToFront (length l - 1) l = e :: take (length l - 1) l.
Proof.
  intros Hl. apply last_Some in Hl as [l' ->].
  rewrite length_app. simpl.
  replace (length l' + 1 - 1)%nat with (length l') by lia.
  unfold moveToFront.
  rewrite list_lookup_middle by reflexivity.
  rewrite take_app_length. f_equal.
  rewrite delete_middle. now rewrite app_nil_r.
Qed.

(** Rotating the tail to the head, as a permutation of the list. *)
Lemma moveToFront_last_perm l e :
  last l = Some e -> moveToFront (length l - 1) l ≡ₚ l.
Proof.
  intros Hl. rewrite (moveToFront_last l e Hl).
  apply last_Some in Hl as [l' ->].
  rewrite length_app. simpl.
  replace (length l' + 1 - 1)%nat with (length l') by lia.
  rewrite take_app_length. now rewrite Permutation_cons_append.
Qed.

(** With two or more entries, all of them pinned, an iteration goes round
    again and leaves the cache in such a state. *)
Lemma evict_step_all_pinned c :
  all_pinned c -> (2 <= length (entries c))%nat ->
  exists c', evict_step c = inr c' /\ all_pinned c' /\
             length (entries c') = length (entries c).
Proof.
  intros Hall Hlen. unfold evict_step.
  destruct (last (entries c)) as [e|] eqn:Hl.
  2:{ apply last_None in Hl. rewrite Hl in Hlen. simpl in Hlen. lia. }
  assert (He : key e ∈ pinnedKeys c).
  { unfold all_pinned in Hall. rewrite Forall_forall in Hall.
    apply Hall. apply last_Some in Hl as [l' ->]. set_solver. }
  rewrite bool_decide_eq_false_2 by (intros Hn; apply Hn, He).
  pose proof (moveToFront_last_perm _ _ Hl) as Hp.
  cbn [entries].
  assert (Hlen' : length (moveToFront (length (entries c) - 1) (entries c))
                  = length (entries c)) by now rewrite Hp.
  rewrite Hlen'.
  destruct (length (entries c) <=? 1)%nat eqn:E.
  { apply Nat.leb_le in E. lia. }
  eexists. split; [reflexivity|]. split; [|exact Hlen'].
  unfold all_pinned. cbn [entries pinnedKeys]. now rewrite Hp.
Qed.

(** The loop never leaves such a state, whatever the number of
    iterations granted. *)
Lemma evict_loop_diverges fuel : forall c,
  all_pinned c -> (2 <= length (entries c))%nat ->
  evict_loop fuel c = None.
Proof.
  induction fuel as [|fuel IH]; intros c Hall Hlen; [reflexivity|].
  destruct (evict_step_all_pinned c Hall Hlen) as (c' & Hs & Hall' & Hlen').
  cbn [evict_loop]. rewrite Hs. apply IH; [exact Hall' | lia].
Qed.

(** More iterations granted do not change what the loop returns. *)
Lemma evict_loop_mono fuel : forall fuel' c c',
  (fuel <= fuel')%nat -> evict_loop fuel c = Some c' ->
  evict_loop fuel' c = Some c'.
Proof.
  induction fuel as [|fuel IH]; intros fuel' c c' Hle Hl; [discriminate|].
  destruct fuel' as [|fuel']; [lia|]. cbn [evict_loop] in *.
  destruct (evict_step c) as [c1|c1]; [exact Hl|].
  apply IH; [lia | exact Hl].
Qed.

(** With an unpinned entry [u] followed by pinned entries [l2] only, the
    loop rotates [l2] to the front and removes [u]. *)
Lemma evict_loop_rotate l2 : forall l1 u c,
  entries c = l1 ++ u :: l2 -> key u ∉ pinnedKeys c ->
  Forall (fun e => key e ∈ pinnedKeys c) l2 ->
  evict_loop (S (length l2)) c
  = Some (mk (maxCapacity c) (l2 ++ l1) (pinnedKeys c)
             (Stats.evicted (stats c))).
Proof.
  induction l2 as [|x l2 IH] using rev_ind; intros l1 u c He Hu Hall.
  - cbn [evict_loop length]. unfold evict_step.
    rewrite He, last_snoc. rewrite bool_decide_eq_true_2 by exact Hu.
    rewrite length_app. simpl.
    replace (length l1 + 1 - 1)%nat with (length l1) by lia.
    now rewrite take_app_length.
  - apply Forall_app in Hall as [Hall Hx].
    apply Forall_cons in Hx as [Hx _].
    rewrite length_app. simpl length.
    remember (S (length l2)) as fuel1 eqn:Hfuel.
    replace (S (length l2 + 1)) with (S fuel1) by lia.
    cbn [evict_loop]. unfold evict_step.
    assert (He' : entries c = (l1 ++ u :: l2) ++ [x])
      by (rewrite He, <- app_assoc; reflexivity).
    rewrite He' at 1. rewrite last_snoc.
    rewrite bool_decide_eq_false_2 by (intros Hn; apply Hn, Hx).
    assert (Hlast : last (entries c) = Some x)
      by (rewrite He'; apply last_snoc).
    rewrite (moveToFront_last _ _ Hlast). cbn [entries length].
    rewrite He'. rewrite length_app. simpl length.
    replace (length (l1 ++ u :: l2) + 1 - 1)%nat
      with (length (l1 ++ u :: l2)) by lia.
    rewrite take_app_length.
    destruct (S (length (l1 ++ u :: l2)) <=? 1)%nat eqn:E.
    { apply Nat.leb_le in E. rewrite length_app in E. simpl in E. lia. }
    subst fuel1.
    rewrite (IH (x :: l1) u); [| reflexivity | exact Hu | exact Hall].
    cbn [maxCapacity pinnedKeys stats]. now rewrite <- app_assoc.
Qed.

Lemma unpinned_split c :
  ~ all_pinned c ->
  exists l1 u l2, entries c = l1 ++ u :: l2 /\ (key u ∉ pinnedKeys c) /\
                  Forall (fun e => key e ∈ pinnedKeys c) l2.
Proof.
  unfold all_pinned. generalize (entries c) as l.
  induction l as [|e l IH] using rev_ind; intros Hn.
  - exfalso. apply Hn. constructor.
  - destruct (decide (key e ∈ pinnedKeys c)) as [He|He].
    + destruct IH as (l1 & u & l2 & -> & Hu & Hall).
      { intros Hl. apply Hn. apply Forall_app. split; [exact Hl|].
        now repeat constructor. }
      exists l1, u, (l2 ++ [e]). rewrite <- app_assoc. simpl.
      split; [reflexivity|]. split; [exact Hu|].
      apply Forall_app. split; [exact Hall | now repeat constructor].
    + exists l, e, []. repeat split; [exact He | constructor].
Qed.

(** [evict] returns unless two or more entries are resident and all of
    them are pinned ... *)
Lemma evict_returns c :
  ~ (all_pinned c /\ (2 <= length (entries c))%nat) -> is_Some (evict c).
Proof.
  intros Hn. unfold evict.
  destruct (decide (all_pinned c)) as [Hall|Hnot].
  - assert (Hlen : (length (entries c) <= 1)%nat).
    { apply Nat.nlt_ge. intros Hlt. apply Hn. split; [exact Hall | lia]. }
    cbn [evict_loop]. unfold evict_step.
    destruct (last (entries c)) as [e|] eqn:Hl; [|eauto].
    case_bool_decide; [eauto|].
    rewrite (moveToFront_last _ _ Hl). cbn [entries length].
    rewrite length_take.
    destruct (S (Nat.min (length (entries c) - 1) (length (entries c))) <=? 1)%nat
      eqn:E; [eauto|]. apply Nat.leb_gt in E. lia.
  - destruct (unpinned_split c Hnot) as (l1 & u & l2 & He & Hu & Hall).
    assert (Hle : (S (length l2) <= S (length (entries c)))%nat)
      by (rewrite He, length_app; simpl; lia).
    rewrite (evict_loop_mono _ _ c _ Hle
               (evict_loop_rotate l2 l1 u c He Hu Hall)).
    eauto.
Qed.

(** ... and a loop that returns at all returns what [evict] returns: the
    fuel of [evict] is enough. *)
Lemma evict_fuel_enough fuel c c' :
  evict_loop fuel c = Some c' -> evict c = Some c'.
Proof.
  intros Hl.
  assert (Hn : ~ (all_pinned c /\ (2 <= length (entries c))%nat)).
  { intros [Hall Hlen]. rewrite (evict_loop_diverges fuel c Hall Hlen) in Hl.
    discriminate. }
  destruct (evict_returns c Hn) as [c'' Hc'']. rewrite Hc''.
  unfold evict in Hc''.
  set (big := Nat.max fuel (S (length (entries c)))).
  assert (H1 : evict_loop big c = Some c')
    by (apply (evict_loop_mono fuel); [unfold big; lia | exact Hl]).
  assert (H2 : evict_loop big c = Some c'')
    by (apply (evict_loop_mono (S (length (entries c))));
        [unfold big; lia | exact Hc'']).
  congruence.
Qed.

End WithTypes.
End LRUFacts.

(** ** Statistics: what every reachable statistics record satisfies *)

Module StatsFacts.
Import Stats.

(** The value [updateHitRate] stores for the given counters. *)
Definition rate_of (s : CacheStatistics) : float :=
  if 0 <? totalAccesses s
  then PrimFloat.mul
         (PrimFloat.div (to_double (hits s)) (to_double (totalAccesses s)))
         100%float
  else 0%float.

(** [n] bounds the number of [get] calls counted so far. *)
Definition consistent (n : Z) (s : CacheStatistics) : Prop :=
  totalAccesses s = wrap64 (hits s + misses s) /\
  hitRate s = rate_of s /\
  0 <= hits s /\ 0 <= misses s /\ hits s + misses s <= n.

(** The four fields the invariant reads. *)
Definition core (s : CacheStatistics) : Z * Z * Z * float :=
  (hits s, misses s, totalAccesses s, hitRate s).

Lemma consistent_core n s s' :
  core s' = core s -> consistent n s -> consistent n s'.
Proof.
  unfold core, consistent, rate_of. intros E. injection E as -> -> -> ->. tauto.
Qed.

Lemma consistent_mono n m s : n <= m -> consistent n s -> consistent m s.
Proof. unfold consistent. intuition lia. Qed.

Lemma consistent_init : consistent 0 init.
Proof. unfold consistent, rate_of, wrap64. simpl. repeat split; lia. Qed.

Lemma wrap64_incr_bounds x : 0 <= x -> 0 <= wrap64 (x + 1) <= x + 1.
Proof.
  intros Hx. unfold wrap64.
  pose proof (Z.mod_pos_bound (x + 1) (2 ^ 64) ltac:(lia)).
  pose proof (Z.mod_le (x + 1) (2 ^ 64) ltac:(lia) ltac:(lia)). lia.
Qed.

Lemma consistent_hit n s : consistent n s -> consistent (n + 1) (hit s).
Proof.
  unfold consistent, rate_of, hit, updateHitRate. simpl.
  intros (_ & _ & Hh & Hm & Hn).
  pose proof (wrap64_incr_bounds (hits s) Hh).
  repeat split; lia.
Qed.

Lemma consistent_miss n s : consistent n s -> consistent (n + 1) (miss s).
Proof.
  unfold consistent, rate_of, miss, updateHitRate. simpl.
  intros (_ & _ & Hh & Hm & Hn).
  pose proof (wrap64_incr_bounds (misses s) Hm).
  repeat split; lia.
Qed.

(** How one call can move the statistics. *)
Inductive move (s s' : CacheStatistics) : Prop :=
  | move_same : core s' = core s -> move s s'
  | move_hit : core s' = core (hit s) -> move s s'
  | move_miss : core s' = core (miss s) -> move s s'
  | move_reset : core s' = core init -> move s s'.

Lemma consistent_move n s s' :
  0 <= n -> move s s' -> consistent n s -> consistent (n + 1) s'.
Proof.
  intros Hn [E|E|E|E] Hc; apply (consistent_core _ _ _ E).
  - apply (consistent_mono n); [lia | exact Hc].
  - now apply consistent_hit.
  - now apply consistent_miss.
  - apply (consistent_mono 0); [lia | exact consistent_init].
Qed.

Lemma consistent_exact n s :
  consistent n s -> n < 2 ^ 64 -> hits s + misses s = totalAccesses s.
Proof.
  unfold consistent, wrap64. intros (Ht & _ & Hh & Hm & Hn) Hlt.
  rewrite Ht. rewrite Z.mod_small; lia.
Qed.

Section Generic.
Context {K V C : Type} {I : CacheInterface K V C}.
(** The private [stats] member behind [getStatistics]. *)
Variable stats_of : C -> CacheStatistics.
Hypothesis report_core :
  forall c, core (cache_getStatistics c) = core (stats_of c).
Hypothesis step_move :
  forall o c c', step o c = Some c' -> move (stats_of c) (stats_of c').

Lemma run_consistent ops : forall n c c',
  0 <= n -> consistent n (stats_of c) -> run ops c = Some c' ->
  consistent (n + Z.of_nat (length ops)) (cache_getStatistics c').
Proof.
  induction ops as [|o ops IH]; intros n c c' Hn Hc Hrun.
  - simpl in Hrun. injection Hrun as <-. simpl. rewrite Z.add_0_r.
    exact (consistent_core _ _ _ (report_core c) Hc).
  - simpl in Hrun. destruct (step o c) as [c1|] eqn:Hs; [|discriminate].
    simpl in Hrun.
    replace (n + Z.of_nat (length (o :: ops)))
      with ((n + 1) + Z.of_nat (length ops)) by (simpl length; lia).
    apply (IH _ c1); [lia | | exact Hrun].
    eapply consistent_move; eauto.
Qed.
End Generic.

Section Caches.
Context {K : Type} `{Countable K} {V : Type}.

Lemma LRU_evict_loop_stats fuel : forall (c c' : EnhancedLRUCache.t K V),
  EnhancedLRUCache.evict_loop fuel c = Some c' ->
  core (EnhancedLRUCache.stats c') = core (EnhancedLRUCache.stats c).
Proof.
  induction fuel as [|fuel IH]; intros c c' Hl; [discriminate|].
  cbn [EnhancedLRUCache.evict_loop] in Hl.
  unfold EnhancedLRUCache.evict_step in Hl.
  destruct (last (EnhancedLRUCache.entries c)); [|now injection Hl as <-].
  case_bool_decide.
  - now injection Hl as <-.
  - match type of Hl with context [if ?b then _ else _] => destruct b end.
    + now injection Hl as <-.
    + apply IH in Hl. exact Hl.
Qed.

Lemma LRU_step_move o (c c' : EnhancedLRUCache.t K V) :
  step o c = Some c' ->
  move (EnhancedLRUCache.stats c) (EnhancedLRUCache.stats c').
Proof.
  destruct o; simpl; intros Hs.
  - unfold EnhancedLRUCache.put in Hs.
    destruct (EnhancedLRUCache.find _ _).
    + injection Hs as <-. now apply move_same.
    + destruct (_ <=? _)%nat; simpl in Hs.
      * destruct (EnhancedLRUCache.evict c) as [c1|] eqn:E; [|discriminate].
        simpl in Hs. injection Hs as <-. apply move_same.
        apply (LRU_evict_loop_stats _ _ _ E).
      * injection Hs as <-. now apply move_same.
  - injection Hs as <-. unfold EnhancedLRUCache.get.
    destruct (EnhancedLRUCache.find _ _); simpl.
    + now apply move_hit.
    + now apply move_miss.
  - injection Hs as <-. unfold EnhancedLRUCache.remove.
    destruct (EnhancedLRUCache.find _ _); now apply move_same.
  - injection Hs as <-. now apply move_same.
  - injection Hs as <-. unfold EnhancedLRUCache.pin.
    case_bool_decide; now apply move_same.
  - injection Hs as <-. now apply move_same.
  - unfold EnhancedLRUCache.prefetch in Hs.
    destruct (EnhancedLRUCache.find _ _).
    + injection Hs as <-. now apply move_same.
    + destruct (_ <? _)%nat; simpl in Hs.
      * injection Hs as <-. now apply move_same.
      * destruct (EnhancedLRUCache.evict c) as [c1|] eqn:E; [|discriminate].
        simpl in Hs. injection Hs as <-. apply move_same.
        apply (LRU_evict_loop_stats _ _ _ E).
  - injection Hs as <-. now apply move_reset.
Qed.

Lemma FIFO_step_move o (c c' : FIFOCache.t K V) :
  step o c = Some c' -> move (FIFOCache.stats c) (FIFOCache.stats c').
Proof.
  destruct o; simpl; intros Hs; injection Hs as <-.
  - unfold FIFOCache.put, FIFOCache.evict.
    destruct (_ !! _); [now apply move_same|].
    destruct (_ <=? _)%nat; [|now apply move_same].
    destruct (FIFOCache.evict_loop _ _ _) as [q [k'|]]; now apply move_same.
  - unfold FIFOCache.get. destruct (_ !! _); simpl.
    + now apply move_hit.
    + now apply move_miss.
  - unfold FIFOCache.remove. destruct (_ !! _); now apply move_same.
  - now apply move_same.
  - unfold FIFOCache.pin. case_bool_decide; now apply move_same.
  - now apply move_same.
  - unfold FIFOCache.prefetch, FIFOCache.evict.
    destruct (_ !! _); [now apply move_same|].
    destruct (_ <=? _)%nat; [|now apply move_same].
    destruct (FIFOCache.evict_loop _ _ _) as [q [k'|]]; now apply move_same.
  - now apply move_reset.
Qed.

Lemma LIFO_step_move o (c c' : LIFOCache.t K V) :
  step o c = Some c' -> move (LIFOCache.stats c) (LIFOCache.stats c').
Proof.
  destruct o; simpl; intros Hs; injection Hs as <-.
  - unfold LIFOCache.put, LIFOCache.evict.
    destruct (_ !! _); [now apply move_same|].
    destruct (_ <=? _)%nat; [|now apply move_same].
    destruct (LIFOCache.find_victim _ _ _ _) as [[q tmp] [k'|]];
      now apply move_same.
  - unfold LIFOCache.get. destruct (_ !! _); simpl.
    + now apply move_hit.
    + now apply move_miss.
  - unfold LIFOCache.remove. destruct (_ !! _); now apply move_same.
  - now apply move_same.
  - unfold LIFOCache.pin. case_bool_decide; now apply move_same.
  - now apply move_same.
  - unfold LIFOCache.prefetch, LIFOCache.evict.
    destruct (_ !! _); [now apply move_same|].
    destruct (_ <=? _)%nat; [|now apply move_same].
    destruct (LIFOCache.find_victim _ _ _ _) as [[q tmp] [k'|]];
      now apply move_same.
  - now apply move_reset.
Qed.

Lemma LFU_evict_stats (c : LFUCache.t K V) :
  core (LFUCache.stats (LFUCache.evict c)) = core (LFUCache.stats c).
Proof.
  unfold LFUCache.evict.
  destruct (LFUCache.find_bucket _ _); [|reflexivity].
  destruct (LFUCache.scan _ _) as [[[[k' f] l] fs]|]; reflexivity.
Qed.

Lemma LFU_step_move place o (c c' : LFUCache.t K V) :
  step (I := LFU_interface place) o c = Some c' ->
  move (LFUCache.stats c) (LFUCache.stats c').
Proof.
  destruct o; simpl; intros Hs; injection Hs as <-.
  - unfold LFUCache.put.
    destruct (_ =? _)%nat; [now apply move_same|].
    destruct (_ !! _); [now apply move_same|].
    destruct (_ <=? _)%nat; [|now apply move_same].
    apply move_same. apply LFU_evict_stats.
  - unfold LFUCache.get. destruct (_ !! _); simpl.
    + now apply move_hit.
    + now apply move_miss.
  - unfold LFUCache.remove. destruct (_ !! _); now apply move_same.
  - now apply move_same.
  - unfold LFUCache.pin. case_bool_decide; now apply move_same.
  - now apply move_same.
  - unfold LFUCache.prefetch.
    destruct (_ !! _); [now apply move_same|].
    destruct (_ <=? _)%nat; [|now apply move_same].
    apply move_same. apply LFU_evict_stats.
  - now apply move_reset.
Qed.

End Caches.
End StatsFacts.

Module StatsClaims.
Import Stats StatsFacts.

(** What a reported statistics record satisfies after [n] calls. *)
Definition reported (n : nat) (s : CacheStatistics) : Prop :=
  totalAccesses s = wrap64 (hits s + misses s) /\
  hitRate s = rate_of s /\
  (Z.of_nat n < 2 ^ 64 -> hits s + misses s = totalAccesses s).

Lemma consistent_reported n s : consistent (Z.of_nat n) s -> reported n s.
Proof.
  intros Hc. pose proof (consistent_exact _ _ Hc) as He.
  destruct Hc as (Ht & Hr & _). repeat split; assumption.
Qed.

(** The hit rate as the design document words it: the ratio
    [hits / total_accesses] when [total_accesses > 0], else zero. *)
Definition ratio_hit_rate (s : CacheStatistics) : float :=
  if 0 <? totalAccesses s
  then PrimFloat.div (to_double (hits s)) (to_double (totalAccesses s))
  else 0%float.

(** C6, as amended.  For each of the four policy caches, of any capacity,
    and any finite sequence of put/get/remove/clear/pin/unpin/prefetch/
    resetStatistics calls on a fresh cache that returns: the reported
    statistics satisfy [totalAccesses == hits + misses] in [size_t]
    arithmetic (and as integers when fewer than 2^64 calls were made), and
    [hitRate] is the percentage [(double(hits) / totalAccesses) * 100.0]
    when [totalAccesses > 0] and [0.0] otherwise. *)
Theorem statistics_consistent {K : Type} `{Countable K} {V : Type}
    (place : Z -> list Z -> nat) (capacity : nat) (ops : list (op K V)) :
  (forall c, run ops (EnhancedLRUCache.create capacity) = Some c ->
             reported (length ops) (EnhancedLRUCache.getStatistics c)) /\
  (forall c, run (I := LFU_interface place) ops (LFUCache.create capacity)
             = Some c ->
             reported (length ops) (LFUCache.getStatistics c)) /\
  (forall c, run ops (FIFOCache.create capacity) = Some c ->
             reported (length ops) (FIFOCache.getStatistics c)) /\
  (forall c, run ops (LIFOCache.create capacity) = Some c ->
             reported (length ops) (LIFOCache.getStatistics c)).
Proof.
  split; [|split; [|split]]; intros c Hrun; apply consistent_reported;
    change (Z.of_nat (length ops)) with (0 + Z.of_nat (length ops)).
  - eapply (run_consistent (I := LRU_interface) EnhancedLRUCache.stats
              (fun _ => eq_refl) LRU_step_move ops 0 (EnhancedLRUCache.create capacity));
      [lia | exact consistent_init | exact Hrun].
  - eapply (run_consistent (I := LFU_interface place) LFUCache.stats
              (fun _ => eq_refl) (LFU_step_move place) ops 0 (LFUCache.create capacity));
      [lia | exact consistent_init | exact Hrun].
  - eapply (run_consistent (I := FIFO_interface) FIFOCache.stats
              (fun _ => eq_refl) FIFO_step_move ops 0 (FIFOCache.create capacity));
      [lia | exact consistent_init | exact Hrun].
  - eapply (run_consistent (I := LIFO_interface) LIFOCache.stats
              (fun _ => eq_refl) LIFO_step_move ops 0 (LIFOCache.create capacity));
      [lia | exact consistent_init | exact Hrun].
Qed.

(** A run of the test of test_cache_new.cpp (one put, a hit, a miss). *)
Definition statistics_ops : list (op Z string) :=
  [Put 1 "one"%string; Get 1; Get 999].

Lemma statistics_consistent_witness :
  exists c, run statistics_ops (EnhancedLRUCache.create 3) = Some c /\
            reported 3 (EnhancedLRUCache.getStatistics c).
Proof.
  eexists. split.
  - vm_compute. reflexivity.
  - apply (proj1 (statistics_consistent (fun _ _ => O) 3 statistics_ops)).
    vm_compute. reflexivity.
Defined.

(** C6 as stated fails: after one put and one hit the stored hit rate is
    [100.0], not the ratio [hits / total_accesses = 1.0]. *)
Lemma hit_rate_is_not_the_ratio :
  exists c, run [Put 1 "one"%string; Get 1] (EnhancedLRUCache.create (K := Z) 3)
            = Some c /\
            let s := EnhancedLRUCache.getStatistics c in
            hits s = 1 /\ totalAccesses s = 1 /\
            hitRate s = 100%float /\ ratio_hit_rate s = 1%float /\
            hitRate s <> ratio_hit_rate s.
Proof.
  eexists. split; [vm_compute; reflexivity|].
  cbv zeta. repeat split; try (vm_compute; reflexivity).
  intros E.
  assert (Hb : PrimFloat.eqb 100%float 1%float = true).
  { vm_compute in E. rewrite E. reflexivity. }
  vm_compute in Hb. discriminate.
Qed.

End StatsClaims.

Module CodecClaims.
Import Codec CodecFacts.

(** C1, as amended.  For every byte sequence [x] shorter than 2^32 bytes
    (the header stores the original size in a [uint32_t]) and whatever the
    padding bytes of the header hold, decompressing the result of
    compressing [x] yields [x] again; the empty sequence and runs longer
    than 255 identical bytes are included. *)
Theorem compress_roundtrip (padding : nat -> byte) (x : list byte) :
  Z.of_nat (length x) < 2 ^ 32 ->
  decompress (compress padding x) = inr x.
Proof.
  intros Hlen. rewrite decompress_compress.
  apply Z.ltb_lt in Hlen. now rewrite Hlen.
Qed.

(** 300 times the byte 'A': a run longer than 255. *)
Definition long_run : list byte := replicate 300 "A"%byte.

Lemma compress_roundtrip_witness :
  Z.of_nat (length long_run) < 2 ^ 32 /\
  decompress (compress (fun _ => x00) long_run) = inr long_run.
Proof.
  split.
  - vm_compute. reflexivity.
  - apply (compress_roundtrip (fun _ => x00) long_run). vm_compute. reflexivity.
Defined.

Example compress_long_run :
  rleCompress long_run = [xff; "A"; "-"; "A"]%byte.
Proof. vm_compute. reflexivity. Qed.

Example compress_roundtrip_empty padding :
  decompress (compress padding []) = inr [].
Proof. apply compress_roundtrip. simpl. lia. Qed.

(** 2^32 zero bytes, a 4 GiB [std::string]. *)
Definition four_gib : list byte := replicate (Z.to_nat 4294967296) x00.

(** C1 as stated fails at [four_gib]: [originalSize] wraps to 0 and
    [decompress] throws "Decompressed size mismatch". *)
Lemma compress_roundtrip_fails_at_four_gib :
  decompress (compress (fun _ => x00) four_gib) = inl SizeMismatch.
Proof.
  rewrite decompress_compress. unfold four_gib.
  rewrite length_replicate. rewrite Z2Nat.id by lia. reflexivity.
Qed.

End CodecClaims.

(** ** LRU eviction on a cache whose entries are all pinned *)

Module LRUClaims.
Import EnhancedLRUCache LRUFacts.

(** The calls of the failing run: capacity 2, both residents pinned. *)
Definition pin_both : list (op Z string) :=
  [Put 1 "a"; Put 2 "b"; Pin 1; Pin 2]%string.

(** C4 at the failing input.  After [pin_both] the recency list is
    [2; 1] with both keys pinned; the loop of [evict] then rotates the two
    entries for ever: it has not returned after any number of iterations,
    and neither has the [put] that called it. *)
Theorem LRU_evict_loops_when_all_pinned :
  exists c, run pin_both (create 2) = Some c /\
            getKeys c = [2; 1] /\
            isPinned 1 c = true /\ isPinned 2 c = true /\
            (forall fuel, evict_loop fuel c = None) /\
            put 3 "c"%string c = None.
Proof.
  eexists. split; [vm_compute; reflexivity|].
  split; [reflexivity|]. split; [reflexivity|]. split; [reflexivity|].
  match goal with |- (forall fuel, evict_loop fuel ?c = None) /\ _ =>
    assert (Hd : forall fuel, evict_loop fuel c = None) end.
  { intros fuel. apply evict_loop_diverges.
    - unfold all_pinned. cbn [entries pinnedKeys].
      repeat constructor; cbn [key]; set_solver.
    - simpl. lia. }
  split; [exact Hd|]. vm_compute. reflexivity.
Qed.

End LRUClaims.

(** ** Caches constructed with capacity zero *)

Module ZeroCapacityClaims.
Section WithTypes.
Context {K : Type} `{Countable K} {V : Type}.

(** C5 at the failing input.  On an LRU, FIFO or LIFO cache constructed
    with capacity zero, [put(k, v)] leaves the entry resident and the
    next [get(k)] is a hit that returns [v]; only the LFU cache, whose
    [put] starts with [if (maxCapacity == 0) return;], keeps nothing. *)
Theorem zero_capacity_put_stays_resident (k : K) (v : V)
    (place : Z -> list Z -> nat) :
  (exists c, EnhancedLRUCache.put k v (EnhancedLRUCache.create 0) = Some c /\
             EnhancedLRUCache.size c = 1%nat /\
             EnhancedLRUCache.contains k c = true /\
             (EnhancedLRUCache.get k c).1 = Some v) /\
  (let c := FIFOCache.put k v (FIFOCache.create 0) in
   FIFOCache.size c = 1%nat /\ FIFOCache.contains k c = true /\
   (FIFOCache.get k c).1 = Some v) /\
  (let c := LIFOCache.put k v (LIFOCache.create 0) in
   LIFOCache.size c = 1%nat /\ LIFOCache.contains k c = true /\
   (LIFOCache.get k c).1 = Some v) /\
  (let c := LFUCache.put place k v (LFUCache.create 0) in
   LFUCache.size c = 0%nat /\ LFUCache.contains k c = false /\
   (LFUCache.get place k c).1 = None).
Proof.
  split; [|split; [|split]].
  - eexists. split; [reflexivity|].
    unfold EnhancedLRUCache.contains, EnhancedLRUCache.get,
      EnhancedLRUCache.size.
    cbn [EnhancedLRUCache.entries EnhancedLRUCache.insert_front
         EnhancedLRUCache.find new_entry key length].
    rewrite !(bool_decide_eq_true_2 (k = k) eq_refl).
    split; [reflexivity|]. split; [|reflexivity].
    apply bool_decide_eq_true_2. eauto.
  - cbv zeta. unfold FIFOCache.put, FIFOCache.create.
    cbn [FIFOCache.entries FIFOCache.maxCapacity].
    rewrite lookup_empty, map_size_empty. cbn [Nat.leb].
    unfold FIFOCache.evict, FIFOCache.insert_new, FIFOCache.size,
      FIFOCache.contains, FIFOCache.get.
    cbn [FIFOCache.evict_loop FIFOCache.entries FIFOCache.insertionOrder
         FIFOCache.maxCapacity FIFOCache.pinnedKeys FIFOCache.stats].
    rewrite lookup_insert_eq. split; [|split; [|reflexivity]].
    + now rewrite map_size_insert_None, map_size_empty by apply lookup_empty.
    + apply bool_decide_eq_true_2. eauto.
  - cbv zeta. unfold LIFOCache.put, LIFOCache.create.
    cbn [LIFOCache.entries LIFOCache.maxCapacity].
    rewrite lookup_empty, map_size_empty. cbn [Nat.leb].
    unfold LIFOCache.evict, LIFOCache.insert_new, LIFOCache.size,
      LIFOCache.contains, LIFOCache.get.
    cbn [LIFOCache.find_victim LIFOCache.pour LIFOCache.entries
         LIFOCache.insertionOrder LIFOCache.maxCapacity
         LIFOCache.pinnedKeys LIFOCache.stats].
    rewrite lookup_insert_eq. split; [|split; [|reflexivity]].
    + now rewrite map_size_insert_None, map_size_empty by apply lookup_empty.
    + apply bool_decide_eq_true_2. eauto.
  - cbv zeta. unfold LFUCache.put, LFUCache.create, LFUCache.size,
      LFUCache.contains, LFUCache.get.
    cbn [LFUCache.maxCapacity LFUCache.keyToEntry Nat.eqb].
    rewrite lookup_empty, map_size_empty. split; [reflexivity|].
    split; [|reflexivity].
    apply bool_decide_eq_false_2. intros [? ?]. discriminate.
Qed.
End WithTypes.
End ZeroCapacityClaims.

(** ** LFU eviction and the iteration order of the frequency table *)

Module LFUClaims.
Import LFUCache.

(** libstdc++, for the first frequencies of a table (it has not been
    rehashed and each of them has a bucket of its own): the node of a new
    frequency is linked at the front. *)
Definition libstdcxx_place (f : Z) (fs : list Z) : nat := O.

Definition lower_frequency {K : Type} (a b : Z * list K) : Prop := a.1 <= b.1.

#[export] Instance lower_frequency_dec {K : Type} (a b : Z * list K)
  : Decision (lower_frequency a b).
Proof. unfold lower_frequency. apply _. Defined.

(** The key the design document has [evict] remove: the buckets at or
    above [minFrequency] scanned in ascending frequency order, and in the
    first bucket that holds an unpinned key its earliest-inserted one. *)
Definition ascending_victim {K : Type} `{Countable K} {V : Type}
    (c : t K V) : option K :=
  let at_or_above :=
    filter (fun b : Z * list K => minFrequency c <= b.1) (frequencies c) in
  let ascending :=
    merge_sort lower_frequency at_or_above in
  (fun r : K * Z * list K * list (Z * list K) => r.1.1.1)
    <$> scan ascending (pinnedKeys c).

(** Capacity 1.  Key 1 is read twice (frequency 3) and pinned, key 2 is
    let in over capacity, key 1 is unpinned and key 2 removed. *)
Definition stale_minimum : list (op Z string) :=
  [Put 1 "a"; Get 1; Get 1; Pin 1; Put 2 "b"; Unpin 1; Remove 2]%string.

(** C2 at the failing input.  After [stale_minimum] the table holds, in
    iteration order, the buckets 3, 2, 1 with key 1 alone in bucket 3;
    [minFrequency] is 2 and nothing is pinned.  The ascending scan of the
    design document would evict key 1.  The loop of [evict] starts at the
    node of frequency 2 and walks on in iteration order, to the node of
    frequency 1 and the end of the table: it evicts nothing, and the next
    [put] leaves two entries in a cache of capacity 1. *)
Theorem LFU_evict_follows_table_order :
  exists c, run (I := LFU_interface libstdcxx_place) stale_minimum (create 1)
            = Some c /\
            frequencies c = [(3, [1]); (2, []); (1, [])] /\
            minFrequency c = 2 /\ size c = 1%nat /\ isPinned 1 c = false /\
            ascending_victim c = Some 1 /\
            evict c = c /\
            contains 1 (put libstdcxx_place 3 "c"%string c) = true /\
            size (put libstdcxx_place 3 "c"%string c) = 2%nat.
Proof.
  eexists. split; [vm_compute; reflexivity|].
  repeat split; vm_compute; reflexivity.
Qed.

(** With the nodes in ascending order the same calls do evict key 1. *)
Definition ascending_place (f : Z) (fs : list Z) : nat :=
  length (filter (fun x => x < f) fs).

Example LFU_evict_with_ascending_table :
  exists c, run (I := LFU_interface ascending_place) stale_minimum (create 1)
            = Some c /\
            frequencies c = [(1, []); (2, []); (3, [1])] /\
            ascending_victim c = Some 1 /\
            contains 1 (evict c) = false.
Proof.
  eexists. split; [vm_compute; reflexivity|].
  repeat split; vm_compute; reflexivity.
Qed.

(** The shorter run of the same defect: capacity 2, key 1 pinned in
    bucket 1, key 2 unpinned in bucket 2; the scan ends after bucket 1. *)
Example LFU_evict_stops_after_pinned_bucket :
  exists c, run (I := LFU_interface libstdcxx_place)
              [Put 1 "a"; Put 2 "b"; Get 2; Pin 1]%string (create 2)
            = Some c /\
            frequencies c = [(2, [2]); (1, [1])] /\
            ascending_victim c = Some 2 /\
            evict c = c.
Proof.
  eexists. split; [vm_compute; reflexivity|].
  repeat split; vm_compute; reflexivity.
Qed.

End LFUClaims.

(** ** Journal checkpoint *)

Module JournalClaims.
Import Journal.

(** [n] calls were made: the counter is at most [n] and every entry of the
    log carries a sequence number between 1 and the counter. *)
Definition numbered (n : Z) (j : t) : Prop :=
  0 <= currentSequence j <= n /\
  Forall (fun e => 1 <= sequenceNumber e <= currentSequence j) (entries j).

Lemma numbered_apply n c j :
  n + 1 < 2 ^ 64 -> numbered n j -> numbered (n + 1) (apply c j).
Proof.
  intros Hn [Hc Hall].
  assert (Hw : wrap64 (currentSequence j + 1) = currentSequence j + 1)
    by (unfold wrap64; apply Z.mod_small; lia).
  assert (Hweak : Forall (fun e => 1 <= sequenceNumber e
                                   <= currentSequence j + 1) (entries j))
    by (eapply Forall_impl; [exact Hall | simpl; intros; lia]).
  assert (Hkeep : numbered (n + 1) j).
  { split; [lia|]. exact Hall. }
  destruct c; simpl; try exact Hkeep.
  - split; [simpl; lia | constructor].
  - split; simpl; rewrite Hw; [lia|]. apply Forall_app. split; [exact Hweak|].
    repeat constructor; simpl; lia.
  - split; simpl; rewrite Hw; [lia|]. apply Forall_app. split; [exact Hweak|].
    repeat constructor; simpl; lia.
  - unfold commitTransaction. destruct (inTransaction j); exact Hkeep.
  - unfold rollbackTransaction. destruct (inTransaction j); exact Hkeep.
  - split; [simpl; lia | constructor].
Qed.

Lemma after_snoc calls c : after (calls ++ [c]) = apply c (after calls).
Proof. unfold after. now rewrite fold_left_app. Qed.

Lemma numbered_after calls :
  Z.of_nat (length calls) < 2 ^ 64 ->
  numbered (Z.of_nat (length calls)) (after calls).
Proof.
  induction calls as [|c calls IH] using rev_ind; intros Hlen.
  - unfold numbered, after. simpl. split; [lia | constructor].
  - rewrite length_app in *. simpl length in *.
    rewrite after_snoc.
    replace (Z.of_nat (length calls + 1)) with (Z.of_nat (length calls) + 1)
      in * by lia.
    apply numbered_apply; [lia|]. apply IH. lia.
Qed.

Lemma getEntries_all a b j :
  Forall (fun e => a <= sequenceNumber e <= b) (entries j) ->
  getEntries a b j = entries j.
Proof.
  unfold getEntries. induction 1 as [|e l He Hl IH]; [reflexivity|].
  rewrite filter_cons_True by exact He. now rewrite IH.
Qed.

(** C8, as amended.  [checkpoint()] does not truncate the log: it leaves
    the journal as it is, entries, sequence counter and transaction flag.
    For a journal built by fewer than 2^64 calls every entry has a sequence
    number at or below the counter, and all of them are still returned
    after the checkpoint. *)
Theorem checkpoint_keeps_the_log (calls : list call) :
  let j := after calls in
  entries (checkpoint j) = entries j /\
  getLastSequenceNumber (checkpoint j) = getLastSequenceNumber j /\
  inTransaction (checkpoint j) = inTransaction j /\
  (Z.of_nat (length calls) < 2 ^ 64 ->
   getEntries 0 (getLastSequenceNumber j) (checkpoint j) = entries j).
Proof.
  cbv zeta. repeat split. intros Hlen.
  destruct (numbered_after calls Hlen) as [_ Hall].
  apply getEntries_all. unfold checkpoint, getLastSequenceNumber.
  eapply Forall_impl; [exact Hall | simpl; intros; lia].
Qed.

Definition two_logged : list call :=
  [LogOperation []; BeginTransaction;
   LogEntry (mkEntry 0 WRITE_DATA [7] []); CommitTransaction].

Lemma checkpoint_keeps_the_log_witness :
  Z.of_nat (length two_logged) < 2 ^ 64 /\
  getEntries 0 (getLastSequenceNumber (after two_logged))
             (checkpoint (after two_logged))
  = entries (after two_logged).
Proof.
  split.
  - vm_compute. reflexivity.
  - apply (checkpoint_keeps_the_log two_logged). vm_compute. reflexivity.
Defined.

(** C8 as stated fails: after two entries were logged (the counter is 2),
    the journal after [checkpoint()] still holds the entry numbered 1. *)
Lemma checkpoint_does_not_truncate :
  let j := after two_logged in
  getLastSequenceNumber j = 2 /\
  exists e, e ∈ entries (checkpoint j) /\
            sequenceNumber e = 1 /\
            sequenceNumber e <= getLastSequenceNumber j.
Proof.
  cbv zeta. split; [reflexivity|].
  exists (mkEntry 1 UPDATE_METADATA [] []).
  split; [vm_compute; left | split; [reflexivity | vm_compute; discriminate]].
Qed.

End JournalClaims.

(** ** The glob matcher against the matching rules of the design document *)

Module GlobFacts.
Import Glob.

(** The rules as the design document words them: ['?'] matches exactly one
    character, ['*'] matches zero or more characters, any other character
    matches itself, and the whole file name must be covered. *)
Fixpoint glob_match (pattern : list ascii) : list ascii -> bool :=
  match pattern with
  | [] => fun filename => match filename with [] => true | _ => false end
  | x :: pattern' =>
      if bool_decide (x = "*"%char) then
        fix star (filename : list ascii) : bool :=
          glob_match pattern' filename
          || match filename with
             | [] => false
             | _ :: filename' => star filename'
             end
      else
        fun filename =>
          match filename with
          | [] => false
          | c :: filename' =>
              (bool_decide (x = "?"%char) || bool_decide (x = c))
              && glob_match pattern' filename'
          end
  end.

(** A pattern without wildcard matches the names it occurs in. *)
Definition is_substring (pattern filename : list ascii) : Prop :=
  exists before after, filename = before ++ pattern ++ after.

Definition has_wildcard (pattern : list ascii) : bool :=
  bool_decide ("*"%char ∈ pattern) || bool_decide ("?"%char ∈ pattern).

(** *** Equations of [glob_match] *)

Lemma glob_star p f :
  glob_match ("*"%char :: p) f =
  glob_match p f
  || match f with [] => false | _ :: f' => glob_match ("*"%char :: p) f' end.
Proof. destruct f; reflexivity. Qed.

Lemma glob_char x p c f :
  x <> "*"%char ->
  glob_match (x :: p) (c :: f) =
  (bool_decide (x = "?"%char) || bool_decide (x = c)) && glob_match p f.
Proof.
  intros Hx. cbn [glob_match]. now rewrite bool_decide_eq_false_2.
Qed.

Lemma glob_char_nil x p : x <> "*"%char -> glob_match (x :: p) [] = false.
Proof. intros Hx. cbn [glob_match]. now rewrite bool_decide_eq_false_2. Qed.

Arguments glob_match : simpl never.

(** A star can absorb any prefix of the name. *)
Lemma glob_star_drop p f j :
  glob_match ("*"%char :: p) (drop j f) = true ->
  glob_match ("*"%char :: p) f = true.
Proof.
  revert f. induction j as [|j IH]; intros f Hm; [now rewrite drop_0 in Hm|].
  destruct f as [|c f]; [exact Hm|].
  rewrite glob_star. rewrite (IH f Hm). apply orb_true_r.
Qed.

Lemma glob_star_inv p f :
  glob_match ("*"%char :: p) f = true ->
  exists j, (j <= length f)%nat /\ glob_match p (drop j f) = true.
Proof.
  induction f as [|c f IH]; rewrite glob_star; intros Hm.
  - rewrite orb_false_r in Hm. exists O. split; [simpl; lia | exact Hm].
  - apply orb_true_iff in Hm as [Hm|Hm].
    + exists O. split; [simpl; lia | exact Hm].
    + destruct (IH Hm) as (j & Hj & Hd). exists (S j).
      split; [simpl; lia | exact Hd].
Qed.

Definition all_stars (p : list ascii) : Prop := Forall (fun x => x = "*"%char) p.

Lemma glob_nil p : glob_match p [] = true <-> all_stars p.
Proof.
  induction p as [|x p IH].
  - split; [constructor | reflexivity].
  - destruct (decide (x = "*"%char)) as [->|Hx].
    + rewrite glob_star, orb_false_r, IH. split.
      * intros Hp. now constructor.
      * intros Hp. now inversion Hp.
    + rewrite glob_char_nil by exact Hx. split; [discriminate|].
      intros Hp. inversion Hp. contradiction.
Qed.

(** *** Star-free pieces of the pattern *)

(** [q] has no star and matches [u] character by character. *)
Definition lit_match (q u : list ascii) : Prop :=
  Forall2 (fun x c => x <> "*"%char /\ (x = "?"%char \/ x = c)) q u.

Lemma lit_match_length q u : lit_match q u -> length q = length u.
Proof. apply Forall2_length. Qed.

Lemma lit_match_snoc q u x c :
  lit_match q u -> x <> "*"%char -> (x = "?"%char \/ x = c) ->
  lit_match (q ++ [x]) (u ++ [c]).
Proof.
  intros Hq Hx Hc. apply Forall2_app; [exact Hq|].
  constructor; [split; assumption | constructor].
Qed.

Lemma glob_lit q u r t :
  lit_match q u -> glob_match (q ++ r) (u ++ t) = glob_match r t.
Proof.
  induction 1 as [|x c q u [Hx Hc] Hq IH]; [reflexivity|].
  rewrite <- !app_comm_cons, glob_char by exact Hx. rewrite IH.
  destruct Hc as [->| ->].
  - now rewrite bool_decide_eq_true_2.
  - rewrite (bool_decide_eq_true_2 (c = c)) by reflexivity.
    now rewrite orb_true_r.
Qed.

(** A star-free piece consumes as many characters as it has. *)
Lemma glob_lit_inv q r w :
  Forall (fun x => x <> "*"%char) q ->
  glob_match (q ++ r) w = true ->
  (length q <= length w)%nat /\ glob_match r (drop (length q) w) = true.
Proof.
  intros Hq. revert w. induction Hq as [|x q Hx Hq IH]; intros w Hm.
  - simpl. split; [lia | exact Hm].
  - rewrite <- app_comm_cons in Hm. destruct w as [|c w].
    + now rewrite glob_char_nil in Hm.
    + rewrite glob_char in Hm by exact Hx.
      apply andb_true_iff in Hm as [_ Hm].
      destruct (IH w Hm) as [Hl Hd]. simpl. split; [lia | exact Hd].
Qed.

Lemma lit_match_star_free q u :
  lit_match q u -> Forall (fun x => x <> "*"%char) q.
Proof. induction 1 as [|x c q u [Hx _] _ IH]; constructor; assumption. Qed.

(** A second star makes the position of the first one irrelevant. *)
Lemma glob_two_stars q u r t :
  lit_match q u ->
  glob_match ("*"%char :: q ++ "*"%char :: r) (u ++ t)
  = glob_match ("*"%char :: r) t.
Proof.
  intros Hq. apply eq_true_iff_eq. split; intros Hm.
  - apply glob_star_inv in Hm as (j & Hj & Hm).
    apply glob_lit_inv in Hm as [Hl Hm];
      [|exact (lit_match_star_free _ _ Hq)].
    rewrite drop_drop in Hm. rewrite length_drop in Hl.
    rewrite (lit_match_length _ _ Hq) in Hm, Hl.
    replace (j + length u)%nat with (length u + j)%nat in Hm by lia.
    rewrite drop_app_add in Hm. exact (glob_star_drop _ _ _ Hm).
  - rewrite glob_star. rewrite (glob_lit _ _ _ _ Hq), Hm. reflexivity.
Qed.

(** At the end of the name only stars may be left of the pattern. *)
Lemma glob_star_end q u r :
  lit_match q u ->
  glob_match ("*"%char :: q ++ r) u = true <-> all_stars r.
Proof.
  intros Hq. split; intros Hm.
  - apply glob_star_inv in Hm as (j & Hj & Hm).
    apply glob_lit_inv in Hm as [Hl Hm];
      [|exact (lit_match_star_free _ _ Hq)].
    rewrite length_drop in Hl. rewrite (lit_match_length _ _ Hq) in Hm, Hl.
    rewrite drop_drop in Hm. rewrite drop_ge in Hm by lia.
    now apply glob_nil.
  - rewrite glob_star. rewrite <- (app_nil_r u) at 1.
    rewrite (glob_lit _ _ _ _ Hq). apply glob_nil in Hm. now rewrite Hm.
Qed.

(** *** The loop of [matchesPattern] *)

Lemma lookup_split {A : Type} (l1 l2 : list A) i :
  i = length l1 -> (l1 ++ l2) !! i = head l2.
Proof.
  intros ->. rewrite lookup_app_r by lia. rewrite Nat.sub_diag.
  now destruct l2.
Qed.

(** What the variables of the loop stand for.  Without a star so far, the
    pattern and the name were read in step; after a star at [starIdx] the
    star-free piece [q] behind it matches the name from [matchPos] on, and
    the answer is that of the pattern from the star on against the name
    from [matchPos] on. *)
Definition inv (F P : list ascii) (s : vars) : Prop :=
  match starIdx s with
  | None =>
      exists q r u t,
        P = q ++ r /\ F = u ++ t /\ lit_match q u /\
        patternPos s = length q /\ filenamePos s = length u /\
        matchPos s = O
  | Some si =>
      exists a q r b u t,
        P = a ++ "*"%char :: q ++ r /\ F = b ++ u ++ t /\ lit_match q u /\
        glob_match P F = glob_match ("*"%char :: q ++ r) (u ++ t) /\
        si = length a /\ patternPos s = (length a + 1 + length q)%nat /\
        matchPos s = length b /\
        filenamePos s = (length b + length u)%nat
  end.

(** The quantity that every iteration decreases. *)
Definition measure (F P : list ascii) (s : vars) : nat :=
  (length F - matchPos s) * S (length P) + (length P - patternPos s).

(** The pattern from [patternPos] on cannot match the next character. *)
Definition stuck (r : list ascii) (c : ascii) : Prop :=
  match r with
  | [] => True
  | x :: _ => x <> "*"%char /\ x <> "?"%char /\ x <> c
  end.

Lemma glob_stuck r c t : stuck r c -> glob_match r (c :: t) = false.
Proof.
  destruct r as [|x r]; [reflexivity|]. intros (Hs & Hq & Hc).
  rewrite glob_char by exact Hs.
  now rewrite !bool_decide_eq_false_2.
Qed.

(** The three ways an iteration can go, read off the next characters. *)
Lemma next_cases (r : list ascii) (c : ascii) :
  c <> "*"%char ->
  (exists x r', r = x :: r' /\ x <> "*"%char /\ (x = "?"%char \/ x = c)) \/
  (exists r', r = "*"%char :: r') \/
  stuck r c.
Proof.
  intros Hc. destruct r as [|x r']; [right; right; exact I|].
  destruct (decide (x = "*"%char)) as [->|Hs]; [right; left; eauto|].
  destruct (decide (x = "?"%char)) as [->|Hq]; [left; eauto 6|].
  destruct (decide (x = c)) as [->|Hx]; [left; eauto 6|].
  right; right. repeat split; assumption.
Qed.

Lemma glob_step_advance F P s x c :
  P !! patternPos s = Some x -> F !! filenamePos s = Some c ->
  x = "?"%char \/ x = c ->
  glob_step F P s =
  Some (mk (S (patternPos s)) (S (filenamePos s)) (starIdx s) (matchPos s)).
Proof.
  intros HP HF Hx. unfold glob_step. rewrite HP, HF.
  rewrite bool_decide_eq_true_2 by (apply lookup_lt_is_Some; eauto).
  destruct Hx as [->| ->].
  - rewrite (bool_decide_eq_true_2 (Some "?"%char = Some "?"%char)) by reflexivity.
    now rewrite orb_true_r.
  - now rewrite (bool_decide_eq_true_2 (Some c = Some c)) by reflexivity.
Qed.

Lemma glob_step_star F P s c :
  P !! patternPos s = Some "*"%char -> F !! filenamePos s = Some c ->
  c <> "*"%char ->
  glob_step F P s =
  Some (mk (S (patternPos s)) (filenamePos s) (Some (patternPos s))
           (filenamePos s)).
Proof.
  intros HP HF Hc. unfold glob_step. rewrite HP, HF.
  rewrite bool_decide_eq_true_2 by (apply lookup_lt_is_Some; eauto).
  rewrite (bool_decide_eq_false_2 (Some "*"%char = Some c)) by congruence.
  rewrite (bool_decide_eq_false_2 (Some "*"%char = Some "?"%char)) by discriminate.
  now rewrite (bool_decide_eq_true_2 (Some "*"%char = Some "*"%char)) by reflexivity.
Qed.

Lemma glob_step_stuck F P s r c :
  P !! patternPos s = head r ->
  F !! filenamePos s = Some c -> stuck r c ->
  glob_step F P s =
  match starIdx s with
  | Some star =>
      Some (mk (S star) (S (matchPos s)) (starIdx s) (S (matchPos s)))
  | None => None
  end.
Proof.
  intros HP HF Hst. unfold glob_step.
  destruct r as [|x r]; cbn [head] in HP; rewrite HP, HF.
  - rewrite (bool_decide_eq_false_2 (None = Some c)) by discriminate.
    rewrite (bool_decide_eq_false_2 (None = Some "?"%char)) by discriminate.
    rewrite (bool_decide_eq_false_2 (None = Some "*"%char)) by discriminate.
    now rewrite !andb_false_r.
  - destruct Hst as (Hs & Hq & Hc).
    rewrite (bool_decide_eq_false_2 (Some x = Some c)) by congruence.
    rewrite (bool_decide_eq_false_2 (Some x = Some "?"%char)) by congruence.
    rewrite (bool_decide_eq_false_2 (Some x = Some "*"%char)) by congruence.
    now rewrite !andb_false_r.
Qed.

(** One iteration keeps the invariant and decreases the measure, or
    returns [false] on a name the rules reject. *)
Lemma glob_step_inv F P s :
  "*"%char ∉ F -> inv F P s -> (filenamePos s < length F)%nat ->
  match glob_step F P s with
  | None => glob_match P F = false
  | Some s' => inv F P s' /\ (measure F P s' < measure F P s)%nat
  end.
Proof.
  intros Hstar Hinv Hfp. destruct s as [pp fp [si|] mt];
    unfold inv in Hinv; cbn [starIdx patternPos filenamePos matchPos] in *.
  - (* after a star *)
    destruct Hinv as (a & q & r & b & u & t & HP & HF & Hq & HG & -> & -> & -> & ->).
    assert (Ht : exists c t', t = c :: t').
    { destruct t as [|c t']; [|eauto]. subst F.
      rewrite !length_app in Hfp. simpl in Hfp. lia. }
    destruct Ht as (c & t' & ->).
    assert (Hc : c <> "*"%char).
    { intros ->. apply Hstar. subst F. set_solver. }
    assert (HPl : P !! (length a + 1 + length q)%nat = head r).
    { subst P. replace (a ++ "*"%char :: q ++ r)
        with ((a ++ "*"%char :: q) ++ r) by (now rewrite <- app_assoc).
      apply lookup_split. rewrite length_app. simpl. lia. }
    assert (HFl : F !! (length b + length u)%nat = Some c).
    { subst F. rewrite app_assoc. rewrite lookup_split; [reflexivity|].
      now rewrite length_app. }
    assert (HlenP : length P = (length a + 1 + length q + length r)%nat).
    { subst P. rewrite !length_app. simpl. rewrite length_app. lia. }
    assert (HlenF : length F = (length b + length u + S (length t'))%nat).
    { subst F. rewrite !length_app. simpl. lia. }
    destruct (next_cases r c Hc) as [(x & r' & -> & Hx & Hxc)|[(r' & ->)|Hst]].
    + rewrite (glob_step_advance F P (mk _ _ _ _) x c HPl HFl Hxc).
      cbn [patternPos filenamePos starIdx matchPos]. split.
      * unfold inv. cbn [starIdx patternPos filenamePos matchPos].
        exists a, (q ++ [x]), r', b, (u ++ [c]), t'.
        rewrite <- !app_assoc. simpl. rewrite !length_app. simpl.
        repeat split; try assumption; try lia.
        now apply lit_match_snoc.
      * unfold measure. cbn [patternPos matchPos]. simpl in HlenP. lia.
    + rewrite (glob_step_star F P (mk _ _ _ _) c HPl HFl Hc).
      cbn [patternPos filenamePos starIdx matchPos]. split.
      * unfold inv. cbn [starIdx patternPos filenamePos matchPos].
        exists (a ++ "*"%char :: q), [], r', (b ++ u), [], (c :: t').
        rewrite <- !app_assoc. simpl. rewrite !length_app. simpl.
        repeat split; try assumption; try lia; try constructor.
        rewrite HG. apply (glob_two_stars _ _ _ _ Hq).
      * unfold measure. cbn [patternPos matchPos]. simpl in HlenP. nia.
    + rewrite (glob_step_stuck F P (mk _ _ _ _) r c HPl HFl Hst).
      cbn [patternPos filenamePos starIdx matchPos]. split.
      * assert (Hw : exists c0 w, u ++ c :: t' = c0 :: w)
          by (destruct u; simpl; eauto).
        destruct Hw as (c0 & w & Hw).
        unfold inv. cbn [starIdx patternPos filenamePos matchPos].
        exists a, [], (q ++ r), (b ++ [c0]), [], w.
        simpl. rewrite !length_app. simpl.
        repeat split; try assumption; try lia; try constructor.
        -- rewrite <- app_assoc. simpl. now rewrite <- Hw.
        -- rewrite HG, Hw, glob_star, <- Hw.
           rewrite (glob_lit _ _ _ _ Hq), (glob_stuck _ _ _ Hst). reflexivity.
      * unfold measure. cbn [patternPos matchPos]. nia.
  - (* no star so far *)
    destruct Hinv as (q & r & u & t & HP & HF & Hq & -> & -> & ->).
    assert (Ht : exists c t', t = c :: t').
    { destruct t as [|c t']; [|eauto]. subst F.
      rewrite !length_app in Hfp. simpl in Hfp. lia. }
    destruct Ht as (c & t' & ->).
    assert (Hc : c <> "*"%char).
    { intros ->. apply Hstar. subst F. set_solver. }
    assert (HPl : P !! length q = head r) by (subst P; now apply lookup_split).
    assert (HFl : F !! length u = Some c)
      by (subst F; now rewrite lookup_split).
    assert (HlenP : length P = (length q + length r)%nat)
      by (subst P; now rewrite length_app).
    destruct (next_cases r c Hc) as [(x & r' & -> & Hx & Hxc)|[(r' & ->)|Hst]].
    + rewrite (glob_step_advance F P (mk _ _ _ _) x c HPl HFl Hxc).
      cbn [patternPos filenamePos starIdx matchPos]. split.
      * unfold inv. cbn [starIdx patternPos filenamePos matchPos].
        exists (q ++ [x]), r', (u ++ [c]), t'.
        rewrite <- !app_assoc. simpl. rewrite !length_app. simpl.
        repeat split; try assumption; try lia.
        now apply lit_match_snoc.
      * unfold measure. cbn [patternPos matchPos]. simpl in HlenP. lia.
    + rewrite (glob_step_star F P (mk _ _ _ _) c HPl HFl Hc).
      cbn [patternPos filenamePos starIdx matchPos]. split.
      * unfold inv. cbn [starIdx patternPos filenamePos matchPos].
        exists q, [], r', u, [], (c :: t').
        simpl. repeat split; try assumption; try lia; try constructor.
        subst P F. apply (glob_lit _ _ _ _ Hq).
      * unfold measure. cbn [patternPos matchPos]. simpl in HlenP. nia.
    + rewrite (glob_step_stuck F P (mk _ _ _ _) r c HPl HFl Hst).
      cbn [starIdx]. subst P F.
      rewrite (glob_lit _ _ _ _ Hq). apply (glob_stuck _ _ _ Hst).
Qed.

(** The loop returns within [measure] iterations. *)
Lemma glob_loop_inv F P :
  "*"%char ∉ F ->
  forall fuel s, inv F P s -> (measure F P s < fuel)%nat ->
  exists res, glob_loop fuel F P s = Some res /\
    match res with
    | None => glob_match P F = false
    | Some s' => inv F P s' /\ (length F <= filenamePos s')%nat
    end.
Proof.
  intros Hstar. induction fuel as [|fuel IH]; intros s Hinv Hm; [lia|].
  cbn [glob_loop]. destruct (filenamePos s <? length F)%nat eqn:E.
  - apply Nat.ltb_lt in E.
    pose proof (glob_step_inv F P s Hstar Hinv E) as Hs.
    destruct (glob_step F P s) as [s'|].
    + destruct Hs as [Hinv' Hlt]. apply IH; [exact Hinv' | lia].
    + exists None. split; [reflexivity | exact Hs].
  - apply Nat.ltb_ge in E. exists (Some s). split; [reflexivity|].
    split; assumption.
Qed.

Lemma glob_loop_fuel F P :
  "*"%char ∉ F ->
  is_Some (glob_loop (glob_fuel F P) F P (mk 0 0 None 0)).
Proof.
  intros Hstar.
  destruct (glob_loop_inv F P Hstar (glob_fuel F P) (mk 0 0 None 0))
    as (res & Hres & _).
  - exists [], P, [], F. repeat split; constructor.
  - unfold measure, glob_fuel. simpl. lia.
  - rewrite Hres. eauto.
Qed.

Lemma skip_stars_bounds r k :
  (k <= skip_stars r k <= k + length r)%nat.
Proof.
  revert k. induction r as [|c r IH]; intros k; simpl; [lia|].
  case_bool_decide; [|lia]. specialize (IH (S k)). lia.
Qed.

Lemma skip_stars_all r k :
  skip_stars r k = (k + length r)%nat <-> all_stars r.
Proof.
  revert k. induction r as [|c r IH]; intros k; simpl.
  - split; [constructor | lia].
  - case_bool_decide as Hc.
    + subst c. split.
      * intros Hs. constructor; [reflexivity|]. apply (IH (S k)). lia.
      * intros Hs. apply Forall_cons in Hs as [_ Hs].
        apply (IH (S k)) in Hs. lia.
    + split; [lia|]. intros Hs. inversion Hs. contradiction.
Qed.

(** When the loop is left, the trailing test decides the match. *)
Lemma glob_exit F P s :
  inv F P s -> (length F <= filenamePos s)%nat ->
  skip_stars (drop (patternPos s) P) (patternPos s) = length P
  <-> glob_match P F = true.
Proof.
  intros Hinv Hfp. destruct s as [pp fp [si|] mt];
    unfold inv in Hinv; cbn [starIdx patternPos filenamePos matchPos] in *.
  - destruct Hinv as (a & q & r & b & u & t & HP & HF & Hq & HG & -> & -> & -> & ->).
    assert (t = []) as ->.
    { destruct t; [reflexivity|]. subst F.
      rewrite !length_app in Hfp. simpl in Hfp. lia. }
    rewrite HG, app_nil_r, (glob_star_end _ _ _ Hq).
    assert (Hl : length (a ++ "*"%char :: q) = (length a + 1 + length q)%nat)
      by (rewrite length_app; simpl; lia).
    rewrite <- Hl. clear HG. subst P.
    replace (a ++ "*"%char :: q ++ r) with ((a ++ "*"%char :: q) ++ r)
      by (now rewrite <- app_assoc).
    rewrite drop_app_length, (length_app (a ++ "*"%char :: q) r).
    apply skip_stars_all.
  - destruct Hinv as (q & r & u & t & HP & HF & Hq & -> & -> & ->).
    assert (t = []) as ->.
    { destruct t; [reflexivity|]. subst F.
      rewrite !length_app in Hfp. simpl in Hfp. lia. }
    subst P F. rewrite (glob_lit _ _ _ _ Hq), glob_nil.
    rewrite drop_app_length, length_app. apply skip_stars_all.
Qed.

(** With a wildcard in the pattern and no star in the name, the code
    computes [glob_match]. *)
Lemma matches_glob F P :
  "*"%char ∉ F -> has_wildcard P = true -> matches F P = glob_match P F.
Proof.
  intros Hstar Hw. unfold matches. unfold has_wildcard in Hw. rewrite Hw.
  destruct (glob_loop_inv F P Hstar (glob_fuel F P) (mk 0 0 None 0))
    as (res & Hres & Hpost).
  - exists [], P, [], F. repeat split; constructor.
  - unfold measure, glob_fuel. simpl. lia.
  - rewrite Hres. destruct res as [s|].
    + destruct Hpost as [Hinv Hfp].
      pose proof (glob_exit F P s Hinv Hfp) as Hx.
      destruct (glob_match P F).
      * apply bool_decide_eq_true_2. now apply Hx.
      * apply bool_decide_eq_false_2. intros Hs. apply Hx in Hs. discriminate.
    + now rewrite Hpost.
Qed.

(** [std::string::find] finds the pattern exactly in the names that
    contain it. *)
Lemma find_is_substring P F : is_Some (find P F) <-> is_substring P F.
Proof.
  split.
  - induction F as [|c F IH]; simpl; case_bool_decide as Ht.
    + intros _. exists [], []. simpl. rewrite app_nil_r.
      now rewrite take_nil in Ht.
    + intros [? ?]. discriminate.
    + intros _. exists [], (drop (length P) (c :: F)).
      simpl app. rewrite <- Ht at 1. now rewrite take_drop.
    + intros Hf. destruct (find P F) as [i|] eqn:E;
        [|destruct Hf; discriminate].
      destruct (IH ltac:(eauto)) as (before & after & ->).
      now exists (c :: before), after.
  - intros (before & after & ->).
    induction before as [|c before IH].
    + simpl app. destruct (P ++ after) eqn:E; simpl;
        (rewrite bool_decide_eq_true_2; [eauto|]);
        rewrite <- E; now rewrite take_app_length.
    + simpl. case_bool_decide; [eauto|].
      destruct IH as [i ->]. simpl. eauto.
Qed.

Lemma matches_substring F P :
  has_wildcard P = false -> (matches F P = true <-> is_substring P F).
Proof.
  intros Hw. unfold matches. unfold has_wildcard in Hw. rewrite Hw.
  rewrite bool_decide_eq_true. apply find_is_substring.
Qed.

End GlobFacts.

Module GlobClaims.
Import Glob GlobFacts.

(** C9.  For every pattern and every file name that [findFiles] can pass
    to the matcher: if the pattern contains ['*'] or ['?'], the name
    matches exactly when the glob rules accept it (['?'] one character,
    ['*'] zero or more, the whole name covered); if the pattern contains
    no wildcard, the name matches exactly when the pattern occurs in it as
    a substring.  [matchesPattern] is private and [findFiles], its only
    caller, passes the names that [_findfirst] and [_findnext] list; a
    file name of the target platform contains no ['*'], which is the
    hypothesis on the name in the first part. *)
Theorem matchesPattern_spec (filename pattern : string) :
  let F := list_ascii_of_string filename in
  let P := list_ascii_of_string pattern in
  (has_wildcard P = true -> "*"%char ∉ F ->
   matchesPattern filename pattern = glob_match P F) /\
  (has_wildcard P = false ->
   (matchesPattern filename pattern = true <-> is_substring P F)).
Proof.
  cbv zeta. split.
  - intros Hw Hstar. now apply matches_glob.
  - intros Hw. now apply matches_substring.
Qed.

Lemma matchesPattern_spec_witness :
  (has_wildcard (list_ascii_of_string "*.t?t") = true /\
   ("*"%char ∉ list_ascii_of_string "notes.txt") /\
   matchesPattern "notes.txt" "*.t?t"
   = glob_match (list_ascii_of_string "*.t?t") (list_ascii_of_string "notes.txt")) /\
  (has_wildcard (list_ascii_of_string "tes") = false /\
   (matchesPattern "notes.txt" "tes" = true
    <-> is_substring (list_ascii_of_string "tes")
                     (list_ascii_of_string "notes.txt"))).
Proof.
  assert (Hs : "*"%char ∉ list_ascii_of_string "notes.txt").
  { cbn [list_ascii_of_string]. intros Hin.
    repeat (apply elem_of_cons in Hin as [Hin|Hin]; [discriminate|]).
    inversion Hin. }
  split.
  - split; [vm_compute; reflexivity|]. split; [exact Hs|].
    apply (proj1 (matchesPattern_spec "notes.txt" "*.t?t"));
      [vm_compute; reflexivity | exact Hs].
  - split; [vm_compute; reflexivity|].
    apply (proj2 (matchesPattern_spec "notes.txt" "tes")).
    vm_compute. reflexivity.
Defined.

Example matchesPattern_examples :
  matchesPattern "notes.txt" "*.t?t" = true /\
  matchesPattern "notes.txt" "*.txt.bak" = false /\
  matchesPattern "notes.txt" "tes" = true /\
  matchesPattern "a" "" = true /\
  matchesPattern "abcabd" "*ab?" = true.
Proof. repeat split; vm_compute; reflexivity. Qed.

(** Why the hypothesis on the name is there: the loop compares the
    characters before it looks for a star, so a star in the name would be
    read as a literal.  The pattern "*a" covers the string "*ba" (the
    star absorbs "*b"), but the loop takes the two leading stars as equal
    characters and returns [false] at 'b'.  No directory listing of the
    target platform yields such a name. *)
Lemma matchesPattern_star_in_name :
  has_wildcard (list_ascii_of_string "*a") = true /\
  glob_match (list_ascii_of_string "*a") (list_ascii_of_string "*ba") = true /\
  matchesPattern "*ba" "*a" = false.
Proof. repeat split; vm_compute; reflexivity. Qed.

End GlobClaims.

(** ** The coordinator: authentication, and the cache after a delete *)

Module FileSystemFacts.
Import FileSystem.

Section WithPlace.
Variable place : Z -> list Z -> nat.

(** A lookup in a cache that was just cleared misses, whatever the
    policy, and counts one miss. *)
Lemma get_after_clear (m : CacheManager.t string string) (k : string) :
  exists m',
    CacheManager.get place k (CacheManager.clear m) = (None, m') /\
    CacheManager.size m' = O /\
    Stats.misses (CacheManager.getStatistics m')
    = wrap64 (Stats.misses
                (CacheManager.getStatistics (CacheManager.clear m)) + 1) /\
    Stats.hits (CacheManager.getStatistics m')
    = Stats.hits (CacheManager.getStatistics (CacheManager.clear m)) /\
    forall v, exists m'',
      CacheManager.put place k v m' = Some m'' /\
      CacheManager.getStatistics m'' = CacheManager.getStatistics m'.
Proof.
  destruct m as [cap pol [c|c|c|c]];
    unfold CacheManager.clear, CacheManager.get, CacheManager.put,
      CacheManager.size, CacheManager.getStatistics, CacheManager.with_cache;
    cbn [CacheManager.cache CacheManager.cacheCapacity
         CacheManager.currentPolicy].
  - eexists. split; [reflexivity|]. cbn.
    repeat split; try reflexivity.
    intros v. unfold EnhancedLRUCache.put. cbn.
    destruct (EnhancedLRUCache.maxCapacity c); cbn; eauto.
  - unfold LFUCache.get. cbn. rewrite lookup_empty. cbn.
    eexists. split; [reflexivity|]. cbn.
    rewrite map_size_empty. repeat split; eauto.
    intros v. eexists. split; [reflexivity|].
    unfold LFUCache.put. cbn. destruct (LFUCache.maxCapacity c); cbn;
      [reflexivity|]. rewrite lookup_empty, map_size_empty. cbn.
    reflexivity.
  - unfold FIFOCache.get. cbn. rewrite lookup_empty. cbn.
    eexists. split; [reflexivity|]. cbn.
    rewrite map_size_empty. repeat split; eauto.
    intros v. eexists. split; [reflexivity|].
    unfold FIFOCache.put. cbn. rewrite lookup_empty, map_size_empty.
    destruct (FIFOCache.maxCapacity c); reflexivity.
  - unfold LIFOCache.get. cbn. rewrite lookup_empty. cbn.
    eexists. split; [reflexivity|]. cbn.
    rewrite map_size_empty. repeat split; eauto.
    intros v. eexists. split; [reflexivity|].
    unfold LIFOCache.put. cbn. rewrite lookup_empty, map_size_empty.
    destruct (LIFOCache.maxCapacity c); reflexivity.
Qed.

Lemma contains_after_clear (m : CacheManager.t string string) (k : string) :
  CacheManager.contains k (CacheManager.clear m) = false /\
  CacheManager.size (CacheManager.clear m) = O.
Proof.
  destruct m as [cap pol [c|c|c|c]];
    unfold CacheManager.clear, CacheManager.contains, CacheManager.size;
    cbn; split; try reflexivity; try apply map_size_empty;
    apply bool_decide_eq_false_2; rewrite ?lookup_empty;
    intros [? ?]; discriminate.
Qed.

(** [saveMetadata] touches the host only. *)
Lemma saveMetadata_frame fs :
  rootPath (saveMetadata fs) = rootPath fs /\
  enhancedCache (saveMetadata fs) = enhancedCache fs /\
  stats (saveMetadata fs) = stats fs /\
  authManager (saveMetadata fs) = authManager fs.
Proof.
  unfold saveMetadata. destruct (Host.open_truncate _ _); repeat split.
Qed.

(** What a successful [deleteFile] tells about the state it leaves. *)
Lemma deleteFile_true p fs fs' :
  deleteFile p fs = (inr true, fs') ->
  enhancedCache fs' = CacheManager.clear (enhancedCache fs) /\
  rootPath fs' = rootPath fs /\ stats fs' = stats fs /\
  authManager fs' = authManager fs /\
  not_logged_in fs = false /\
  match authManager fs with
  | None => True
  | Some a =>
      negb (bool_decide (""%string = AuthManager.getCurrentUser a))
      && negb (AuthManager.isAdmin (AuthManager.getCurrentUser a) a) = false
  end.
Proof.
  unfold deleteFile. destruct (not_logged_in fs) eqn:Hl; [discriminate|].
  destruct (check_owner p fs) as [e|] eqn:Hc; [discriminate|].
  destruct (negb (exists_ p fs)); [discriminate|].
  destruct (Host.unlink _ _) as [h|]; [|discriminate].
  intros Heq. injection Heq as <-.
  cbn [enhancedCache rootPath stats authManager fileMetadataMap with_host
       with_cache].
  match goal with |- context [saveMetadata ?x] =>
    pose proof (saveMetadata_frame x) as (Hr & Hcache & Hs & Ha) end.
  rewrite Hr, Hcache, Hs, Ha. cbn.
  repeat split.
  unfold check_owner, getFileInfo, getMetadata in Hc.
  destruct (authManager fs) as [a|]; [|exact I].
  destruct (host fs !! fullPath p fs); [|discriminate].
  cbn [owner] in Hc.
  match type of Hc with (if ?b then _ else _) = _ => destruct b end;
    [discriminate | reflexivity].
Qed.

End WithPlace.
End FileSystemFacts.

Module FileSystemClaims.
Import FileSystem FileSystemFacts.

(** C10.  After a successful [deleteFile(p)] the read cache is empty: it
    holds no path [q] at all.  For every path [q] that is a readable file
    on the host after the delete, the next [readFile(q)] returns, misses
    the cache (one more cache miss in the coordinator's and in the cache's
    statistics, no hit) and returns the content loaded from the host. *)
Theorem deleteFile_clears_whole_cache (place : Z -> list Z -> nat)
    (fs fs' : FileSystem.t) (p q data : string) :
  deleteFile p fs = (inr true, fs') ->
  Host.read (fullPath q fs') (host fs') = Some data ->
  CacheManager.size (enhancedCache fs') = O /\
  CacheManager.contains q (enhancedCache fs') = false /\
  exists fs'',
    readFile place q fs' = Some (inr data, fs'') /\
    cacheMisses (stats fs'') = wrap64 (cacheMisses (stats fs') + 1) /\
    cacheHits (stats fs'') = cacheHits (stats fs') /\
    Stats.misses (CacheManager.getStatistics (enhancedCache fs''))
    = wrap64 (Stats.misses (CacheManager.getStatistics (enhancedCache fs')) + 1) /\
    Stats.hits (CacheManager.getStatistics (enhancedCache fs''))
    = Stats.hits (CacheManager.getStatistics (enhancedCache fs')).
Proof.
  intros Hdel Hread.
  destruct (deleteFile_true p fs fs' Hdel) as (Hcache & Hroot & Hstats & Hauth & Hlog & Hown).
  destruct (contains_after_clear (enhancedCache fs) q) as [Hcont Hsize].
  rewrite Hcache. split; [exact Hsize|]. split; [exact Hcont|].
  destruct (get_after_clear place (enhancedCache fs) q)
    as (m' & Hget & _ & Hmiss & Hhit & Hput).
  destruct (Hput data) as (m'' & Hput' & Hst).
  assert (Hnode : exists mode, host fs' !! fullPath q fs' = Some (Host.File data mode)).
  { unfold Host.read in Hread.
    destruct (host fs' !! fullPath q fs') as [[c mode|mode]|] eqn:E;
      try discriminate. injection Hread as ->. eauto. }
  destruct Hnode as [mode Hnode].
  unfold readFile.
  assert (Hlog' : not_logged_in fs' = false)
    by (unfold not_logged_in in *; now rewrite Hauth).
  rewrite Hlog'.
  assert (Hck : check_owner q fs' = None).
  { unfold check_owner, getFileInfo, getMetadata. rewrite Hauth.
    destruct (authManager fs) as [a|]; [|reflexivity].
    rewrite Hnode. cbn [owner]. now rewrite Hown. }
  rewrite Hck, Hcache, Hget. cbn [fst snd].
  assert (Hex : forall s c, exists_ q (with_stats s (with_cache c fs')) = true).
  { intros s c. unfold exists_, fullPath, with_stats, with_cache. cbn.
    apply bool_decide_eq_true_2. unfold fullPath in Hnode. rewrite Hnode. eauto. }
  rewrite Hex. cbn [negb].
  assert (Hrd : forall s c, Host.read (fullPath q (with_stats s (with_cache c fs')))
                              (host (with_stats s (with_cache c fs'))) = Some data).
  { intros s c. exact Hread. }
  rewrite Hrd. cbn [enhancedCache with_stats with_cache].
  rewrite Hput'. cbn [mbind option_bind].
  eexists. split; [reflexivity|].
  cbn [stats enhancedCache with_stats with_cache cacheMisses cacheHits].
  rewrite Hst. repeat split; assumption.
Qed.

Definition admin : AuthManager.User := AuthManager.mkUser "admin" "hash" true.

(** Two files under the root, the administrator logged in. *)
Definition two_files : FileSystem.t :=
  FileSystem.create "root"
    (Some (AuthManager.mk {["admin"%string := admin]} "admin"))
    (list_to_map [("root", Host.Dir mode_0777);
                  ("root/a.txt", Host.File "A" mode_0644);
                  ("root/b.txt", Host.File "B" mode_0644)]%string).

(** [b.txt] is read, and so cached; then [a.txt] is deleted. *)
Definition after_read : FileSystem.t :=
  match readFile (fun _ _ => O) "b.txt" two_files with
  | Some r => r.2
  | None => two_files
  end.

Definition after_delete : FileSystem.t := (deleteFile "a.txt" after_read).2.

Lemma deleteFile_clears_whole_cache_witness :
  CacheManager.contains "b.txt"%string (enhancedCache after_read) = true /\
  deleteFile "a.txt" after_read = (inr true, after_delete) /\
  Host.read (fullPath "b.txt" after_delete) (host after_delete)
  = Some "B"%string /\
  CacheManager.contains "b.txt"%string (enhancedCache after_delete) = false /\
  exists fs3,
    readFile (fun _ _ => O) "b.txt" after_delete = Some (inr "B"%string, fs3) /\
    cacheMisses (stats fs3) = wrap64 (cacheMisses (stats after_delete) + 1).
Proof.
  assert (H2 : deleteFile "a.txt" after_read = (inr true, after_delete))
    by (vm_compute; reflexivity).
  assert (H3 : Host.read (fullPath "b.txt" after_delete) (host after_delete)
               = Some "B"%string) by (vm_compute; reflexivity).
  destruct (deleteFile_clears_whole_cache (fun _ _ => O) after_read
              after_delete "a.txt" "b.txt" "B" H2 H3)
    as (_ & Hc & fs3 & Hr & Hm & _).
  split; [vm_compute; reflexivity|].
  split; [exact H2|]. split; [exact H3|]. split; [exact Hc|].
  exists fs3. split; [exact Hr | exact Hm].
Defined.

(** A registered administrator, but nobody logged in. *)
Definition logged_out : FileSystem.t :=
  FileSystem.create "root"
    (Some (AuthManager.mk {["admin"%string := admin]} ""))
    (list_to_map [("root", Host.Dir mode_0777);
                  ("root/a.txt", Host.File "A" mode_0644);
                  ("root/sub", Host.Dir mode_0777);
                  ("root/sub/x.txt", Host.File "X" mode_0644)]%string).

(** C7 at the failing input.  With an [AuthManager] attached and no
    session authenticated, [createFile] throws the auth-required error and
    leaves the state alone, but [createDirectory] creates the directory,
    [listDirectory] returns the listing and [setPermissions] changes mode
    bits and metadata: none of the three checks the session. *)
Theorem directory_operations_skip_authentication :
  let fs := logged_out in
  not_logged_in fs = true /\
  createFile "new.txt" fs
  = (inl (FSException "Authentication required to create file"), fs) /\
  (exists fs', createDirectory "d" fs = (inr true, fs') /\
               exists_ "d" fs = false /\ exists_ "d" fs' = true) /\
  (listDirectory "sub" fs).1 = inr ["x.txt"%string] /\
  (exists fs', setPermissions "a.txt" 292 fs = (inr tt, fs') /\
               fileMetadataMap fs !! "a.txt"%string = None /\
               permissions <$> fileMetadataMap fs' !! "a.txt"%string = Some 292 /\
               host fs' !! "root/a.txt"%string = Some (Host.File "A" 292)).
Proof.
  cbv zeta. split; [reflexivity|]. split; [reflexivity|].
  split; [eexists; split; [vm_compute; reflexivity|];
          split; vm_compute; reflexivity|].
  split; [vm_compute; reflexivity|].
  eexists. split; [vm_compute; reflexivity|].
  repeat split; vm_compute; reflexivity.
Qed.

End FileSystemClaims.

(** ** Capacity and pinned entries *)

(** A run that pins no key. *)
Definition pin_free {K V : Type} (ops : list (op K V)) : Prop :=
  Forall (fun o => match o with Pin _ => False | _ => True end) ops.

(** The calls that drop the key [k] on request. *)
Definition drops {K V : Type} (k : K) (o : op K V) : Prop :=
  o = Remove k \/ o = Clear.

Module LRUCapacity.
Import EnhancedLRUCache.
Section WithTypes.
Context {K : Type} `{Countable K} {V : Type}.
Implicit Types (c : t K V) (l : list (CacheEntry K V)).

Lemma find_Some k l i :
  find k l = Some i -> exists e, l !! i = Some e /\ key e = k.
Proof.
  revert i. induction l as [|e l IH]; intros i; simpl; [discriminate|].
  case_bool_decide as Hk.
  - intros [= <-]. eauto.
  - destruct (find k l) as [j|]; simpl; [|discriminate].
    intros [= <-]. apply (IH j eq_refl).
Qed.

Lemma find_is_Some k l :
  is_Some (find k l) <-> exists e, e ∈ l /\ key e = k.
Proof.
  split.
  - intros [i Hi]. destruct (find_Some _ _ _ Hi) as (e & He & Hk).
    exists e. split; [|exact Hk]. eapply list_elem_of_lookup_2; eauto.
  - intros (e & He & Hk). induction l as [|e' l IH]; [inversion He|].
    simpl. case_bool_decide; [eauto|].
    apply elem_of_cons in He as [->|He]; [contradiction|].
    destruct (IH He) as [j ->]. simpl. eauto.
Qed.

Lemma moveToFront_length i l : length (moveToFront i l) = length l.
Proof.
  unfold moveToFront. destruct (l !! i) as [e|] eqn:E; [|reflexivity].
  simpl. rewrite length_delete by eauto.
  apply lookup_lt_Some in E. lia.
Qed.

Lemma moveToFront_perm i l : moveToFront i l ≡ₚ l.
Proof.
  unfold moveToFront. destruct (l !! i) as [e|] eqn:E; [|reflexivity].
  symmetry. now apply delete_Permutation.
Qed.

(** The keys of the list after an update of the entry at [i] in place. *)
Lemma alter_keys (f : CacheEntry K V -> CacheEntry K V) i l :
  (forall e, key (f e) = key e) ->
  key <$> alter f i l = key <$> l.
Proof.
  intros Hf. revert i. induction l as [|e l IH]; intros [|i]; cbn;
    try reflexivity.
  - now rewrite Hf.
  - f_equal. apply IH.
Qed.

Lemma resident_keys k l :
  (exists e, e ∈ l /\ key e = k) <-> k ∈ key <$> l.
Proof.
  rewrite list_elem_of_fmap. split; intros (e & H1 & H2); eauto.
Qed.

Lemma contains_keys k c : contains k c = true <-> k ∈ key <$> entries c.
Proof.
  unfold contains. rewrite bool_decide_eq_true, find_is_Some.
  apply resident_keys.
Qed.

(** With the tail unpinned the loop of [evict] leaves at once, without
    the tail. *)
Lemma evict_unpinned_tail c l e :
  entries c = l ++ [e] -> key e ∉ pinnedKeys c ->
  evict c = Some (mk (maxCapacity c) l (pinnedKeys c)
                     (Stats.evicted (stats c))).
Proof.
  intros Hl Hp. unfold evict. rewrite Hl. rewrite length_app. simpl.
  replace (length l + 1)%nat with (S (length l)) by lia.
  cbn [evict_loop]. unfold evict_step. rewrite Hl, last_snoc.
  rewrite bool_decide_eq_true_2 by exact Hp.
  rewrite length_app. simpl.
  replace (length l + 1 - 1)%nat with (length l) by lia.
  now rewrite take_app_length.
Qed.

(** An iteration keeps every pinned key; so does the loop. *)
Lemma evict_step_keeps k c :
  k ∈ pinnedKeys c -> k ∈ key <$> entries c ->
  match evict_step c with
  | inl c' | inr c' =>
      pinnedKeys c' = pinnedKeys c /\ k ∈ key <$> entries c'
  end.
Proof.
  intros Hp Hr. unfold evict_step.
  destruct (last (entries c)) as [e|] eqn:Hl; [|split; [reflexivity|exact Hr]].
  pose proof Hl as Hl'. apply last_Some in Hl' as [l Hl'].
  case_bool_decide as Hpin.
  - cbn [pinnedKeys entries]. split; [reflexivity|].
    rewrite Hl' in Hr |- *. rewrite length_app. simpl.
    replace (length l + 1 - 1)%nat with (length l) by lia.
    rewrite take_app_length. rewrite fmap_app in Hr.
    apply elem_of_app in Hr as [Hr|Hr]; [exact Hr|].
    simpl in Hr. apply list_elem_of_singleton in Hr. subst k. contradiction.
  - assert (Hperm : key <$> moveToFront (length (entries c) - 1) (entries c)
                    ≡ₚ key <$> entries c)
      by (now rewrite moveToFront_perm).
    match goal with |- context [if ?b then _ else _] => destruct b end;
      cbn [pinnedKeys entries]; (split; [reflexivity | now rewrite Hperm]).
Qed.

Lemma evict_loop_keeps k fuel : forall c c',
  evict_loop fuel c = Some c' ->
  k ∈ pinnedKeys c -> k ∈ key <$> entries c ->
  pinnedKeys c' = pinnedKeys c /\ k ∈ key <$> entries c'.
Proof.
  induction fuel as [|fuel IH]; intros c c' Hl Hp Hr; [discriminate|].
  cbn [evict_loop] in Hl.
  pose proof (evict_step_keeps k c Hp Hr) as Hs.
  destruct (evict_step c) as [c1|c1].
  - injection Hl as <-. exact Hs.
  - destruct Hs as [Hp1 Hr1].
    destruct (IH c1 c' Hl) as [Hp' Hr']; [now rewrite Hp1 | exact Hr1 |].
    split; [now rewrite Hp', Hp1 | exact Hr'].
Qed.

(** No call other than [remove(k)] and [clear()] drops a pinned key. *)
Lemma LRU_step_keeps_pinned (o : op K V) k c c' :
  step o c = Some c' -> ~ drops k o ->
  isPinned k c = true -> contains k c = true -> contains k c' = true.
Proof.
  unfold isPinned. rewrite bool_decide_eq_true, !contains_keys.
  intros Hs Hd Hp Hr. destruct o as [k' v|k'|k'| |k'|k'|k' v|]; simpl in Hs.
  - unfold put in Hs. destruct (find k' (entries c)) as [i|].
    + injection Hs as <-. cbn [entries].
      rewrite moveToFront_perm, alter_keys; [exact Hr | reflexivity].
    + destruct (_ <=? _)%nat; simpl in Hs.
      * destruct (evict c) as [c1|] eqn:E; [|discriminate]. simpl in Hs.
        injection Hs as <-. cbn [entries insert_front fmap list_fmap].
        apply elem_of_cons. right.
        apply (evict_loop_keeps k _ _ _ E Hp Hr).
      * injection Hs as <-. cbn. apply elem_of_cons. now right.
  - injection Hs as <-. unfold get.
    destruct (find k' (entries c)) as [i|]; cbn [snd entries]; [|exact Hr].
    rewrite moveToFront_perm, alter_keys; [exact Hr | reflexivity].
  - injection Hs as <-. unfold remove.
    destruct (find k' (entries c)) as [i|] eqn:E; [|exact Hr].
    cbn [entries]. destruct (find_Some _ _ _ E) as (e & He & Hk).
    assert (Hne : k <> k') by (intros ->; apply Hd; now left).
    apply list_elem_of_fmap in Hr as (e' & -> & He').
    apply list_elem_of_fmap. exists e'. split; [reflexivity|].
    apply (delete_Permutation _ _ _) in He. rewrite He in He'.
    apply elem_of_cons in He' as [->|He']; [congruence | exact He'].
  - exfalso. apply Hd. now right.
  - injection Hs as <-. unfold pin. case_bool_decide; exact Hr.
  - injection Hs as <-. exact Hr.
  - unfold prefetch in Hs. destruct (find k' (entries c)) as [i|].
    + injection Hs as <-. cbn [entries count_prefetch].
      rewrite moveToFront_perm, alter_keys; [exact Hr | reflexivity].
    + destruct (_ <? _)%nat; simpl in Hs.
      * injection Hs as <-. cbn. apply elem_of_cons. now right.
      * destruct (evict c) as [c1|] eqn:E; [|discriminate]. simpl in Hs.
        injection Hs as <-. cbn [entries insert_front count_prefetch fmap list_fmap].
        apply elem_of_cons. right.
        apply (evict_loop_keeps k _ _ _ E Hp Hr).
  - injection Hs as <-. exact Hr.
Qed.

(** Pin-free runs: nothing is pinned and the list never outgrows the
    capacity. *)
Definition bounded (cap : nat) c : Prop :=
  maxCapacity c = cap /\ pinnedKeys c = ∅ /\
  (length (entries c) <= cap)%nat.

Lemma LRU_evict_bounded c :
  pinnedKeys c = ∅ -> (1 <= length (entries c))%nat ->
  exists c', evict c = Some c' /\ maxCapacity c' = maxCapacity c /\
             pinnedKeys c' = ∅ /\
             S (length (entries c')) = length (entries c).
Proof.
  intros Hp Hlen.
  destruct (entries c) as [|e0 l0] eqn:E using rev_ind;
    [simpl in Hlen; lia|]. clear IHl0.
  eexists. split.
  - apply (evict_unpinned_tail c l0 e0 E). rewrite Hp. set_solver.
  - cbn. rewrite length_app. simpl. repeat split; [exact Hp | lia].
Qed.

Lemma LRU_step_bounded (o : op K V) cap c :
  (1 <= cap)%nat -> match o with Pin _ => False | _ => True end ->
  bounded cap c -> exists c', step o c = Some c' /\ bounded cap c'.
Proof.
  intros Hcap Ho (Hc & Hp & Hlen).
  destruct o as [k v|k|k| |k|k|k v|]; simpl; try contradiction.
  - unfold put. destruct (find k (entries c)) as [i|].
    + eexists. split; [reflexivity|]. repeat split; cbn; try assumption.
      now rewrite moveToFront_length, length_alter.
    + rewrite Hc. destruct (cap <=? length (entries c))%nat eqn:E.
      * apply Nat.leb_le in E.
        destruct (LRU_evict_bounded c Hp ltac:(lia)) as (c1 & -> & Hc1 & Hp1 & Hl1).
        simpl. eexists. split; [reflexivity|].
        repeat split; cbn; [congruence | exact Hp1 | lia].
      * apply Nat.leb_gt in E. eexists. split; [reflexivity|].
        repeat split; cbn; [exact Hc | exact Hp | lia].
  - eexists. split; [reflexivity|]. unfold get.
    destruct (find k (entries c)); repeat split; cbn; try assumption.
    now rewrite moveToFront_length, length_alter.
  - eexists. split; [reflexivity|]. unfold remove.
    destruct (find k (entries c)) as [i|] eqn:E;
      repeat split; cbn; try assumption.
    + rewrite Hp. apply empty_difference_L.
    + destruct (find_Some _ _ _ E) as (e & He & _).
      rewrite length_delete by eauto. lia.
  - eexists. split; [reflexivity|]. repeat split; cbn; [exact Hc | lia].
  - eexists. split; [reflexivity|]. repeat split; cbn; try assumption.
    rewrite Hp. apply empty_difference_L.
  - unfold prefetch. destruct (find k (entries c)) as [i|].
    + eexists. split; [reflexivity|]. repeat split; cbn; try assumption.
      now rewrite moveToFront_length, length_alter.
    + rewrite Hc. destruct (length (entries c) <? cap)%nat eqn:E.
      * apply Nat.ltb_lt in E. eexists. split; [reflexivity|].
        repeat split; cbn; [exact Hc | exact Hp | lia].
      * apply Nat.ltb_ge in E.
        destruct (LRU_evict_bounded c Hp ltac:(lia)) as (c1 & -> & Hc1 & Hp1 & Hl1).
        simpl. eexists. split; [reflexivity|].
        repeat split; cbn; [congruence | exact Hp1 | lia].
  - eexists. split; [reflexivity|]. repeat split; cbn; assumption.
Qed.

Lemma LRU_run_bounded (ops : list (op K V)) cap : forall c,
  (1 <= cap)%nat -> pin_free ops -> bounded cap c ->
  exists c', run ops c = Some c' /\ bounded cap c'.
Proof.
  induction ops as [|o ops IH]; intros c Hcap Hf Hb.
  - exists c. split; [reflexivity | exact Hb].
  - apply Forall_cons in Hf as [Ho Hf].
    destruct (LRU_step_bounded o cap c Hcap Ho Hb) as (c1 & Hs & Hb1).
    destruct (IH c1 Hcap Hf Hb1) as (c' & Hr & Hb').
    exists c'. simpl. rewrite Hs. simpl. split; [exact Hr | exact Hb'].
Qed.

End WithTypes.
End LRUCapacity.

Module FIFOCapacity.
Import FIFOCache.
Section WithTypes.
Context {K : Type} `{Countable K} {V : Type}.
Implicit Types (c : t K V) (E : gmap K (CacheEntry K V)) (P : gset K).

Lemma FIFO_contains_resident k c :
  contains k c = true <-> is_Some (entries c !! k).
Proof. unfold contains. apply bool_decide_eq_true. Qed.

(** The key the loop settles on is resident and not pinned, and the keys
    popped before it were stale or pinned. *)
Lemma evict_loop_victim q E P q' k :
  evict_loop q E P = (q', Some k) ->
  is_Some (E !! k) /\ (k ∉ P) /\
  forall k', k' ∈ q -> k' <> k -> is_Some (E !! k') -> k' ∉ P -> k' ∈ q'.
Proof.
  induction q as [|x q IH]; simpl; [discriminate|].
  destruct (bool_decide (is_Some (E !! x)) && bool_decide (x ∉ P)) eqn:Eb.
  - intros [= <- <-]. apply andb_true_iff in Eb as [E1 E2].
    apply bool_decide_eq_true in E1, E2. repeat split; try assumption.
    intros k' Hin Hne _ _. apply elem_of_cons in Hin as [->|Hin];
      [contradiction | exact Hin].
  - intros Hl. destruct (IH Hl) as (Hr & Hp & Hq). repeat split; try assumption.
    intros k' Hin Hne Hres Hpin. apply elem_of_cons in Hin as [->|Hin].
    + apply andb_false_iff in Eb as [Eb|Eb];
        apply bool_decide_eq_false in Eb; contradiction.
    + now apply Hq.
Qed.

Lemma evict_loop_finds q E P k :
  k ∈ q -> is_Some (E !! k) -> k ∉ P ->
  exists q' k', evict_loop q E P = (q', Some k').
Proof.
  induction q as [|x q IH]; intros Hin Hr Hp; [inversion Hin|]. simpl.
  destruct (bool_decide (is_Some (E !! x)) && bool_decide (x ∉ P)) eqn:Eb;
    [eauto|].
  apply elem_of_cons in Hin as [->|Hin]; [|now apply IH].
  apply andb_false_iff in Eb as [Eb|Eb];
    apply bool_decide_eq_false in Eb; contradiction.
Qed.

(** [evict] keeps every pinned key. *)
Lemma FIFO_evict_keeps k c :
  k ∈ pinnedKeys c -> is_Some (entries c !! k) ->
  is_Some (entries (evict c) !! k).
Proof.
  intros Hp Hr. unfold evict.
  destruct (evict_loop _ _ _) as [q' [x|]] eqn:E; cbn [entries]; [|exact Hr].
  destruct (evict_loop_victim _ _ _ _ _ E) as (_ & Hx & _).
  rewrite lookup_delete_ne; [exact Hr|]. intros ->. contradiction.
Qed.

Lemma FIFO_step_keeps_pinned (o : op K V) k c c' :
  step o c = Some c' -> ~ drops k o ->
  isPinned k c = true -> contains k c = true -> contains k c' = true.
Proof.
  unfold isPinned. rewrite bool_decide_eq_true, !FIFO_contains_resident.
  intros Hs Hd Hp Hr.
  assert (Hins : forall E (e : CacheEntry K V) k',
            is_Some (E !! k) -> is_Some (<[k' := e]> E !! k)).
  { intros E e k' HE. rewrite lookup_insert. case_decide; [eauto | exact HE]. }
  destruct o as [k' v|k'|k'| |k'|k'|k' v|]; simpl in Hs; injection Hs as <-.
  - unfold put. destruct (entries c !! k') as [e|]; cbn [entries].
    + now apply Hins.
    + unfold insert_new. cbn [entries]. apply Hins.
      destruct (_ <=? _)%nat; [now apply FIFO_evict_keeps | exact Hr].
  - unfold get. destruct (entries c !! k') as [e|]; cbn [snd entries];
      [now apply Hins | exact Hr].
  - unfold remove. destruct (entries c !! k') as [e|]; cbn [entries];
      [|exact Hr].
    rewrite lookup_delete_ne; [exact Hr|]. intros ->. apply Hd. now left.
  - exfalso. apply Hd. now right.
  - unfold pin. case_bool_decide; exact Hr.
  - exact Hr.
  - unfold prefetch. destruct (entries c !! k') as [e|];
      cbn [entries count_prefetch].
    + now apply Hins.
    + unfold insert_new. cbn [entries]. apply Hins.
      destruct (_ <=? _)%nat; [now apply FIFO_evict_keeps | exact Hr].
  - exact Hr.
Qed.

(** Pin-free runs: nothing is pinned, every resident key is still in the
    queue, and the table never outgrows the capacity. *)
Definition bounded (cap : nat) c : Prop :=
  maxCapacity c = cap /\ pinnedKeys c = ∅ /\
  (stdpp.base.size (entries c) <= cap)%nat /\
  forall k, is_Some (entries c !! k) -> k ∈ insertionOrder c.

Lemma FIFO_evict_bounded cap c :
  bounded cap c -> (1 <= stdpp.base.size (entries c))%nat ->
  bounded cap (evict c) /\ S (stdpp.base.size (entries (evict c))) = stdpp.base.size (entries c).
Proof.
  intros (Hc & Hp & Hs & Hq) Hne.
  destruct (map_size_ne_0_lookup_1 (entries c) ltac:(lia)) as [k0 Hk0].
  destruct (evict_loop_finds (insertionOrder c) (entries c) (pinnedKeys c) k0)
    as (q' & x & Hl); [now apply Hq | exact Hk0 | rewrite Hp; apply not_elem_of_empty |].
  destruct (evict_loop_victim _ _ _ _ _ Hl) as (Hx & _ & Hrest).
  unfold evict. rewrite Hl. unfold bounded. cbn.
  rewrite map_size_delete_Some by exact Hx.
  repeat split; try assumption; try lia.
  intros k Hk. destruct (decide (k = x)) as [->|Hne'].
  - rewrite lookup_delete_eq in Hk. destruct Hk; discriminate.
  - rewrite lookup_delete_ne in Hk by congruence.
    apply Hrest; [now apply Hq | exact Hne' | exact Hk |].
    rewrite Hp. apply not_elem_of_empty.
Qed.

Lemma FIFO_insert_new_bounded cap k v c :
  maxCapacity c = cap -> pinnedKeys c = ∅ ->
  (forall k', is_Some (entries c !! k') -> k' ∈ insertionOrder c) ->
  entries c !! k = None -> (S (stdpp.base.size (entries c)) <= cap)%nat ->
  bounded cap (insert_new k v c).
Proof.
  intros Hc Hp Hq Hk Hs. unfold bounded, insert_new. cbn.
  rewrite map_size_insert_None by exact Hk.
  repeat split; try assumption.
  intros k' Hk'. rewrite lookup_insert in Hk'. apply elem_of_app.
  case_decide; [right; subst; set_solver | left; now apply Hq].
Qed.

Lemma FIFO_put_new_bounded cap k v c :
  (1 <= cap)%nat -> bounded cap c -> entries c !! k = None ->
  bounded cap
    (insert_new k v (if (maxCapacity c <=? stdpp.base.size (entries c))%nat
                     then evict c else c)).
Proof.
  intros Hcap Hb Hk. pose proof Hb as (Hc & Hp & Hs & Hq).
  destruct (maxCapacity c <=? stdpp.base.size (entries c))%nat eqn:E.
  - apply Nat.leb_le in E.
    destruct (FIFO_evict_bounded cap c Hb ltac:(lia)) as ((Hc1 & Hp1 & Hs1 & Hq1) & Hsz).
    apply FIFO_insert_new_bounded; try assumption; [|lia].
    unfold evict. destruct (evict_loop _ _ _) as [q' [x|]]; cbn [entries];
      [|exact Hk].
    rewrite lookup_delete. case_decide; [reflexivity | exact Hk].
  - apply Nat.leb_gt in E. apply FIFO_insert_new_bounded; try assumption. lia.
Qed.

Lemma FIFO_step_bounded (o : op K V) cap c :
  (1 <= cap)%nat -> match o with Pin _ => False | _ => True end ->
  bounded cap c -> exists c', step o c = Some c' /\ bounded cap c'.
Proof.
  intros Hcap Ho Hb. pose proof Hb as (Hc & Hp & Hs & Hq).
  assert (Hupd : forall k (e e' : CacheEntry K V),
            entries c !! k = Some e ->
            bounded cap (mk (maxCapacity c) (insertionOrder c)
                           (<[k := e']> (entries c)) (pinnedKeys c) (stats c))).
  { intros k e e' He. unfold bounded. cbn.
    rewrite map_size_insert_Some by eauto. repeat split; try assumption.
    intros k' Hk'. apply Hq. rewrite lookup_insert in Hk'.
    case_decide; [subst; eauto | exact Hk']. }
  destruct o as [k v|k|k| |k|k|k v|]; simpl; try contradiction;
    (eexists; split; [reflexivity|]).
  - unfold put. destruct (entries c !! k) as [e|] eqn:E;
      [now apply (Hupd k e) | now apply FIFO_put_new_bounded].
  - unfold get. destruct (entries c !! k) as [e|] eqn:E; cbn [snd].
    + destruct (Hupd k e (touch e) E) as (? & ? & ? & ?).
      repeat split; assumption.
    + repeat split; assumption.
  - unfold remove. destruct (entries c !! k) as [e|] eqn:E; [|exact Hb].
    unfold bounded. cbn. rewrite map_size_delete_Some by eauto.
    repeat split; try assumption; try lia; [rewrite Hp; apply empty_difference_L|].
    intros k' Hk'. apply Hq. rewrite lookup_delete in Hk'.
    case_decide; [destruct Hk'; discriminate | exact Hk'].
  - unfold bounded, clear. cbn. rewrite map_size_empty.
    repeat split; try assumption; [lia|].
    intros k' Hk'. rewrite lookup_empty in Hk'. destruct Hk'; discriminate.
  - unfold bounded, unpin. cbn. repeat split; try assumption.
    rewrite Hp. apply empty_difference_L.
  - unfold prefetch. destruct (entries c !! k) as [e|] eqn:E.
    + destruct (Hupd k e (set_value v e) E) as (? & ? & ? & ?).
      repeat split; assumption.
    + destruct (FIFO_put_new_bounded cap k v c Hcap Hb E) as (? & ? & ? & ?).
      repeat split; assumption.
  - repeat split; assumption.
Qed.

Lemma FIFO_run_bounded (ops : list (op K V)) cap : forall c,
  (1 <= cap)%nat -> pin_free ops -> bounded cap c ->
  exists c', run ops c = Some c' /\ bounded cap c'.
Proof.
  induction ops as [|o ops IH]; intros c Hcap Hf Hb.
  - exists c. split; [reflexivity | exact Hb].
  - apply Forall_cons in Hf as [Ho Hf].
    destruct (FIFO_step_bounded o cap c Hcap Ho Hb) as (c1 & Hs & Hb1).
    destruct (IH c1 Hcap Hf Hb1) as (c' & Hr & Hb').
    exists c'. simpl in *. rewrite Hs. simpl. split; [exact Hr | exact Hb'].
Qed.

End WithTypes.
End FIFOCapacity.

Module LIFOCapacity.
Import LIFOCache.
Section WithTypes.
Context {K : Type} `{Countable K} {V : Type}.
Implicit Types (c : t K V) (E : gmap K (CacheEntry K V)) (P : gset K).

Lemma LIFO_contains_resident k c :
  contains k c = true <-> is_Some (entries c !! k).
Proof. unfold contains. apply bool_decide_eq_true. Qed.

Lemma pour_rev (from to : list K) : pour from to = rev from ++ to.
Proof.
  revert to. induction from as [|x from IH]; intros to; simpl; [reflexivity|].
  rewrite IH. now rewrite <- app_assoc.
Qed.

Lemma drain_except_filter k (stack newStack : list K) :
  drain_except k stack newStack
  = rev (filter (fun x => x <> k) stack) ++ newStack.
Proof.
  revert newStack. induction stack as [|x stack IH]; intros acc; simpl;
    [reflexivity|].
  rewrite IH. rewrite filter_cons. case_bool_decide; case_decide;
    try contradiction; [|reflexivity].
  simpl. now rewrite <- app_assoc.
Qed.

(** The two loops of [put] and [remove] leave the stack in order, less
    the key. *)
Lemma without_filter k (stack : list K) :
  without k stack = filter (fun x => x <> k) stack.
Proof.
  unfold without. rewrite drain_except_filter, pour_rev, !app_nil_r.
  apply rev_involutive.
Qed.

(** The first loop of [evict]: the victim is resident and not pinned, and
    the keys set aside and left over are those of the stack, the victim
    taken out. *)
Lemma find_victim_spec stack E P : forall tempStack stack' tempStack' r,
  find_victim stack tempStack E P = (stack', tempStack', r) ->
  match r with
  | Some k => is_Some (E !! k) /\ (k ∉ P) /\
              rev tempStack ++ stack = rev tempStack' ++ k :: stack'
  | None => rev tempStack' = rev tempStack ++ stack /\ stack' = []
  end.
Proof.
  induction stack as [|x stack IH]; intros tmp stack' tmp' r; simpl.
  - intros [= <- <- <-]. now rewrite app_nil_r.
  - destruct (bool_decide (is_Some (E !! x)) && bool_decide (x ∉ P)) eqn:Eb.
    + intros [= <- <- <-]. apply andb_true_iff in Eb as [E1 E2].
      apply bool_decide_eq_true in E1, E2. repeat split; assumption.
    + intros Hf. specialize (IH _ _ _ _ Hf). simpl in IH.
      rewrite <- app_assoc in IH. exact IH.
Qed.

Lemma find_victim_finds stack E P k : forall tempStack,
  k ∈ stack -> is_Some (E !! k) -> k ∉ P ->
  exists stack' tempStack' k',
    find_victim stack tempStack E P = (stack', tempStack', Some k').
Proof.
  induction stack as [|x stack IH]; intros tmp Hin Hr Hp; [inversion Hin|].
  simpl.
  destruct (bool_decide (is_Some (E !! x)) && bool_decide (x ∉ P)) eqn:Eb;
    [eauto|].
  apply elem_of_cons in Hin as [->|Hin]; [|now apply IH].
  apply andb_false_iff in Eb as [Eb|Eb];
    apply bool_decide_eq_false in Eb; contradiction.
Qed.

Lemma LIFO_evict_keeps k c :
  k ∈ pinnedKeys c -> is_Some (entries c !! k) ->
  is_Some (entries (evict c) !! k).
Proof.
  intros Hp Hr. unfold evict.
  destruct (find_victim _ _ _ _) as [[stack' tmp'] [x|]] eqn:E;
    cbn [entries]; [|exact Hr].
  destruct (find_victim_spec _ _ _ _ _ _ _ E) as (_ & Hx & _).
  rewrite lookup_delete_ne; [exact Hr|]. intros ->. contradiction.
Qed.

Lemma LIFO_step_keeps_pinned (o : op K V) k c c' :
  step o c = Some c' -> ~ drops k o ->
  isPinned k c = true -> contains k c = true -> contains k c' = true.
Proof.
  unfold isPinned. rewrite bool_decide_eq_true, !LIFO_contains_resident.
  intros Hs Hd Hp Hr.
  assert (Hins : forall E (e : CacheEntry K V) k',
            is_Some (E !! k) -> is_Some (<[k' := e]> E !! k)).
  { intros E e k' HE. rewrite lookup_insert. case_decide; [eauto | exact HE]. }
  destruct o as [k' v|k'|k'| |k'|k'|k' v|]; simpl in Hs; injection Hs as <-.
  - unfold put. destruct (entries c !! k') as [e|]; cbn [entries].
    + now apply Hins.
    + unfold insert_new. cbn [entries]. apply Hins.
      destruct (_ <=? _)%nat; [now apply LIFO_evict_keeps | exact Hr].
  - unfold get. destruct (entries c !! k') as [e|]; cbn [snd entries];
      [now apply Hins | exact Hr].
  - unfold remove. destruct (entries c !! k') as [e|]; cbn [entries];
      [|exact Hr].
    rewrite lookup_delete_ne; [exact Hr|]. intros ->. apply Hd. now left.
  - exfalso. apply Hd. now right.
  - unfold pin. case_bool_decide; exact Hr.
  - exact Hr.
  - unfold prefetch. destruct (entries c !! k') as [e|];
      cbn [entries count_prefetch].
    + now apply Hins.
    + unfold insert_new. cbn [entries]. apply Hins.
      destruct (_ <=? _)%nat; [now apply LIFO_evict_keeps | exact Hr].
  - exact Hr.
Qed.

(** Pin-free runs: nothing is pinned, every resident key is on the stack,
    and the table never outgrows the capacity. *)
Definition bounded (cap : nat) c : Prop :=
  maxCapacity c = cap /\ pinnedKeys c = ∅ /\
  (stdpp.base.size (entries c) <= cap)%nat /\
  forall k, is_Some (entries c !! k) -> k ∈ insertionOrder c.

Lemma LIFO_evict_bounded cap c :
  bounded cap c -> (1 <= stdpp.base.size (entries c))%nat ->
  bounded cap (evict c) /\
  S (stdpp.base.size (entries (evict c))) = stdpp.base.size (entries c).
Proof.
  intros (Hc & Hp & Hs & Hq) Hne.
  destruct (map_size_ne_0_lookup_1 (entries c) ltac:(lia)) as [k0 Hk0].
  destruct (find_victim_finds (insertionOrder c) (entries c) (pinnedKeys c)
              k0 [])
    as (stack' & tmp' & x & Hl);
    [now apply Hq | exact Hk0 | rewrite Hp; apply not_elem_of_empty |].
  destruct (find_victim_spec _ _ _ _ _ _ _ Hl) as (Hx & _ & Hst).
  simpl in Hst.
  unfold evict. rewrite Hl. unfold bounded. cbn.
  rewrite map_size_delete_Some by exact Hx.
  repeat split; try assumption; try lia.
  intros k Hk. destruct (decide (k = x)) as [->|Hne'].
  - rewrite lookup_delete_eq in Hk. destruct Hk; discriminate.
  - rewrite lookup_delete_ne in Hk by congruence.
    apply Hq in Hk. rewrite Hst in Hk. rewrite pour_rev.
    apply elem_of_app in Hk as [Hk|Hk]; apply elem_of_app; [now left|].
    apply elem_of_cons in Hk as [->|Hk]; [contradiction | now right].
Qed.

Lemma LIFO_insert_new_bounded cap k v c :
  maxCapacity c = cap -> pinnedKeys c = ∅ ->
  (forall k', is_Some (entries c !! k') -> k' ∈ insertionOrder c) ->
  entries c !! k = None -> (S (stdpp.base.size (entries c)) <= cap)%nat ->
  bounded cap (insert_new k v c).
Proof.
  intros Hc Hp Hq Hk Hs. unfold bounded, insert_new. cbn.
  rewrite map_size_insert_None by exact Hk.
  repeat split; try assumption.
  intros k' Hk'. rewrite lookup_insert in Hk'. apply elem_of_cons.
  case_decide; [left; congruence | right; now apply Hq].
Qed.

Lemma LIFO_put_new_bounded cap k v c :
  (1 <= cap)%nat -> bounded cap c -> entries c !! k = None ->
  bounded cap
    (insert_new k v (if (maxCapacity c <=? stdpp.base.size (entries c))%nat
                     then evict c else c)).
Proof.
  intros Hcap Hb Hk. pose proof Hb as (Hc & Hp & Hs & Hq).
  destruct (maxCapacity c <=? stdpp.base.size (entries c))%nat eqn:E.
  - apply Nat.leb_le in E.
    destruct (LIFO_evict_bounded cap c Hb ltac:(lia)) as ((Hc1 & Hp1 & Hs1 & Hq1) & Hsz).
    apply LIFO_insert_new_bounded; try assumption; [|lia].
    unfold evict. destruct (find_victim _ _ _ _) as [[stack' tmp'] [x|]];
      cbn [entries]; [|exact Hk].
    rewrite lookup_delete. case_decide; [reflexivity | exact Hk].
  - apply Nat.leb_gt in E. apply LIFO_insert_new_bounded; try assumption. lia.
Qed.

Lemma LIFO_step_bounded (o : op K V) cap c :
  (1 <= cap)%nat -> match o with Pin _ => False | _ => True end ->
  bounded cap c -> exists c', step o c = Some c' /\ bounded cap c'.
Proof.
  intros Hcap Ho Hb. pose proof Hb as (Hc & Hp & Hs & Hq).
  assert (Hupd : forall k (e e' : CacheEntry K V) stack,
            entries c !! k = Some e ->
            (forall k', k' ∈ insertionOrder c -> k' ∈ stack) ->
            bounded cap (mk (maxCapacity c) stack
                           (<[k := e']> (entries c)) (pinnedKeys c) (stats c))).
  { intros k e e' stack He Hst. unfold bounded. cbn.
    rewrite map_size_insert_Some by eauto. repeat split; try assumption.
    intros k' Hk'. apply Hst, Hq. rewrite lookup_insert in Hk'.
    case_decide; [subst; eauto | exact Hk']. }
  destruct o as [k v|k|k| |k|k|k v|]; simpl; try contradiction;
    (eexists; split; [reflexivity|]).
  - unfold put. destruct (entries c !! k) as [e|] eqn:E;
      [|now apply LIFO_put_new_bounded].
    apply (Hupd k e _ _ E). intros k' Hk'. rewrite without_filter.
    apply elem_of_cons. destruct (decide (k' = k)); [now left | right].
    apply list_elem_of_filter. split; assumption.
  - unfold get. destruct (entries c !! k) as [e|] eqn:E; cbn [snd].
    + destruct (Hupd k e (touch e) (insertionOrder c) E) as (? & ? & ? & ?);
        [tauto|]. repeat split; assumption.
    + repeat split; assumption.
  - unfold remove. destruct (entries c !! k) as [e|] eqn:E; [|exact Hb].
    unfold bounded. cbn. rewrite map_size_delete_Some by eauto.
    repeat split; try assumption; try lia;
      [rewrite Hp; apply empty_difference_L|].
    intros k' Hk'. rewrite lookup_delete in Hk'. rewrite without_filter.
    case_decide; [destruct Hk'; discriminate|].
    apply list_elem_of_filter. split; [congruence | now apply Hq].
  - unfold bounded, clear. cbn. rewrite map_size_empty.
    repeat split; try assumption; [lia|].
    intros k' Hk'. rewrite lookup_empty in Hk'. destruct Hk'; discriminate.
  - unfold bounded, unpin. cbn. repeat split; try assumption.
    rewrite Hp. apply empty_difference_L.
  - unfold prefetch. destruct (entries c !! k) as [e|] eqn:E.
    + destruct (Hupd k e (set_value v e) (insertionOrder c) E)
        as (? & ? & ? & ?); [tauto|]. repeat split; assumption.
    + destruct (LIFO_put_new_bounded cap k v c Hcap Hb E) as (? & ? & ? & ?).
      repeat split; assumption.
  - repeat split; assumption.
Qed.

Lemma LIFO_run_bounded (ops : list (op K V)) cap : forall c,
  (1 <= cap)%nat -> pin_free ops -> bounded cap c ->
  exists c', run ops c = Some c' /\ bounded cap c'.
Proof.
  induction ops as [|o ops IH]; intros c Hcap Hf Hb.
  - exists c. split; [reflexivity | exact Hb].
  - apply Forall_cons in Hf as [Ho Hf].
    destruct (LIFO_step_bounded o cap c Hcap Ho Hb) as (c1 & Hs & Hb1).
    destruct (IH c1 Hcap Hf Hb1) as (c' & Hr & Hb').
    exists c'. simpl in *. rewrite Hs. simpl. split; [exact Hr | exact Hb'].
Qed.

End WithTypes.
End LIFOCapacity.

Module LFUCapacity.
Import LFUCache.
Section WithTypes.
Context {K : Type} `{Countable K} {V : Type}.
Variable place : Z -> list Z -> nat.
Implicit Types (c : t K V) (fs : list (Z * list K)) (f g : Z).

Lemma LFU_contains_resident k c :
  contains k c = true <-> is_Some (keyToEntry c !! k).
Proof. unfold contains. apply bool_decide_eq_true. Qed.

(** *** The frequency table as a map from frequencies to lists *)

Lemma find_bucket_Some f fs i :
  find_bucket f fs = Some i ->
  exists l, fs !! i = Some (f, l) /\ bucket f fs = l.
Proof.
  unfold bucket. intros Hf. rewrite Hf. revert i Hf.
  induction fs as [|[f' l'] fs IH]; intros i; simpl; [discriminate|].
  destruct (f' =? f) eqn:E.
  - intros [= <-]. apply Z.eqb_eq in E. subst. simpl. eauto.
  - destruct (find_bucket f fs) as [j|]; simpl; [|discriminate].
    intros [= <-]. simpl. apply (IH j eq_refl).
Qed.

Lemma bucket_cons f' l' fs g :
  bucket g ((f', l') :: fs) = if f' =? g then l' else bucket g fs.
Proof.
  unfold bucket. simpl. destruct (f' =? g); [reflexivity|].
  destruct (find_bucket g fs); reflexivity.
Qed.

Lemma find_bucket_cons f' l' fs g :
  is_Some (find_bucket g ((f', l') :: fs))
  <-> f' = g \/ is_Some (find_bucket g fs).
Proof.
  simpl. destruct (f' =? g) eqn:E.
  - apply Z.eqb_eq in E. split; eauto.
  - apply Z.eqb_neq in E. rewrite fmap_is_Some. split; [eauto|].
    intros [?|?]; [contradiction | assumption].
Qed.

Lemma bucket_absent g fs : find_bucket g fs = None -> bucket g fs = [].
Proof. unfold bucket. now intros ->. Qed.

(** Linking an empty node changes no list. *)
Lemma bucket_link f i fs g :
  find_bucket f fs = None ->
  bucket g (take i fs ++ (f, []) :: drop i fs) = bucket g fs.
Proof.
  revert i. induction fs as [|[f' l'] fs IH]; intros i Hf.
  - rewrite take_nil, drop_nil. simpl. rewrite bucket_cons.
    destruct (f =? g); reflexivity.
  - simpl in Hf. destruct (f' =? f) eqn:E; [discriminate|].
    assert (Hf' : find_bucket f fs = None)
      by (destruct (find_bucket f fs); [discriminate | reflexivity]).
    destruct i as [|i]; simpl.
    + rewrite !bucket_cons. destruct (f =? g) eqn:E2; [|reflexivity].
      apply Z.eqb_eq in E2. subst g. rewrite E.
      symmetry. now apply bucket_absent.
    + rewrite !bucket_cons. destruct (f' =? g); [reflexivity|].
      now apply IH.
Qed.

Lemma find_bucket_link f i fs g :
  is_Some (find_bucket g (take i fs ++ (f, []) :: drop i fs))
  <-> f = g \/ is_Some (find_bucket g fs).
Proof.
  revert i. induction fs as [|[f' l'] fs IH]; intros i.
  - rewrite take_nil, drop_nil. simpl app. apply find_bucket_cons.
  - destruct i as [|i]; simpl take; simpl drop; simpl app.
    + apply find_bucket_cons.
    + rewrite !find_bucket_cons, IH. tauto.
Qed.

Lemma bucket_with_bucket f fs g :
  bucket g (with_bucket place f fs) = bucket g fs.
Proof.
  unfold with_bucket. destruct (find_bucket f fs) eqn:E; [reflexivity|].
  now apply bucket_link.
Qed.

Lemma find_with_bucket f fs g :
  is_Some (find_bucket g (with_bucket place f fs))
  <-> f = g \/ is_Some (find_bucket g fs).
Proof.
  unfold with_bucket. destruct (find_bucket f fs) eqn:E.
  - split; [eauto|]. intros [<-|?]; [rewrite E; eauto | assumption].
  - apply find_bucket_link.
Qed.

(** The list of the first node of [f] replaced. *)
Lemma bucket_alter f (h : list K -> list K) fs i g :
  find_bucket f fs = Some i ->
  bucket g (alter (fun b => (b.1, h b.2)) i fs)
  = if bool_decide (g = f) then h (bucket f fs) else bucket g fs.
Proof.
  revert i. induction fs as [|[f' l'] fs IH]; intros i; simpl; [discriminate|].
  destruct (f' =? f) eqn:E.
  - intros [= <-]. apply Z.eqb_eq in E. subst f'. cbn.
    rewrite !bucket_cons. rewrite Z.eqb_refl.
    case_bool_decide as Hg.
    + subst g. now rewrite Z.eqb_refl.
    + destruct (f =? g) eqn:E2; [apply Z.eqb_eq in E2; congruence|].
      reflexivity.
  - destruct (find_bucket f fs) as [j|] eqn:Ej; simpl; [|discriminate].
    intros [= <-]. cbn. rewrite !bucket_cons. rewrite E.
    specialize (IH j eq_refl).
    destruct (f' =? g) eqn:E2.
    + apply Z.eqb_eq in E2. subst g.
      rewrite bool_decide_eq_false_2; [reflexivity|].
      intros ->. rewrite Z.eqb_refl in E. discriminate.
    + exact IH.
Qed.

Lemma find_bucket_alter (h : list K -> list K) fs i g :
  find_bucket g (alter (fun b => (b.1, h b.2)) i fs) = find_bucket g fs.
Proof.
  revert i. induction fs as [|[f' l'] fs IH]; intros [|i]; cbn;
    try reflexivity.
  now rewrite IH.
Qed.

Lemma bucket_update f h fs g :
  bucket g (update_bucket place f h fs)
  = if bool_decide (g = f) then h (bucket f fs) else bucket g fs.
Proof.
  unfold update_bucket.
  destruct (find_bucket f (with_bucket place f fs)) as [i|] eqn:E.
  - rewrite (bucket_alter f h _ i g E). now rewrite !bucket_with_bucket.
  - exfalso. assert (Hs : is_Some (find_bucket f (with_bucket place f fs)))
      by (apply find_with_bucket; now left).
    rewrite E in Hs. destruct Hs; discriminate.
Qed.

Lemma find_update f h fs g :
  is_Some (find_bucket g (update_bucket place f h fs))
  <-> f = g \/ is_Some (find_bucket g fs).
Proof.
  unfold update_bucket.
  destruct (find_bucket f (with_bucket place f fs)) as [i|] eqn:E.
  - rewrite find_bucket_alter. apply find_with_bucket.
  - apply find_with_bucket.
Qed.

(** *** [evict] *)

Lemma pick_unpinned (l : list K) (P : gset K) k l' :
  pick l P = Some (k, l') -> k ∉ P.
Proof.
  revert l'. induction l as [|x l IH]; intros l'; simpl; [discriminate|].
  case_bool_decide as Hx.
  - now intros [= <- <-].
  - destruct (pick l P) as [[k0 l0]|]; simpl; [|discriminate].
    intros [= <- <-]. now apply (IH l0).
Qed.

Lemma scan_unpinned fs (P : gset K) k f l fs' :
  scan fs P = Some (k, f, l, fs') -> k ∉ P.
Proof.
  revert fs'. induction fs as [|[f0 l0] fs IH]; intros fs'; simpl;
    [discriminate|].
  destruct (pick l0 P) as [[k0 l0']|] eqn:E.
  - intros [= <- <- <- <-]. now apply (pick_unpinned _ _ _ _ E).
  - destruct (scan fs P) as [[[[k1 f1] l1] fs1]|]; simpl; [|discriminate].
    intros [= <- <- <- <-]. now apply (IH fs1).
Qed.

(** [evict] keeps every pinned key. *)
Lemma LFU_evict_keeps k c :
  k ∈ pinnedKeys c -> is_Some (keyToEntry c !! k) ->
  is_Some (keyToEntry (evict c) !! k).
Proof.
  intros Hp Hr. unfold evict.
  destruct (find_bucket _ _) as [i|]; [|exact Hr].
  destruct (scan _ _) as [[[[k1 f1] l1] fs1]|] eqn:E; [|exact Hr].
  cbn [keyToEntry]. apply scan_unpinned in E.
  rewrite lookup_delete_ne; [exact Hr|]. intros ->. contradiction.
Qed.

Lemma updateFrequency_entries k c :
  keyToEntry (updateFrequency place k c) = keyToEntry c /\
  pinnedKeys (updateFrequency place k c) = pinnedKeys c.
Proof. split; reflexivity. Qed.

Lemma LFU_step_keeps_pinned (o : op K V) k c c' :
  step (I := LFU_interface place) o c = Some c' -> ~ drops k o ->
  isPinned k c = true -> contains k c = true -> contains k c' = true.
Proof.
  unfold isPinned. rewrite bool_decide_eq_true, !LFU_contains_resident.
  intros Hs Hd Hp Hr.
  assert (Hins : forall (E : gmap K (CacheEntry K V)) e k',
            is_Some (E !! k) -> is_Some (<[k' := e]> E !! k)).
  { intros E e k' HE. rewrite lookup_insert. case_decide; [eauto | exact HE]. }
  destruct o as [k' v|k'|k'| |k'|k'|k' v|]; simpl in Hs; injection Hs as <-.
  - unfold put. destruct (_ =? _)%nat; [exact Hr|].
    destruct (keyToEntry c !! k') as [e|]; cbn [keyToEntry].
    + now apply Hins.
    + apply Hins. destruct (_ <=? _)%nat; [now apply LFU_evict_keeps | exact Hr].
  - unfold get. destruct (keyToEntry c !! k') as [e|]; cbn [snd keyToEntry];
      [now apply Hins | exact Hr].
  - unfold remove. destruct (keyToEntry c !! k') as [e|]; cbn [keyToEntry];
      [|exact Hr].
    rewrite lookup_delete_ne; [exact Hr|]. intros ->. apply Hd. now left.
  - exfalso. apply Hd. now right.
  - unfold pin. case_bool_decide; exact Hr.
  - exact Hr.
  - unfold prefetch. destruct (keyToEntry c !! k') as [e|]; cbn [keyToEntry].
    + now apply Hins.
    + apply Hins. destruct (_ <=? _)%nat; [now apply LFU_evict_keeps | exact Hr].
  - exact Hr.
Qed.

(** *** Pin-free runs *)

Lemma bucket_replace f l' fs i g :
  find_bucket f fs = Some i ->
  bucket g (take i fs ++ (f, l') :: drop (S i) fs)
  = if bool_decide (g = f) then l' else bucket g fs.
Proof.
  revert i. induction fs as [|[f' l0] fs IH]; intros i; simpl; [discriminate|].
  destruct (f' =? f) eqn:E.
  - intros [= <-]. apply Z.eqb_eq in E. subst f'. simpl.
    rewrite !bucket_cons, drop_0. case_bool_decide as Hg.
    + subst g. now rewrite Z.eqb_refl.
    + destruct (f =? g) eqn:E2; [apply Z.eqb_eq in E2; congruence|].
      reflexivity.
  - destruct (find_bucket f fs) as [j|] eqn:Ej; simpl; [|discriminate].
    intros [= <-]. simpl. rewrite !bucket_cons.
    specialize (IH j eq_refl).
    destruct (f' =? g) eqn:E2.
    + apply Z.eqb_eq in E2. subst g.
      rewrite bool_decide_eq_false_2; [reflexivity|].
      intros ->. rewrite Z.eqb_refl in E. discriminate.
    + exact IH.
Qed.

(** The table and the two maps agree: the lists have no duplicates, a key
    in the list of [g] has frequency [g], and a key with a frequency is
    resident. *)
Definition wf c : Prop :=
  (forall g, NoDup (bucket g (frequencies c))) /\
  (forall g k, k ∈ bucket g (frequencies c) -> keyToFreq c !! k = Some g) /\
  (forall k, is_Some (keyToFreq c !! k) -> is_Some (keyToEntry c !! k)).

(** The node of [minFrequency] exists and its list is not empty. *)
Definition min_ready c : Prop :=
  is_Some (find_bucket (minFrequency c) (frequencies c)) /\
  bucket (minFrequency c) (frequencies c) <> [].

Definition bounded (cap : nat) c : Prop :=
  maxCapacity c = cap /\ pinnedKeys c = ∅ /\
  (stdpp.base.size (keyToEntry c) <= cap)%nat /\ wf c /\
  ((cap <= stdpp.base.size (keyToEntry c))%nat -> min_ready c).

Lemma is_empty_nil (l : list K) : is_empty l = true <-> l = [].
Proof. destruct l; simpl; split; congruence. Qed.

Lemma set_entry_wf k e c : wf c -> wf (set_entry k e c).
Proof.
  intros (H1 & H2 & H3). repeat split; cbn; try assumption.
  intros k' Hk'. rewrite lookup_insert. case_decide; [eauto | now apply H3].
Qed.

Lemma updateFrequency_wf k c :
  wf c -> is_Some (keyToEntry c !! k) -> wf (updateFrequency place k c).
Proof.
  intros (H1 & H2 & H3) Hk. unfold updateFrequency.
  set (oldFreq := default 0 (keyToFreq c !! k)).
  set (newFreq := wrap64 (oldFreq + 1)).
  set (fs1 := update_bucket place oldFreq (list_remove k) (frequencies c)).
  assert (Hb1 : forall g, bucket g fs1
            = if bool_decide (g = oldFreq)
              then list_remove k (bucket oldFreq (frequencies c))
              else bucket g (frequencies c))
    by (intros g; apply bucket_update).
  assert (Hsub : forall g k', k' ∈ bucket g fs1 ->
            k' <> k /\ k' ∈ bucket g (frequencies c)).
  { intros g k'. rewrite Hb1. case_bool_decide as Hg.
    - subst g. unfold list_remove. rewrite list_elem_of_filter. tauto.
    - intros Hin. split; [|exact Hin]. intros ->.
      apply H2 in Hin. apply Hg. unfold oldFreq. now rewrite Hin. }
  assert (Hnd1 : forall g, NoDup (bucket g fs1)).
  { intros g. rewrite Hb1. case_bool_decide; [|apply H1].
    apply NoDup_filter, H1. }
  repeat split; cbn [frequencies keyToFreq keyToEntry].
  - intros g. rewrite bucket_update. case_bool_decide; [|apply Hnd1].
    apply NoDup_app. split; [apply Hnd1|]. split; [|apply NoDup_singleton].
    intros k' Hin Hin'. apply list_elem_of_singleton in Hin'. subst k'.
    apply Hsub in Hin. tauto.
  - intros g k'. rewrite bucket_update. case_bool_decide as Hg.
    + subst g. intros Hin. apply elem_of_app in Hin as [Hin|Hin].
      * apply Hsub in Hin as [Hne Hin].
        rewrite lookup_insert_ne by congruence. now apply H2.
      * apply list_elem_of_singleton in Hin. subst k'.
        apply lookup_insert_eq.
    + intros Hin. apply Hsub in Hin as [Hne Hin].
      rewrite lookup_insert_ne by congruence. now apply H2.
  - intros k'. rewrite lookup_insert. case_decide; [now subst | apply H3].
Qed.

Lemma updateFrequency_min k c :
  min_ready c -> min_ready (updateFrequency place k c).
Proof.
  intros [Hf Hne]. unfold updateFrequency, min_ready.
  set (oldFreq := default 0 (keyToFreq c !! k)).
  set (newFreq := wrap64 (oldFreq + 1)).
  set (fs1 := update_bucket place oldFreq (list_remove k) (frequencies c)).
  cbn [minFrequency frequencies].
  destruct (is_empty (bucket oldFreq fs1) && (oldFreq =? minFrequency c)) eqn:E.
  - apply andb_true_iff in E as [_ E]. apply Z.eqb_eq in E.
    rewrite <- E. fold newFreq. split.
    + apply find_update. now left.
    + rewrite bucket_update, bool_decide_eq_true_2 by reflexivity.
      intros Hnil. apply app_eq_nil in Hnil as [_ Hnil]. discriminate.
  - split.
    + apply find_update. right. apply find_update. now right.
    + rewrite bucket_update. case_bool_decide as Hg.
      * intros Hnil. apply app_eq_nil in Hnil as [_ Hnil]. discriminate.
      * unfold fs1 at 1. rewrite bucket_update. case_bool_decide as Hg'.
        -- intros Hnil.
           assert (Hb : bucket oldFreq fs1
                        = list_remove k (bucket oldFreq (frequencies c))).
           { unfold fs1. rewrite bucket_update.
             now rewrite bool_decide_eq_true_2. }
           rewrite Hb, Hnil in E. cbn [is_empty andb] in E.
           rewrite <- Hg', Z.eqb_refl in E. discriminate.
        -- exact Hne.
Qed.

(** On a full cache without pins [evict] removes the head of the list of
    [minFrequency]. *)
Lemma evict_full c :
  wf c -> pinnedKeys c = ∅ -> min_ready c ->
  wf (evict c) /\
  S (stdpp.base.size (keyToEntry (evict c))) = stdpp.base.size (keyToEntry c) /\
  maxCapacity (evict c) = maxCapacity c /\ pinnedKeys (evict c) = ∅ /\
  forall k, keyToEntry c !! k = None -> keyToEntry (evict c) !! k = None.
Proof.
  intros (H1 & H2 & H3) Hp [[i Hi] Hne].
  destruct (find_bucket_Some _ _ _ Hi) as (l & Hl & Hb).
  rewrite Hb in Hne. destruct l as [|k1 tail]; [contradiction|].
  assert (Hk1 : keyToFreq c !! k1 = Some (minFrequency c)).
  { apply H2. rewrite Hb. now left. }
  assert (Hnd : NoDup (k1 :: tail)) by (rewrite <- Hb; apply H1).
  apply NoDup_cons in Hnd as [Hnot Hnd].
  unfold evict. rewrite Hi, (drop_S _ _ _ Hl). cbn [scan pick].
  rewrite Hp. rewrite bool_decide_eq_true_2 by apply not_elem_of_empty.
  cbn [keyToEntry maxCapacity pinnedKeys frequencies keyToFreq].
  assert (Hrep : forall g,
            bucket g (take i (frequencies c) ++ (minFrequency c, tail)
                        :: drop (S i) (frequencies c))
            = if bool_decide (g = minFrequency c) then tail
              else bucket g (frequencies c))
    by (intros g; now apply bucket_replace).
  split; [|split; [|split; [reflexivity|split; [reflexivity|]]]].
  - repeat split; cbn [frequencies keyToFreq keyToEntry].
    + intros g. rewrite Hrep. case_bool_decide; [exact Hnd | apply H1].
    + intros g k. rewrite Hrep. case_bool_decide as Hg.
      * subst g. intros Hin.
        rewrite lookup_delete_ne by (intros ->; contradiction).
        apply H2. rewrite Hb. now right.
      * intros Hin. pose proof (H2 _ _ Hin) as Hfq.
        rewrite lookup_delete_ne; [exact Hfq|]. intros ->. congruence.
    + intros k. rewrite !lookup_delete. case_decide; [|apply H3].
      intros [? ?]. discriminate.
  - rewrite map_size_delete_Some by (apply H3; eauto).
    assert (stdpp.base.size (keyToEntry c) <> O).
    { apply map_size_ne_0_lookup_2 with k1. apply H3. eauto. }
    lia.
  - intros k Hk. rewrite lookup_delete. case_decide; [reflexivity | exact Hk].
Qed.

Lemma LFU_insert_new_bounded cap k v c :
  maxCapacity c = cap -> pinnedKeys c = ∅ -> wf c ->
  keyToEntry c !! k = None ->
  (S (stdpp.base.size (keyToEntry c)) <= cap)%nat ->
  bounded cap (insert_new place k v c).
Proof.
  intros Hc Hp (H1 & H2 & H3) Hk Hs.
  assert (Hfresh : forall g, k ∉ bucket g (frequencies c)).
  { intros g Hin. apply H2 in Hin. assert (Hx : is_Some (keyToEntry c !! k))
      by (apply H3; eauto). rewrite Hk in Hx. destruct Hx; discriminate. }
  unfold bounded, min_ready, insert_new.
  cbn [maxCapacity pinnedKeys keyToEntry keyToFreq frequencies minFrequency].
  rewrite map_size_insert_None by exact Hk.
  split; [exact Hc|]. split; [exact Hp|]. split; [exact Hs|]. split.
  - repeat split; cbn [frequencies keyToFreq keyToEntry].
    + intros g. rewrite bucket_update. case_bool_decide; [|apply H1].
      apply NoDup_app. split; [apply H1|]. split; [|apply NoDup_singleton].
      intros k' Hin Hin'. apply list_elem_of_singleton in Hin'. subst k'.
      now apply Hfresh in Hin.
    + intros g k'. rewrite bucket_update. case_bool_decide as Hg.
      * subst g. intros Hin. apply elem_of_app in Hin as [Hin|Hin].
        -- rewrite lookup_insert_ne; [now apply H2|].
           intros <-. now apply Hfresh in Hin.
        -- apply list_elem_of_singleton in Hin. subst k'.
           apply lookup_insert_eq.
      * intros Hin. rewrite lookup_insert_ne; [now apply H2|].
        intros <-. now apply Hfresh in Hin.
    + intros k'. rewrite !lookup_insert. case_decide; [eauto | apply H3].
  - intros _. split.
    + apply find_update. now left.
    + rewrite bucket_update, bool_decide_eq_true_2 by reflexivity.
      intros Hnil. apply app_eq_nil in Hnil as [_ Hnil]. discriminate.
Qed.

Lemma LFU_put_new_bounded cap k v c :
  (1 <= cap)%nat -> bounded cap c -> keyToEntry c !! k = None ->
  bounded cap
    (insert_new place k v
       (if (maxCapacity c <=? stdpp.base.size (keyToEntry c))%nat
        then evict c else c)).
Proof.
  intros Hcap (Hc & Hp & Hs & Hwf & Hmin) Hk.
  destruct (maxCapacity c <=? stdpp.base.size (keyToEntry c))%nat eqn:E.
  - apply Nat.leb_le in E.
    destruct (evict_full c Hwf Hp (Hmin ltac:(lia)))
      as (Hwf' & Hsz & Hc' & Hp' & Hnone).
    apply LFU_insert_new_bounded; try assumption; [congruence | now apply Hnone | lia].
  - apply Nat.leb_gt in E. apply LFU_insert_new_bounded; try assumption. lia.
Qed.

Lemma set_stats_bounded cap st c : bounded cap c -> bounded cap (set_stats st c).
Proof. intros Hb. exact Hb. Qed.

Lemma set_entry_bounded cap k e e' c :
  bounded cap c -> keyToEntry c !! k = Some e ->
  bounded cap (set_entry k e' c).
Proof.
  intros (Hc & Hp & Hs & Hwf & Hmin) Hk. unfold bounded.
  cbn [set_entry maxCapacity pinnedKeys keyToEntry].
  rewrite map_size_insert_Some by eauto.
  repeat split; try assumption; try apply (set_entry_wf k e' c Hwf);
    apply Hmin; assumption.
Qed.

Lemma touched_bounded cap k e e' c :
  bounded cap c -> keyToEntry c !! k = Some e ->
  bounded cap (updateFrequency place k (set_entry k e' c)).
Proof.
  intros Hb Hk.
  destruct (set_entry_bounded cap k e e' c Hb Hk) as (Hc & Hp & Hs & Hwf & Hmin).
  split; [exact Hc|]. split; [exact Hp|]. split; [exact Hs|]. split.
  - apply updateFrequency_wf; [exact Hwf|].
    cbn [set_entry keyToEntry]. rewrite lookup_insert_eq. eauto.
  - intros Hfull. apply updateFrequency_min. now apply Hmin.
Qed.

Lemma remove_bounded cap k c :
  bounded cap c -> bounded cap (remove place k c).
Proof.
  intros Hb. pose proof Hb as (Hc & Hp & Hs & (H1 & H2 & H3) & Hmin).
  unfold remove. destruct (keyToEntry c !! k) as [e|] eqn:Hk; [|exact Hb].
  set (freq := default 0 (keyToFreq c !! k)).
  set (fs1 := update_bucket place freq (list_remove k) (frequencies c)).
  assert (Hsub : forall g k', k' ∈ bucket g fs1 ->
            k' <> k /\ k' ∈ bucket g (frequencies c)).
  { intros g k'. unfold fs1. rewrite bucket_update. case_bool_decide as Hg.
    - subst g. unfold list_remove. rewrite list_elem_of_filter. tauto.
    - intros Hin. split; [|exact Hin]. intros ->.
      apply H2 in Hin. apply Hg. unfold freq. now rewrite Hin. }
  assert (Hsz : stdpp.base.size (keyToEntry c) <> O)
    by (apply map_size_ne_0_lookup_2 with k; eauto).
  unfold bounded.
  cbn [maxCapacity pinnedKeys keyToEntry keyToFreq frequencies].
  rewrite map_size_delete_Some by eauto.
  split; [exact Hc|]. split; [rewrite Hp; apply empty_difference_L|].
  split; [lia|]. split; [|intros Hfull; lia].
  repeat split; cbn [frequencies keyToFreq keyToEntry].
  - intros g. unfold fs1. rewrite bucket_update.
    case_bool_decide; [|apply H1]. apply NoDup_filter, H1.
  - intros g k' Hin. apply Hsub in Hin as [Hne Hin].
    rewrite lookup_delete_ne by congruence. now apply H2.
  - intros k'. rewrite !lookup_delete. case_decide; [|apply H3].
    intros [? ?]. discriminate.
Qed.

Lemma clear_bounded cap c :
  (1 <= cap)%nat -> maxCapacity c = cap -> bounded cap (clear c).
Proof.
  intros Hcap Hc. unfold bounded, clear.
  cbn [maxCapacity pinnedKeys keyToEntry].
  rewrite map_size_empty. split; [exact Hc|]. split; [reflexivity|].
  split; [lia|]. split; [|intros; lia].
  repeat split; cbn [frequencies keyToFreq keyToEntry].
  - intros g. apply NoDup_nil_2.
  - intros g k Hin. inversion Hin.
  - intros k. rewrite lookup_empty. intros [? ?]. discriminate.
Qed.

Lemma LFU_step_bounded (o : op K V) cap c :
  (1 <= cap)%nat -> match o with Pin _ => False | _ => True end ->
  bounded cap c ->
  exists c', step (I := LFU_interface place) o c = Some c' /\ bounded cap c'.
Proof.
  intros Hcap Ho Hb. pose proof Hb as (Hc & Hp & Hs & Hwf & Hmin).
  destruct o as [k v|k|k| |k|k|k v|]; simpl; try contradiction;
    (eexists; split; [reflexivity|]).
  - unfold put.
    destruct (maxCapacity c =? 0)%nat eqn:E0;
      [apply Nat.eqb_eq in E0; lia|].
    destruct (keyToEntry c !! k) as [e|] eqn:E.
    + now apply (touched_bounded _ k e).
    + now apply LFU_put_new_bounded.
  - unfold get. destruct (keyToEntry c !! k) as [e|] eqn:E; cbn [snd].
    + apply set_stats_bounded. now apply (touched_bounded _ k e).
    + now apply set_stats_bounded.
  - now apply remove_bounded.
  - now apply clear_bounded.
  - unfold bounded, unpin. cbn [maxCapacity pinnedKeys keyToEntry].
    split; [exact Hc|]. split; [rewrite Hp; apply empty_difference_L|].
    split; [exact Hs|]. split; [exact Hwf | exact Hmin].
  - unfold prefetch. destruct (keyToEntry c !! k) as [e|] eqn:E.
    + apply set_stats_bounded. now apply (set_entry_bounded _ k e).
    + apply set_stats_bounded. now apply LFU_put_new_bounded.
  - now apply set_stats_bounded.
Qed.

Lemma LFU_run_bounded (ops : list (op K V)) cap : forall c,
  (1 <= cap)%nat -> pin_free ops -> bounded cap c ->
  exists c', run (I := LFU_interface place) ops c = Some c' /\ bounded cap c'.
Proof.
  induction ops as [|o ops IH]; intros c Hcap Hf Hb.
  - exists c. split; [reflexivity | exact Hb].
  - apply Forall_cons in Hf as [Ho Hf].
    destruct (LFU_step_bounded o cap c Hcap Ho Hb) as (c1 & Hs & Hb1).
    destruct (IH c1 Hcap Hf Hb1) as (c' & Hr & Hb').
    exists c'. simpl in *. rewrite Hs. simpl. split; [exact Hr | exact Hb'].
Qed.

End WithTypes.
End LFUCapacity.

(** *** Runs with pins *)

Section Admission.
Context {K V C : Type} {I : CacheInterface K V C}.

(** A [put] or [prefetch] of a key that is not resident. *)
Definition inserts_new (o : op K V) (c : C) : Prop :=
  exists k v, (o = Put k v \/ o = Prefetch k v) /\ cache_contains k c = false.

(** Every resident key is pinned. *)
Definition all_pinned (c : C) : Prop :=
  forall k, cache_contains k c = true -> cache_isPinned k c = true.

(** Some resident key is not pinned. *)
Definition has_victim (c : C) : Prop :=
  exists k, cache_contains k c = true /\ cache_isPinned k c = false.

Lemma inserts_new_dec (o : op K V) (c : C) :
  inserts_new o c \/ ~ inserts_new o c.
Proof.
  unfold inserts_new.
  destruct o as [k v|k|k| |k|k|k v|];
    try (right; intros (k' & v' & [Ho|Ho] & _); discriminate).
  - destruct (cache_contains k c) eqn:E.
    + right. intros (k' & v' & [Ho|Ho] & Hk); [|discriminate].
      injection Ho as -> ->. congruence.
    + left. eauto.
  - destruct (cache_contains k c) eqn:E.
    + right. intros (k' & v' & [Ho|Ho] & Hk); [discriminate|].
      injection Ho as -> ->. congruence.
    + left. eauto.
Qed.

(** A new key is let into the cache [c] when it is full and [blocked]
    holds: the call keeps every resident key and the size grows by one. *)
Definition lets_in (blocked : C -> Prop) (c : C) : Prop :=
  forall (o : op K V) (c' : C),
    inserts_new o c -> blocked c ->
    (cache_capacity c <= cache_size c)%nat -> step o c = Some c' ->
    cache_size c' = S (cache_size c) /\
    forall k, cache_contains k c = true -> cache_contains k c' = true.

(** Some call of the run inserts a new key into a cache that is full, or
    over capacity, and in which [blocked] holds. *)
Definition admits (blocked : C -> Prop) (ops : list (op K V)) (c0 : C) : Prop :=
  exists ops1 o ops2 c1,
    ops = ops1 ++ o :: ops2 /\ run ops1 c0 = Some c1 /\
    inserts_new o c1 /\ (cache_capacity c1 <= cache_size c1)%nat /\ blocked c1.

Variables (Inv blocked : C -> Prop).

(** What a cache must show of its calls: a new key goes in where there
    is room, or takes the place of an entry while [blocked] does not hold,
    or is let in over capacity with [blocked], every resident key kept; no
    other call lets the cache grow. *)
Hypothesis insert_cases : forall (o : op K V) (c c' : C),
  Inv c -> inserts_new o c -> step o c = Some c' ->
  Inv c' /\ cache_capacity c' = cache_capacity c /\
  ((cache_size c < cache_capacity c)%nat /\ cache_size c' = S (cache_size c) \/
   (cache_capacity c <= cache_size c)%nat /\ cache_size c' = cache_size c /\
     ~ blocked c \/
   (cache_capacity c <= cache_size c)%nat /\ cache_size c' = S (cache_size c) /\
     blocked c /\
     forall k, cache_contains k c = true -> cache_contains k c' = true).

Hypothesis other_cases : forall (o : op K V) (c c' : C),
  Inv c -> ~ inserts_new o c -> step o c = Some c' ->
  Inv c' /\ cache_capacity c' = cache_capacity c /\
  (cache_size c' <= cache_size c)%nat.

Lemma step_within (o : op K V) (c c' : C) :
  Inv c -> step o c = Some c' ->
  Inv c' /\ cache_capacity c' = cache_capacity c /\
  ((cache_size c' <= Nat.max (cache_size c) (cache_capacity c))%nat \/
   (inserts_new o c /\ (cache_capacity c <= cache_size c)%nat /\ blocked c)).
Proof.
  intros Hinv Hs. destruct (inserts_new_dec o c) as [Hnew|Hnew].
  - destruct (insert_cases o c c' Hinv Hnew Hs)
      as (Hinv' & Hcap & [[H1 H2]|[(H1 & H2 & _)|(H1 & H2 & H3)]]).
    + split; [exact Hinv'|]. split; [exact Hcap|]. left. lia.
    + split; [exact Hinv'|]. split; [exact Hcap|]. left. lia.
    + split; [exact Hinv'|]. split; [exact Hcap|]. right. tauto.
  - destruct (other_cases o c c' Hinv Hnew Hs) as (Hinv' & Hcap & Hle).
    split; [exact Hinv'|]. split; [exact Hcap|]. left. lia.
Qed.

(** With [blocked], a new key is let into a full cache. *)
Lemma step_let_in (c : C) : Inv c -> lets_in blocked c.
Proof.
  intros Hinv o c' Hnew Hb Hfull Hs.
  destruct (insert_cases o c c' Hinv Hnew Hs)
    as (_ & _ & [[H1 H2]|[(H1 & H2 & Hnb)|(H1 & H2 & _ & H3)]]).
  - lia.
  - contradiction.
  - split; [exact H2 | exact H3].
Qed.

Lemma run_invariant (ops : list (op K V)) : forall c0 c,
  Inv c0 -> run ops c0 = Some c ->
  Inv c /\ cache_capacity c = cache_capacity c0.
Proof.
  induction ops as [|o ops IH]; intros c0 c Hinv Hr.
  - injection Hr as <-. split; [exact Hinv | reflexivity].
  - simpl in Hr. destruct (step o c0) as [c1|] eqn:Hs; [|discriminate].
    simpl in Hr.
    destruct (step_within o c0 c1 Hinv Hs) as (Hinv1 & Hcap1 & _).
    destruct (IH c1 c Hinv1 Hr) as [Hinv' Hcap'].
    split; [exact Hinv' | congruence].
Qed.

(** A run leaves the cache within its capacity unless it admits a key
    into a blocked cache. *)
Lemma run_within (ops : list (op K V)) : forall c0 c,
  Inv c0 -> (cache_size c0 <= cache_capacity c0)%nat ->
  run ops c0 = Some c ->
  (cache_size c <= cache_capacity c0)%nat \/ admits blocked ops c0.
Proof.
  induction ops as [|o ops IH]; intros c0 c Hinv Hsize Hr.
  - injection Hr as <-. now left.
  - simpl in Hr. destruct (step o c0) as [c1|] eqn:Hs; [|discriminate].
    simpl in Hr.
    destruct (step_within o c0 c1 Hinv Hs) as (Hinv1 & Hcap1 & [Hle|Hadm]).
    + destruct (IH c1 c Hinv1 ltac:(lia) Hr) as [Hle'|Hadm'].
      * left. lia.
      * right.
        destruct Hadm' as (ops1 & o' & ops2 & c2 & -> & Hr1 & Hnew & Hfull & Hb).
        exists (o :: ops1), o', ops2, c2. split; [reflexivity|].
        split; [simpl; rewrite Hs; exact Hr1|]. auto.
    + right. exists [], o, ops, c0. split; [reflexivity|].
      split; [reflexivity|]. exact Hadm.
Qed.
End Admission.

Module LRUPins.
Import EnhancedLRUCache LRUCapacity.
Section WithTypes.
Context {K : Type} `{Countable K} {V : Type}.
Implicit Types (c : t K V).

Definition every_entry_pinned c : Prop :=
  forall e, e ∈ entries c -> key e ∈ pinnedKeys c.

Lemma every_entry_all_pinned c : every_entry_pinned c <-> all_pinned c.
Proof.
  unfold every_entry_pinned, all_pinned. cbn [cache_contains cache_isPinned LRU_interface].
  unfold isPinned. split.
  - intros Hall k Hk. apply bool_decide_eq_true.
    apply contains_keys, resident_keys in Hk as (e & He & <-). now apply Hall.
  - intros Hall e He. eapply bool_decide_eq_true_1, Hall.
    apply contains_keys, resident_keys. eauto.
Qed.

(** What an iteration of the loop of [evict] does to the list: it takes an
    unpinned entry out, or it leaves with the list as it found it, every
    entry pinned, or it goes round again with the list rotated. *)
Definition evicted_one c c' : Prop :=
  (exists e, e ∈ entries c /\ key e ∉ pinnedKeys c) /\
  S (length (entries c')) = length (entries c).

Definition evicted_none c c' : Prop :=
  length (entries c') = length (entries c) /\ every_entry_pinned c.

Lemma evict_step_cases c :
  match evict_step c with
  | inl c' => maxCapacity c' = maxCapacity c /\
              (evicted_one c c' \/ evicted_none c c')
  | inr c' => maxCapacity c' = maxCapacity c /\
              pinnedKeys c' = pinnedKeys c /\ entries c' ≡ₚ entries c
  end.
Proof.
  unfold evict_step, evicted_one, evicted_none.
  destruct (last (entries c)) as [e|] eqn:Hl.
  2:{ split; [reflexivity|]. right. split; [reflexivity|].
      apply last_None in Hl. intros e He. rewrite Hl in He. inversion He. }
  pose proof Hl as Hl'. apply last_Some in Hl' as [l Hl'].
  case_bool_decide as Hpin.
  - split; [reflexivity|]. left. split.
    + exists e. split; [|exact Hpin]. rewrite Hl'. apply elem_of_app. right. now left.
    + cbn [entries]. rewrite length_take, Hl', length_app. simpl. lia.
  - assert (Hperm : moveToFront (length (entries c) - 1) (entries c)
                    ≡ₚ entries c) by apply moveToFront_perm.
    match goal with |- context [if ?b then _ else _] => destruct b eqn:Elen end.
    + split; [reflexivity|]. right. cbn [entries] in *. split.
      * now rewrite moveToFront_length.
      * apply Nat.leb_le in Elen. rewrite moveToFront_length in Elen.
        rewrite Hl', length_app in Elen. simpl in Elen.
        destruct l; [|simpl in Elen; lia]. intros e' He'.
        rewrite Hl' in He'. apply list_elem_of_singleton in He'. subst e'.
        destruct (decide (key e ∈ pinnedKeys c)); [assumption | contradiction].
    + split; [reflexivity|]. split; [reflexivity | exact Hperm].
Qed.

Lemma evict_loop_cases fuel : forall c c',
  evict_loop fuel c = Some c' ->
  maxCapacity c' = maxCapacity c /\ (evicted_one c c' \/ evicted_none c c').
Proof.
  induction fuel as [|fuel IH]; intros c c' Hl; [discriminate|].
  cbn [evict_loop] in Hl. pose proof (evict_step_cases c) as Hs.
  destruct (evict_step c) as [c1|c1].
  - injection Hl as <-. exact Hs.
  - destruct Hs as (Hc & Hp & Hperm).
    destruct (IH c1 c' Hl) as (Hc' & Hcases).
    unfold evicted_one, evicted_none, every_entry_pinned in *.
    split; [congruence|].
    pose proof (Permutation_length Hperm) as Hlen.
    destruct Hcases as [[(e & He & Hpin) Hone]|[Hsame Hall]].
    + left. split; [|lia]. exists e. rewrite <- Hp. split; [|exact Hpin].
      now rewrite <- Hperm.
    + right. split; [lia|]. intros e He. rewrite <- Hp. apply Hall.
      now rewrite Hperm.
Qed.

(** A [put] or [prefetch] of a new key: the entry goes in front of what
    [evict] left, or of the list as it was when there was room. *)
Lemma entry_victim c :
  (exists e, e ∈ entries c /\ key e ∉ pinnedKeys c) -> has_victim c.
Proof.
  intros (e & He & Hp). exists (key e).
  cbn [cache_contains cache_isPinned LRU_interface]. split.
  - apply contains_keys, resident_keys. eauto.
  - unfold isPinned. now apply bool_decide_eq_false_2.
Qed.

Lemma LRU_insert_cases (o : op K V) c c' :
  inserts_new o c -> step o c = Some c' ->
  maxCapacity c' = maxCapacity c /\
  ((size c < capacity c)%nat /\ size c' = S (size c) \/
   (capacity c <= size c)%nat /\ size c' = size c /\ has_victim c \/
   (capacity c <= size c)%nat /\ size c' = S (size c) /\ all_pinned c).
Proof.
  intros (k & v & Ho & Hk) Hs. cbn [cache_contains LRU_interface] in Hk.
  unfold contains in Hk. apply bool_decide_eq_false in Hk.
  assert (Hfind : find k (entries c) = None).
  { destruct (find k (entries c)); [exfalso; apply Hk; eauto | reflexivity]. }
  unfold size, capacity.
  assert (Hroom : forall c1, evict c = Some c1 ->
            (maxCapacity c <= length (entries c))%nat ->
            maxCapacity c1 = maxCapacity c /\
            (False \/
             (maxCapacity c <= length (entries c))%nat /\
               S (length (entries c1)) = length (entries c) /\
               has_victim c \/
             (maxCapacity c <= length (entries c))%nat /\
               S (length (entries c1)) = S (length (entries c)) /\
               all_pinned c)).
  { intros c1 He Hfull.
    destruct (evict_loop_cases _ _ _ He) as (Hc & [[Hv Hone]|[Hsame Hall]]).
    - split; [exact Hc|]. right. left. split; [exact Hfull|].
      split; [exact Hone | now apply entry_victim].
    - split; [exact Hc|]. right. right. split; [exact Hfull|].
      split; [lia|]. now apply every_entry_all_pinned. }
  destruct Ho as [-> | ->]; simpl in Hs.
  - unfold put in Hs. rewrite Hfind in Hs.
    destruct (maxCapacity c <=? length (entries c))%nat eqn:E.
    + apply Nat.leb_le in E.
      destruct (evict c) as [c1|] eqn:He; [|discriminate]. simpl in Hs.
      injection Hs as <-. cbn [maxCapacity entries insert_front length].
      destruct (Hroom c1 eq_refl E) as (Hc & [[]|[(H1 & H2 & H3)|(H1 & H2 & H3)]]).
      * split; [exact Hc|]. right. left. repeat split; [exact H1 | lia | exact H3].
      * split; [exact Hc|]. right. right. repeat split; [exact H1 | lia | exact H3].
    + apply Nat.leb_gt in E. simpl in Hs. injection Hs as <-.
      cbn [maxCapacity entries insert_front length]. split; [reflexivity|].
      left. split; [exact E | reflexivity].
  - unfold prefetch in Hs. rewrite Hfind in Hs.
    destruct (length (entries c) <? maxCapacity c)%nat eqn:E.
    + apply Nat.ltb_lt in E. injection Hs as <-.
      cbn [maxCapacity entries insert_front count_prefetch length].
      split; [reflexivity|]. left. split; [exact E | reflexivity].
    + apply Nat.ltb_ge in E.
      destruct (evict c) as [c1|] eqn:He; [|discriminate]. simpl in Hs.
      injection Hs as <-.
      cbn [maxCapacity entries insert_front count_prefetch length].
      destruct (Hroom c1 eq_refl E) as (Hc & [[]|[(H1 & H2 & H3)|(H1 & H2 & H3)]]).
      * split; [exact Hc|]. right. left. repeat split; [exact H1 | lia | exact H3].
      * split; [exact Hc|]. right. right. repeat split; [exact H1 | lia | exact H3].
Qed.

(** The calls that insert no new key do not let the list grow. *)
Lemma LRU_other_cases (o : op K V) c c' :
  ~ inserts_new o c -> step o c = Some c' ->
  maxCapacity c' = maxCapacity c /\ (size c' <= size c)%nat.
Proof.
  intros Hnew Hs. unfold size.
  assert (Hres : forall k v, o = Put k v \/ o = Prefetch k v ->
            exists i, find k (entries c) = Some i).
  { intros k v Ho. destruct (find k (entries c)) as [i|] eqn:E; [eauto|].
    exfalso. apply Hnew. exists k, v. split; [exact Ho|].
    cbn [cache_contains LRU_interface]. unfold contains.
    apply bool_decide_eq_false. rewrite E. now intros [? ?]. }
  destruct o as [k v|k|k| |k|k|k v|]; simpl in Hs.
  - destruct (Hres k v ltac:(auto)) as [i Hi]. unfold put in Hs.
    rewrite Hi in Hs. injection Hs as <-. cbn [maxCapacity entries].
    now rewrite moveToFront_length, length_alter.
  - injection Hs as <-. unfold get.
    destruct (find k (entries c)); cbn [snd maxCapacity entries];
      [now rewrite moveToFront_length, length_alter | auto].
  - injection Hs as <-. unfold remove.
    destruct (find k (entries c)) as [i|] eqn:E; cbn [maxCapacity entries];
      [|auto].
    split; [reflexivity|]. pose proof (length_delete (entries c) i). 
    destruct (find_Some _ _ _ E) as (e & He & _).
    rewrite length_delete by eauto. lia.
  - injection Hs as <-. cbn. split; [reflexivity | lia].
  - injection Hs as <-. unfold pin. case_bool_decide; auto.
  - injection Hs as <-. auto.
  - destruct (Hres k v ltac:(auto)) as [i Hi]. unfold prefetch in Hs.
    rewrite Hi in Hs. injection Hs as <-. cbn [maxCapacity entries count_prefetch].
    now rewrite moveToFront_length, length_alter.
  - injection Hs as <-. auto.
Qed.

End WithTypes.
End LRUPins.

Module FIFOPins.
Import FIFOCache FIFOCapacity.
Section WithTypes.
Context {K : Type} `{Countable K} {V : Type}.
Implicit Types (c : t K V) (E : gmap K (CacheEntry K V)) (P : gset K).

(** Every resident key that is still in the insertion queue is pinned:
    [evict] finds nothing to remove. *)
Definition queue_pinned c : Prop :=
  forall k, k ∈ insertionOrder c -> contains k c = true -> isPinned k c = true.

Lemma evict_loop_none q E P q' :
  evict_loop q E P = (q', None) ->
  forall k, k ∈ q -> is_Some (E !! k) -> k ∈ P.
Proof.
  intros Hl k Hin Hr. destruct (decide (k ∈ P)) as [Hp|Hp]; [exact Hp|].
  destruct (evict_loop_finds q E P k Hin Hr Hp) as (q1 & k1 & Hl').
  congruence.
Qed.

Lemma evict_loop_in q E P q' k :
  evict_loop q E P = (q', Some k) -> k ∈ q.
Proof.
  revert q'. induction q as [|x q IH]; intros q'; simpl; [discriminate|].
  destruct (bool_decide (is_Some (E !! x)) && bool_decide (x ∉ P)).
  - intros [= <- <-]. now left.
  - intros Hl. right. now apply (IH q').
Qed.

(** [evict] removes one resident unpinned entry of the queue, or nothing. *)
Lemma FIFO_evict_cases c :
  maxCapacity (evict c) = maxCapacity c /\
  pinnedKeys (evict c) = pinnedKeys c /\
  ((exists x, x ∈ insertionOrder c /\ is_Some (entries c !! x) /\
              (x ∉ pinnedKeys c) /\
              entries (evict c) = delete x (entries c)) \/
   (entries (evict c) = entries c /\ queue_pinned c)).
Proof.
  unfold evict.
  destruct (evict_loop _ _ _) as [q' [x|]] eqn:E; cbn [maxCapacity pinnedKeys entries].
  - split; [reflexivity|]. split; [reflexivity|]. left.
    destruct (evict_loop_victim _ _ _ _ _ E) as (Hx & Hp & _).
    pose proof (evict_loop_in _ _ _ _ _ E) as Hin. exists x. auto 10.
  - split; [reflexivity|]. split; [reflexivity|]. right. split; [reflexivity|].
    intros k Hin Hr. unfold isPinned. apply bool_decide_eq_true_2.
    apply (evict_loop_none _ _ _ _ E k Hin). now apply FIFO_contains_resident.
Qed.

Lemma FIFO_queue_victim c x :
  x ∈ insertionOrder c -> is_Some (entries c !! x) -> x ∉ pinnedKeys c ->
  ~ queue_pinned c.
Proof.
  intros Hin Hx Hp Hq. apply Hp. unfold queue_pinned, isPinned in Hq.
  eapply bool_decide_eq_true_1, Hq; [exact Hin|].
  now apply FIFO_contains_resident.
Qed.

Lemma FIFO_insert_keeps k v c1 c k' :
  entries c1 = entries c ->
  contains k' c = true -> contains k' (insert_new k v c1) = true.
Proof.
  intros He Hk'. apply FIFO_contains_resident in Hk'.
  apply FIFO_contains_resident. cbn [insert_new entries].
  rewrite lookup_insert. case_decide; [eauto | now rewrite He].
Qed.

(** The cache after room was made for the key [k], which is not
    resident, and the key was inserted. *)
Lemma FIFO_room_cases k v c :
  entries c !! k = None ->
  let c' := insert_new k v
              (if (maxCapacity c <=? size c)%nat then evict c else c) in
  maxCapacity c' = maxCapacity c /\
  ((size c < capacity c)%nat /\ size c' = S (size c) \/
   (capacity c <= size c)%nat /\ size c' = size c /\ ~ queue_pinned c \/
   (capacity c <= size c)%nat /\ size c' = S (size c) /\ queue_pinned c /\
     forall k', contains k' c = true -> contains k' c' = true).
Proof.
  intros Hk. cbv zeta. unfold size, capacity.
  destruct (maxCapacity c <=? stdpp.base.size (entries c))%nat eqn:E.
  - apply Nat.leb_le in E.
    destruct (FIFO_evict_cases c)
      as (Hc & _ & [(x & Hin & Hx & Hp & He)|[He Hq]]);
      (split; [exact Hc|]).
    + right. left. split; [exact E|].
      split; [|now apply (FIFO_queue_victim c x)].
      cbn [insert_new maxCapacity entries]. rewrite He.
      rewrite map_size_insert_None.
      * rewrite map_size_delete_Some by exact Hx.
        assert (stdpp.base.size (entries c) <> O).
        { now apply map_size_ne_0_lookup_2 with x. }
        lia.
      * rewrite lookup_delete. case_decide; [reflexivity | exact Hk].
    + right. right. split; [exact E|]. split; [|split; [exact Hq|]].
      * cbn [insert_new maxCapacity entries]. rewrite He.
        now rewrite map_size_insert_None.
      * intros k'. now apply FIFO_insert_keeps.
  - apply Nat.leb_gt in E. cbn [insert_new maxCapacity entries].
    split; [reflexivity|]. left. split; [exact E|].
    now rewrite map_size_insert_None.
Qed.

Lemma FIFO_insert_cases (o : op K V) c c' :
  inserts_new o c -> step o c = Some c' ->
  maxCapacity c' = maxCapacity c /\
  ((size c < capacity c)%nat /\ size c' = S (size c) \/
   (capacity c <= size c)%nat /\ size c' = size c /\ ~ queue_pinned c \/
   (capacity c <= size c)%nat /\ size c' = S (size c) /\ queue_pinned c /\
     forall k', contains k' c = true -> contains k' c' = true).
Proof.
  intros (k & v & Ho & Hk) Hs. cbn [cache_contains FIFO_interface] in Hk.
  unfold contains in Hk. apply bool_decide_eq_false in Hk.
  assert (Hnone : entries c !! k = None).
  { destruct (entries c !! k); [exfalso; apply Hk; eauto | reflexivity]. }
  destruct Ho as [-> | ->]; simpl in Hs; injection Hs as <-.
  - unfold put. rewrite Hnone. apply (FIFO_room_cases k v c Hnone).
  - unfold prefetch. rewrite Hnone. apply (FIFO_room_cases k v c Hnone).
Qed.

Lemma FIFO_other_cases (o : op K V) c c' :
  ~ inserts_new o c -> step o c = Some c' ->
  maxCapacity c' = maxCapacity c /\ (size c' <= size c)%nat.
Proof.
  intros Hnew Hs. unfold size.
  assert (Hres : forall k v, o = Put k v \/ o = Prefetch k v ->
            exists e, entries c !! k = Some e).
  { intros k v Ho. destruct (entries c !! k) as [e|] eqn:E; [eauto|].
    exfalso. apply Hnew. exists k, v. split; [exact Ho|].
    cbn [cache_contains FIFO_interface]. unfold contains.
    apply bool_decide_eq_false. rewrite E. now intros [? ?]. }
  destruct o as [k v|k|k| |k|k|k v|]; simpl in Hs; injection Hs as <-.
  - destruct (Hres k v ltac:(auto)) as [e He]. unfold put. rewrite He.
    cbn [maxCapacity entries]. rewrite map_size_insert_Some by eauto. auto.
  - unfold get. destruct (entries c !! k) as [e|] eqn:E;
      cbn [snd maxCapacity entries]; [|auto].
    rewrite map_size_insert_Some by eauto. auto.
  - unfold remove. destruct (entries c !! k) as [e|] eqn:E;
      cbn [maxCapacity entries]; [|auto].
    split; [reflexivity|]. rewrite map_size_delete_Some by eauto. lia.
  - cbn. rewrite map_size_empty. split; [reflexivity | lia].
  - unfold pin. case_bool_decide; auto.
  - auto.
  - destruct (Hres k v ltac:(auto)) as [e He]. unfold prefetch. rewrite He.
    cbn [maxCapacity entries count_prefetch].
    rewrite map_size_insert_Some by eauto. auto.
  - auto.
Qed.

End WithTypes.
End FIFOPins.

Module LIFOPins.
Import LIFOCache LIFOCapacity.
Section WithTypes.
Context {K : Type} `{Countable K} {V : Type}.
Implicit Types (c : t K V) (E : gmap K (CacheEntry K V)) (P : gset K).

(** Every resident key is on the stack. *)
Definition stacked c : Prop :=
  forall k, is_Some (entries c !! k) -> k ∈ insertionOrder c.

Lemma find_victim_none stack E P tempStack stack' tempStack' :
  find_victim stack tempStack E P = (stack', tempStack', None) ->
  forall k, k ∈ stack -> is_Some (E !! k) -> k ∈ P.
Proof.
  intros Hf k Hin Hr. destruct (decide (k ∈ P)) as [Hp|Hp]; [exact Hp|].
  destruct (find_victim_finds stack E P k tempStack Hin Hr Hp)
    as (s1 & t1 & k1 & Hf').
  congruence.
Qed.

(** [evict] removes one resident unpinned entry, or nothing, and puts the
    other keys back on the stack. *)
Lemma LIFO_evict_cases c :
  stacked c ->
  stacked (evict c) /\
  maxCapacity (evict c) = maxCapacity c /\
  ((exists x, is_Some (entries c !! x) /\ (x ∉ pinnedKeys c) /\
              entries (evict c) = delete x (entries c)) \/
   (entries (evict c) = entries c /\ all_pinned c)).
Proof.
  intros Hst. unfold evict.
  destruct (find_victim _ _ _ _) as [[stack' tmp'] [x|]] eqn:E;
    cbn [maxCapacity entries].
  - destruct (find_victim_spec _ _ _ _ _ _ _ E) as (Hx & Hp & Heq).
    simpl in Heq. split; [|split; [reflexivity|left; eauto]].
    intros k Hk. cbn [entries insertionOrder] in *.
    rewrite lookup_delete in Hk. case_decide as Hkx; [destruct Hk; discriminate|].
    specialize (Hst k Hk). rewrite Heq in Hst. rewrite pour_rev.
    apply elem_of_app in Hst as [Hin|Hin]; [apply elem_of_app; now left|].
    apply elem_of_cons in Hin as [->|Hin]; [congruence|].
    apply elem_of_app. now right.
  - destruct (find_victim_spec _ _ _ _ _ _ _ E) as (Heq & ->).
    simpl in Heq. split; [|split; [reflexivity|right; split; [reflexivity|]]].
    + intros k Hk. cbn [entries insertionOrder] in *.
      rewrite pour_rev, app_nil_r, Heq. now apply Hst.
    + intros k Hk. cbn [cache_contains cache_isPinned LIFO_interface] in *.
      unfold isPinned. apply bool_decide_eq_true_2.
      apply LIFO_contains_resident in Hk.
      apply (find_victim_none _ _ _ _ _ _ E k); [now apply Hst | exact Hk].
Qed.

Lemma LIFO_resident_victim c x :
  is_Some (entries c !! x) -> x ∉ pinnedKeys c -> has_victim c.
Proof.
  intros Hx Hp. exists x. cbn [cache_contains cache_isPinned LIFO_interface].
  split; [now apply LIFO_contains_resident|].
  unfold isPinned. now apply bool_decide_eq_false_2.
Qed.

Lemma LIFO_room_cases k v c :
  stacked c -> entries c !! k = None ->
  let c' := insert_new k v
              (if (maxCapacity c <=? size c)%nat then evict c else c) in
  stacked c' /\ maxCapacity c' = maxCapacity c /\
  ((size c < capacity c)%nat /\ size c' = S (size c) \/
   (capacity c <= size c)%nat /\ size c' = size c /\ has_victim c \/
   (capacity c <= size c)%nat /\ size c' = S (size c) /\ all_pinned c).
Proof.
  intros Hst Hk. cbv zeta. unfold size, capacity.
  assert (Hins : forall c1, stacked c1 -> stacked (insert_new k v c1)).
  { intros c1 H1 k' Hk'. cbn [insert_new entries insertionOrder] in *.
    rewrite lookup_insert in Hk'. case_decide; [subst; now left|].
    right. now apply H1. }
  destruct (maxCapacity c <=? stdpp.base.size (entries c))%nat eqn:E.
  - apply Nat.leb_le in E.
    destruct (LIFO_evict_cases c Hst)
      as (Hst' & Hc & [(x & Hx & Hp & He)|[He Hq]]);
      (split; [now apply Hins|]);
      cbn [insert_new maxCapacity entries]; (split; [exact Hc|]); rewrite He.
    + right. left. split; [exact E|]. split; [|now apply (LIFO_resident_victim c x)].
      rewrite map_size_insert_None.
      * rewrite map_size_delete_Some by exact Hx.
        assert (stdpp.base.size (entries c) <> O).
        { now apply map_size_ne_0_lookup_2 with x. }
        lia.
      * rewrite lookup_delete. case_decide; [reflexivity | exact Hk].
    + right. right. split; [exact E|]. split; [|exact Hq].
      now rewrite map_size_insert_None.
  - apply Nat.leb_gt in E. split; [now apply Hins|].
    cbn [insert_new maxCapacity entries].
    split; [reflexivity|]. left. split; [exact E|].
    now rewrite map_size_insert_None.
Qed.

Lemma LIFO_insert_cases (o : op K V) c c' :
  stacked c -> inserts_new o c -> step o c = Some c' ->
  stacked c' /\ maxCapacity c' = maxCapacity c /\
  ((size c < capacity c)%nat /\ size c' = S (size c) \/
   (capacity c <= size c)%nat /\ size c' = size c /\ has_victim c \/
   (capacity c <= size c)%nat /\ size c' = S (size c) /\ all_pinned c).
Proof.
  intros Hst (k & v & Ho & Hk) Hs. cbn [cache_contains LIFO_interface] in Hk.
  unfold contains in Hk. apply bool_decide_eq_false in Hk.
  assert (Hnone : entries c !! k = None).
  { destruct (entries c !! k); [exfalso; apply Hk; eauto | reflexivity]. }
  destruct Ho as [-> | ->]; simpl in Hs; injection Hs as <-.
  - unfold put. rewrite Hnone. apply (LIFO_room_cases k v c Hst Hnone).
  - unfold prefetch. rewrite Hnone. apply (LIFO_room_cases k v c Hst Hnone).
Qed.

Lemma LIFO_other_cases (o : op K V) c c' :
  stacked c -> ~ inserts_new o c -> step o c = Some c' ->
  stacked c' /\ maxCapacity c' = maxCapacity c /\ (size c' <= size c)%nat.
Proof.
  intros Hst Hnew Hs. unfold size.
  assert (Hres : forall k v, o = Put k v \/ o = Prefetch k v ->
            exists e, entries c !! k = Some e).
  { intros k v Ho. destruct (entries c !! k) as [e|] eqn:E; [eauto|].
    exfalso. apply Hnew. exists k, v. split; [exact Ho|].
    cbn [cache_contains LIFO_interface]. unfold contains.
    apply bool_decide_eq_false. rewrite E. now intros [? ?]. }
  assert (Hupd : forall k e e', entries c !! k = Some e ->
            forall k', is_Some (<[k := e']> (entries c) !! k') ->
                       is_Some (entries c !! k')).
  { intros k e e' He k' Hk'. rewrite lookup_insert in Hk'.
    case_decide; [subst; eauto | exact Hk']. }
  destruct o as [k v|k|k| |k|k|k v|]; simpl in Hs; injection Hs as <-.
  - destruct (Hres k v ltac:(auto)) as [e He]. unfold put. rewrite He.
    cbn [maxCapacity entries]. rewrite map_size_insert_Some by eauto.
    split; [|auto]. intros k' Hk'. cbn [entries insertionOrder] in *.
    apply (Hupd k e _ He) in Hk'. rewrite without_filter.
    destruct (decide (k' = k)) as [->|Hne]; [now left|]. right.
    apply list_elem_of_filter. split; [exact Hne | now apply Hst].
  - unfold get. destruct (entries c !! k) as [e|] eqn:E;
      cbn [snd maxCapacity entries]; [|auto].
    rewrite map_size_insert_Some by eauto. split; [|auto].
    intros k' Hk'. cbn [entries insertionOrder] in *.
    apply Hst. eapply (Hupd k e); eauto.
  - unfold remove. destruct (entries c !! k) as [e|] eqn:E;
      cbn [maxCapacity entries]; [|auto].
    split; [|split; [reflexivity | rewrite map_size_delete_Some by eauto; lia]].
    intros k' Hk'. cbn [entries insertionOrder] in *.
    rewrite lookup_delete in Hk'. case_decide as Hkk; [destruct Hk'; discriminate|].
    rewrite without_filter. apply list_elem_of_filter.
    split; [congruence | now apply Hst].
  - cbn. rewrite map_size_empty. split; [|split; [reflexivity | lia]].
    intros k' Hk'. cbn in Hk'. rewrite lookup_empty in Hk'.
    destruct Hk'; discriminate.
  - unfold pin. case_bool_decide; auto.
  - auto.
  - destruct (Hres k v ltac:(auto)) as [e He]. unfold prefetch. rewrite He.
    cbn [maxCapacity entries count_prefetch].
    rewrite map_size_insert_Some by eauto. split; [|auto].
    intros k' Hk'. cbn [entries insertionOrder count_prefetch] in *.
    apply Hst. eapply (Hupd k e); eauto.
  - auto.
Qed.

End WithTypes.
End LIFOPins.

Module LFUPins.
Import LFUCache LFUCapacity.
Section WithTypes.
Context {K : Type} `{Countable K} {V : Type}.
Variable place : Z -> list Z -> nat.
Implicit Types (c : t K V) (fs : list (Z * list K)) (P : gset K).

(** The keys [evict] looks at: those of the lists from the node of
    [minFrequency] to the end of the table, in iteration order. *)
Definition scanned c : list K :=
  match find_bucket (minFrequency c) (frequencies c) with
  | Some i => concat (drop i (frequencies c)).*2
  | None => []
  end.

(** Every key that [evict] looks at is pinned. *)
Definition scan_pinned c : Prop :=
  forall k, k ∈ scanned c -> isPinned k c = true.

(** The capacity is not zero, the table and the maps agree, and the table
    has one node for a frequency. *)
Definition tidy c : Prop :=
  (1 <= maxCapacity c)%nat /\ wf c /\ NoDup (frequencies c).*1.

Lemma find_bucket_None f fs : find_bucket f fs = None <-> f ∉ fs.*1.
Proof.
  induction fs as [|[f' l'] fs IH]; simpl.
  - split; [intros _ Hin; inversion Hin | reflexivity].
  - rewrite not_elem_of_cons. destruct (f' =? f) eqn:E.
    + apply Z.eqb_eq in E. split; [discriminate | intros [Hne _]; congruence].
    + apply Z.eqb_neq in E. rewrite <- IH.
      destruct (find_bucket f fs); simpl; split.
      * discriminate.
      * intros [_ ?]. discriminate.
      * intros _. split; [congruence | reflexivity].
      * reflexivity.
Qed.

(** With one node for a frequency, [find] finds the node. *)
Lemma find_bucket_unique fs : forall j f l,
  NoDup fs.*1 -> fs !! j = Some (f, l) -> find_bucket f fs = Some j.
Proof.
  induction fs as [|[f' l'] fs IH]; intros j f l Hnd Hj; [discriminate|].
  cbn in Hnd. apply NoDup_cons in Hnd as [Hf' Hnd]. destruct j as [|j]; simpl.
  - injection Hj as -> ->. now rewrite Z.eqb_refl.
  - cbn in Hj. destruct (f' =? f) eqn:E.
    + apply Z.eqb_eq in E. subst f'. exfalso. apply Hf'.
      apply list_elem_of_fmap. exists (f, l). split; [reflexivity|].
      eapply list_elem_of_lookup_2; eauto.
    + now rewrite (IH j f l Hnd Hj).
Qed.

Lemma pick_Some (l : list K) P x l' :
  pick l P = Some (x, l') ->
  exists l1 l2, l = l1 ++ x :: l2 /\ l' = l1 ++ l2 /\ x ∉ P.
Proof.
  revert l'. induction l as [|y l IH]; intros l'; simpl; [discriminate|].
  case_bool_decide as Hy.
  - intros [= <- <-]. exists [], l. auto.
  - destruct (pick l P) as [[k0 l0]|]; simpl; [|discriminate].
    intros [= <- <-]. destruct (IH l0 eq_refl) as (l1 & l2 & -> & -> & Hp).
    exists (y :: l1), l2. auto.
Qed.

Lemma pick_None (l : list K) P :
  pick l P = None -> forall k, k ∈ l -> k ∈ P.
Proof.
  induction l as [|y l IH]; simpl; intros Hp k Hk; [inversion Hk|].
  case_bool_decide as Hy; [discriminate|].
  destruct (pick l P) as [[k0 l0]|]; simpl in Hp; [discriminate|].
  apply elem_of_cons in Hk as [->|Hk]; [|now apply IH].
  destruct (decide (y ∈ P)); [assumption | contradiction].
Qed.

Lemma scan_Some fs P : forall x f l' fs',
  scan fs P = Some (x, f, l', fs') ->
  exists j l, fs !! j = Some (f, l) /\ pick l P = Some (x, l') /\
              fs' = take j fs ++ (f, l') :: drop (S j) fs.
Proof.
  induction fs as [|[f0 l0] fs IH]; intros x f l' fs'; simpl; [discriminate|].
  destruct (pick l0 P) as [[k0 l0']|] eqn:E.
  - intros [= <- <- <- <-]. exists O, l0. rewrite drop_0. auto.
  - destruct (scan fs P) as [[[[k1 f1] l1] fs1]|]; simpl; [|discriminate].
    intros [= <- <- <- <-].
    destruct (IH _ _ _ _ eq_refl) as (j & l & Hj & Hp & ->).
    exists (S j), l. auto.
Qed.

Lemma scan_None fs P :
  scan fs P = None -> forall k, k ∈ concat fs.*2 -> k ∈ P.
Proof.
  induction fs as [|[f0 l0] fs IH]; simpl; intros Hs k Hk; [inversion Hk|].
  destruct (pick l0 P) as [[k0 l0']|] eqn:E; [discriminate|].
  destruct (scan fs P) as [[[[k1 f1] l1] fs1]|] eqn:E'; [discriminate|].
  apply elem_of_app in Hk as [Hk|Hk].
  - now apply (pick_None l0 P E).
  - now apply IH.
Qed.

Lemma replace_fst fs j f l l' :
  fs !! j = Some (f, l) ->
  (take j fs ++ (f, l') :: drop (S j) fs).*1 = fs.*1.
Proof.
  intros Hj. rewrite <- (take_drop_middle fs j (f, l) Hj) at 3.
  now rewrite !fmap_app.
Qed.

Lemma alter_fst (h : list K -> list K) i fs :
  (alter (fun b : Z * list K => (b.1, h b.2)) i fs).*1 = fs.*1.
Proof.
  revert i. induction fs as [|[f l] fs IH]; intros [|i]; cbn; try reflexivity.
  f_equal. apply IH.
Qed.

Lemma update_bucket_nodup f (h : list K -> list K) fs :
  NoDup fs.*1 -> NoDup (update_bucket place f h fs).*1.
Proof.
  intros Hnd.
  assert (Hw : NoDup (with_bucket place f fs).*1).
  { unfold with_bucket. destruct (find_bucket f fs) eqn:E; [exact Hnd|].
    apply find_bucket_None in E. cbv zeta.
    rewrite fmap_app, fmap_cons. cbn [fst].
    assert (Hperm : (take (place f fs.*1) fs).*1
                      ++ f :: (drop (place f fs.*1) fs).*1 ≡ₚ f :: fs.*1).
    { rewrite <- Permutation_middle. constructor.
      now rewrite <- fmap_app, take_drop. }
    rewrite Hperm. now apply NoDup_cons. }
  unfold update_bucket. cbv zeta.
  destruct (find_bucket f (with_bucket place f fs)); [|exact Hw].
  now rewrite alter_fst.
Qed.

Lemma updateFrequency_tidy k c :
  tidy c -> is_Some (keyToEntry c !! k) -> tidy (updateFrequency place k c).
Proof.
  intros (Hcap & Hwf & Hnd) Hk. split; [exact Hcap|]. split.
  - now apply updateFrequency_wf.
  - unfold updateFrequency. cbn [frequencies].
    now do 2 apply update_bucket_nodup.
Qed.

Lemma set_entry_tidy k e c : tidy c -> tidy (set_entry k e c).
Proof.
  intros (Hcap & Hwf & Hnd). split; [exact Hcap|]. split; [|exact Hnd].
  now apply set_entry_wf.
Qed.

Lemma insert_new_tidy k v c :
  tidy c -> keyToEntry c !! k = None -> tidy (insert_new place k v c).
Proof.
  intros (Hcap & (H1 & H2 & H3) & Hnd) Hk.
  assert (Hfresh : forall g, k ∉ bucket g (frequencies c)).
  { intros g Hin. apply H2 in Hin. assert (Hx : is_Some (keyToEntry c !! k))
      by (apply H3; eauto). rewrite Hk in Hx. destruct Hx; discriminate. }
  split; [exact Hcap|]. split; [|now apply update_bucket_nodup].
  unfold insert_new. repeat split; cbn [frequencies keyToFreq keyToEntry].
  - intros g. rewrite bucket_update. case_bool_decide; [|apply H1].
    apply NoDup_app. split; [apply H1|]. split; [|apply NoDup_singleton].
    intros k' Hin Hin'. apply list_elem_of_singleton in Hin'. subst k'.
    now apply Hfresh in Hin.
  - intros g k'. rewrite bucket_update. case_bool_decide as Hg.
    + subst g. intros Hin. apply elem_of_app in Hin as [Hin|Hin].
      * rewrite lookup_insert_ne; [now apply H2|].
        intros <-. now apply Hfresh in Hin.
      * apply list_elem_of_singleton in Hin. subst k'.
        apply lookup_insert_eq.
    + intros Hin. rewrite lookup_insert_ne; [now apply H2|].
      intros <-. now apply Hfresh in Hin.
  - intros k'. rewrite !lookup_insert. case_decide; [eauto | apply H3].
Qed.

Lemma remove_tidy k c : tidy c -> tidy (remove place k c).
Proof.
  intros Ht. pose proof Ht as (Hcap & (H1 & H2 & H3) & Hnd).
  unfold remove. destruct (keyToEntry c !! k) as [e|] eqn:Hk; [|exact Ht].
  set (freq := default 0 (keyToFreq c !! k)).
  set (fs1 := update_bucket place freq (list_remove k) (frequencies c)).
  assert (Hsub : forall g k', k' ∈ bucket g fs1 ->
            k' <> k /\ k' ∈ bucket g (frequencies c)).
  { intros g k'. unfold fs1. rewrite bucket_update. case_bool_decide as Hg.
    - subst g. unfold list_remove. rewrite list_elem_of_filter. tauto.
    - intros Hin. split; [|exact Hin]. intros ->.
      apply H2 in Hin. apply Hg. unfold freq. now rewrite Hin. }
  split; [exact Hcap|]. split; [|now apply update_bucket_nodup].
  repeat split; cbn [frequencies keyToFreq keyToEntry].
  - intros g. unfold fs1. rewrite bucket_update.
    case_bool_decide; [|apply H1]. apply NoDup_filter, H1.
  - intros g k' Hin. apply Hsub in Hin as [Hne Hin].
    rewrite lookup_delete_ne by congruence. now apply H2.
  - intros k'. rewrite !lookup_delete. case_decide; [|apply H3].
    intros [? ?]. discriminate.
Qed.

Lemma clear_tidy c : (1 <= maxCapacity c)%nat -> tidy (clear c).
Proof.
  intros Hcap. split; [exact Hcap|]. split; [|constructor].
  repeat split; cbn [clear frequencies keyToFreq keyToEntry].
  - intros g. apply NoDup_nil_2.
  - intros g k Hin. inversion Hin.
  - intros k. rewrite lookup_empty. intros [? ?]. discriminate.
Qed.

(** [evict] removes one resident unpinned entry, or nothing. *)
Lemma LFU_evict_cases c :
  tidy c ->
  tidy (evict c) /\ maxCapacity (evict c) = maxCapacity c /\
  ((exists x, x ∈ scanned c /\ is_Some (keyToEntry c !! x) /\
              (x ∉ pinnedKeys c) /\
              keyToEntry (evict c) = delete x (keyToEntry c)) \/
   (keyToEntry (evict c) = keyToEntry c /\ scan_pinned c)).
Proof.
  intros Ht. pose proof Ht as (Hcap & (H1 & H2 & H3) & Hnd).
  unfold evict, scan_pinned, scanned.
  destruct (find_bucket (minFrequency c) (frequencies c)) as [i|] eqn:Ei.
  2:{ split; [exact Ht|]. split; [reflexivity|]. right.
      split; [reflexivity|]. intros k Hk. inversion Hk. }
  destruct (scan (drop i (frequencies c)) (pinnedKeys c))
    as [[[[x f] l'] nodes']|] eqn:Es.
  2:{ split; [exact Ht|]. split; [reflexivity|]. right.
      split; [reflexivity|]. intros k Hk. unfold isPinned.
      apply bool_decide_eq_true_2. now apply (scan_None _ _ Es). }
  destruct (scan_Some _ _ _ _ _ _ Es) as (j & l & Hj & Hp & ->).
  destruct (pick_Some _ _ _ _ Hp) as (l1 & l2 & -> & -> & Hx).
  assert (Hsc : x ∈ concat (drop i (frequencies c)).*2).
  { apply list_elem_of_In, in_concat. exists (l1 ++ x :: l2). split.
    - apply list_elem_of_In, list_elem_of_fmap. exists (f, l1 ++ x :: l2).
      split; [reflexivity|]. eapply list_elem_of_lookup_2; eauto.
    - apply list_elem_of_In, elem_of_app. right. now left. }
  rewrite lookup_drop in Hj.
  assert (Hfind : find_bucket f (frequencies c) = Some (i + j)%nat)
    by (now apply (find_bucket_unique _ _ _ (l1 ++ x :: l2))).
  assert (Hb : bucket f (frequencies c) = l1 ++ x :: l2).
  { destruct (find_bucket_Some _ _ _ Hfind) as (l0 & Hl0 & ->). congruence. }
  assert (Htab : take i (frequencies c)
                   ++ take j (drop i (frequencies c))
                   ++ (f, l1 ++ l2) :: drop (S j) (drop i (frequencies c))
                 = take (i + j) (frequencies c)
                     ++ (f, l1 ++ l2) :: drop (S (i + j)) (frequencies c)).
  { rewrite app_assoc, take_take_drop, drop_drop.
    now replace (i + S j)%nat with (S (i + j)) by lia. }
  assert (Hrep : forall g,
            bucket g (take (i + j) (frequencies c)
                        ++ (f, l1 ++ l2) :: drop (S (i + j)) (frequencies c))
            = if bool_decide (g = f) then l1 ++ l2
              else bucket g (frequencies c))
    by (intros g; now apply bucket_replace).
  assert (Hxf : keyToFreq c !! x = Some f).
  { apply H2. rewrite Hb. apply elem_of_app. right. now left. }
  assert (Hxr : is_Some (keyToEntry c !! x)) by (apply H3; eauto).
  assert (Hndl : NoDup (l1 ++ x :: l2)) by (rewrite <- Hb; apply H1).
  assert (Hxl : x ∉ l1 ++ l2).
  { apply NoDup_app in Hndl as (_ & Hd & Hnd2).
    apply NoDup_cons in Hnd2 as [Hx2 _]. rewrite elem_of_app.
    intros [Hin|Hin]; [|contradiction]. apply (Hd x Hin). now left. }
  cbn [maxCapacity keyToEntry].
  split; [|split; [reflexivity | left; exists x; auto 10]].
  split; [exact Hcap|]. cbn [frequencies]. rewrite Htab. split.
  - repeat split; cbn [frequencies keyToFreq keyToEntry].
    + intros g. rewrite Hrep. case_bool_decide; [|apply H1].
      eapply sublist_NoDup; [exact Hndl|].
      apply sublist_app; [reflexivity|]. now apply sublist_cons.
    + intros g k. rewrite Hrep. case_bool_decide as Hg.
      * subst g. intros Hin.
        rewrite lookup_delete_ne by (intros ->; contradiction).
        apply H2. rewrite Hb. apply elem_of_app in Hin as [Hin|Hin];
          apply elem_of_app; [now left | right; now right].
      * intros Hin. pose proof (H2 _ _ Hin) as Hfq.
        rewrite lookup_delete_ne; [exact Hfq|]. intros ->. congruence.
    + intros k. rewrite !lookup_delete. case_decide; [|apply H3].
      intros [? ?]. discriminate.
  - rewrite (replace_fst _ _ f (l1 ++ x :: l2)); [exact Hnd | exact Hj].
Qed.

Lemma LFU_scan_victim c x :
  x ∈ scanned c -> x ∉ pinnedKeys c -> ~ scan_pinned c.
Proof.
  intros Hin Hp Hq. apply Hp. unfold scan_pinned, isPinned in Hq.
  eapply bool_decide_eq_true_1, Hq. exact Hin.
Qed.

Lemma LFU_insert_keeps k v c1 c k' :
  keyToEntry c1 = keyToEntry c ->
  contains k' c = true -> contains k' (insert_new place k v c1) = true.
Proof.
  intros He Hk'. apply LFU_contains_resident in Hk'.
  apply LFU_contains_resident. cbn [insert_new keyToEntry].
  rewrite lookup_insert. case_decide; [eauto | now rewrite He].
Qed.

Lemma LFU_room_cases k v c :
  tidy c -> keyToEntry c !! k = None ->
  let c' := insert_new place k v
              (if (maxCapacity c <=? size c)%nat then evict c else c) in
  tidy c' /\ maxCapacity c' = maxCapacity c /\
  ((size c < capacity c)%nat /\ size c' = S (size c) \/
   (capacity c <= size c)%nat /\ size c' = size c /\ ~ scan_pinned c \/
   (capacity c <= size c)%nat /\ size c' = S (size c) /\ scan_pinned c /\
     forall k', contains k' c = true -> contains k' c' = true).
Proof.
  intros Ht Hk. cbv zeta. unfold size, capacity.
  destruct (maxCapacity c <=? stdpp.base.size (keyToEntry c))%nat eqn:E.
  - apply Nat.leb_le in E.
    destruct (LFU_evict_cases c Ht)
      as (Ht' & Hc & [(x & Hin & Hx & Hp & He)|[He Hq]]).
    + assert (Hk' : keyToEntry (evict c) !! k = None).
      { rewrite He, lookup_delete. case_decide; [reflexivity | exact Hk]. }
      split; [now apply insert_new_tidy|].
      cbn [insert_new maxCapacity keyToEntry]. split; [exact Hc|].
      right. left. split; [exact E|]. split; [|now apply (LFU_scan_victim c x)].
      rewrite map_size_insert_None by exact Hk'.
      rewrite He, map_size_delete_Some by exact Hx.
      assert (stdpp.base.size (keyToEntry c) <> O)
        by (now apply map_size_ne_0_lookup_2 with x).
      lia.
    + assert (Hk' : keyToEntry (evict c) !! k = None) by (now rewrite He).
      split; [now apply insert_new_tidy|].
      cbn [insert_new maxCapacity keyToEntry]. split; [exact Hc|].
      right. right. split; [exact E|]. split; [|split; [exact Hq|]].
      * rewrite map_size_insert_None by exact Hk'. now rewrite He.
      * intros k'. now apply LFU_insert_keeps.
  - apply Nat.leb_gt in E. split; [now apply insert_new_tidy|].
    cbn [insert_new maxCapacity keyToEntry].
    split; [reflexivity|]. left. split; [exact E|].
    now rewrite map_size_insert_None.
Qed.

Lemma LFU_insert_cases (o : op K V) c c' :
  tidy c -> inserts_new (I := LFU_interface place) o c ->
  step (I := LFU_interface place) o c = Some c' ->
  tidy c' /\ maxCapacity c' = maxCapacity c /\
  ((size c < capacity c)%nat /\ size c' = S (size c) \/
   (capacity c <= size c)%nat /\ size c' = size c /\ ~ scan_pinned c \/
   (capacity c <= size c)%nat /\ size c' = S (size c) /\ scan_pinned c /\
     forall k', contains k' c = true -> contains k' c' = true).
Proof.
  intros Ht (k & v & Ho & Hk) Hs. cbn [cache_contains LFU_interface] in Hk.
  unfold contains in Hk. apply bool_decide_eq_false in Hk.
  assert (Hnone : keyToEntry c !! k = None).
  { destruct (keyToEntry c !! k); [exfalso; apply Hk; eauto | reflexivity]. }
  destruct Ho as [-> | ->]; simpl in Hs; injection Hs as <-.
  - unfold put. destruct Ht as (Hcap & Hrest).
    replace (maxCapacity c =? 0)%nat with false
      by (symmetry; apply Nat.eqb_neq; lia).
    rewrite Hnone. apply (LFU_room_cases k v c (conj Hcap Hrest) Hnone).
  - unfold prefetch. rewrite Hnone. cbv zeta.
    apply (LFU_room_cases k v c Ht Hnone).
Qed.

Lemma LFU_other_cases (o : op K V) c c' :
  tidy c -> ~ inserts_new (I := LFU_interface place) o c ->
  step (I := LFU_interface place) o c = Some c' ->
  tidy c' /\ maxCapacity c' = maxCapacity c /\ (size c' <= size c)%nat.
Proof.
  intros Ht Hnew Hs. unfold size.
  assert (Hres : forall k v, o = Put k v \/ o = Prefetch k v ->
            exists e, keyToEntry c !! k = Some e).
  { intros k v Ho. destruct (keyToEntry c !! k) as [e|] eqn:E; [eauto|].
    exfalso. apply Hnew. exists k, v. split; [exact Ho|].
    cbn [cache_contains LFU_interface]. unfold contains.
    apply bool_decide_eq_false. rewrite E. now intros [? ?]. }
  assert (Htouch : forall k e e', keyToEntry c !! k = Some e ->
            tidy (updateFrequency place k (set_entry k e' c)) /\
            stdpp.base.size (keyToEntry (updateFrequency place k (set_entry k e' c)))
            = stdpp.base.size (keyToEntry c)).
  { intros k e e' He. split.
    - apply updateFrequency_tidy; [now apply set_entry_tidy|].
      cbn [set_entry keyToEntry]. rewrite lookup_insert_eq. eauto.
    - cbn [updateFrequency set_entry keyToEntry].
      apply map_size_insert_Some. eauto. }
  destruct o as [k v|k|k| |k|k|k v|]; simpl in Hs; injection Hs as <-.
  - destruct (Hres k v ltac:(auto)) as [e He]. unfold put.
    destruct (maxCapacity c =? 0)%nat; [auto|]. rewrite He.
    destruct (Htouch k e (set_value v e) He) as [Ht' Hsz].
    split; [exact Ht'|]. split; [reflexivity | lia].
  - unfold get. destruct (keyToEntry c !! k) as [e|] eqn:E; cbn [snd]; [|auto].
    destruct (Htouch k e (touch e) E) as [Ht' Hsz].
    split; [exact Ht'|]. split; [reflexivity|].
    cbn [set_stats keyToEntry]. lia.
  - split; [now apply remove_tidy|]. unfold remove.
    destruct (keyToEntry c !! k) as [e|] eqn:E; cbn [maxCapacity keyToEntry];
      [|auto].
    split; [reflexivity|]. rewrite map_size_delete_Some by eauto. lia.
  - split; [apply clear_tidy, Ht|]. cbn. rewrite map_size_empty.
    split; [reflexivity | lia].
  - unfold pin. case_bool_decide; auto.
  - auto.
  - destruct (Hres k v ltac:(auto)) as [e He]. unfold prefetch. rewrite He.
    cbv zeta. split; [now apply set_entry_tidy|].
    cbn [set_stats set_entry maxCapacity keyToEntry].
    rewrite map_size_insert_Some by eauto. auto.
  - auto.
Qed.

End WithTypes.
End LFUPins.

Module PinnedRuns.
Section WithTypes.
Context {K : Type} `{Countable K} {V : Type}.
Variable place : Z -> list Z -> nat.

Lemma inserts_new_keeps {C : Type} {I : CacheInterface K V C}
    (o : op K V) (c : C) (k : K) :
  inserts_new o c -> ~ drops k o.
Proof. intros (k' & v & [-> | ->] & _) [Hd|Hd]; discriminate. Qed.

(** Where [evict] looks at every resident entry: a victim shows that not
    every entry is pinned, and with every entry pinned all are kept. *)
Lemma victim_cases {C : Type} {I : CacheInterface K V C} (Inv : C -> Prop)
    (c c' : C) :
  (forall k, cache_contains k c = true -> cache_isPinned k c = true ->
             cache_contains k c' = true) ->
  Inv c' /\ cache_capacity c' = cache_capacity c /\
  ((cache_size c < cache_capacity c)%nat /\ cache_size c' = S (cache_size c) \/
   (cache_capacity c <= cache_size c)%nat /\ cache_size c' = cache_size c /\
     has_victim c \/
   (cache_capacity c <= cache_size c)%nat /\ cache_size c' = S (cache_size c) /\
     all_pinned c) ->
  Inv c' /\ cache_capacity c' = cache_capacity c /\
  ((cache_size c < cache_capacity c)%nat /\ cache_size c' = S (cache_size c) \/
   (cache_capacity c <= cache_size c)%nat /\ cache_size c' = cache_size c /\
     ~ all_pinned c \/
   (cache_capacity c <= cache_size c)%nat /\ cache_size c' = S (cache_size c) /\
     all_pinned c /\
     forall k, cache_contains k c = true -> cache_contains k c' = true).
Proof.
  intros Hkeep (Hinv & Hcap & [Hroom|[(H1 & H2 & (x & Hx & Hp))|(H1 & H2 & Hall)]]).
  - auto.
  - split; [exact Hinv|]. split; [exact Hcap|]. right. left.
    split; [exact H1|]. split; [exact H2|]. intros Hall.
    apply Hall in Hx. congruence.
  - split; [exact Hinv|]. split; [exact Hcap|]. right. right.
    split; [exact H1|]. split; [exact H2|]. split; [exact Hall|].
    intros k Hk. apply Hkeep; [exact Hk | now apply Hall].
Qed.

Lemma LRU_cases_insert (o : op K V) (c c' : EnhancedLRUCache.t K V) :
  True -> inserts_new o c -> step o c = Some c' ->
  True /\ cache_capacity c' = cache_capacity c /\
  ((cache_size c < cache_capacity c)%nat /\ cache_size c' = S (cache_size c) \/
   (cache_capacity c <= cache_size c)%nat /\ cache_size c' = cache_size c /\
     ~ all_pinned c \/
   (cache_capacity c <= cache_size c)%nat /\ cache_size c' = S (cache_size c) /\
     all_pinned c /\
     forall k, cache_contains k c = true -> cache_contains k c' = true).
Proof.
  intros _ Hnew Hs. apply (victim_cases (fun _ => True)).
  - intros k Hk Hp.
    apply (LRUCapacity.LRU_step_keeps_pinned o k c c' Hs
             (inserts_new_keeps o c k Hnew) Hp Hk).
  - split; [exact I|]. exact (LRUPins.LRU_insert_cases o c c' Hnew Hs).
Qed.

Lemma LRU_cases_other (o : op K V) (c c' : EnhancedLRUCache.t K V) :
  True -> ~ inserts_new o c -> step o c = Some c' ->
  True /\ cache_capacity c' = cache_capacity c /\
  (cache_size c' <= cache_size c)%nat.
Proof.
  intros _ Hnew Hs. split; [exact I|]. exact (LRUPins.LRU_other_cases o c c' Hnew Hs).
Qed.

Lemma FIFO_cases_insert (o : op K V) (c c' : FIFOCache.t K V) :
  True -> inserts_new o c -> step o c = Some c' ->
  True /\ cache_capacity c' = cache_capacity c /\
  ((cache_size c < cache_capacity c)%nat /\ cache_size c' = S (cache_size c) \/
   (cache_capacity c <= cache_size c)%nat /\ cache_size c' = cache_size c /\
     ~ FIFOPins.queue_pinned c \/
   (cache_capacity c <= cache_size c)%nat /\ cache_size c' = S (cache_size c) /\
     FIFOPins.queue_pinned c /\
     forall k, cache_contains k c = true -> cache_contains k c' = true).
Proof.
  intros _ Hnew Hs. split; [exact I|]. exact (FIFOPins.FIFO_insert_cases o c c' Hnew Hs).
Qed.

Lemma FIFO_cases_other (o : op K V) (c c' : FIFOCache.t K V) :
  True -> ~ inserts_new o c -> step o c = Some c' ->
  True /\ cache_capacity c' = cache_capacity c /\
  (cache_size c' <= cache_size c)%nat.
Proof.
  intros _ Hnew Hs. split; [exact I|]. exact (FIFOPins.FIFO_other_cases o c c' Hnew Hs).
Qed.

Lemma LIFO_cases_insert (o : op K V) (c c' : LIFOCache.t K V) :
  LIFOPins.stacked c -> inserts_new o c -> step o c = Some c' ->
  LIFOPins.stacked c' /\ cache_capacity c' = cache_capacity c /\
  ((cache_size c < cache_capacity c)%nat /\ cache_size c' = S (cache_size c) \/
   (cache_capacity c <= cache_size c)%nat /\ cache_size c' = cache_size c /\
     ~ all_pinned c \/
   (cache_capacity c <= cache_size c)%nat /\ cache_size c' = S (cache_size c) /\
     all_pinned c /\
     forall k, cache_contains k c = true -> cache_contains k c' = true).
Proof.
  intros Hst Hnew Hs.
  apply (victim_cases (LIFOPins.stacked : LIFOCache.t K V -> Prop)).
  - intros k Hk Hp.
    apply (LIFOCapacity.LIFO_step_keeps_pinned o k c c' Hs
             (inserts_new_keeps o c k Hnew) Hp Hk).
  - exact (LIFOPins.LIFO_insert_cases o c c' Hst Hnew Hs).
Qed.

(** *** The four caches over runs with pins *)

Lemma LRU_run_within (capacity : nat) (ops : list (op K V)) c :
  run ops (EnhancedLRUCache.create capacity) = Some c ->
  (EnhancedLRUCache.size c <= capacity)%nat \/
  admits all_pinned ops (EnhancedLRUCache.create capacity).
Proof.
  intros Hr.
  apply (run_within (fun _ => True) all_pinned LRU_cases_insert LRU_cases_other
           ops (EnhancedLRUCache.create capacity) c I); [cbn; lia | exact Hr].
Qed.

Lemma FIFO_run_within (capacity : nat) (ops : list (op K V)) c :
  run ops (FIFOCache.create capacity) = Some c ->
  (FIFOCache.size c <= capacity)%nat \/
  admits FIFOPins.queue_pinned ops (FIFOCache.create capacity).
Proof.
  intros Hr.
  apply (run_within (fun _ => True) FIFOPins.queue_pinned
           FIFO_cases_insert FIFO_cases_other
           ops (FIFOCache.create capacity) c I);
    [cbn; rewrite map_size_empty; lia | exact Hr].
Qed.

Lemma LIFO_run_within (capacity : nat) (ops : list (op K V)) c :
  run ops (LIFOCache.create capacity) = Some c ->
  LIFOPins.stacked c /\
  ((LIFOCache.size c <= capacity)%nat \/
   admits all_pinned ops (LIFOCache.create capacity)).
Proof.
  intros Hr.
  assert (Hst : LIFOPins.stacked (LIFOCache.create (K := K) (V := V) capacity)).
  { intros k Hk. cbn in Hk. rewrite lookup_empty in Hk. destruct Hk; discriminate. }
  split.
  - apply (run_invariant (LIFOPins.stacked : LIFOCache.t K V -> Prop) all_pinned
             LIFO_cases_insert LIFOPins.LIFO_other_cases
             ops (LIFOCache.create capacity) c Hst Hr).
  - apply (run_within (LIFOPins.stacked : LIFOCache.t K V -> Prop) all_pinned
             LIFO_cases_insert LIFOPins.LIFO_other_cases
             ops (LIFOCache.create capacity) c Hst);
      [cbn; rewrite map_size_empty; lia | exact Hr].
Qed.

Lemma LFU_run_within (capacity : nat) (ops : list (op K V)) c :
  (1 <= capacity)%nat ->
  run (I := LFU_interface place) ops (LFUCache.create capacity) = Some c ->
  LFUPins.tidy c /\
  ((LFUCache.size c <= capacity)%nat \/
   admits (I := LFU_interface place) LFUPins.scan_pinned ops
     (LFUCache.create capacity)).
Proof.
  intros Hcap Hr.
  assert (Ht : LFUPins.tidy (LFUCache.create (K := K) (V := V) capacity))
    by (apply (LFUPins.clear_tidy (LFUCache.create capacity)); exact Hcap).
  split.
  - apply (run_invariant (I := LFU_interface place) (LFUPins.tidy : LFUCache.t K V -> Prop) LFUPins.scan_pinned
             (LFUPins.LFU_insert_cases place) (LFUPins.LFU_other_cases place)
             ops (LFUCache.create capacity) c Ht Hr).
  - apply (run_within (I := LFU_interface place) (LFUPins.tidy : LFUCache.t K V -> Prop) LFUPins.scan_pinned
             (LFUPins.LFU_insert_cases place) (LFUPins.LFU_other_cases place)
             ops (LFUCache.create capacity) c Ht);
      [cbn; rewrite map_size_empty; lia | exact Hr].
Qed.

(** *** A new key is let into a full cache whose candidates are pinned *)

Lemma LRU_lets_in (c : EnhancedLRUCache.t K V) : lets_in all_pinned c.
Proof.
  exact (step_let_in (fun _ => True) all_pinned LRU_cases_insert c I).
Qed.

Lemma FIFO_lets_in (c : FIFOCache.t K V) : lets_in FIFOPins.queue_pinned c.
Proof.
  exact (step_let_in (fun _ => True) FIFOPins.queue_pinned FIFO_cases_insert c I).
Qed.

Lemma LIFO_lets_in (c : LIFOCache.t K V) :
  LIFOPins.stacked c -> lets_in all_pinned c.
Proof.
  exact (step_let_in (LIFOPins.stacked : LIFOCache.t K V -> Prop) all_pinned
           LIFO_cases_insert c).
Qed.

Lemma LFU_lets_in (c : LFUCache.t K V) :
  LFUPins.tidy c -> lets_in (I := LFU_interface place) LFUPins.scan_pinned c.
Proof.
  exact (step_let_in (I := LFU_interface place)
           (LFUPins.tidy : LFUCache.t K V -> Prop) LFUPins.scan_pinned
           (LFUPins.LFU_insert_cases place) c).
Qed.

End WithTypes.
End PinnedRuns.

Module CapacityClaims.

Lemma LRU_create_bounded {K : Type} `{Countable K} {V : Type} cap :
  LRUCapacity.bounded (V := V) cap (EnhancedLRUCache.create (K := K) cap).
Proof. repeat split. simpl. lia. Qed.

Lemma FIFO_create_bounded {K : Type} `{Countable K} {V : Type} cap :
  FIFOCapacity.bounded (V := V) cap (FIFOCache.create (K := K) cap).
Proof.
  repeat split; cbn; [rewrite map_size_empty; lia|].
  intros k. rewrite lookup_empty. intros [? ?]. discriminate.
Qed.

Lemma LIFO_create_bounded {K : Type} `{Countable K} {V : Type} cap :
  LIFOCapacity.bounded (V := V) cap (LIFOCache.create (K := K) cap).
Proof.
  repeat split; cbn; [rewrite map_size_empty; lia|].
  intros k. rewrite lookup_empty. intros [? ?]. discriminate.
Qed.

Lemma LFU_create_bounded {K : Type} `{Countable K} {V : Type} cap :
  (1 <= cap)%nat ->
  LFUCapacity.bounded (V := V) cap (LFUCache.create (K := K) cap).
Proof.
  intros Hcap. apply (LFUCapacity.clear_bounded cap (LFUCache.create cap));
    [exact Hcap | reflexivity].
Qed.


(** The FIFO scenario of the design document, and two more calls. *)
Definition fifo_scenario : list (op Z string) :=
  [Put 1 "A"; Put 2 "B"; Put 3 "C"; Get 1; Get 1; Put 4 "D";
   Remove 2; Prefetch 5 "E"; Put 6 "F"]%string.

(** Key 1 pinned in a full FIFO cache of capacity 2. *)
Definition pinned_first : FIFOCache.t Z string :=
  default (FIFOCache.create 2)
    (run [Put 1 "A"; Put 2 "B"; Pin 1]%string (FIFOCache.create 2)).

(** "Pin blocks eviction": capacity 2; put A, B; pin(A); put C. *)
Definition pin_scenario : list (op Z string) :=
  [Put 1 "A"; Put 2 "B"; Pin 1; Put 3 "C"]%string.



End CapacityClaims.

(* ===================================================================== *)
(** * Further properties of the code                                      *)
(* ===================================================================== *)

Module CodecProperties.
Import Codec CodecFacts.

(** X1. [rleDecompress] inverts [rleCompress] on every input, whatever its
    length: the 4 GiB limit of the frame is a limit of the header, not of
    the run-length code. *)
Theorem rleDecompress_rleCompress (data : list byte) :
  rleDecompress (rleCompress data) = data.
Proof. apply rleCompress_roundtrip. Qed.

Lemma rle_loop_size fuel : forall data,
  (length data <= fuel)%nat ->
  Nat.Even (length (rle_loop fuel data)) /\
  (length (rle_loop fuel data) <= 2 * length data)%nat /\
  (2 * length data <= 255 * length (rle_loop fuel data))%nat.
Proof.
  induction fuel as [|fuel IH]; intros data Hlen.
  - destruct data; [|simpl in Hlen; lia]. simpl. split; [exists O; lia | lia].
  - destruct data as [|cur tail].
    + simpl. split; [exists O; lia | lia].
    + cbn [rle_loop].
      pose proof (run_length_bounds cur tail 1%N ltac:(lia)) as Hb.
      destruct (run_length_prefix cur tail 1%N ltac:(lia)) as [_ Hk].
      set (count := run_length cur tail 1%N) in *.
      destruct (IH (drop (N.to_nat count) (cur :: tail))) as [[h Hh] [Hu Hl]].
      { rewrite length_drop. simpl in *. lia. }
      rewrite length_drop in Hu, Hl. cbn [length] in *.
      split; [exists (S h); lia | lia].
Qed.

(** X2. The size of a frame: the 20-byte header and an even number of
    payload bytes, at most two per input byte and at least two per 255
    input bytes. *)
Theorem compress_size (padding : nat -> byte) (x : list byte) :
  length (compress padding x) = (20 + length (rleCompress x))%nat /\
  Nat.Even (length (rleCompress x)) /\
  (length (rleCompress x) <= 2 * length x)%nat /\
  (2 * length x <= 255 * length (rleCompress x))%nat.
Proof.
  split.
  - unfold compress. now rewrite length_app, header_bytes_length.
  - apply rle_loop_size. lia.
Qed.

Lemma rleDecompress_take fuel : forall data m,
  (length data <= fuel)%nat ->
  (m < length (rle_loop fuel data))%nat ->
  (length (rleDecompress (take m (rle_loop fuel data))) < length data)%nat.
Proof.
  induction fuel as [|fuel IH]; intros data m Hlen Hm.
  - simpl in Hm. lia.
  - destruct data as [|cur tail]; [simpl in Hm; lia|].
    cbn [rle_loop] in *.
    pose proof (run_length_bounds cur tail 1%N ltac:(lia)) as Hb.
    destruct (run_length_prefix cur tail 1%N ltac:(lia)) as [_ Hk].
    set (count := run_length cur tail 1%N) in *.
    destruct m as [|[|m]]; [simpl; lia | simpl; lia |].
    cbn [take firstn rleDecompress length] in *.
    rewrite length_app, length_replicate, u8_to_N by lia.
    specialize (IH (drop (N.to_nat count) (cur :: tail)) m).
    rewrite length_drop in IH. cbn [length] in IH.
    assert (length (rleDecompress
              (take m (rle_loop fuel (drop (N.to_nat count) (cur :: tail)))))
            < S (length tail) - N.to_nat count)%nat by (apply IH; lia).
    lia.
Qed.

(** X3. A truncated frame is never accepted: every proper prefix of the
    frame of an input shorter than 4 GiB makes [decompress] throw. *)
Theorem decompress_truncated (padding : nat -> byte) (x : list byte) (n : nat) :
  Z.of_nat (length x) < 2 ^ 32 ->
  (n < length (compress padding x))%nat ->
  exists e, decompress (take n (compress padding x)) = inl e.
Proof.
  intros Hx Hn. unfold decompress.
  destruct (length (take n (compress padding x)) <? sizeof_CompressionHeader)%nat
    eqn:E; [now eexists|].
  apply Nat.ltb_ge in E. rewrite length_take in E.
  unfold compress in *. rewrite length_app, header_bytes_length in Hn.
  set (h := Build_CompressionHeader _ _ _ _ _) in *.
  assert (Hsplit : take n (header_bytes padding h ++ rleCompress x) =
                   header_bytes padding h
                   ++ take (n - sizeof_CompressionHeader) (rleCompress x)).
  { rewrite take_app, header_bytes_length.
    rewrite take_ge by (rewrite header_bytes_length; lia). reflexivity. }
  rewrite Hsplit, read_header_bytes.
  cbn [magic version originalSize compressionType h].
  change (negb (COMPRESSION_MAGIC mod 2 ^ 32 =? COMPRESSION_MAGIC)) with false.
  change (negb (COMPRESSION_VERSION mod 2 ^ 16 =? COMPRESSION_VERSION)) with false.
  change (0 mod 2 ^ 8 =? 0) with true. cbv iota.
  rewrite (drop_app_length' _ _ _ (eq_sym (header_bytes_length _ _))).
  pose proof (rleDecompress_take (length x) x (n - sizeof_CompressionHeader)
                ltac:(lia)) as Hshort.
  fold (rleCompress x) in Hshort.
  assert (length (rleDecompress (take (n - sizeof_CompressionHeader) (rleCompress x)))
          < length x)%nat as Hlt by (apply Hshort; lia).
  unfold u32. rewrite Z.mod_mod, Z.mod_small by lia.
  replace (Z.of_nat (length (rleDecompress
             (take (n - sizeof_CompressionHeader) (rleCompress x))))
           =? Z.of_nat (length x)) with false
    by (symmetry; apply Z.eqb_neq; lia).
  now eexists.
Qed.

Lemma decompress_truncated_witness :
  exists e, decompress (take 21 (compress (fun _ => x00) ["a"%byte; "a"%byte]))
            = inl e.
Proof.
  apply (decompress_truncated (fun _ => x00) ["a"%byte; "a"%byte] 21).
  - simpl. lia.
  - vm_compute. lia.
Defined.

Lemma rleDecompress_even_app (l : list byte) : forall r,
  Nat.Even (length l) -> rleDecompress (l ++ r) = rleDecompress l ++ rleDecompress r.
Proof.
  induction l as [l IH] using (induction_ltof1 _ (@length _)); unfold ltof in IH.
  intros r [h Hh]. destruct l as [|c [|b l]].
  - reflexivity.
  - simpl in Hh. lia.
  - cbn [app rleDecompress]. rewrite IH; [now rewrite app_assoc | simpl; lia |].
    exists (h - 1)%nat. simpl in Hh. lia.
Qed.

(** X4. Bytes after the last pair: a single trailing byte is ignored, and
    so is a trailing pair whose count is zero; the frame of an input is
    not the only byte sequence that decompresses to it. *)
Theorem decompress_trailing (padding : nat -> byte) (x : list byte) (b : byte) :
  Z.of_nat (length x) < 2 ^ 32 ->
  decompress (compress padding x ++ [b]) = inr x /\
  decompress (compress padding x ++ [x00; b]) = inr x.
Proof.
  intros Hx.
  assert (forall extra, rleDecompress extra = [] ->
            decompress (compress padding x ++ extra) = inr x) as Hgen.
  { intros extra Hextra. unfold decompress, compress.
    rewrite <- app_assoc.
    rewrite length_app, header_bytes_length.
    replace (sizeof_CompressionHeader + length (rleCompress x ++ extra)
             <? sizeof_CompressionHeader)%nat
      with false by (symmetry; apply Nat.ltb_ge; lia).
    rewrite read_header_bytes. cbn [magic version originalSize compressionType].
    change (negb (COMPRESSION_MAGIC mod 2 ^ 32 =? COMPRESSION_MAGIC)) with false.
    change (negb (COMPRESSION_VERSION mod 2 ^ 16 =? COMPRESSION_VERSION)) with false.
    change (0 mod 2 ^ 8 =? 0) with true. cbv iota.
    rewrite (drop_app_length' _ _ _ (eq_sym (header_bytes_length _ _))).
    rewrite rleDecompress_even_app by (apply rle_loop_size; lia).
    rewrite rleCompress_roundtrip, Hextra, app_nil_r.
    unfold u32. rewrite Z.mod_mod, Z.mod_small by lia.
    now rewrite Z.eqb_refl. }
  split; apply Hgen; reflexivity.
Qed.

Lemma decompress_trailing_witness :
  decompress (compress (fun _ => x00) ["a"%byte] ++ ["z"%byte]) = inr ["a"%byte] /\
  decompress (compress (fun _ => x00) ["a"%byte] ++ [x00; "z"%byte]) = inr ["a"%byte].
Proof. apply (decompress_trailing (fun _ => x00) ["a"%byte] "z"%byte). simpl. lia. Defined.

End CodecProperties.
Module CodecRuns.
Import Codec CodecFacts.

Lemma run_length_replicate b m : forall count,
  (count <= 255)%N ->
  run_length b (replicate m b) count = N.min (count + N.of_nat m) 255.
Proof.
  induction m as [|m IH]; intros count Hc; simpl.
  - lia.
  - assert (Byte.eqb b b = true) as -> by (apply Byte.byte_dec_lb; reflexivity).
    simpl. destruct (count <? 255)%N eqn:E.
    + apply N.ltb_lt in E. rewrite IH by lia. lia.
    + apply N.ltb_ge in E. lia.
Qed.

(** The frame payload of a run of [n] copies of [b]: a pair [(255, b)] for
    every full 255 bytes and one pair for the rest. *)
Definition run_pairs (n : nat) (b : byte) : list byte :=
  concat (replicate (n / 255) [xff; b]) ++
  (if (n mod 255 =? 0)%nat then [] else [u8 (N.of_nat (n mod 255)); b]).

Lemma rle_loop_replicate b fuel : forall n,
  (n <= fuel)%nat -> rle_loop fuel (replicate n b) = run_pairs n b.
Proof.
  induction fuel as [|fuel IH]; intros n Hn.
  - assert (n = O) as -> by lia. reflexivity.
  - destruct n as [|n]; [reflexivity|].
    cbn [replicate rle_loop]. rewrite run_length_replicate by lia.
    change (b :: replicate n b) with (replicate (S n) b).
    rewrite drop_replicate.
    destruct (decide (S n <= 255)%nat) as [Hle|Hgt].
    + replace (N.min (1 + N.of_nat n) 255) with (N.of_nat (S n)) by lia.
      rewrite Nat2N.id, Nat.sub_diag. 
      replace (rle_loop fuel (replicate 0 b)) with (@nil byte)
        by (destruct fuel; reflexivity).
      unfold run_pairs.
      destruct (decide (S n = 255)%nat) as [E|E].
      * rewrite E. reflexivity.
      * rewrite Nat.div_small, Nat.mod_small by lia.
        replace (S n =? 0)%nat with false by reflexivity. reflexivity.
    + replace (N.min (1 + N.of_nat n) 255) with 255%N by lia.
      change (N.to_nat 255) with 255%nat.
      rewrite IH by lia. unfold run_pairs.
      assert (exists m, S n = m + 1 * 255)%nat as [m Hm]
        by (exists (S n - 255)%nat; lia).
      rewrite Hm. replace (m + 1 * 255 - 255)%nat with m by lia.
      rewrite Nat.div_add, Nat.Div0.mod_add by lia.
      rewrite Nat.add_1_r. reflexivity.
Qed.

(** X5. A run of [n] equal bytes is coded in pairs of at most 255: the
    payload is [n / 255] pairs [(255, b)] followed, when 255 does not divide
    [n], by the pair [(n mod 255, b)]. *)
Theorem rleCompress_run (n : nat) (b : byte) :
  rleCompress (replicate n b) = run_pairs n b.
Proof.
  unfold rleCompress. apply rle_loop_replicate. now rewrite length_replicate.
Qed.

End CodecRuns.
Module LRUProperties.
Import EnhancedLRUCache LRUCapacity.
Section WithTypes.
Context {K : Type} `{Countable K} {V : Type}.
Implicit Types (c : t K V) (l : list (CacheEntry K V)).

Lemma find_None k l : find k l = None <-> k ∉ key <$> l.
Proof.
  rewrite <- resident_keys, <- find_is_Some, eq_None_not_Some. reflexivity.
Qed.

Lemma moveToFront_keys i l e :
  l !! i = Some e -> key <$> moveToFront i l = key e :: delete i (key <$> l).
Proof.
  intros Hi. unfold moveToFront. rewrite Hi. cbn. f_equal.
  clear Hi. revert i. induction l as [|e' l IH]; intros [|i]; cbn; try reflexivity.
  f_equal. apply IH.
Qed.

(** Under [NoDup], deleting the position of a key is filtering it out. *)
Lemma delete_filter (k : K) (ks : list K) i :
  NoDup ks -> ks !! i = Some k -> delete i ks = filter (fun x => x ≠ k) ks.
Proof.
  intros Hnd. revert i. induction Hnd as [|x ks Hx Hnd IH]; intros [|i] Hi;
    try discriminate.
  - injection Hi as ->. rewrite filter_cons_False by (intros Hk; now apply Hk).
    change (delete 0%nat (k :: ks)) with ks.
    symmetry. clear IH Hnd. induction ks as [|y ks IH]; [reflexivity|].
    rewrite filter_cons_True by (intros ->; apply Hx; left).
    f_equal. apply IH. intros Hk. apply Hx. now right.
  - change (delete (S i) (x :: ks)) with (x :: delete i ks).
    change ((x :: ks) !! S i) with (ks !! i) in Hi.
    rewrite filter_cons_True.
    + f_equal. now apply IH.
    + intros ->. apply Hx. eapply list_elem_of_lookup_2; eauto.
Qed.

Lemma evict_step_keys c :
  NoDup (key <$> entries c) ->
  match evict_step c with
  | inl c' | inr c' => NoDup (key <$> entries c')
  end.
Proof.
  intros Hnd. unfold evict_step.
  destruct (last (entries c)) as [e|] eqn:Hl; [|exact Hnd].
  case_bool_decide.
  - cbn [entries]. eapply sublist_NoDup; [exact Hnd|].
    apply fmap_sublist, sublist_take.
  - assert (Hperm : key <$> moveToFront (length (entries c) - 1) (entries c)
                    ≡ₚ key <$> entries c)
      by (now rewrite moveToFront_perm).
    match goal with |- context [if ?b then _ else _] => destruct b end;
      cbn [entries]; now rewrite Hperm.
Qed.

Lemma evict_step_subset c k :
  match evict_step c with
  | inl c' | inr c' => k ∈ key <$> entries c' -> k ∈ key <$> entries c
  end.
Proof.
  unfold evict_step.
  destruct (last (entries c)) as [e|] eqn:Hl; [|auto].
  case_bool_decide.
  - cbn [entries]. intros Hk. eapply elem_of_sublist; [exact Hk|].
    apply fmap_sublist, sublist_take.
  - assert (Hperm : key <$> moveToFront (length (entries c) - 1) (entries c)
                    ≡ₚ key <$> entries c)
      by (now rewrite moveToFront_perm).
    match goal with |- context [if ?b then _ else _] => destruct b end;
      cbn [entries]; now rewrite Hperm.
Qed.

Lemma evict_loop_keys fuel : forall c c',
  evict_loop fuel c = Some c' ->
  NoDup (key <$> entries c) ->
  NoDup (key <$> entries c') /\
  (forall k, k ∈ key <$> entries c' -> k ∈ key <$> entries c).
Proof.
  induction fuel as [|fuel IH]; intros c c' Hl Hnd; [discriminate|].
  cbn [evict_loop] in Hl.
  pose proof (evict_step_keys c Hnd) as Hs.
  pose proof (evict_step_subset c) as Hsub.
  destruct (evict_step c) as [c1|c1].
  - injection Hl as <-. split; [exact Hs | exact Hsub].
  - destruct (IH c1 c' Hl Hs) as [Hnd' Hsub']. split; [exact Hnd'|].
    intros k Hk. apply Hsub, Hsub', Hk.
Qed.

Lemma insert_front_keys k v c :
  NoDup (key <$> entries c) -> k ∉ key <$> entries c ->
  NoDup (key <$> entries (insert_front k v c)).
Proof. intros Hnd Hk. cbn. now apply NoDup_cons. Qed.

Lemma step_keys (o : op K V) c c' :
  step o c = Some c' -> NoDup (key <$> entries c) -> NoDup (key <$> entries c').
Proof.
  intros Hs Hnd. destruct o as [k v|k|k| |k|k|k v|]; simpl in Hs.
  - unfold put in Hs. destruct (find k (entries c)) as [i|] eqn:E.
    + injection Hs as <-. cbn [entries].
      rewrite moveToFront_perm, alter_keys; [exact Hnd | reflexivity].
    + apply find_None in E.
      destruct (_ <=? _)%nat; simpl in Hs.
      * destruct (evict c) as [c1|] eqn:Ev; [|discriminate]. simpl in Hs.
        injection Hs as <-.
        destruct (evict_loop_keys _ _ _ Ev Hnd) as [Hnd1 Hsub].
        apply insert_front_keys; [exact Hnd1|]. intros Hk. apply E, Hsub, Hk.
      * injection Hs as <-. now apply insert_front_keys.
  - injection Hs as <-. unfold get.
    destruct (find k (entries c)) as [i|]; cbn [snd entries]; [|exact Hnd].
    rewrite moveToFront_perm, alter_keys; [exact Hnd | reflexivity].
  - injection Hs as <-. unfold remove.
    destruct (find k (entries c)) as [i|] eqn:E; [|exact Hnd].
    cbn [entries]. eapply sublist_NoDup; [exact Hnd|].
    apply fmap_sublist, sublist_delete.
  - injection Hs as <-. cbn. constructor.
  - injection Hs as <-. unfold pin. case_bool_decide; exact Hnd.
  - injection Hs as <-. exact Hnd.
  - unfold prefetch in Hs. destruct (find k (entries c)) as [i|] eqn:E.
    + injection Hs as <-. cbn [entries count_prefetch].
      rewrite moveToFront_perm, alter_keys; [exact Hnd | reflexivity].
    + apply find_None in E.
      destruct (_ <? _)%nat; simpl in Hs.
      * injection Hs as <-. now apply insert_front_keys.
      * destruct (evict c) as [c1|] eqn:Ev; [|discriminate]. simpl in Hs.
        injection Hs as <-.
        destruct (evict_loop_keys _ _ _ Ev Hnd) as [Hnd1 Hsub].
        apply (insert_front_keys k v c1); [exact Hnd1|].
        intros Hk. apply E, Hsub, Hk.
  - injection Hs as <-. exact Hnd.
Qed.

Lemma run_keys (ops : list (op K V)) : forall c c',
  run ops c = Some c' -> NoDup (key <$> entries c) -> NoDup (key <$> entries c').
Proof.
  induction ops as [|o ops IH]; intros c c' Hr Hnd.
  - injection Hr as <-. exact Hnd.
  - simpl in Hr. destruct (step o c) as [c1|] eqn:Hs; [|discriminate].
    simpl in Hr. apply (IH c1 c' Hr). apply (step_keys o c c1 Hs Hnd).
Qed.

(** The recency list of the textbook LRU policy of capacity [cap], most
    recently used key first: a hit moves the key to the front; a put moves
    the key to the front, or places it there, and the list is cut to the
    [cap] most recent keys. *)
Definition lru_touch (k : K) (l : list K) : list K :=
  k :: filter (fun x => x ≠ k) l.

Definition lru_model_step (cap : nat) (l : list K) (o : op K V) : list K :=
  match o with
  | Put k _ => take cap (lru_touch k l)
  | Get k => if bool_decide (k ∈ l) then lru_touch k l else l
  | _ => l
  end.

Definition lru_model (cap : nat) (ops : list (op K V)) : list K :=
  fold_left (lru_model_step cap) ops [].

Lemma touch_keys (f : CacheEntry K V -> CacheEntry K V) k i l :
  (forall e, key (f e) = key e) ->
  NoDup (key <$> l) -> find k l = Some i ->
  key <$> moveToFront i (alter f i l) = lru_touch k (key <$> l).
Proof.
  intros Hf Hnd Hi. destruct (find_Some _ _ _ Hi) as (e & He & Hk).
  rewrite (moveToFront_keys i _ (f e)).
  - rewrite Hf, Hk, alter_keys by exact Hf. unfold lru_touch. f_equal.
    apply delete_filter; [exact Hnd|].
    rewrite list_lookup_fmap, He. simpl. now rewrite Hk.
  - rewrite list_lookup_alter, He. now rewrite decide_True by reflexivity.
Qed.

Lemma evict_no_pins c :
  pinnedKeys c = ∅ ->
  evict c = Some (mk (maxCapacity c) (removelast (entries c)) ∅
                     (if bool_decide (entries c = []) then stats c
                      else Stats.evicted (stats c))).
Proof.
  intros Hp. destruct (entries c) as [|e0 l0] eqn:E using rev_ind.
  - unfold evict. rewrite E. cbn [length evict_loop]. unfold evict_step.
    rewrite E. cbn. destruct c; cbn in *. now subst.
  - clear IHl0. rewrite (evict_unpinned_tail c l0 e0 E) by (rewrite Hp; apply not_elem_of_empty).
    rewrite removelast_last, Hp.
    rewrite bool_decide_eq_false_2; [reflexivity|].
    intros Hnil. apply app_eq_nil in Hnil as [_ Hnil]. discriminate.
Qed.

Lemma removelast_fmap {A B} (f : A -> B) (l : list A) :
  f <$> removelast l = removelast (f <$> l).
Proof.
  induction l as [|a [|b l] IH]; try reflexivity.
  change (f <$> a :: removelast (b :: l) = f a :: removelast (f <$> b :: l)).
  now rewrite <- IH.
Qed.

(** Taking a key that is not there out of a list. *)
Lemma filter_absent (k : K) (l : list K) :
  k ∉ l -> filter (fun x => x ≠ k) l = l.
Proof.
  induction l as [|x l IH]; intros Hk; [reflexivity|].
  rewrite filter_cons_True by (intros ->; apply Hk; left).
  f_equal. apply IH. intros Hin. apply Hk. now right.
Qed.

(** The list cut to [cap] keys after a new key went to the front: the
    key at the back leaves a full list. *)
Lemma take_front (cap : nat) (k : K) (l : list K) :
  (1 <= cap)%nat -> (length l <= cap)%nat ->
  take cap (k :: l)
  = k :: (if (cap <=? length l)%nat then removelast l else l).
Proof.
  intros Hcap Hlen. destruct cap as [|n]; [lia|]. cbn [take firstn]. f_equal.
  destruct (S n <=? length l)%nat eqn:E.
  - apply Nat.leb_le in E. rewrite removelast_firstn_len.
    replace (Nat.pred (length l)) with n by lia. reflexivity.
  - apply Nat.leb_gt in E. apply take_ge. lia.
Qed.

Lemma LRU_follows_step (cap : nat) (o : op K V) c :
  match o with Put _ _ | Get _ => True | _ => False end ->
  (1 <= cap)%nat ->
  maxCapacity c = cap -> pinnedKeys c = ∅ -> NoDup (getKeys c) ->
  (length (getKeys c) <= cap)%nat ->
  exists c', step o c = Some c' /\ maxCapacity c' = cap /\ pinnedKeys c' = ∅ /\
             getKeys c' = lru_model_step cap (getKeys c) o /\
             (length (getKeys c') <= cap)%nat.
Proof.
  intros Ho Hcap Hc Hp Hnd Hlen. unfold getKeys in *.
  destruct o as [k v|k|k| |k|k|k v|]; try contradiction; simpl.
  - unfold put. destruct (find k (entries c)) as [i|] eqn:E.
    + eexists. split; [reflexivity|]. cbn [maxCapacity pinnedKeys entries].
      assert (Hk : key <$> moveToFront i (alter (set_value v) i (entries c))
                   = lru_touch k (key <$> entries c))
        by (apply touch_keys; [reflexivity | exact Hnd | exact E]).
      assert (Hl : (length (lru_touch k (key <$> entries c)) <= cap)%nat).
      { rewrite <- Hk, length_fmap, moveToFront_length, length_alter.
        now rewrite length_fmap in Hlen. }
      repeat split; try assumption.
      * rewrite Hk. symmetry. now apply take_ge.
      * now rewrite Hk.
    + apply find_None in E as E'. unfold lru_touch.
      rewrite (filter_absent k _ E'), (take_front cap k _ Hcap Hlen).
      rewrite Hc, length_fmap in *.
      destruct (cap <=? length (entries c))%nat eqn:Ecap.
      * rewrite (evict_no_pins c Hp). simpl. eexists. split; [reflexivity|].
        cbn. repeat split; [exact Hc | now rewrite removelast_fmap |].
        apply Nat.leb_le in Ecap. rewrite length_fmap.
        destruct (entries c) as [|e0 l0] using rev_ind;
          [simpl in *; lia|].
        rewrite removelast_last. rewrite length_app in Hlen. simpl in Hlen. lia.
      * simpl. eexists. split; [reflexivity|]. cbn.
        apply Nat.leb_gt in Ecap. rewrite length_fmap.
        repeat split; try assumption; lia.
  - eexists. split; [reflexivity|]. unfold get.
    destruct (find k (entries c)) as [i|] eqn:E; cbn [snd maxCapacity pinnedKeys entries].
    + assert (Hk : key <$> moveToFront i (alter touch i (entries c))
                   = lru_touch k (key <$> entries c))
        by (apply touch_keys; [reflexivity | exact Hnd | exact E]).
      repeat split; try assumption.
      * rewrite bool_decide_eq_true_2
          by (apply resident_keys, find_is_Some; eauto).
        exact Hk.
      * rewrite length_fmap, moveToFront_length, length_alter.
        now rewrite length_fmap in Hlen.
    + apply find_None in E. rewrite bool_decide_eq_false_2 by exact E.
      repeat split; assumption.
Qed.

Lemma LRU_follows_model (cap : nat) (ops : list (op K V)) : forall c,
  Forall (fun o => match o with Put _ _ | Get _ => True | _ => False end) ops ->
  (1 <= cap)%nat ->
  maxCapacity c = cap -> pinnedKeys c = ∅ -> NoDup (getKeys c) ->
  (length (getKeys c) <= cap)%nat ->
  exists c', run ops c = Some c' /\
             getKeys c' = fold_left (lru_model_step cap) ops (getKeys c) /\
             (length (getKeys c') <= cap)%nat.
Proof.
  induction ops as [|o ops IH]; intros c Hf Hcap Hc Hp Hnd Hlen.
  - exists c. repeat split; [exact Hlen].
  - apply Forall_cons in Hf as [Ho Hf].
    destruct (LRU_follows_step cap o c Ho Hcap Hc Hp Hnd Hlen)
      as (c1 & Hs & Hc1 & Hp1 & Hk1 & Hl1).
    assert (NoDup (getKeys c1)) as Hnd1 by (apply (step_keys o c c1 Hs Hnd)).
    destruct (IH c1 Hf Hcap Hc1 Hp1 Hnd1 Hl1) as (c' & Hr & Hk' & Hl').
    exists c'. simpl. rewrite Hs. simpl. split; [exact Hr|].
    split; [|exact Hl']. rewrite Hk', Hk1. reflexivity.
Qed.

(** X7. Under [put] and [get] alone a cache of capacity at least one is
    the textbook LRU policy: every such sequence of calls on a fresh cache
    returns, and [getKeys] is then the recency list of the policy, most
    recently used key first, which never holds more than [capacity]
    keys. *)
Theorem LRU_recency_order (capacity : nat) (ops : list (op K V)) :
  (1 <= capacity)%nat ->
  Forall (fun o => match o with Put _ _ | Get _ => True | _ => False end) ops ->
  exists c, run ops (create capacity) = Some c /\
            getKeys c = lru_model capacity ops /\
            (length (lru_model capacity ops) <= capacity)%nat.
Proof.
  intros Hcap Hf.
  destruct (LRU_follows_model capacity ops (create capacity) Hf Hcap)
    as (c & Hr & Hk & Hl); try reflexivity; [constructor | cbn; lia |].
  exists c. split; [exact Hr|]. split; [exact Hk|].
  unfold lru_model. change (getKeys (create capacity)) with (@nil K) in Hk.
  now rewrite <- Hk.
Qed.

End WithTypes.

Definition recency_ops : list (op Z string) :=
  [Put 1 "a"; Put 2 "b"; Get 1; Put 3 "c"]%string.

Lemma LRU_recency_order_witness :
  (exists c, run recency_ops (create 2) = Some c /\
             getKeys c = lru_model 2 recency_ops /\
             (length (lru_model 2 recency_ops) <= 2)%nat) /\
  lru_model (V := string) 2 recency_ops = [3; 1].
Proof.
  split; [|vm_compute; reflexivity].
  apply (LRU_recency_order 2 recency_ops); [lia|].
  repeat constructor.
Defined.

End LRUProperties.

(** ** X6: [lookup] and [entries] agree *)

Module LRUConsistency.
Import LRUContainers.
Section WithTypes.
Context {K : Type} `{Countable K} {V : Type}.
Implicit Types (c : t K V) (l : list (nat * CacheEntry K V)) (m : gmap K nat).

(** The address and the key of every node. *)
Definition labels l : list (nat * K) := (fun x => (x.1, key x.2)) <$> l.

(** No two nodes share an address, and [lookup] maps a key to an iterator
    exactly when the iterator points to a node with that key. *)
Definition agree l m : Prop :=
  NoDup l.*1 /\ forall k it, m !! k = Some it <-> (it, k) ∈ labels l.

Definition consistent c : Prop := agree (entries c) (lookup c).

Lemma labels_fst l : (labels l).*1 = l.*1.
Proof. unfold labels. rewrite <- list_fmap_compose. reflexivity. Qed.

Lemma elem_of_labels l it k :
  (it, k) ∈ labels l <-> exists e, (it, e) ∈ l /\ key e = k.
Proof.
  unfold labels. rewrite list_elem_of_fmap. split.
  - intros ([it' e] & Heq & Hin). simpl in Heq. injection Heq as -> ->. eauto.
  - intros (e & Hin & <-). exists (it, e). auto.
Qed.

Lemma node_Some it l i :
  node it l = Some i -> exists e, l !! i = Some (it, e).
Proof.
  revert i. induction l as [|[n e] l IH]; intros i; simpl; [discriminate|].
  case_bool_decide as Hn.
  - intros [= <-]. subst n. eauto.
  - destruct (node it l) as [j|]; simpl; [|discriminate].
    intros [= <-]. now apply IH.
Qed.

Lemma node_unique l : forall i it e,
  NoDup l.*1 -> l !! i = Some (it, e) -> node it l = Some i.
Proof.
  induction l as [|[n e'] l IH]; intros i it e Hnd Hi; [discriminate|].
  cbn in Hnd. apply NoDup_cons in Hnd as [Hn Hnd]. destruct i as [|i]; simpl.
  - cbn in Hi. injection Hi as -> ->. now rewrite bool_decide_eq_true_2.
  - cbn in Hi. rewrite bool_decide_eq_false_2.
    + now rewrite (IH i it e Hnd Hi).
    + intros ->. apply Hn. apply list_elem_of_fmap. exists (it, e).
      split; [reflexivity|]. eapply list_elem_of_lookup_2; eauto.
Qed.

(** With agreement, [lookup.find] is the search of the list by key. *)
Lemma agree_find l m k it :
  agree l m -> m !! k = Some it ->
  exists i e, node it l = Some i /\ l !! i = Some (it, e) /\ key e = k /\
              EnhancedLRUCache.find k l.*2 = Some i.
Proof.
  intros [Hnd Hm] Hk. apply Hm, elem_of_labels in Hk as (e & Hin & Hke).
  apply list_elem_of_lookup in Hin as [i Hi].
  exists i, e. split; [now apply (node_unique l i it e)|].
  split; [exact Hi|]. split; [exact Hke|].
  destruct (EnhancedLRUCache.find k l.*2) as [j|] eqn:Ef.
  - destruct (LRUCapacity.find_Some _ _ _ Ef) as (e' & Hj & Hke').
    rewrite list_lookup_fmap in Hj.
    destruct (l !! j) as [[it' e'']|] eqn:Ej; simpl in Hj; [|discriminate].
    injection Hj as ->.
    assert (Hit : m !! k = Some it').
    { apply Hm, elem_of_labels. exists e'. split; [|exact Hke'].
      eapply list_elem_of_lookup_2; eauto. }
    assert (Hm' : m !! k = Some it).
    { apply Hm, elem_of_labels. exists e. split; [|exact Hke].
      eapply list_elem_of_lookup_2; eauto. }
    assert (it' = it) as -> by congruence.
    f_equal. apply (NoDup_lookup l.*1 j i it Hnd);
      rewrite list_lookup_fmap; [now rewrite Ej | now rewrite Hi].
  - exfalso. apply eq_None_not_Some in Ef. apply Ef.
    apply LRUCapacity.find_is_Some. exists e. split; [|exact Hke].
    apply list_elem_of_fmap. exists (it, e). split; [reflexivity|].
    eapply list_elem_of_lookup_2; eauto.
Qed.

Lemma agree_find_None l m k :
  agree l m -> m !! k = None -> EnhancedLRUCache.find k l.*2 = None.
Proof.
  intros [Hnd Hm] Hk. apply eq_None_not_Some. intros Hf.
  apply LRUCapacity.find_is_Some in Hf as (e & Hin & Hke).
  apply list_elem_of_fmap in Hin as ([it e'] & Heq & Hin). simpl in Heq. subst e'.
  assert (m !! k = Some it); [|congruence].
  apply Hm, elem_of_labels. eauto.
Qed.

(** What the calls do to the list, seen without the addresses. *)
Lemma update_one_list f it l i :
  node it l = Some i -> (update f it l).*2 = alter f i l.*2.
Proof.
  intros Hn. unfold update. rewrite Hn.
  apply list_fmap_alter. apply Forall_forall. reflexivity.
Qed.

Lemma update_node f it it' l : node it' (update f it l) = node it' l.
Proof.
  unfold update. destruct (node it l) as [i|]; [|reflexivity].
  revert i. induction l as [|x l IH]; intros [|i]; try reflexivity.
  cbn. now rewrite IH.
Qed.

Lemma moveToFront_one_list it l i :
  node it l = Some i ->
  (moveToFront it l).*2 = EnhancedLRUCache.moveToFront i l.*2.
Proof.
  intros Hn. unfold moveToFront, EnhancedLRUCache.moveToFront. rewrite Hn.
  rewrite list_lookup_fmap. destruct (l !! i) as [x|]; [|reflexivity].
  simpl. now rewrite list_fmap_delete.
Qed.

Lemma erase_one_list it l i :
  node it l = Some i -> (erase it l).*2 = delete i l.*2.
Proof.
  intros Hn. unfold erase. rewrite Hn. apply list_fmap_delete.
Qed.

Lemma splice_perm it l : moveToFront it l ≡ₚ l.
Proof.
  unfold moveToFront. destruct (node it l) as [i|]; [|reflexivity].
  destruct (l !! i) as [x|] eqn:E; [|reflexivity].
  symmetry. now apply delete_Permutation.
Qed.

Lemma update_labels f it l :
  (forall e, key (f e) = key e) -> labels (update f it l) = labels l.
Proof.
  intros Hf. unfold update. destruct (node it l) as [i|]; [|reflexivity].
  unfold labels.
  rewrite (list_fmap_alter _ _ (fun x => x)).
  - now apply list_alter_id.
  - apply Forall_forall. intros [n e] _. simpl. now rewrite Hf.
Qed.

(** Agreement is kept by each thing the calls do to the two containers. *)
Lemma agree_perm l l' m : l ≡ₚ l' -> agree l m -> agree l' m.
Proof.
  intros Hp [Hnd Hm]. split; [now rewrite <- Hp|].
  intros k it. rewrite Hm. unfold labels. now rewrite Hp.
Qed.

Lemma agree_update f it l m :
  (forall e, key (f e) = key e) -> agree l m -> agree (update f it l) m.
Proof.
  intros Hf [Hnd Hm]. unfold agree.
  rewrite <- labels_fst, (update_labels f it l Hf), labels_fst.
  split; [exact Hnd | exact Hm].
Qed.

Lemma agree_moveToFront it l m : agree l m -> agree (moveToFront it l) m.
Proof. apply agree_perm. symmetry. apply splice_perm. Qed.

Lemma agree_erase it k l m :
  agree l m -> (it, k) ∈ labels l -> agree (erase it l) (delete k m).
Proof.
  intros [Hnd Hm] Hin. pose proof Hin as Hin'. apply elem_of_labels in Hin' as (e & He & Hke).
  apply list_elem_of_lookup in He as [i Hi].
  unfold erase. rewrite (node_unique l i it e Hnd Hi).
  assert (Hl : l = take i l ++ (it, e) :: drop (S i) l)
    by (symmetry; now apply take_drop_middle).
  assert (Hd : delete i l = take i l ++ drop (S i) l) by apply delete_take_drop.
  rewrite Hd. set (l1 := take i l) in *. set (l2 := drop (S i) l) in *.
  clearbody l1 l2. clear Hd Hi. subst l.
  rewrite fmap_app, fmap_cons in Hnd. simpl in Hnd.
  apply NoDup_app in Hnd as (Hnd1 & Hdis & Hnd2).
  apply NoDup_cons in Hnd2 as [Hit Hnd2].
  assert (Hfun : forall it' k', (it', k') ∈ labels (l1 ++ l2) -> it' <> it).
  { intros it' k' Hin1 ->.
    assert (Hfst : it ∈ (l1 ++ l2).*1).
    { rewrite <- labels_fst. apply list_elem_of_fmap. exists (it, k'). auto. }
    rewrite fmap_app in Hfst. apply elem_of_app in Hfst as [H1|H2].
    - apply (Hdis it H1). now left.
    - contradiction. }
  split.
  - rewrite fmap_app. apply NoDup_app. split; [exact Hnd1|]. split; [|exact Hnd2].
    intros x Hx Hx2. apply (Hdis x Hx). now right.
  - intros k' it'. rewrite lookup_delete.
    assert (Hsub : (it', k') ∈ labels (l1 ++ (it, e) :: l2) <->
                   (it', k') ∈ labels (l1 ++ l2) \/ (it', k') = (it, k)).
    { unfold labels. rewrite !fmap_app, fmap_cons, !elem_of_app, elem_of_cons.
      simpl. rewrite Hke. tauto. }
    case_decide as Hkk.
    + subst k'. split; [discriminate|]. intros Hin1. exfalso.
      assert (Hm1 : m !! k = Some it') by (apply Hm, Hsub; now left).
      assert (Hm2 : m !! k = Some it) by (now apply Hm).
      apply (Hfun it' k Hin1). congruence.
    + rewrite Hm, Hsub. split; [|tauto].
      intros [Hin1|Heq]; [exact Hin1|]. injection Heq as -> ->. contradiction.
Qed.

Lemma allocate_fresh l : allocate l ∉ l.*1.
Proof. apply max_list_not_elem_of_gt. unfold allocate. lia. Qed.

Lemma agree_emplace k v l m :
  agree l m -> m !! k = None ->
  agree ((allocate l, new_entry k v) :: l) (<[k := allocate l]> m).
Proof.
  intros [Hnd Hm] Hk. split.
  - cbn. apply NoDup_cons. split; [apply allocate_fresh | exact Hnd].
  - intros k' it. cbn. rewrite elem_of_cons, lookup_insert. case_decide as Hkk.
    + subst k'. split.
      * intros [= <-]. now left.
      * intros [Heq|Hin]; [now injection Heq as -> |].
        apply Hm in Hin. congruence.
    + rewrite Hm. split; [now right|].
      intros [Heq|Hin]; [|exact Hin]. injection Heq as -> ->. contradiction.
Qed.

Lemma agree_empty : agree ([] : list (nat * CacheEntry K V)) ∅.
Proof.
  split; [constructor|]. intros k it. rewrite lookup_empty. split; [discriminate|].
  intros Hin. inversion Hin.
Qed.

(** The node at the back of the list. *)
Lemma last_node l it e :
  NoDup l.*1 -> last l = Some (it, e) ->
  node it l = Some (length l - 1)%nat /\ (it, key e) ∈ labels l.
Proof.
  intros Hnd Hl. rewrite last_lookup in Hl.
  replace (pred (length l)) with (length l - 1)%nat in Hl by lia.
  split; [now apply (node_unique l _ it e)|].
  apply elem_of_labels. exists e. split; [|reflexivity].
  eapply list_elem_of_lookup_2; eauto.
Qed.

Lemma delete_last {A : Type} (l : list A) :
  delete (length l - 1)%nat l = take (length l - 1) l.
Proof.
  rewrite delete_take_drop. rewrite (drop_ge l) by lia. apply app_nil_r.
Qed.

(** *** Each call on the two containers is the call on the one list *)

Lemma evict_step_refines c :
  consistent c ->
  match evict_step c, EnhancedLRUCache.evict_step (one_list c) with
  | inl c1, inl c1' | inr c1, inr c1' => one_list c1 = c1' /\ consistent c1
  | _, _ => False
  end.
Proof.
  intros Hc. pose proof Hc as [Hnd Hm].
  unfold evict_step, EnhancedLRUCache.evict_step, one_list.
  cbn [EnhancedLRUCache.entries EnhancedLRUCache.pinnedKeys
       EnhancedLRUCache.maxCapacity EnhancedLRUCache.stats].
  rewrite fmap_last. destruct (last (entries c)) as [[lastIt e]|] eqn:Hl; simpl.
  2:{ split; [reflexivity | exact Hc]. }
  destruct (last_node _ _ _ Hnd Hl) as [Hn Hin]. rewrite length_fmap.
  case_bool_decide as Hp.
  - split.
    + cbn [entries]. rewrite (erase_one_list _ _ _ Hn).
      rewrite <- (length_fmap snd (entries c)), delete_last. reflexivity.
    + now apply agree_erase.
  - cbn [entries].
    assert (Hlen : length (moveToFront lastIt (entries c)) = length (entries c))
      by (apply Permutation_length, splice_perm).
    rewrite Hlen, LRUCapacity.moveToFront_length, length_fmap.
    destruct (length (entries c) <=? 1)%nat;
      cbn [maxCapacity entries pinnedKeys stats];
      rewrite (moveToFront_one_list _ _ _ Hn);
      (split; [reflexivity | now apply agree_moveToFront]).
Qed.

Lemma evict_loop_refines fuel : forall c,
  consistent c ->
  one_list <$> evict_loop fuel c
  = EnhancedLRUCache.evict_loop fuel (one_list c) /\
  forall c', evict_loop fuel c = Some c' -> consistent c'.
Proof.
  induction fuel as [|fuel IH]; intros c Hc; [split; [reflexivity | discriminate]|].
  cbn [evict_loop EnhancedLRUCache.evict_loop].
  pose proof (evict_step_refines c Hc) as Hs.
  destruct (evict_step c) as [c1|c1],
           (EnhancedLRUCache.evict_step (one_list c)) as [c1'|c1'];
    try contradiction; destruct Hs as [<- Hc1].
  - split; [reflexivity|]. now intros c' [= <-].
  - apply (IH c1 Hc1).
Qed.

Lemma evict_refines c :
  consistent c ->
  one_list <$> evict c = EnhancedLRUCache.evict (one_list c) /\
  forall c', evict c = Some c' -> consistent c'.
Proof.
  intros Hc. unfold evict, EnhancedLRUCache.evict.
  replace (length (EnhancedLRUCache.entries (one_list c)))
    with (length (entries c)) by (cbn; now rewrite length_fmap).
  now apply evict_loop_refines.
Qed.

Lemma emplace_front_consistent k v c :
  consistent c -> lookup c !! k = None -> consistent (emplace_front k v c).
Proof. intros Hc Hk. now apply agree_emplace. Qed.

(** A resident key is moved to the front, its entry changed by [f]. *)
Lemma touch_refines (f : CacheEntry K V -> CacheEntry K V) k it c :
  (forall e, key (f e) = key e) ->
  consistent c -> lookup c !! k = Some it ->
  exists i, EnhancedLRUCache.find k (entries c).*2 = Some i /\
    node it (entries c) = Some i /\
    (moveToFront it (update f it (entries c))).*2
    = EnhancedLRUCache.moveToFront i (alter f i (entries c).*2) /\
    agree (moveToFront it (update f it (entries c))) (lookup c).
Proof.
  intros Hf Hc Hk.
  destruct (agree_find _ _ _ _ Hc Hk) as (i & e & Hn & Hi & Hke & Hfind).
  exists i. split; [exact Hfind|]. split; [exact Hn|]. split.
  - rewrite (moveToFront_one_list it _ i) by (now rewrite update_node).
    now rewrite (update_one_list f it _ i Hn).
  - now apply agree_moveToFront, agree_update.
Qed.

Lemma evict_step_absent c k :
  lookup c !! k = None ->
  match evict_step c with
  | inl c' | inr c' => lookup c' !! k = None
  end.
Proof.
  intros Hk. unfold evict_step.
  destruct (last (entries c)) as [[lastIt e]|]; [|exact Hk].
  case_bool_decide.
  - cbn [lookup]. rewrite lookup_delete. case_decide; [reflexivity | exact Hk].
  - match goal with |- context [if ?b then _ else _] => destruct b end;
      exact Hk.
Qed.

Lemma evict_loop_absent fuel : forall c c' k,
  evict_loop fuel c = Some c' -> lookup c !! k = None -> lookup c' !! k = None.
Proof.
  induction fuel as [|fuel IH]; intros c c' k Hl Hk; [discriminate|].
  cbn [evict_loop] in Hl. pose proof (evict_step_absent c k Hk) as Hs.
  destruct (evict_step c) as [c1|c1].
  - now injection Hl as <-.
  - now apply (IH c1 c' k).
Qed.

(** Room is made for a key that is not resident, and the key goes in. *)
Lemma room_refines k v (b : bool) c :
  consistent c -> lookup c !! k = None ->
  one_list <$> (c' ← (if b then evict c else Some c);
                Some (emplace_front k v c'))
  = (c' ← (if b then EnhancedLRUCache.evict (one_list c)
           else Some (one_list c));
     Some (EnhancedLRUCache.insert_front k v c')) /\
  forall c1, (c' ← (if b then evict c else Some c);
              Some (emplace_front k v c')) = Some c1 ->
             consistent c1.
Proof.
  intros Hc Hk. destruct b.
  - destruct (evict_refines c Hc) as [He Hce]. rewrite <- He.
    destruct (evict c) as [c1|] eqn:E; simpl;
      [|split; [reflexivity | discriminate]].
    split; [reflexivity|]. intros c2 [= <-].
    apply emplace_front_consistent; [now apply Hce|].
    now apply (evict_loop_absent _ c c1 k E).
  - simpl. split; [reflexivity|]. intros c2 [= <-].
    now apply emplace_front_consistent.
Qed.

Lemma step_refines (o : op K V) c :
  consistent c ->
  one_list <$> step o c = step o (one_list c) /\
  forall c', step o c = Some c' -> consistent c'.
Proof.
  intros Hc. destruct o as [k v|k|k| |k|k|k v|]; simpl.
  - unfold put, EnhancedLRUCache.put.
    destruct (lookup c !! k) as [it|] eqn:E.
    + destruct (touch_refines (set_value v) k it c ltac:(reflexivity) Hc E)
        as (i & Hfind & Hn & Heq & Hag).
      cbn [one_list EnhancedLRUCache.entries]. rewrite Hfind. simpl.
      split; [unfold one_list; cbn; now rewrite Heq|].
      now intros c' [= <-].
    + cbn [one_list EnhancedLRUCache.entries EnhancedLRUCache.maxCapacity].
      rewrite (agree_find_None _ _ _ Hc E), length_fmap.
      apply (room_refines k v _ c Hc E).
  - unfold get, EnhancedLRUCache.get.
    destruct (lookup c !! k) as [it|] eqn:E.
    + destruct (touch_refines touch k it c ltac:(reflexivity) Hc E)
        as (i & Hfind & Hn & Heq & Hag).
      cbn [one_list EnhancedLRUCache.entries]. rewrite Hfind. cbn [snd fmap option_fmap option_map].
      split; [unfold one_list; cbn; now rewrite Heq|].
      now intros c' [= <-].
    + cbn [one_list EnhancedLRUCache.entries].
      rewrite (agree_find_None _ _ _ Hc E). cbn [snd fmap option_fmap option_map].
      split; [reflexivity|]. now intros c' [= <-].
  - unfold remove, EnhancedLRUCache.remove.
    destruct (lookup c !! k) as [it|] eqn:E.
    + destruct (agree_find _ _ _ _ Hc E) as (i & e & Hn & Hi & Hke & Hfind).
      cbn [one_list EnhancedLRUCache.entries]. rewrite Hfind.
      split; [unfold one_list; cbn; now rewrite (erase_one_list _ _ _ Hn)|].
      intros c' [= <-]. apply agree_erase; [exact Hc|]. now apply Hc.
    + cbn [one_list EnhancedLRUCache.entries].
      rewrite (agree_find_None _ _ _ Hc E).
      split; [reflexivity|]. now intros c' [= <-].
  - split; [reflexivity|]. intros c' [= <-]. apply agree_empty.
  - unfold pin, EnhancedLRUCache.pin.
    destruct (lookup c !! k) as [it|] eqn:E.
    + destruct (agree_find _ _ _ _ Hc E) as (i & e & Hn & Hi & Hke & Hfind).
      cbn [one_list EnhancedLRUCache.entries]. rewrite Hfind.
      rewrite !bool_decide_eq_true_2 by eauto.
      split; [reflexivity|]. now intros c' [= <-].
    + cbn [one_list EnhancedLRUCache.entries].
      rewrite (agree_find_None _ _ _ Hc E).
      rewrite !bool_decide_eq_false_2 by (intros [? ?]; discriminate).
      split; [reflexivity|]. now intros c' [= <-].
  - split; [reflexivity|]. now intros c' [= <-].
  - unfold prefetch, EnhancedLRUCache.prefetch.
    destruct (lookup c !! k) as [it|] eqn:E.
    + destruct (touch_refines (set_value v) k it c ltac:(reflexivity) Hc E)
        as (i & Hfind & Hn & Heq & Hag).
      cbn [one_list EnhancedLRUCache.entries]. rewrite Hfind. simpl.
      split; [unfold one_list; cbn; now rewrite Heq|].
      now intros c' [= <-].
    + cbn [one_list EnhancedLRUCache.entries EnhancedLRUCache.maxCapacity].
      rewrite (agree_find_None _ _ _ Hc E), length_fmap.
      destruct (length (entries c) <? maxCapacity c)%nat.
      * simpl. split; [reflexivity|]. intros c' [= <-].
        now apply (emplace_front_consistent k v c).
      * destruct (evict_refines c Hc) as [He Hce]. rewrite <- He.
        destruct (evict c) as [c1|] eqn:Ev; simpl;
          [|split; [reflexivity | discriminate]].
        split; [reflexivity|]. intros c' [= <-].
        change (consistent (emplace_front k v c1)).
        apply emplace_front_consistent; [now apply Hce|].
        now apply (evict_loop_absent _ c c1 k Ev).
  - split; [reflexivity|]. now intros c' [= <-].
Qed.

Lemma run_refines (ops : list (op K V)) : forall c,
  consistent c ->
  one_list <$> run ops c = run ops (one_list c) /\
  forall c', run ops c = Some c' -> consistent c'.
Proof.
  induction ops as [|o ops IH]; intros c Hc.
  - simpl. split; [reflexivity|]. now intros c' [= <-].
  - cbn [run]. destruct (step_refines o c Hc) as [Heq Hcons].
    rewrite <- Heq. destruct (step o c) as [c1|]; simpl.
    + apply IH. now apply Hcons.
    + split; [reflexivity | discriminate].
Qed.

(** *** What agreement gives *)

Lemma labels_keys c : getKeys c = (labels (entries c)).*2.
Proof. unfold getKeys, labels. now rewrite <- list_fmap_compose. Qed.

Lemma consistent_keys c : consistent c -> NoDup (getKeys c).
Proof.
  intros [Hnd Hm]. rewrite labels_keys. apply NoDup_fmap_2_strong.
  - intros [it1 k1] [it2 k2] H1 H2. simpl. intros <-.
    apply Hm in H1, H2. congruence.
  - apply (NoDup_fmap_1 fst). now rewrite labels_fst.
Qed.

Lemma consistent_size c :
  consistent c -> stdpp.base.size (lookup c) = length (entries c).
Proof.
  intros [Hnd Hm]. rewrite <- length_map_to_list.
  assert (Hp : map_to_list (lookup c)
               ≡ₚ (fun x => (x.2, x.1)) <$> labels (entries c)).
  { apply NoDup_Permutation.
    - apply NoDup_map_to_list.
    - apply NoDup_fmap_2_strong.
      + intros [it1 k1] [it2 k2] _ _. simpl. congruence.
      + apply (NoDup_fmap_1 fst). now rewrite labels_fst.
    - intros [k it]. rewrite elem_of_map_to_list, Hm, list_elem_of_fmap.
      split.
      + intros Hin. exists (it, k). auto.
      + intros ([it' k'] & Heq & Hin). simpl in Heq. now injection Heq as -> ->. }
  rewrite Hp. unfold labels. now rewrite !length_fmap.
Qed.

Lemma consistent_contains c k :
  consistent c -> contains k c = true <-> k ∈ getKeys c.
Proof.
  intros [Hnd Hm]. unfold contains. rewrite bool_decide_eq_true, labels_keys.
  rewrite list_elem_of_fmap. split.
  - intros [it Hit]. apply Hm in Hit. exists (it, k). auto.
  - intros ([it k'] & -> & Hin). exists it. now apply Hm.
Qed.

(** What a caller reads is the same on the two containers and on the one
    list. *)
Lemma reads_refine c k :
  consistent c ->
  (get k c).1 = (EnhancedLRUCache.get k (one_list c)).1 /\
  contains k c = EnhancedLRUCache.contains k (one_list c) /\
  size c = EnhancedLRUCache.size (one_list c) /\
  getKeys c = EnhancedLRUCache.getKeys (one_list c).
Proof.
  intros Hc.
  unfold get, contains, size, getKeys, EnhancedLRUCache.get,
    EnhancedLRUCache.contains, EnhancedLRUCache.size, EnhancedLRUCache.getKeys.
  cbn [one_list EnhancedLRUCache.entries].
  rewrite length_fmap, <- list_fmap_compose.
  destruct (lookup c !! k) as [it|] eqn:E.
  - destruct (agree_find _ _ _ _ Hc E) as (i & e & Hn & Hi & Hke & Hfind).
    rewrite Hfind, Hn.
    split; [cbn; now rewrite list_lookup_fmap, Hi|]. split; [|auto].
    now rewrite !bool_decide_eq_true_2 by eauto.
  - rewrite (agree_find_None _ _ _ Hc E).
    split; [reflexivity|]. split; [|auto].
    now rewrite !bool_decide_eq_false_2 by (intros [? ?]; discriminate).
Qed.

(** X6.  The two containers of the LRU cache agree after every sequence
    of calls on a fresh cache that returns: no two list nodes share an
    address; [lookup] maps a key to an iterator exactly when the iterator
    points to a node of [entries] with that key (so no iterator dangles);
    the list holds every key once; [lookup.size()] is [size()], which is
    [entries.size()]; and [contains], which reads [lookup], is membership
    in [getKeys], which reads [entries].  With it the calls on the two
    containers are the calls on the one list of [EnhancedLRUCache]: the
    sequence returns in both or in neither, with the same list, pinned
    keys and counters, and [get], [contains], [size] and [getKeys] then
    return the same. *)
Theorem LRU_keys_unique (capacity : nat) (ops : list (op K V)) :
  one_list <$> run ops (create capacity)
  = run ops (EnhancedLRUCache.create capacity) /\
  forall c, run ops (create capacity) = Some c ->
    NoDup (entries c).*1 /\
    (forall k it, lookup c !! k = Some it <->
                  exists e, (it, e) ∈ entries c /\ key e = k) /\
    NoDup (getKeys c) /\
    stdpp.base.size (lookup c) = size c /\
    (forall k, contains k c = true <-> k ∈ getKeys c) /\
    (forall k, (get k c).1 = (EnhancedLRUCache.get k (one_list c)).1 /\
               contains k c = EnhancedLRUCache.contains k (one_list c) /\
               size c = EnhancedLRUCache.size (one_list c) /\
               getKeys c = EnhancedLRUCache.getKeys (one_list c)).
Proof.
  destruct (run_refines ops (create capacity) agree_empty) as [Heq Hcons].
  split; [exact Heq|]. intros c Hr. specialize (Hcons c Hr).
  split; [apply Hcons|]. split; [|split; [|split; [|split]]].
  - intros k it. destruct Hcons as [_ Hm]. rewrite Hm. apply elem_of_labels.
  - now apply consistent_keys.
  - now apply consistent_size.
  - intros k. now apply consistent_contains.
  - intros k. now apply reads_refine.
Qed.

End WithTypes.

Lemma LRU_keys_unique_witness :
  exists c, run LRUProperties.recency_ops (create 2) = Some c /\
    NoDup (entries c).*1 /\
    (forall k it, lookup c !! k = Some it <->
                  exists e, (it, e) ∈ entries c /\ key e = k) /\
    NoDup (getKeys c) /\
    stdpp.base.size (lookup c) = size c /\
    (forall k, contains k c = true <-> k ∈ getKeys c) /\
    (forall k, (get k c).1 = (EnhancedLRUCache.get k (one_list c)).1 /\
               contains k c = EnhancedLRUCache.contains k (one_list c) /\
               size c = EnhancedLRUCache.size (one_list c) /\
               getKeys c = EnhancedLRUCache.getKeys (one_list c)).
Proof.
  eexists. split; [vm_compute; reflexivity|].
  apply (proj2 (LRU_keys_unique 2 LRUProperties.recency_ops)).
  vm_compute. reflexivity.
Defined.

End LRUConsistency.
(** Runs of [put] and [get] calls only. *)
Definition put_get_only {K V : Type} (ops : list (op K V)) : Prop :=
  Forall (fun o => match o with Put _ _ | Get _ => True | _ => False end) ops.


(** Facts on the key sets of the caches. *)
Section KeySets.
Context {K : Type} `{Countable K}.

Lemma keys_without_head (k : K) (q : list K) (D : gset K) :
  k ∉ q -> D = list_to_set (k :: q) -> D ∖ {[k]} = list_to_set q.
Proof.
  intros Hk ->. apply set_eq. intros x.
  rewrite elem_of_difference, !elem_of_list_to_set, elem_of_cons,
    elem_of_singleton.
  split; [tauto|]. intros Hx. split; [now right|]. intros ->. contradiction.
Qed.

Lemma keys_with_member (k : K) (q : list K) (D : gset K) :
  k ∈ q -> D = list_to_set q -> {[k]} ∪ D = list_to_set q.
Proof.
  intros Hk ->. apply set_eq. intros x.
  rewrite elem_of_union, !elem_of_list_to_set, elem_of_singleton.
  split; [intros [->|Hx]; assumption | now right].
Qed.

Lemma keys_with_last (k : K) (q : list K) (D : gset K) :
  D = list_to_set q -> {[k]} ∪ D = list_to_set (q ++ [k]).
Proof.
  intros ->. apply set_eq. intros x.
  rewrite elem_of_union, !elem_of_list_to_set, elem_of_app, elem_of_singleton,
    list_elem_of_singleton. tauto.
Qed.

Lemma keys_moved_to_top (k : K) (q : list K) (D : gset K) :
  k ∈ q -> D = list_to_set q ->
  {[k]} ∪ D = list_to_set (k :: filter (fun x => x <> k) q).
Proof.
  intros Hk ->. apply set_eq. intros x.
  rewrite elem_of_union, !elem_of_list_to_set, elem_of_cons, elem_of_singleton,
    list_elem_of_filter.
  destruct (decide (x = k)) as [->|Hne]; tauto.
Qed.

Lemma not_in_tail (k : K) (q : list K) : k ∉ q -> k ∉ tail q.
Proof. intros Hk Hin. apply Hk. destruct q; [exact Hin | now right]. Qed.
End KeySets.

Module FIFOProperties.
Import FIFOCache.
Section WithTypes.
Context {K : Type} `{Countable K} {V : Type}.
Implicit Types (c : t K V).

(** The queue of the textbook FIFO policy of capacity [cap], oldest key
    first: a new key joins at the back, and the keys at the front leave
    until no more than [cap] keys are left; hits and updates change
    nothing. *)
Definition fifo_enqueue (cap : nat) (k : K) (q : list K) : list K :=
  let q' := q ++ [k] in drop (length q' - cap) q'.

Definition fifo_model_step (cap : nat) (q : list K) (o : op K V) : list K :=
  match o with
  | Put k _ => if bool_decide (k ∈ q) then q else fifo_enqueue cap k q
  | _ => q
  end.

Definition fifo_model (cap : nat) (ops : list (op K V)) : list K :=
  fold_left (fifo_model_step cap) ops [].

(** The queue and the table hold the same keys, each once, and nothing
    is pinned. *)
Definition queue_is (cap : nat) (q : list K) c : Prop :=
  maxCapacity c = cap /\ pinnedKeys c = ∅ /\ insertionOrder c = q /\
  NoDup q /\ dom (entries c) = list_to_set q.

Lemma queue_resident cap q c k :
  queue_is cap q c -> is_Some (entries c !! k) <-> k ∈ q.
Proof.
  intros (_ & _ & _ & _ & Hd). rewrite <- elem_of_dom, Hd.
  apply elem_of_list_to_set.
Qed.

Lemma queue_size cap q c :
  queue_is cap q c -> stdpp.base.size (entries c) = length q.
Proof.
  intros (_ & _ & _ & Hnd & Hd). rewrite <- size_dom, Hd.
  now apply size_list_to_set.
Qed.

Lemma evict_queue cap q c :
  queue_is cap q c -> queue_is cap (tail q) (evict c).
Proof.
  intros Hq. pose proof Hq as (Hc & Hp & Hi & Hnd & Hd).
  unfold evict. rewrite Hi. destruct q as [|k0 q]; simpl.
  - repeat split; assumption.
  - assert (is_Some (entries c !! k0)) as Hr
      by (apply (queue_resident cap (k0 :: q) c k0 Hq); left).
    rewrite bool_decide_eq_true_2 by exact Hr.
    rewrite bool_decide_eq_true_2 by (rewrite Hp; apply not_elem_of_empty).
    simpl. apply NoDup_cons in Hnd as [Hk0 Hnd].
    repeat split; cbn; try assumption.
    rewrite dom_delete_L. now apply keys_without_head.
Qed.

Lemma insert_new_queue cap q c k v :
  queue_is cap q c -> k ∉ q -> queue_is cap (q ++ [k]) (insert_new k v c).
Proof.
  intros (Hc & Hp & Hi & Hnd & Hd) Hk. repeat split; cbn; try assumption.
  - now rewrite Hi.
  - apply NoDup_app. repeat split; [exact Hnd | | apply NoDup_singleton].
    intros x Hx Hx'. apply list_elem_of_singleton in Hx'. now subst.
  - rewrite dom_insert_L. now apply keys_with_last.
Qed.

Lemma update_queue cap q c k e :
  queue_is cap q c -> is_Some (entries c !! k) ->
  queue_is cap q (mk (maxCapacity c) (insertionOrder c)
                     (<[k := e]> (entries c)) (pinnedKeys c) (stats c)).
Proof.
  intros (Hc & Hp & Hi & Hnd & Hd) Hr. repeat split; cbn; try assumption.
  rewrite dom_insert_L. apply keys_with_member; [|exact Hd].
  apply elem_of_dom in Hr. rewrite Hd in Hr. now apply elem_of_list_to_set in Hr.
Qed.

(** On a queue within a capacity of at least one, a new key makes the
    key at the front leave exactly when the queue is full. *)
Lemma fifo_enqueue_full (cap : nat) (k : K) (q : list K) :
  (1 <= cap)%nat -> (length q <= cap)%nat ->
  fifo_enqueue cap k q
  = (if (cap <=? length q)%nat then tail q else q) ++ [k] /\
  (length (fifo_enqueue cap k q) <= cap)%nat.
Proof.
  intros Hcap Hlen. unfold fifo_enqueue. cbv zeta.
  rewrite length_drop, length_app. cbn [length]. split; [|lia].
  destruct (cap <=? length q)%nat eqn:E.
  - apply Nat.leb_le in E.
    replace (length q + 1 - cap)%nat with 1%nat by lia.
    destruct q as [|x q]; [simpl in E; lia | reflexivity].
  - apply Nat.leb_gt in E.
    replace (length q + 1 - cap)%nat with O by lia. reflexivity.
Qed.

Lemma FIFO_follows_step (cap : nat) (o : op K V) q c :
  match o with Put _ _ | Get _ => True | _ => False end ->
  (1 <= cap)%nat -> (length q <= cap)%nat ->
  queue_is cap q c ->
  exists c', step o c = Some c' /\ queue_is cap (fifo_model_step cap q o) c' /\
             (length (fifo_model_step cap q o) <= cap)%nat.
Proof.
  intros Ho Hcap Hlen Hq. pose proof Hq as (Hc & Hp & Hi & Hnd & Hd).
  destruct o as [k v|k|k| |k|k|k v|]; try contradiction; simpl.
  - eexists. split; [reflexivity|]. unfold put.
    destruct (entries c !! k) as [e|] eqn:E.
    + rewrite bool_decide_eq_true_2
        by (apply (queue_resident cap q c k Hq); eauto).
      split; [|exact Hlen]. apply update_queue; [exact Hq | eauto].
    + rewrite bool_decide_eq_false_2.
      2:{ rewrite <- (queue_resident cap q c k Hq), E. now intros [? ?]. }
      assert (k ∉ q) as Hk.
      { rewrite <- (queue_resident cap q c k Hq), E. now intros [? ?]. }
      destruct (fifo_enqueue_full cap k q Hcap Hlen) as [Heq Hl].
      split; [|exact Hl]. rewrite Heq.
      rewrite Hc, (queue_size cap q c Hq).
      destruct (cap <=? length q)%nat.
      * apply insert_new_queue; [now apply evict_queue | now apply not_in_tail].
      * now apply insert_new_queue.
  - eexists. split; [reflexivity|]. split; [|exact Hlen]. unfold get.
    destruct (entries c !! k) as [e|] eqn:E; cbn [snd].
    + destruct (update_queue cap q c k (touch e) Hq ltac:(eauto))
        as (H1 & H2 & H3 & H4 & H5).
      repeat split; assumption.
    + repeat split; assumption.
Qed.

Lemma FIFO_follows_model (cap : nat) (ops : list (op K V)) : forall q c,
  put_get_only ops -> (1 <= cap)%nat -> (length q <= cap)%nat ->
  queue_is cap q c ->
  exists c', run ops c = Some c' /\
             queue_is cap (fold_left (fifo_model_step cap) ops q) c' /\
             (length (fold_left (fifo_model_step cap) ops q) <= cap)%nat.
Proof.
  induction ops as [|o ops IH]; intros q c Hf Hcap Hlen Hq.
  - exists c. split; [reflexivity|]. split; [exact Hq | exact Hlen].
  - apply Forall_cons in Hf as [Ho Hf].
    destruct (FIFO_follows_step cap o q c Ho Hcap Hlen Hq) as (c1 & Hs & Hq1 & Hl1).
    destruct (IH _ c1 Hf Hcap Hl1 Hq1) as (c' & Hr & Hq' & Hl').
    exists c'. simpl. rewrite Hs. simpl. split; [exact Hr|].
    split; [exact Hq' | exact Hl'].
Qed.

(** X8. Under [put] and [get] alone a cache of capacity at least one is
    the textbook FIFO policy: every such sequence of calls on a fresh
    cache returns, the insertion queue is then the queue of the policy and
    the resident keys are its keys, and the queue never holds more than
    [capacity] keys.  Only the
    insertion of a new key changes the queue: [get] and the update of a
    resident key never change what is evicted next. *)
Theorem FIFO_insertion_order (capacity : nat) (ops : list (op K V)) :
  (1 <= capacity)%nat ->
  put_get_only ops ->
  exists c, run ops (create capacity) = Some c /\
            insertionOrder c = fifo_model capacity ops /\
            size c = length (fifo_model capacity ops) /\
            (length (fifo_model capacity ops) <= capacity)%nat /\
            forall k, contains k c = true <-> k ∈ fifo_model capacity ops.
Proof.
  intros Hcap Hf.
  destruct (FIFO_follows_model capacity ops [] (create capacity) Hf Hcap)
    as (c & Hr & Hq & Hl).
  { cbn. lia. }
  { repeat split; try reflexivity. constructor. }
  exists c. split; [exact Hr|]. split; [apply Hq|]. split; [|split].
  - apply (queue_size _ _ _ Hq).
  - exact Hl.
  - intros k. unfold contains. rewrite bool_decide_eq_true.
    apply (queue_resident _ _ _ _ Hq).
Qed.

End WithTypes.

Definition queue_ops : list (op Z string) :=
  [Put 1 "a"; Put 2 "b"; Get 1; Put 1 "z"; Put 3 "c"]%string.

Lemma FIFO_insertion_order_witness :
  (exists c, run queue_ops (create 2) = Some c /\
             insertionOrder c = fifo_model 2 queue_ops /\
             size c = length (fifo_model 2 queue_ops) /\
             (length (fifo_model 2 queue_ops) <= 2)%nat /\
             forall k, contains k c = true <-> k ∈ fifo_model 2 queue_ops) /\
  fifo_model 2 queue_ops = [2; 3].
Proof.
  split; [|vm_compute; reflexivity].
  apply (FIFO_insertion_order 2 queue_ops); [lia | repeat constructor].
Defined.

End FIFOProperties.

Module LIFOProperties.
Import LIFOCache LIFOCapacity.
Section WithTypes.
Context {K : Type} `{Countable K} {V : Type}.
Implicit Types (c : t K V).

(** The stack of a LIFO policy of capacity [cap], top first.  A push
    keeps the [cap - 1] keys at the bottom of the stack, the keys above
    them leave, and the new key goes on top; with no capacity nothing is
    kept.  A put takes the key out of the stack, if it is there, and
    pushes it: as in the code ("Add updated key to top (most recent)"),
    the update of a resident key makes it the next key to leave.  Hits
    change nothing. *)
Definition lifo_push (cap : nat) (k : K) (s : list K) : list K :=
  match cap with
  | O => []
  | S n => k :: drop (length s - n) s
  end.

Definition lifo_model_step (cap : nat) (s : list K) (o : op K V) : list K :=
  match o with
  | Put k _ => lifo_push cap k (filter (fun x => x <> k) s)
  | _ => s
  end.

Definition lifo_model (cap : nat) (ops : list (op K V)) : list K :=
  fold_left (lifo_model_step cap) ops [].

Definition stack_is (cap : nat) (s : list K) c : Prop :=
  maxCapacity c = cap /\ pinnedKeys c = ∅ /\ insertionOrder c = s /\
  NoDup s /\ dom (entries c) = list_to_set s.

Lemma stack_resident cap s c k :
  stack_is cap s c -> is_Some (entries c !! k) <-> k ∈ s.
Proof.
  intros (_ & _ & _ & _ & Hd). rewrite <- elem_of_dom, Hd.
  apply elem_of_list_to_set.
Qed.

Lemma stack_size cap s c :
  stack_is cap s c -> stdpp.base.size (entries c) = length s.
Proof.
  intros (_ & _ & _ & Hnd & Hd). rewrite <- size_dom, Hd.
  now apply size_list_to_set.
Qed.

Lemma evict_stack cap s c :
  stack_is cap s c -> stack_is cap (tail s) (evict c).
Proof.
  intros Hq. pose proof Hq as (Hc & Hp & Hi & Hnd & Hd).
  unfold evict. rewrite Hi. destruct s as [|k0 s]; simpl.
  - repeat split; assumption.
  - assert (is_Some (entries c !! k0)) as Hr
      by (apply (stack_resident cap (k0 :: s) c k0 Hq); left).
    rewrite bool_decide_eq_true_2 by exact Hr.
    rewrite bool_decide_eq_true_2 by (rewrite Hp; apply not_elem_of_empty).
    simpl. apply NoDup_cons in Hnd as [Hk0 Hnd].
    repeat split; cbn; try assumption.
    rewrite dom_delete_L. now apply keys_without_head.
Qed.

Lemma insert_new_stack cap s c k v :
  stack_is cap s c -> k ∉ s -> stack_is cap (k :: s) (insert_new k v c).
Proof.
  intros (Hc & Hp & Hi & Hnd & Hd) Hk. repeat split; cbn; try assumption.
  - now rewrite Hi.
  - now apply NoDup_cons.
  - now rewrite dom_insert_L, Hd.
Qed.

(** On a stack within a capacity of at least one, a push makes the key
    on top leave exactly when the stack is full. *)
Lemma lifo_push_full (cap : nat) (k : K) (s : list K) :
  (1 <= cap)%nat -> (length s <= cap)%nat ->
  lifo_push cap k s = k :: (if (cap <=? length s)%nat then tail s else s) /\
  (length (lifo_push cap k s) <= cap)%nat.
Proof.
  intros Hcap Hlen. destruct cap as [|n]; [lia|]. cbn [lifo_push length].
  rewrite length_drop. split; [|lia]. f_equal.
  destruct (S n <=? length s)%nat eqn:E.
  - apply Nat.leb_le in E.
    replace (length s - n)%nat with 1%nat by lia.
    destruct s; reflexivity.
  - apply Nat.leb_gt in E.
    replace (length s - n)%nat with O by lia. reflexivity.
Qed.

Lemma length_without (k : K) (s : list K) :
  k ∈ s -> (length (filter (fun x => x <> k) s) < length s)%nat.
Proof.
  induction s as [|x s IH]; intros Hk; [inversion Hk|].
  destruct (decide (x = k)) as [->|Hne].
  - rewrite filter_cons_False by (intros Hx; now apply Hx).
    pose proof (length_filter (fun x => x <> k) s). simpl. lia.
  - rewrite filter_cons_True by exact Hne. simpl.
    apply elem_of_cons in Hk as [->|Hk]; [contradiction|].
    specialize (IH Hk). lia.
Qed.

Lemma LIFO_follows_step (cap : nat) (o : op K V) s c :
  match o with Put _ _ | Get _ => True | _ => False end ->
  (1 <= cap)%nat -> (length s <= cap)%nat ->
  stack_is cap s c ->
  exists c', step o c = Some c' /\ stack_is cap (lifo_model_step cap s o) c' /\
             (length (lifo_model_step cap s o) <= cap)%nat.
Proof.
  intros Ho Hcap Hlen Hq. pose proof Hq as (Hc & Hp & Hi & Hnd & Hd).
  destruct o as [k v|k|k| |k|k|k v|]; try contradiction; simpl.
  - eexists. split; [reflexivity|]. unfold put.
    destruct (entries c !! k) as [e|] eqn:E.
    + assert (k ∈ s) as Hk by (apply (stack_resident cap s c k Hq); eauto).
      pose proof (length_without k s Hk) as Hshort.
      destruct (lifo_push_full cap k (filter (fun x => x <> k) s) Hcap
                  ltac:(lia)) as [Heq Hl].
      split; [|exact Hl]. rewrite Heq.
      replace (cap <=? length (filter (fun x => x <> k) s))%nat with false
        by (symmetry; apply Nat.leb_gt; lia).
      repeat split; cbn; try assumption.
      * now rewrite Hi, without_filter.
      * apply NoDup_cons. split.
        -- rewrite list_elem_of_filter. intros [Hne _]. now apply Hne.
        -- now apply NoDup_filter.
      * rewrite dom_insert_L. now apply keys_moved_to_top.
    + assert (k ∉ s) as Hk.
      { rewrite <- (stack_resident cap s c k Hq), E. now intros [? ?]. }
      rewrite (LRUProperties.filter_absent k s Hk).
      destruct (lifo_push_full cap k s Hcap Hlen) as [Heq Hl].
      split; [|exact Hl]. rewrite Heq.
      rewrite Hc, (stack_size cap s c Hq).
      destruct (cap <=? length s)%nat.
      * apply insert_new_stack; [now apply evict_stack | now apply not_in_tail].
      * now apply insert_new_stack.
  - eexists. split; [reflexivity|]. split; [|exact Hlen]. unfold get.
    destruct (entries c !! k) as [e|] eqn:E; cbn [snd].
    + repeat split; cbn; try assumption.
      rewrite dom_insert_L. apply keys_with_member; [|exact Hd].
      apply (stack_resident cap s c k Hq). eauto.
    + repeat split; assumption.
Qed.

Lemma LIFO_follows_model (cap : nat) (ops : list (op K V)) : forall s c,
  put_get_only ops -> (1 <= cap)%nat -> (length s <= cap)%nat ->
  stack_is cap s c ->
  exists c', run ops c = Some c' /\
             stack_is cap (fold_left (lifo_model_step cap) ops s) c' /\
             (length (fold_left (lifo_model_step cap) ops s) <= cap)%nat.
Proof.
  induction ops as [|o ops IH]; intros s c Hf Hcap Hlen Hq.
  - exists c. split; [reflexivity|]. split; [exact Hq | exact Hlen].
  - apply Forall_cons in Hf as [Ho Hf].
    destruct (LIFO_follows_step cap o s c Ho Hcap Hlen Hq) as (c1 & Hs & Hq1 & Hl1).
    destruct (IH _ c1 Hf Hcap Hl1 Hq1) as (c' & Hr & Hq' & Hl').
    exists c'. simpl. rewrite Hs. simpl. split; [exact Hr|].
    split; [exact Hq' | exact Hl'].
Qed.

(** X9. Under [put] and [get] alone a cache of capacity at least one is
    a LIFO policy: every such sequence of calls on a fresh cache returns,
    the insertion stack is then the stack of the policy and the resident
    keys are its keys, and the stack never holds more than [capacity]
    keys.  A new key makes a full
    cache give up the key on top, which is the key put most recently, new
    or updated; [get] changes nothing. *)
Theorem LIFO_insertion_order (capacity : nat) (ops : list (op K V)) :
  (1 <= capacity)%nat ->
  put_get_only ops ->
  exists c, run ops (create capacity) = Some c /\
            insertionOrder c = lifo_model capacity ops /\
            size c = length (lifo_model capacity ops) /\
            (length (lifo_model capacity ops) <= capacity)%nat /\
            forall k, contains k c = true <-> k ∈ lifo_model capacity ops.
Proof.
  intros Hcap Hf.
  destruct (LIFO_follows_model capacity ops [] (create capacity) Hf Hcap)
    as (c & Hr & Hq & Hl).
  { cbn. lia. }
  { repeat split; try reflexivity. constructor. }
  exists c. split; [exact Hr|]. split; [apply Hq|]. split; [|split].
  - apply (stack_size _ _ _ Hq).
  - exact Hl.
  - intros k. unfold contains. rewrite bool_decide_eq_true.
    apply (stack_resident _ _ _ _ Hq).
Qed.

End WithTypes.

Definition stack_ops : list (op Z string) :=
  [Put 1 "a"; Put 2 "b"; Get 1; Put 3 "c"; Put 4 "d"]%string.

Lemma LIFO_insertion_order_witness :
  (exists c, run stack_ops (create 2) = Some c /\
             insertionOrder c = lifo_model 2 stack_ops /\
             size c = length (lifo_model 2 stack_ops) /\
             (length (lifo_model 2 stack_ops) <= 2)%nat /\
             forall k, contains k c = true <-> k ∈ lifo_model 2 stack_ops) /\
  lifo_model 2 stack_ops = [4; 1].
Proof.
  split; [|vm_compute; reflexivity].
  apply (LIFO_insertion_order 2 stack_ops); [lia | repeat constructor].
Defined.

End LIFOProperties.
Module PutGet.
Section WithTypes.
Context {K : Type} `{Countable K} {V : Type}.

Lemma LRU_get_head (e : CacheEntry K V) l cap P st :
  (EnhancedLRUCache.get (key e) (EnhancedLRUCache.mk cap (e :: l) P st)).1
  = Some (value e).
Proof.
  unfold EnhancedLRUCache.get. cbn [EnhancedLRUCache.entries EnhancedLRUCache.find].
  rewrite bool_decide_eq_true_2 by reflexivity. reflexivity.
Qed.

Lemma LRU_put_get k (v : V) (c c' : EnhancedLRUCache.t K V) :
  EnhancedLRUCache.put k v c = Some c' ->
  (EnhancedLRUCache.get k c').1 = Some v.
Proof.
  unfold EnhancedLRUCache.put.
  destruct (EnhancedLRUCache.find k (EnhancedLRUCache.entries c)) as [i|] eqn:E.
  - destruct (LRUCapacity.find_Some _ _ _ E) as (e & He & Hk).
    intros [= <-]. unfold EnhancedLRUCache.moveToFront.
    rewrite list_lookup_alter, He, decide_True by reflexivity. cbn [fmap option_fmap option_map].
    rewrite <- Hk. apply (LRU_get_head (set_value v e)).
  - intros Hs. destruct (_ <=? _)%nat; simpl in Hs.
    + destruct (EnhancedLRUCache.evict c) as [c1|]; [|discriminate].
      injection Hs as <-. apply (LRU_get_head (new_entry k v)).
    + injection Hs as <-. apply (LRU_get_head (new_entry k v)).
Qed.

Lemma FIFO_put_get k (v : V) (c : FIFOCache.t K V) :
  (FIFOCache.get k (FIFOCache.put k v c)).1 = Some v.
Proof.
  unfold FIFOCache.put, FIFOCache.get.
  destruct (FIFOCache.entries c !! k) as [e|]; cbn [FIFOCache.entries FIFOCache.insert_new];
    now rewrite lookup_insert_eq.
Qed.

Lemma LIFO_put_get k (v : V) (c : LIFOCache.t K V) :
  (LIFOCache.get k (LIFOCache.put k v c)).1 = Some v.
Proof.
  unfold LIFOCache.put, LIFOCache.get.
  destruct (LIFOCache.entries c !! k) as [e|]; cbn [LIFOCache.entries LIFOCache.insert_new];
    now rewrite lookup_insert_eq.
Qed.

Lemma LFU_put_get place k (v : V) (c : LFUCache.t K V) :
  LFUCache.maxCapacity c <> O ->
  (LFUCache.get place k (LFUCache.put place k v c)).1 = Some v.
Proof.
  intros Hcap. unfold LFUCache.put.
  destruct (LFUCache.maxCapacity c =? 0)%nat eqn:E0;
    [apply Nat.eqb_eq in E0; contradiction|].
  unfold LFUCache.get.
  destruct (LFUCache.keyToEntry c !! k) as [e|];
    cbn [LFUCache.keyToEntry LFUCache.insert_new LFUCache.updateFrequency
         LFUCache.set_entry];
    now rewrite lookup_insert_eq.
Qed.

End WithTypes.

(** X10. What was put is what is got: in each of the four caches a [get]
    that follows a [put] of the same key returns the value put, whatever
    the cache held before and whether or not a key was evicted to make
    room.  For the LRU cache this is so whenever the [put] returns, for the
    LFU cache whenever its capacity is not zero ([put] is a no-op then). *)
Theorem put_then_get {K : Type} `{Countable K} {V : Type}
    (place : Z -> list Z -> nat) (k : K) (v : V) :
  (forall c c' : EnhancedLRUCache.t K V,
     EnhancedLRUCache.put k v c = Some c' ->
     (EnhancedLRUCache.get k c').1 = Some v) /\
  (forall c : LFUCache.t K V,
     LFUCache.maxCapacity c <> O ->
     (LFUCache.get place k (LFUCache.put place k v c)).1 = Some v) /\
  (forall c : FIFOCache.t K V,
     (FIFOCache.get k (FIFOCache.put k v c)).1 = Some v) /\
  (forall c : LIFOCache.t K V,
     (LIFOCache.get k (LIFOCache.put k v c)).1 = Some v).
Proof.
  split; [|split; [|split]].
  - apply LRU_put_get.
  - apply LFU_put_get.
  - apply FIFO_put_get.
  - apply LIFO_put_get.
Qed.

End PutGet.
Module PinnedResident.

(** How a call changes the set of pinned keys. *)
Definition pins_after {K V : Type} `{Countable K} (o : op K V)
    (resident : K -> bool) (pinned : gset K) : gset K :=
  match o with
  | Remove k => if resident k then pinned ∖ {[k]} else pinned
  | Clear => ∅
  | Pin k => if resident k then {[k]} ∪ pinned else pinned
  | Unpin k => pinned ∖ {[k]}
  | _ => pinned
  end.

Section Generic.
Context {K : Type} `{Countable K} {V C : Type} {I : CacheInterface K V C}.
(** The private [pinnedKeys] member behind [isPinned]. *)
Variable pinned_of : C -> gset K.
Hypothesis isPinned_spec :
  forall k c, cache_isPinned k c = bool_decide (k ∈ pinned_of c).
Hypothesis step_pins :
  forall o c c', step o c = Some c' ->
  pinned_of c' = pins_after o (fun k => cache_contains k c) (pinned_of c).
Hypothesis step_keeps :
  forall o k c c', step o c = Some c' -> ~ drops k o ->
  cache_isPinned k c = true -> cache_contains k c = true ->
  cache_contains k c' = true.
Hypothesis pin_contains :
  forall k k' c, cache_contains k' (cache_pin k c) = cache_contains k' c.

Definition pins_resident (c : C) : Prop :=
  forall k, k ∈ pinned_of c -> cache_contains k c = true.

Lemma step_pins_resident o c c' :
  step o c = Some c' -> pins_resident c -> pins_resident c'.
Proof.
  intros Hs Hinv k Hk. rewrite (step_pins o c c' Hs) in Hk.
  assert (Hkeep : k ∈ pinned_of c -> ~ drops k o -> cache_contains k c' = true).
  { intros Hp Hd. apply (step_keeps o k c c' Hs Hd); [|now apply Hinv].
    rewrite isPinned_spec. now apply bool_decide_eq_true. }
  destruct o as [k' v|k'|k'| |k'|k'|k' v|]; cbn [pins_after] in Hk.
  - apply Hkeep; [exact Hk | intros [?|?]; discriminate].
  - apply Hkeep; [exact Hk | intros [?|?]; discriminate].
  - destruct (cache_contains k' c) eqn:E.
    + apply elem_of_difference in Hk as [Hk Hne].
      apply Hkeep; [exact Hk|]. intros [[= ->]|?]; [|discriminate].
      apply Hne. now apply elem_of_singleton.
    + apply Hkeep; [exact Hk|]. intros [[= ->]|?]; [|discriminate].
      rewrite (Hinv _ Hk) in E. discriminate.
  - now apply not_elem_of_empty in Hk.
  - simpl in Hs. injection Hs as <-. rewrite pin_contains.
    destruct (cache_contains k' c) eqn:E; [|now apply Hinv].
    apply elem_of_union in Hk as [Hk|Hk]; [|now apply Hinv].
    apply elem_of_singleton in Hk. now subst.
  - apply elem_of_difference in Hk as [Hk _].
    apply Hkeep; [exact Hk | intros [?|?]; discriminate].
  - apply Hkeep; [exact Hk | intros [?|?]; discriminate].
  - apply Hkeep; [exact Hk | intros [?|?]; discriminate].
Qed.

Lemma run_pins_resident ops : forall c c',
  run ops c = Some c' -> pins_resident c -> pins_resident c'.
Proof.
  induction ops as [|o ops IH]; intros c c' Hr Hinv.
  - injection Hr as <-. exact Hinv.
  - simpl in Hr. destruct (step o c) as [c1|] eqn:Hs; [|discriminate].
    simpl in Hr. apply (IH c1 c' Hr). apply (step_pins_resident o c c1 Hs Hinv).
Qed.
End Generic.

Section Caches.
Context {K : Type} `{Countable K} {V : Type}.

Lemma LRU_evict_loop_pins fuel : forall (c c' : EnhancedLRUCache.t K V),
  EnhancedLRUCache.evict_loop fuel c = Some c' ->
  EnhancedLRUCache.pinnedKeys c' = EnhancedLRUCache.pinnedKeys c.
Proof.
  induction fuel as [|fuel IH]; intros c c' Hl; [discriminate|].
  cbn [EnhancedLRUCache.evict_loop] in Hl.
  unfold EnhancedLRUCache.evict_step in Hl.
  destruct (last (EnhancedLRUCache.entries c)); [|now injection Hl as <-].
  case_bool_decide.
  - now injection Hl as <-.
  - match type of Hl with context [if ?b then _ else _] => destruct b end.
    + now injection Hl as <-.
    + apply IH in Hl. exact Hl.
Qed.

Lemma LRU_step_pins o (c c' : EnhancedLRUCache.t K V) :
  step o c = Some c' ->
  EnhancedLRUCache.pinnedKeys c'
  = pins_after o (fun k => EnhancedLRUCache.contains k c)
      (EnhancedLRUCache.pinnedKeys c).
Proof.
  destruct o as [k v|k|k| |k|k|k v|]; simpl; intros Hs.
  - unfold EnhancedLRUCache.put in Hs.
    destruct (EnhancedLRUCache.find _ _).
    + now injection Hs as <-.
    + destruct (_ <=? _)%nat; simpl in Hs.
      * destruct (EnhancedLRUCache.evict c) as [c1|] eqn:E; [|discriminate].
        simpl in Hs. injection Hs as <-. apply (LRU_evict_loop_pins _ _ _ E).
      * now injection Hs as <-.
  - injection Hs as <-. unfold EnhancedLRUCache.get.
    now destruct (EnhancedLRUCache.find _ _).
  - injection Hs as <-. unfold EnhancedLRUCache.remove, EnhancedLRUCache.contains.
    destruct (EnhancedLRUCache.find _ _) as [i|].
    + now rewrite bool_decide_eq_true_2 by eauto.
    + now rewrite bool_decide_eq_false_2 by (intros [? ?]; discriminate).
  - now injection Hs as <-.
  - injection Hs as <-. unfold EnhancedLRUCache.pin, EnhancedLRUCache.contains.
    now case_bool_decide.
  - now injection Hs as <-.
  - unfold EnhancedLRUCache.prefetch in Hs.
    destruct (EnhancedLRUCache.find _ _).
    + now injection Hs as <-.
    + destruct (_ <? _)%nat; simpl in Hs.
      * now injection Hs as <-.
      * destruct (EnhancedLRUCache.evict c) as [c1|] eqn:E; [|discriminate].
        simpl in Hs. injection Hs as <-. apply (LRU_evict_loop_pins _ _ _ E).
  - now injection Hs as <-.
Qed.

Lemma FIFO_step_pins o (c c' : FIFOCache.t K V) :
  step o c = Some c' ->
  FIFOCache.pinnedKeys c'
  = pins_after o (fun k => FIFOCache.contains k c) (FIFOCache.pinnedKeys c).
Proof.
  destruct o as [k v|k|k| |k|k|k v|]; simpl; intros Hs; injection Hs as <-.
  - unfold FIFOCache.put, FIFOCache.evict.
    destruct (_ !! _); [reflexivity|].
    destruct (_ <=? _)%nat; [|reflexivity].
    now destruct (FIFOCache.evict_loop _ _ _) as [q [k'|]].
  - unfold FIFOCache.get. now destruct (_ !! _).
  - unfold FIFOCache.remove, FIFOCache.contains.
    destruct (_ !! _) as [e|].
    + now rewrite bool_decide_eq_true_2 by eauto.
    + now rewrite bool_decide_eq_false_2 by (intros [? ?]; discriminate).
  - reflexivity.
  - unfold FIFOCache.pin, FIFOCache.contains. now case_bool_decide.
  - reflexivity.
  - unfold FIFOCache.prefetch, FIFOCache.evict.
    destruct (_ !! _); [reflexivity|].
    destruct (_ <=? _)%nat; [|reflexivity].
    now destruct (FIFOCache.evict_loop _ _ _) as [q [k'|]].
  - reflexivity.
Qed.

Lemma LIFO_step_pins o (c c' : LIFOCache.t K V) :
  step o c = Some c' ->
  LIFOCache.pinnedKeys c'
  = pins_after o (fun k => LIFOCache.contains k c) (LIFOCache.pinnedKeys c).
Proof.
  destruct o as [k v|k|k| |k|k|k v|]; simpl; intros Hs; injection Hs as <-.
  - unfold LIFOCache.put, LIFOCache.evict.
    destruct (_ !! _); [reflexivity|].
    destruct (_ <=? _)%nat; [|reflexivity].
    now destruct (LIFOCache.find_victim _ _ _ _) as [[q tmp] [k'|]].
  - unfold LIFOCache.get. now destruct (_ !! _).
  - unfold LIFOCache.remove, LIFOCache.contains.
    destruct (_ !! _) as [e|].
    + now rewrite bool_decide_eq_true_2 by eauto.
    + now rewrite bool_decide_eq_false_2 by (intros [? ?]; discriminate).
  - reflexivity.
  - unfold LIFOCache.pin, LIFOCache.contains. now case_bool_decide.
  - reflexivity.
  - unfold LIFOCache.prefetch, LIFOCache.evict.
    destruct (_ !! _); [reflexivity|].
    destruct (_ <=? _)%nat; [|reflexivity].
    now destruct (LIFOCache.find_victim _ _ _ _) as [[q tmp] [k'|]].
  - reflexivity.
Qed.

Lemma LFU_evict_pins (c : LFUCache.t K V) :
  LFUCache.pinnedKeys (LFUCache.evict c) = LFUCache.pinnedKeys c.
Proof.
  unfold LFUCache.evict.
  destruct (LFUCache.find_bucket _ _); [|reflexivity].
  now destruct (LFUCache.scan _ _) as [[[[k' f] l] fs]|].
Qed.

Lemma LFU_step_pins place o (c c' : LFUCache.t K V) :
  step (I := LFU_interface place) o c = Some c' ->
  LFUCache.pinnedKeys c'
  = pins_after o (fun k => LFUCache.contains k c) (LFUCache.pinnedKeys c).
Proof.
  destruct o as [k v|k|k| |k|k|k v|]; simpl; intros Hs; injection Hs as <-.
  - unfold LFUCache.put.
    destruct (_ =? _)%nat; [reflexivity|].
    destruct (_ !! _); [reflexivity|].
    destruct (_ <=? _)%nat; [|reflexivity].
    apply LFU_evict_pins.
  - unfold LFUCache.get. now destruct (_ !! _).
  - unfold LFUCache.remove, LFUCache.contains.
    destruct (_ !! _) as [e|].
    + now rewrite bool_decide_eq_true_2 by eauto.
    + now rewrite bool_decide_eq_false_2 by (intros [? ?]; discriminate).
  - reflexivity.
  - unfold LFUCache.pin, LFUCache.contains. now case_bool_decide.
  - reflexivity.
  - unfold LFUCache.prefetch.
    destruct (_ !! _); [reflexivity|].
    destruct (_ <=? _)%nat; [|reflexivity].
    apply LFU_evict_pins.
  - reflexivity.
Qed.

Lemma LRU_pin_contains k k' (c : EnhancedLRUCache.t K V) :
  EnhancedLRUCache.contains k' (EnhancedLRUCache.pin k c)
  = EnhancedLRUCache.contains k' c.
Proof. unfold EnhancedLRUCache.pin. now case_bool_decide. Qed.

Lemma LFU_pin_contains k k' (c : LFUCache.t K V) :
  LFUCache.contains k' (LFUCache.pin k c) = LFUCache.contains k' c.
Proof. unfold LFUCache.pin. now case_bool_decide. Qed.

Lemma FIFO_pin_contains k k' (c : FIFOCache.t K V) :
  FIFOCache.contains k' (FIFOCache.pin k c) = FIFOCache.contains k' c.
Proof. unfold FIFOCache.pin. now case_bool_decide. Qed.

Lemma LIFO_pin_contains k k' (c : LIFOCache.t K V) :
  LIFOCache.contains k' (LIFOCache.pin k c) = LIFOCache.contains k' c.
Proof. unfold LIFOCache.pin. now case_bool_decide. Qed.

(** What the public interface shows of the invariant. *)
Definition pins_within {C : Type} {I : CacheInterface K V C} (c : C) : Prop :=
  (forall k, cache_isPinned k c = true -> cache_contains k c = true) /\
  Stats.pinnedItems (cache_getStatistics c) <= Z.of_nat (cache_size c).

Lemma pinned_count_map (P : gset K) (E : gmap K (CacheEntry K V)) :
  (forall k, k ∈ P -> is_Some (E !! k)) ->
  Z.of_nat (stdpp.base.size P) <= Z.of_nat (stdpp.base.size E).
Proof.
  intros Hsub. apply inj_le. rewrite <- (size_dom (D := gset K) E).
  apply subseteq_size. intros k Hk. apply elem_of_dom. now apply Hsub.
Qed.

Lemma pinned_count_list (P : gset K) (l : list K) :
  (forall k, k ∈ P -> k ∈ l) ->
  Z.of_nat (stdpp.base.size P) <= Z.of_nat (length l).
Proof.
  intros Hsub. apply inj_le.
  transitivity (stdpp.base.size (list_to_set l : gset K)).
  - apply subseteq_size. intros k Hk. apply elem_of_list_to_set. now apply Hsub.
  - clear Hsub. induction l as [|x l IH].
    + rewrite list_to_set_nil, size_empty. reflexivity.
    + rewrite list_to_set_cons, size_union_alt, size_singleton.
      pose proof (subseteq_size (list_to_set l ∖ {[x]}) (list_to_set l : gset K)
                    ltac:(apply subseteq_difference_l; reflexivity)).
      simpl. lia.
Qed.

Lemma LRU_run_pins capacity (ops : list (op K V)) (c : EnhancedLRUCache.t K V) :
  run ops (EnhancedLRUCache.create capacity) = Some c ->
  forall k, k ∈ EnhancedLRUCache.pinnedKeys c ->
            EnhancedLRUCache.contains k c = true.
Proof.
  intros Hr.
  apply (run_pins_resident (I := LRU_interface) EnhancedLRUCache.pinnedKeys
           (fun _ _ => eq_refl) LRU_step_pins
           LRUCapacity.LRU_step_keeps_pinned LRU_pin_contains ops _ c Hr).
  intros k Hk. now apply not_elem_of_empty in Hk.
Qed.

Lemma LFU_run_pins place capacity (ops : list (op K V)) (c : LFUCache.t K V) :
  run (I := LFU_interface place) ops (LFUCache.create capacity) = Some c ->
  forall k, k ∈ LFUCache.pinnedKeys c -> LFUCache.contains k c = true.
Proof.
  intros Hr.
  apply (run_pins_resident (I := LFU_interface place) LFUCache.pinnedKeys
           (fun _ _ => eq_refl) (LFU_step_pins place)
           (LFUCapacity.LFU_step_keeps_pinned place)
           LFU_pin_contains ops _ c Hr).
  intros k Hk. now apply not_elem_of_empty in Hk.
Qed.

Lemma FIFO_run_pins capacity (ops : list (op K V)) (c : FIFOCache.t K V) :
  run ops (FIFOCache.create capacity) = Some c ->
  forall k, k ∈ FIFOCache.pinnedKeys c -> FIFOCache.contains k c = true.
Proof.
  intros Hr.
  apply (run_pins_resident (I := FIFO_interface) FIFOCache.pinnedKeys
           (fun _ _ => eq_refl) FIFO_step_pins
           FIFOCapacity.FIFO_step_keeps_pinned FIFO_pin_contains ops _ c Hr).
  intros k Hk. now apply not_elem_of_empty in Hk.
Qed.

Lemma LIFO_run_pins capacity (ops : list (op K V)) (c : LIFOCache.t K V) :
  run ops (LIFOCache.create capacity) = Some c ->
  forall k, k ∈ LIFOCache.pinnedKeys c -> LIFOCache.contains k c = true.
Proof.
  intros Hr.
  apply (run_pins_resident (I := LIFO_interface) LIFOCache.pinnedKeys
           (fun _ _ => eq_refl) LIFO_step_pins
           LIFOCapacity.LIFO_step_keeps_pinned LIFO_pin_contains ops _ c Hr).
  intros k Hk. now apply not_elem_of_empty in Hk.
Qed.

(** X11. A pinned key is a resident key: after any sequence of calls on
    a fresh cache that returns, [isPinned(k)] implies [contains(k)], and the
    [pinnedItems] that [getStatistics] reports never exceeds [size()].
    This holds for each of the four caches, of any capacity. *)
Theorem pinned_keys_are_resident (place : Z -> list Z -> nat)
    (capacity : nat) (ops : list (op K V)) :
  (forall c, run ops (EnhancedLRUCache.create capacity) = Some c ->
             pins_within c) /\
  (forall c, run (I := LFU_interface place) ops (LFUCache.create capacity)
             = Some c ->
             pins_within (I := LFU_interface place) c) /\
  (forall c, run ops (FIFOCache.create capacity) = Some c -> pins_within c) /\
  (forall c, run ops (LIFOCache.create capacity) = Some c -> pins_within c).
Proof.
  split; [|split; [|split]]; intros c Hr.
  - pose proof (LRU_run_pins capacity ops c Hr) as Hinv. split.
    + intros k Hk. apply Hinv. now apply bool_decide_eq_true in Hk.
    + cbn. unfold EnhancedLRUCache.size.
      rewrite <- (length_fmap key).
      apply pinned_count_list.
      intros k Hk. apply LRUCapacity.contains_keys. now apply Hinv.
  - pose proof (LFU_run_pins place capacity ops c Hr) as Hinv. split.
    + intros k Hk. apply Hinv. now apply bool_decide_eq_true in Hk.
    + cbn. apply pinned_count_map.
      intros k Hk. apply LFUCapacity.LFU_contains_resident. now apply Hinv.
  - pose proof (FIFO_run_pins capacity ops c Hr) as Hinv. split.
    + intros k Hk. apply Hinv. now apply bool_decide_eq_true in Hk.
    + cbn. apply pinned_count_map.
      intros k Hk. apply FIFOCapacity.FIFO_contains_resident. now apply Hinv.
  - pose proof (LIFO_run_pins capacity ops c Hr) as Hinv. split.
    + intros k Hk. apply Hinv. now apply bool_decide_eq_true in Hk.
    + cbn. apply pinned_count_map.
      intros k Hk. apply LIFOCapacity.LIFO_contains_resident. now apply Hinv.
Qed.

End Caches.
End PinnedResident.
Module RemoveProperties.
Section WithTypes.
Context {K : Type} `{Countable K} {V : Type}.

(** [c'] is [c] without the key [k]. *)
Definition forgotten {C : Type} {I : CacheInterface K V C} (k : K) (c c' : C)
  : Prop :=
  cache_contains k c' = false /\ cache_isPinned k c' = false /\
  (forall k', k' <> k ->
     cache_contains k' c' = cache_contains k' c /\
     cache_isPinned k' c' = cache_isPinned k' c) /\
  cache_size c' = (cache_size c - (if cache_contains k c then 1 else 0))%nat.

Lemma bool_decide_iff_eq (P Q : Prop) `{Decision P} `{Decision Q} :
  (P <-> Q) -> bool_decide P = bool_decide Q.
Proof. intros HPQ. now apply bool_decide_ext. Qed.

Lemma pinned_without (k k' : K) (P : gset K) :
  bool_decide (k ∈ P ∖ {[k]}) = false /\
  (k' <> k -> bool_decide (k' ∈ P ∖ {[k]}) = bool_decide (k' ∈ P)).
Proof.
  split.
  - apply bool_decide_eq_false_2. rewrite elem_of_difference, elem_of_singleton.
    tauto.
  - intros Hne. apply bool_decide_ext.
    rewrite elem_of_difference, elem_of_singleton. tauto.
Qed.

Lemma LRU_remove_forgets k (c : EnhancedLRUCache.t K V) :
  NoDup (EnhancedLRUCache.getKeys c) ->
  (forall k', k' ∈ EnhancedLRUCache.pinnedKeys c ->
              EnhancedLRUCache.contains k' c = true) ->
  forgotten k c (EnhancedLRUCache.remove k c).
Proof.
  intros Hnd Hinv. unfold forgotten. cbn.
  unfold EnhancedLRUCache.getKeys in Hnd.
  unfold EnhancedLRUCache.remove, EnhancedLRUCache.contains,
    EnhancedLRUCache.isPinned, EnhancedLRUCache.size.
  destruct (EnhancedLRUCache.find k (EnhancedLRUCache.entries c)) as [i|] eqn:E.
  - destruct (LRUCapacity.find_Some _ _ _ E) as (e & He & Hk).
    cbn [EnhancedLRUCache.entries EnhancedLRUCache.pinnedKeys].
    assert (Hkeys : key <$> delete i (EnhancedLRUCache.entries c)
                    = filter (fun x => x <> k)
                        (key <$> EnhancedLRUCache.entries c)).
    { rewrite <- (LRUProperties.delete_filter k _ i Hnd)
        by (rewrite list_lookup_fmap, He; simpl; now rewrite Hk).
      clear. revert i.
      induction (EnhancedLRUCache.entries c) as [|x l IH]; intros [|i]; cbn;
        try reflexivity.
      f_equal. apply IH. }
    assert (Hin : forall k', is_Some (EnhancedLRUCache.find k'
                               (delete i (EnhancedLRUCache.entries c)))
                             <-> k' <> k /\
                                 is_Some (EnhancedLRUCache.find k'
                                            (EnhancedLRUCache.entries c))).
    { intros k'. rewrite !LRUCapacity.find_is_Some, !LRUCapacity.resident_keys.
      rewrite Hkeys, list_elem_of_filter. tauto. }
    split; [apply bool_decide_eq_false_2; rewrite Hin; tauto|].
    split; [apply pinned_without; exact k|]. split.
    + intros k' Hne. split; [|now apply pinned_without].
      apply bool_decide_ext. rewrite Hin. tauto.
    + rewrite bool_decide_eq_true_2 by eauto.
      rewrite length_delete by eauto. reflexivity.
  - rewrite !E.
    split; [apply bool_decide_eq_false_2; intros [? ?]; discriminate|].
    split.
    + apply bool_decide_eq_false_2. intros Hp. apply Hinv in Hp.
      unfold EnhancedLRUCache.contains in Hp. rewrite E in Hp.
      apply bool_decide_eq_true in Hp. destruct Hp; discriminate.
    + split; [intros; split; reflexivity|].
      rewrite bool_decide_eq_false_2 by (intros [? ?]; discriminate). lia.
Qed.

(** The three caches kept in a hash table, by their [entries] and
    [pinnedKeys]. *)
Lemma table_remove_forgets k (E : gmap K (CacheEntry K V)) (P : gset K) :
  (forall k', k' ∈ P -> is_Some (E !! k')) ->
  let E' := if bool_decide (is_Some (E !! k)) then delete k E else E in
  let P' := if bool_decide (is_Some (E !! k)) then P ∖ {[k]} else P in
  bool_decide (is_Some (E' !! k)) = false /\
  bool_decide (k ∈ P') = false /\
  (forall k', k' <> k ->
     bool_decide (is_Some (E' !! k')) = bool_decide (is_Some (E !! k')) /\
     bool_decide (k' ∈ P') = bool_decide (k' ∈ P)) /\
  stdpp.base.size E'
  = (stdpp.base.size E - (if bool_decide (is_Some (E !! k)) then 1 else 0))%nat.
Proof.
  intros Hinv. cbv zeta.
  destruct (bool_decide (is_Some (E !! k))) eqn:Hb;
    [apply bool_decide_eq_true in Hb as Hk
    | apply bool_decide_eq_false in Hb as Hk].
  - split; [apply bool_decide_eq_false_2; rewrite lookup_delete_eq;
            intros [? ?]; discriminate|].
    split; [apply pinned_without; exact k|]. split.
    + intros k' Hne. split; [|now apply pinned_without].
      now rewrite lookup_delete_ne by congruence.
    + rewrite (map_size_delete_Some k E Hk). lia.
  - split; [exact Hb|]. split.
    + apply bool_decide_eq_false_2. intros Hp. now apply Hk, Hinv.
    + split; [intros; split; reflexivity | lia].
Qed.


Lemma LFU_remove_entries place k (c : LFUCache.t K V) :
  LFUCache.keyToEntry (LFUCache.remove place k c)
  = (if bool_decide (is_Some (LFUCache.keyToEntry c !! k))
     then delete k (LFUCache.keyToEntry c) else LFUCache.keyToEntry c) /\
  LFUCache.pinnedKeys (LFUCache.remove place k c)
  = (if bool_decide (is_Some (LFUCache.keyToEntry c !! k))
     then LFUCache.pinnedKeys c ∖ {[k]} else LFUCache.pinnedKeys c).
Proof.
  unfold LFUCache.remove. destruct (LFUCache.keyToEntry c !! k) as [e|].
  - rewrite bool_decide_eq_true_2 by eauto. split; reflexivity.
  - rewrite bool_decide_eq_false_2 by (intros [? ?]; discriminate).
    split; reflexivity.
Qed.

Lemma FIFO_remove_entries k (c : FIFOCache.t K V) :
  FIFOCache.entries (FIFOCache.remove k c)
  = (if bool_decide (is_Some (FIFOCache.entries c !! k))
     then delete k (FIFOCache.entries c) else FIFOCache.entries c) /\
  FIFOCache.pinnedKeys (FIFOCache.remove k c)
  = (if bool_decide (is_Some (FIFOCache.entries c !! k))
     then FIFOCache.pinnedKeys c ∖ {[k]} else FIFOCache.pinnedKeys c).
Proof.
  unfold FIFOCache.remove. destruct (FIFOCache.entries c !! k) as [e|].
  - rewrite bool_decide_eq_true_2 by eauto. split; reflexivity.
  - rewrite bool_decide_eq_false_2 by (intros [? ?]; discriminate).
    split; reflexivity.
Qed.

Lemma LIFO_remove_entries k (c : LIFOCache.t K V) :
  LIFOCache.entries (LIFOCache.remove k c)
  = (if bool_decide (is_Some (LIFOCache.entries c !! k))
     then delete k (LIFOCache.entries c) else LIFOCache.entries c) /\
  LIFOCache.pinnedKeys (LIFOCache.remove k c)
  = (if bool_decide (is_Some (LIFOCache.entries c !! k))
     then LIFOCache.pinnedKeys c ∖ {[k]} else LIFOCache.pinnedKeys c).
Proof.
  unfold LIFOCache.remove. destruct (LIFOCache.entries c !! k) as [e|].
  - rewrite bool_decide_eq_true_2 by eauto. split; reflexivity.
  - rewrite bool_decide_eq_false_2 by (intros [? ?]; discriminate).
    split; reflexivity.
Qed.

(** X26. [remove(k)] forgets the key and nothing else: on a cache reached
    by any sequence of calls, [contains(k)] and [isPinned(k)] are false
    afterwards, every other key is resident and pinned as before, and
    [size()] is one less when the key was resident and unchanged when it
    was not.  This holds for each of the four caches. *)
Theorem remove_forgets (place : Z -> list Z -> nat) (capacity : nat)
    (ops : list (op K V)) (k : K) :
  (forall c, run ops (EnhancedLRUCache.create capacity) = Some c ->
             forgotten k c (EnhancedLRUCache.remove k c)) /\
  (forall c, run (I := LFU_interface place) ops (LFUCache.create capacity)
             = Some c ->
             forgotten (I := LFU_interface place) k c (LFUCache.remove place k c)) /\
  (forall c, run ops (FIFOCache.create capacity) = Some c ->
             forgotten k c (FIFOCache.remove k c)) /\
  (forall c, run ops (LIFOCache.create capacity) = Some c ->
             forgotten k c (LIFOCache.remove k c)).
Proof.
  split; [|split; [|split]]; intros c Hr.
  - apply LRU_remove_forgets.
    + apply (LRUProperties.run_keys ops _ _ Hr). constructor.
    + apply (PinnedResident.LRU_run_pins capacity ops c Hr).
  - destruct (LFU_remove_entries place k c) as [He Hp].
    unfold forgotten. cbn. unfold LFUCache.contains, LFUCache.isPinned, LFUCache.size.
    rewrite He, Hp. apply table_remove_forgets.
    intros k' Hk'. apply LFUCapacity.LFU_contains_resident.
    apply (PinnedResident.LFU_run_pins place capacity ops c Hr k' Hk').
  - destruct (FIFO_remove_entries k c) as [He Hp].
    unfold forgotten. cbn. unfold FIFOCache.contains, FIFOCache.isPinned, FIFOCache.size.
    rewrite He, Hp. apply table_remove_forgets.
    intros k' Hk'. apply FIFOCapacity.FIFO_contains_resident.
    apply (PinnedResident.FIFO_run_pins capacity ops c Hr k' Hk').
  - destruct (LIFO_remove_entries k c) as [He Hp].
    unfold forgotten. cbn. unfold LIFOCache.contains, LIFOCache.isPinned, LIFOCache.size.
    rewrite He, Hp. apply table_remove_forgets.
    intros k' Hk'. apply LIFOCapacity.LIFO_contains_resident.
    apply (PinnedResident.LIFO_run_pins capacity ops c Hr k' Hk').
Qed.

End WithTypes.
End RemoveProperties.
Module StatsCounting.
Import Stats.

(** How a call moves the private statistics record. *)
Definition stat_moves {K V : Type} (o : op K V) (s s' : CacheStatistics)
  : Prop :=
  match o with
  | Get _ => s' = hit s \/ s' = miss s
  | Put _ _ => s' = s \/ s' = evicted s
  | Prefetch _ _ => s' = prefetched s \/ s' = prefetched (evicted s)
  | ResetStatistics => s' = init
  | _ => s' = s
  end.

(** The calls of a kind since the last [resetStatistics()]. *)
Definition tally {K V : Type} (kind : op K V -> bool) (ops : list (op K V))
  : Z :=
  fold_left (fun n o => match o with
                        | ResetStatistics => 0
                        | _ => if kind o then n + 1 else n
                        end) ops 0.

Definition is_get {K V : Type} (o : op K V) : bool :=
  match o with Get _ => true | _ => false end.
Definition is_prefetch {K V : Type} (o : op K V) : bool :=
  match o with Prefetch _ _ => true | _ => false end.
Definition is_insert {K V : Type} (o : op K V) : bool :=
  match o with Put _ _ | Prefetch _ _ => true | _ => false end.

(** The counters after the calls [ops]. *)
Definition counted {K V : Type} (ops : list (op K V)) (s : CacheStatistics)
  : Prop :=
  0 <= hits s /\ 0 <= misses s /\
  hits s + misses s = tally is_get ops /\
  prefetchedItems s = tally is_prefetch ops /\
  0 <= evictions s <= tally is_insert ops.

Lemma tally_snoc {K V : Type} (kind : op K V -> bool) ops o :
  tally kind (ops ++ [o])
  = match o with
    | ResetStatistics => 0
    | _ => if kind o then tally kind ops + 1 else tally kind ops
    end.
Proof. unfold tally. now rewrite fold_left_app. Qed.

Lemma tally_bounds {K V : Type} (kind : op K V -> bool) ops :
  0 <= tally kind ops <= Z.of_nat (length ops).
Proof.
  induction ops as [|o ops IH] using rev_ind; [cbn; lia|].
  rewrite tally_snoc, length_app. cbn [length].
  destruct o;
    try match goal with |- context [if ?b then _ else _] => destruct b end;
    lia.
Qed.

Lemma wrap64_small x : 0 <= x < 2 ^ 64 -> wrap64 x = x.
Proof. intros Hx. unfold wrap64. now apply Z.mod_small. Qed.

Lemma counted_step {K V : Type} (ops : list (op K V)) o s s' :
  Z.of_nat (length ops) + 1 < 2 ^ 64 ->
  stat_moves o s s' -> counted ops s -> counted (ops ++ [o]) s'.
Proof.
  intros Hlen Hm (Hh & Hmi & Hg & Hp & He). unfold counted.
  rewrite !tally_snoc.
  pose proof (tally_bounds is_get ops).
  pose proof (tally_bounds is_prefetch ops).
  pose proof (tally_bounds is_insert ops).
  destruct o; cbn [stat_moves is_get is_prefetch is_insert] in *.
  - destruct Hm as [->| ->]; cbn [hits misses prefetchedItems evictions evicted].
    + lia.
    + rewrite wrap64_small by lia. lia.
  - destruct Hm as [->| ->];
      cbn [hits misses prefetchedItems evictions hit miss updateHitRate];
      rewrite wrap64_small by lia; lia.
  - subst s'. lia.
  - subst s'. lia.
  - subst s'. lia.
  - subst s'. lia.
  - destruct Hm as [->| ->];
      cbn [hits misses prefetchedItems evictions evicted prefetched];
      rewrite ?wrap64_small by lia; lia.
  - subst s'. cbn. lia.
Qed.

Section Generic.
Context {K V C : Type} {I : CacheInterface K V C}.
Variable stats_of : C -> CacheStatistics.
Hypothesis step_stats :
  forall o c c', step o c = Some c' -> stat_moves o (stats_of c) (stats_of c').

Lemma run_snoc (ops : list (op K V)) o c :
  run (ops ++ [o]) c = c' ← run ops c; step o c'.
Proof.
  revert c. induction ops as [|o' ops IH]; intros c; simpl.
  - now destruct (step o c).
  - destruct (step o' c) as [c1|]; simpl; [apply IH | reflexivity].
Qed.

Lemma run_counted (ops : list (op K V)) : forall c c',
  Z.of_nat (length ops) < 2 ^ 64 ->
  stats_of c = init -> run ops c = Some c' -> counted ops (stats_of c').
Proof.
  induction ops as [|o ops IH] using rev_ind; intros c c' Hlen Hinit Hr.
  - injection Hr as <-. rewrite Hinit. unfold counted. cbn. lia.
  - rewrite run_snoc in Hr. rewrite length_app in Hlen. cbn [length] in Hlen.
    destruct (run ops c) as [c1|] eqn:Hr1; [|discriminate]. simpl in Hr.
    apply counted_step with (s := stats_of c1).
    + lia.
    + now apply step_stats.
    + apply (IH c c1); [lia | exact Hinit | exact Hr1].
Qed.
End Generic.

Section Caches.
Context {K : Type} `{Countable K} {V : Type}.

Lemma LRU_evict_loop_moves fuel : forall (c c' : EnhancedLRUCache.t K V),
  EnhancedLRUCache.evict_loop fuel c = Some c' ->
  EnhancedLRUCache.stats c' = EnhancedLRUCache.stats c \/
  EnhancedLRUCache.stats c' = evicted (EnhancedLRUCache.stats c).
Proof.
  induction fuel as [|fuel IH]; intros c c' Hl; [discriminate|].
  cbn [EnhancedLRUCache.evict_loop] in Hl.
  unfold EnhancedLRUCache.evict_step in Hl.
  destruct (last (EnhancedLRUCache.entries c)); [|injection Hl as <-; now left].
  case_bool_decide.
  - injection Hl as <-. now right.
  - match type of Hl with context [if ?b then _ else _] => destruct b end.
    + injection Hl as <-. now left.
    + apply IH in Hl. exact Hl.
Qed.

Lemma LRU_step_stats o (c c' : EnhancedLRUCache.t K V) :
  step o c = Some c' ->
  stat_moves o (EnhancedLRUCache.stats c) (EnhancedLRUCache.stats c').
Proof.
  destruct o; simpl; intros Hs.
  - unfold EnhancedLRUCache.put in Hs.
    destruct (EnhancedLRUCache.find _ _).
    + injection Hs as <-. now left.
    + destruct (_ <=? _)%nat; simpl in Hs.
      * destruct (EnhancedLRUCache.evict c) as [c1|] eqn:E; [|discriminate].
        simpl in Hs. injection Hs as <-.
        apply (LRU_evict_loop_moves _ _ _ E).
      * injection Hs as <-. now left.
  - injection Hs as <-. unfold EnhancedLRUCache.get.
    destruct (EnhancedLRUCache.find _ _); simpl; [now left | now right].
  - injection Hs as <-. unfold EnhancedLRUCache.remove.
    now destruct (EnhancedLRUCache.find _ _).
  - now injection Hs as <-.
  - injection Hs as <-. unfold EnhancedLRUCache.pin. now case_bool_decide.
  - now injection Hs as <-.
  - unfold EnhancedLRUCache.prefetch in Hs.
    destruct (EnhancedLRUCache.find _ _).
    + injection Hs as <-. now left.
    + destruct (_ <? _)%nat; simpl in Hs.
      * injection Hs as <-. now left.
      * destruct (EnhancedLRUCache.evict c) as [c1|] eqn:E; [|discriminate].
        simpl in Hs. injection Hs as <-. cbn.
        destruct (LRU_evict_loop_moves _ _ _ E) as [-> | ->]; [now left | now right].
  - now injection Hs as <-.
Qed.

Lemma FIFO_evict_moves (c : FIFOCache.t K V) :
  FIFOCache.stats (FIFOCache.evict c) = FIFOCache.stats c \/
  FIFOCache.stats (FIFOCache.evict c) = evicted (FIFOCache.stats c).
Proof.
  unfold FIFOCache.evict.
  destruct (FIFOCache.evict_loop _ _ _) as [q [k'|]]; [now right | now left].
Qed.

Lemma FIFO_step_stats o (c c' : FIFOCache.t K V) :
  step o c = Some c' -> stat_moves o (FIFOCache.stats c) (FIFOCache.stats c').
Proof.
  destruct o; simpl; intros Hs; injection Hs as <-.
  - unfold FIFOCache.put. destruct (_ !! _); [now left|].
    destruct (_ <=? _)%nat; [apply FIFO_evict_moves | now left].
  - unfold FIFOCache.get. destruct (_ !! _); simpl; [now left | now right].
  - unfold FIFOCache.remove. now destruct (_ !! _).
  - reflexivity.
  - unfold FIFOCache.pin. now case_bool_decide.
  - reflexivity.
  - unfold FIFOCache.prefetch. destruct (_ !! _); [now left|].
    destruct (_ <=? _)%nat; [|now left]. cbn.
    destruct (FIFO_evict_moves c) as [-> | ->]; [now left | now right].
  - reflexivity.
Qed.

Lemma LIFO_evict_moves (c : LIFOCache.t K V) :
  LIFOCache.stats (LIFOCache.evict c) = LIFOCache.stats c \/
  LIFOCache.stats (LIFOCache.evict c) = evicted (LIFOCache.stats c).
Proof.
  unfold LIFOCache.evict.
  destruct (LIFOCache.find_victim _ _ _ _) as [[q tmp] [k'|]];
    [now right | now left].
Qed.

Lemma LIFO_step_stats o (c c' : LIFOCache.t K V) :
  step o c = Some c' -> stat_moves o (LIFOCache.stats c) (LIFOCache.stats c').
Proof.
  destruct o; simpl; intros Hs; injection Hs as <-.
  - unfold LIFOCache.put. destruct (_ !! _); [now left|].
    destruct (_ <=? _)%nat; [apply LIFO_evict_moves | now left].
  - unfold LIFOCache.get. destruct (_ !! _); simpl; [now left | now right].
  - unfold LIFOCache.remove. now destruct (_ !! _).
  - reflexivity.
  - unfold LIFOCache.pin. now case_bool_decide.
  - reflexivity.
  - unfold LIFOCache.prefetch. destruct (_ !! _); [now left|].
    destruct (_ <=? _)%nat; [|now left]. cbn.
    destruct (LIFO_evict_moves c) as [-> | ->]; [now left | now right].
  - reflexivity.
Qed.

Lemma LFU_evict_moves (c : LFUCache.t K V) :
  LFUCache.stats (LFUCache.evict c) = LFUCache.stats c \/
  LFUCache.stats (LFUCache.evict c) = evicted (LFUCache.stats c).
Proof.
  unfold LFUCache.evict.
  destruct (LFUCache.find_bucket _ _); [|now left].
  destruct (LFUCache.scan _ _) as [[[[k' f] l] fs]|]; [now right | now left].
Qed.

Lemma LFU_step_stats place o (c c' : LFUCache.t K V) :
  step (I := LFU_interface place) o c = Some c' ->
  stat_moves o (LFUCache.stats c) (LFUCache.stats c').
Proof.
  destruct o; simpl; intros Hs; injection Hs as <-.
  - unfold LFUCache.put.
    destruct (_ =? _)%nat; [now left|].
    destruct (_ !! _); [now left|].
    destruct (_ <=? _)%nat; [apply LFU_evict_moves | now left].
  - unfold LFUCache.get. destruct (_ !! _); simpl; [now left | now right].
  - unfold LFUCache.remove. now destruct (_ !! _).
  - reflexivity.
  - unfold LFUCache.pin. now case_bool_decide.
  - reflexivity.
  - unfold LFUCache.prefetch. destruct (_ !! _); [now left|].
    destruct (_ <=? _)%nat; [|now left]. cbn.
    destruct (LFU_evict_moves c) as [-> | ->]; [now left | now right].
  - reflexivity.
Qed.

(** What [getStatistics] reports of the counters. *)
Definition tallies (ops : list (op K V)) (s : CacheStatistics) : Prop :=
  hits s + misses s = tally is_get ops /\
  prefetchedItems s = tally is_prefetch ops /\
  0 <= evictions s <= tally is_insert ops.

Lemma counted_tallies ops s pinned :
  counted ops s -> tallies ops (report s pinned).
Proof. intros (_ & _ & H1 & H2 & H3). repeat split; assumption || apply H3. Qed.

(** X27. What the counters count: after fewer than 2^64 calls on a fresh
    cache, [hits + misses] is the number of [get] calls since the last
    [resetStatistics()] (every [get] is counted once, and [put], [contains]
    and [prefetch] are not accesses), [prefetchedItems] is the number of
    [prefetch] calls, and [evictions] is at most the number of [put] and
    [prefetch] calls.  This holds for each of the four caches. *)
Theorem counters_count_calls (place : Z -> list Z -> nat) (capacity : nat)
    (ops : list (op K V)) :
  Z.of_nat (length ops) < 2 ^ 64 ->
  (forall c, run ops (EnhancedLRUCache.create capacity) = Some c ->
             tallies ops (EnhancedLRUCache.getStatistics c)) /\
  (forall c, run (I := LFU_interface place) ops (LFUCache.create capacity)
             = Some c ->
             tallies ops (LFUCache.getStatistics c)) /\
  (forall c, run ops (FIFOCache.create capacity) = Some c ->
             tallies ops (FIFOCache.getStatistics c)) /\
  (forall c, run ops (LIFOCache.create capacity) = Some c ->
             tallies ops (LIFOCache.getStatistics c)).
Proof.
  intros Hlen. split; [|split; [|split]]; intros c Hr; apply counted_tallies.
  - apply (run_counted (I := LRU_interface) EnhancedLRUCache.stats
             LRU_step_stats ops (EnhancedLRUCache.create capacity) c Hlen
             eq_refl Hr).
  - apply (run_counted (I := LFU_interface place) LFUCache.stats
             (LFU_step_stats place) ops (LFUCache.create capacity) c Hlen
             eq_refl Hr).
  - apply (run_counted (I := FIFO_interface) FIFOCache.stats
             FIFO_step_stats ops (FIFOCache.create capacity) c Hlen
             eq_refl Hr).
  - apply (run_counted (I := LIFO_interface) LIFOCache.stats
             LIFO_step_stats ops (LIFOCache.create capacity) c Hlen
             eq_refl Hr).
Qed.

End Caches.

Definition counted_ops : list (op Z string) :=
  [Put 1 "a"; Get 1; ResetStatistics; Get 2; Prefetch 3 "c"; Get 1]%string.

Lemma counters_count_calls_witness :
  exists c, run counted_ops (FIFOCache.create 2) = Some c /\
    hits (FIFOCache.getStatistics c) + misses (FIFOCache.getStatistics c) = 2 /\
    prefetchedItems (FIFOCache.getStatistics c) = 1.
Proof.
  eexists. split; [vm_compute; reflexivity|].
  destruct (counters_count_calls (fun _ _ => O) 2 counted_ops
              ltac:(vm_compute; reflexivity)) as (_ & _ & Hfifo & _).
  destruct (Hfifo _ ltac:(vm_compute; reflexivity)) as (Hg & Hp & _).
  split; [exact Hg | exact Hp].
Defined.

End StatsCounting.
Module CacheManagerProperties.
Section WithTypes.
Context {K : Type} `{Countable K} {V : Type}.
Variable place : Z -> list Z -> nat.

(** A cache that holds nothing and has counted nothing. *)
Definition pristine (m : CacheManager.t K V) : Prop :=
  CacheManager.size m = O /\
  CacheManager.getStatistics m = Stats.init /\
  forall k, CacheManager.contains k m = false /\
            CacheManager.isPinned k m = false /\
            (CacheManager.get place k m).1 = None.

Lemma recreateCache_pristine capacity policy :
  pristine (CacheManager.recreateCache capacity policy).
Proof.
  unfold pristine, CacheManager.recreateCache, CacheManager.size,
    CacheManager.getStatistics, CacheManager.contains, CacheManager.isPinned,
    CacheManager.get.
  destruct policy; cbn [CacheManager.cache].
  - split; [reflexivity|]. split; [reflexivity|]. intros k. repeat split.
  - split; [apply map_size_empty|]. split; [reflexivity|]. intros k.
    split; [|split].
    + apply bool_decide_eq_false_2. cbn. rewrite lookup_empty.
      intros [? ?]; discriminate.
    + reflexivity.
    + cbv zeta. unfold LFUCache.get. cbn. now rewrite lookup_empty.
  - split; [apply map_size_empty|]. split; [reflexivity|]. intros k.
    split; [|split].
    + apply bool_decide_eq_false_2. cbn. rewrite lookup_empty.
      intros [? ?]; discriminate.
    + reflexivity.
    + cbv zeta. unfold FIFOCache.get. cbn. now rewrite lookup_empty.
  - split; [apply map_size_empty|]. split; [reflexivity|]. intros k.
    split; [|split].
    + apply bool_decide_eq_false_2. cbn. rewrite lookup_empty.
      intros [? ?]; discriminate.
    + reflexivity.
    + cbv zeta. unfold LIFOCache.get. cbn. now rewrite lookup_empty.
Qed.

(** X28. Changing the policy or the capacity throws the cache away:
    [setPolicy] with another policy and [resize] with another capacity
    replace the cache by a fresh one, so every entry, every pin and every
    counter is lost; with the current policy or capacity they do nothing. *)
Theorem reconfiguring_empties_the_cache (m : CacheManager.t K V)
    (policy : CachePolicy) (newCapacity : nat) :
  (if bool_decide (policy = CacheManager.getPolicy m)
   then CacheManager.setPolicy policy m = m
   else CacheManager.getPolicy (CacheManager.setPolicy policy m) = policy /\
        CacheManager.cacheCapacity (CacheManager.setPolicy policy m)
        = CacheManager.cacheCapacity m /\
        pristine (CacheManager.setPolicy policy m)) /\
  (if bool_decide (newCapacity = CacheManager.cacheCapacity m)
   then CacheManager.resize newCapacity m = m
   else CacheManager.cacheCapacity (CacheManager.resize newCapacity m)
        = newCapacity /\
        CacheManager.getPolicy (CacheManager.resize newCapacity m)
        = CacheManager.getPolicy m /\
        pristine (CacheManager.resize newCapacity m)).
Proof.
  unfold CacheManager.setPolicy, CacheManager.resize, CacheManager.getPolicy.
  split.
  - case_bool_decide as Hp.
    + now rewrite bool_decide_eq_true_2 by congruence.
    + rewrite bool_decide_eq_false_2 by congruence.
      split; [reflexivity|]. split; [reflexivity|]. apply recreateCache_pristine.
  - case_bool_decide as Hc.
    + now rewrite bool_decide_eq_true_2 by congruence.
    + rewrite bool_decide_eq_false_2 by congruence.
      split; [reflexivity|]. split; [reflexivity|]. apply recreateCache_pristine.
Qed.

End WithTypes.
End CacheManagerProperties.
Module JournalProperties.
Import Journal.

(** The calls of [calls] applied to [j], first call first. *)
Definition applied (calls : list call) (j : t) : t :=
  fold_left (fun j c => apply c j) calls j.

Lemma journal_applied_snoc calls c j :
  applied (calls ++ [c]) j = apply c (applied calls j).
Proof. unfold applied. now rewrite fold_left_app. Qed.

(** The entries are numbered 1, 2, ... in log order and the counter is
    their number. *)
Definition in_sequence (j : t) : Prop :=
  sequenceNumber <$> entries j = seqZ 1 (Z.of_nat (length (entries j))) /\
  currentSequence j = Z.of_nat (length (entries j)).

Lemma in_sequence_log j e :
  Z.of_nat (length (entries j)) + 1 < 2 ^ 64 ->
  in_sequence j ->
  in_sequence (mk (entries j ++ [mkEntry (wrap64 (currentSequence j + 1))
                                   (type e) (blocks e) (metadata e)])
                  (wrap64 (currentSequence j + 1)) (inTransaction j)).
Proof.
  intros Hn [Hs Hc]. unfold in_sequence. cbn [entries currentSequence].
  assert (Hw : wrap64 (currentSequence j + 1)
               = Z.of_nat (length (entries j)) + 1)
    by (rewrite Hc; unfold wrap64; apply Z.mod_small; lia).
  rewrite Hw, length_app, fmap_app, Hs. cbn [length fmap list_fmap sequenceNumber].
  rewrite Nat2Z.inj_add. change (Z.of_nat 1) with 1.
  split; [|reflexivity].
  rewrite seqZ_app by lia. f_equal.
  rewrite seqZ_cons, seqZ_nil by lia. f_equal. lia.
Qed.

Lemma in_sequence_apply n c j :
  n + 1 < 2 ^ 64 ->
  in_sequence j /\ Z.of_nat (length (entries j)) <= n ->
  in_sequence (apply c j) /\ Z.of_nat (length (entries (apply c j))) <= n + 1.
Proof.
  intros Hn [Hj Hlen].
  assert (Hkeep : forall b, in_sequence (mk (entries j) (currentSequence j) b))
    by (intros b; exact Hj).
  destruct c; cbn [apply].
  - split; [split; reflexivity | cbn; lia].
  - split.
    + apply (in_sequence_log j (mkEntry 0 UPDATE_METADATA [] operation));
        [lia | exact Hj].
    + cbn. rewrite length_app. simpl. lia.
  - split.
    + apply (in_sequence_log j entry); [lia | exact Hj].
    + cbn. rewrite length_app. simpl. lia.
  - split; [apply Hkeep | cbn; lia].
  - unfold commitTransaction. destruct (inTransaction j);
      (split; [first [apply Hkeep | exact Hj] | cbn; lia]).
  - unfold rollbackTransaction. destruct (inTransaction j);
      (split; [first [apply Hkeep | exact Hj] | cbn; lia]).
  - split; [apply Hkeep | cbn; lia].
  - split; [exact Hj | unfold checkpoint; lia].
  - split; [split; reflexivity | cbn; lia].
Qed.

Lemma in_sequence_after calls :
  Z.of_nat (length calls) < 2 ^ 64 ->
  in_sequence (after calls) /\
  Z.of_nat (length (entries (after calls))) <= Z.of_nat (length calls).
Proof.
  induction calls as [|c calls IH] using rev_ind; intros Hlen.
  - split; [split; reflexivity | cbn; lia].
  - rewrite length_app in *. simpl length in *.
    replace (after (calls ++ [c])) with (apply c (after calls))
      by (unfold after; now rewrite fold_left_app).
    replace (Z.of_nat (length calls + 1)) with (Z.of_nat (length calls) + 1)
      in * by lia.
    apply in_sequence_apply; [lia|]. apply IH. lia.
Qed.

(** X12. The sequence numbers of a journal: after fewer than 2^64 calls
    on a journal made by [Journal::create], its entries carry the numbers
    1, 2, ..., [size()] in log order, whatever number a caller of [logEntry]
    put in the entry, and [getLastSequenceNumber()] is [size()]. *)
Theorem journal_sequence_numbers (calls : list call) :
  Z.of_nat (length calls) < 2 ^ 64 ->
  let j := after calls in
  sequenceNumber <$> entries j = seqZ 1 (Z.of_nat (size j)) /\
  getLastSequenceNumber j = Z.of_nat (size j).
Proof.
  intros Hlen. exact (proj1 (in_sequence_after calls Hlen)).
Qed.

Definition logged_thrice : list call :=
  [LogOperation []; BeginTransaction;
   LogEntry (mkEntry 40 WRITE_DATA [7] []); RollbackTransaction;
   LogEntry (mkEntry 0 DELETE_FILE [] [])].

Lemma journal_sequence_numbers_witness :
  sequenceNumber <$> entries (after logged_thrice) = [1; 2; 3] /\
  getLastSequenceNumber (after logged_thrice) = 3.
Proof.
  apply (journal_sequence_numbers logged_thrice). vm_compute. reflexivity.
Defined.

(** The slice of a list numbered from [m] that holds the numbers between
    [a] and [b]. *)
Definition slice (m a b : Z) (l : list JournalEntry) : list JournalEntry :=
  take (Z.to_nat (b - Z.max a m + 1)) (drop (Z.to_nat (Z.max a m - m)) l).

Lemma filter_numbered (a b : Z) (l : list JournalEntry) : forall m,
  sequenceNumber <$> l = seqZ m (Z.of_nat (length l)) ->
  filter (fun e => a <= sequenceNumber e /\ sequenceNumber e <= b) l
  = slice m a b l.
Proof.
  induction l as [|e l IH]; intros m Hs.
  - unfold slice. now rewrite drop_nil, take_nil.
  - cbn [length fmap list_fmap] in Hs.
    rewrite seqZ_cons in Hs by lia. injection Hs as He Hs.
    replace (Z.pred (Z.of_nat (S (length l)))) with (Z.of_nat (length l))
      in Hs by lia.
    specialize (IH (Z.succ m) Hs). unfold slice in *.
    destruct (decide (a <= sequenceNumber e /\ sequenceNumber e <= b))
      as [Hin|Hout].
    + rewrite filter_cons_True by exact Hin. rewrite IH.
      replace (Z.max a m) with m by lia.
      replace (Z.to_nat (m - m)) with O by lia. rewrite drop_0.
      replace (Z.to_nat (b - m + 1)) with (S (Z.to_nat (b - m))) by lia.
      cbn [take firstn]. f_equal.
      replace (Z.max a (Z.succ m)) with (Z.succ m) by lia.
      replace (Z.to_nat (Z.succ m - Z.succ m)) with O by lia. rewrite drop_0.
      f_equal. lia.
    + rewrite filter_cons_False by exact Hout. rewrite IH.
      destruct (decide (a <= m)) as [Ha|Ha].
      * (* [b < m]: nothing is taken *)
        replace (Z.to_nat (b - Z.max a (Z.succ m) + 1)) with O by lia.
        replace (Z.to_nat (b - Z.max a m + 1)) with O by lia.
        now rewrite !take_0.
      * replace (Z.max a (Z.succ m)) with a by lia.
        replace (Z.max a m) with a by lia.
        replace (Z.to_nat (a - m)) with (S (Z.to_nat (a - Z.succ m))) by lia.
        reflexivity.
Qed.

(** X13. [getEntries(from, to)] on such a journal returns one contiguous
    slice of the log, in log order: the entries at the positions
    [max(from, 1) .. to] (counted from 1), and none when that range is
    empty or lies beyond the log. *)
Theorem getEntries_slice (calls : list call) (fromSequence toSequence : Z) :
  Z.of_nat (length calls) < 2 ^ 64 ->
  let j := after calls in
  getEntries fromSequence toSequence j
  = take (Z.to_nat (toSequence - Z.max fromSequence 1 + 1))
      (drop (Z.to_nat (Z.max fromSequence 1 - 1)) (entries j)).
Proof.
  intros Hlen. cbv zeta. unfold getEntries.
  apply (filter_numbered fromSequence toSequence (entries (after calls)) 1).
  exact (proj1 (proj1 (in_sequence_after calls Hlen))).
Qed.

Lemma getEntries_slice_witness :
  getEntries 2 7 (after logged_thrice) = drop 1 (entries (after logged_thrice)).
Proof.
  rewrite (getEntries_slice logged_thrice 2 7) by (vm_compute; reflexivity).
  vm_compute. reflexivity.
Defined.

(** The calls that log an entry. *)
Definition logs (c : call) : bool :=
  match c with LogOperation _ | LogEntry _ => true | _ => false end.

(** The calls that empty the log. *)
Definition empties (c : call) : bool :=
  match c with Initialize | ClearJournal => true | _ => false end.

Lemma apply_extends c j :
  empties c = false ->
  entries j `prefix_of` entries (apply c j) /\
  length (entries (apply c j))
  = (length (entries j) + (if logs c then 1 else 0))%nat.
Proof.
  intros Hc. destruct c; cbn [apply logs]; try discriminate.
  - cbn. rewrite length_app. split; [now apply prefix_app_r | reflexivity].
  - cbn. rewrite length_app. split; [now apply prefix_app_r | reflexivity].
  - cbn. split; [reflexivity | lia].
  - unfold commitTransaction. destruct (inTransaction j); cbn;
      (split; [reflexivity | lia]).
  - unfold rollbackTransaction. destruct (inTransaction j); cbn;
      (split; [reflexivity | lia]).
  - cbn. split; [reflexivity | lia].
  - unfold checkpoint. split; [reflexivity | lia].
Qed.

(** X14. The log is append-only: of the public member functions only
    [clear()] and [initialize()] remove or change an entry.  In particular
    [rollbackTransaction()] and [recover()] keep every entry logged inside
    the transaction: over calls among which there is no [clear()] and no
    [initialize()] the old log is a prefix of the new one, which has grown
    by the number of [logOperation] and [logEntry] calls. *)
Theorem journal_append_only (calls : list call) (j : t) :
  Forall (fun c => empties c = false) calls ->
  entries j `prefix_of` entries (applied calls j) /\
  size (applied calls j) = (size j + length (filter (fun c => logs c = true) calls))%nat.
Proof.
  induction calls as [|c calls IH] using rev_ind; intros Hf.
  - cbn. split; [reflexivity | unfold size; lia].
  - apply Forall_app in Hf as [Hf Hc]. apply Forall_cons in Hc as [Hc _].
    destruct (IH Hf) as [Hp Hs]. rewrite journal_applied_snoc.
    destruct (apply_extends c (applied calls j) Hc) as [Hp' Hs'].
    split; [etransitivity; eassumption|].
    unfold size in *. rewrite Hs', Hs, filter_app, length_app.
    destruct (logs c) eqn:E.
    + rewrite filter_cons_True by exact E. simpl. lia.
    + rewrite filter_cons_False by (rewrite E; discriminate). simpl. lia.
Qed.

Definition rolled_back : list call :=
  [BeginTransaction; LogOperation []; LogOperation []; RollbackTransaction;
   Recover].

Lemma journal_append_only_witness :
  entries (after [LogOperation []])
    `prefix_of` entries (applied rolled_back (after [LogOperation []])) /\
  size (applied rolled_back (after [LogOperation []])) = 3%nat.
Proof.
  apply (journal_append_only rolled_back (after [LogOperation []])).
  repeat constructor.
Defined.

End JournalProperties.
Module BlockManagerProperties.
Import BlockManager.

(** The bitmap has its [BITMAP_BYTES] bytes. *)
Definition wf (b : t) : Prop :=
  length (blockBitmap b) = BITMAP_BYTES /\
  Forall (fun x => 0 <= x < 256) (blockBitmap b).

(** Bit [k] of the byte [x], as [getBit] tests it. *)
Definition bit (x k : Z) : bool := negb (Z.land x (Z.shiftl 1 k) =? 0).

Definition set_bit (x k : Z) : Z := Z.lor x (Z.shiftl 1 k) mod 256.
Definition clear_bit (x k : Z) : Z := Z.land x (Z.lnot (Z.shiftl 1 k)) mod 256.

Definition bit_check (x k n : Z) : bool :=
  (0 <=? set_bit x k) && (set_bit x k <? 256) &&
  (0 <=? clear_bit x k) && (clear_bit x k <? 256) &&
  Bool.eqb (bit (set_bit x k) n) (bit x n || (n =? k)) &&
  Bool.eqb (bit (clear_bit x k) n) (bit x n && negb (n =? k)) &&
  (bit x k || (clear_bit (set_bit x k) k =? x)).

Lemma bit_table :
  forallb (fun x => forallb (fun k => forallb (bit_check x k) (seqZ 0 8))
                      (seqZ 0 8)) (seqZ 0 256) = true.
Proof. vm_compute. reflexivity. Qed.

Lemma bit_ops x k n :
  0 <= x < 256 -> 0 <= k < 8 -> 0 <= n < 8 ->
  0 <= set_bit x k < 256 /\ 0 <= clear_bit x k < 256 /\
  bit (set_bit x k) n = (bit x n || (n =? k)) /\
  bit (clear_bit x k) n = (bit x n && negb (n =? k)) /\
  (bit x k = false -> clear_bit (set_bit x k) k = x).
Proof.
  intros Hx Hk Hn. pose proof bit_table as T.
  rewrite forallb_forall in T.
  specialize (T x ltac:(apply list_elem_of_In, elem_of_seqZ; lia)).
  rewrite forallb_forall in T.
  specialize (T k ltac:(apply list_elem_of_In, elem_of_seqZ; lia)).
  rewrite forallb_forall in T.
  specialize (T n ltac:(apply list_elem_of_In, elem_of_seqZ; lia)).
  unfold bit_check in T.
  apply andb_true_iff in T as [T T7].
  apply andb_true_iff in T as [T T6]. apply andb_true_iff in T as [T T5].
  apply andb_true_iff in T as [T T4]. apply andb_true_iff in T as [T T3].
  apply andb_true_iff in T as [T1 T2].
  apply Z.leb_le in T1, T3. apply Z.ltb_lt in T2, T4.
  apply Bool.eqb_prop in T5, T6.
  repeat split; try assumption.
  intros Hb. rewrite Hb in T7. now apply Z.eqb_eq in T7.
Qed.

Definition in_range (i : Z) : Prop := 0 <= i < Z.of_nat MAX_BLOCKS.

Lemma getBit_bit i b :
  in_range i ->
  getBit i b = bit (nth (Z.to_nat (i / 8)) (blockBitmap b) 0) (i mod 8).
Proof.
  intros [H0 H1]. unfold getBit.
  destruct (Z.of_nat MAX_BLOCKS <=? i) eqn:E; [apply Z.leb_le in E; lia|].
  reflexivity.
Qed.

Lemma nth_alter {A} (f : A -> A) (l : list A) i j d :
  (j < length l)%nat ->
  nth j (alter f i l) d = if decide (i = j) then f (nth j l d) else nth j l d.
Proof.
  intros Hj. rewrite !nth_lookup, list_lookup_alter.
  destruct (decide (i = j)) as [->|]; [|reflexivity].
  destruct (lookup_lt_is_Some_2 l j Hj) as [x ->]. reflexivity.
Qed.

Lemma byte_index i : in_range i -> (Z.to_nat (i / 8) < BITMAP_BYTES)%nat.
Proof.
  intros [H0 H1]. change BITMAP_BYTES with 128%nat.
  change (Z.of_nat MAX_BLOCKS) with 1024 in H1.
  assert (i / 8 < 128) by (apply Z.div_lt_upper_bound; lia).
  assert (0 <= i / 8) by (apply Z.div_pos; lia). lia.
Qed.

Lemma nth_byte b j : wf b -> in_range j ->
  0 <= nth (Z.to_nat (j / 8)) (blockBitmap b) 0 < 256.
Proof.
  intros [Hl Hb] Hj. rewrite Forall_forall in Hb. apply Hb.
  apply list_elem_of_In, nth_In. rewrite Hl. now apply byte_index.
Qed.

Lemma setBit_wf i v b : wf b -> in_range i -> wf (setBit i v b).
Proof.
  intros Hwf Hi. pose proof Hwf as [Hl Hb]. unfold setBit.
  destruct (Z.of_nat MAX_BLOCKS <=? i) eqn:E; [exact Hwf|].
  split; cbn [blockBitmap].
  - now rewrite length_alter.
  - apply Forall_alter; [exact Hb|]. intros x _ Hx'.
    assert (0 <= i mod 8 < 8) as Hk by (apply Z.mod_pos_bound; lia).
    destruct (bit_ops x (i mod 8) 0 Hx' Hk ltac:(lia)) as (H1 & H2 & _ & _ & _).
    destruct v; assumption.
Qed.

Lemma getBit_setBit i j v b :
  wf b -> in_range i -> in_range j ->
  getBit j (setBit i v b) = if decide (j = i) then v else getBit j b.
Proof.
  intros Hwf Hi Hj. pose proof Hwf as [Hl Hb].
  rewrite getBit_bit by exact Hj.
  rewrite (getBit_bit j b) by exact Hj.
  unfold setBit.
  destruct (Z.of_nat MAX_BLOCKS <=? i) eqn:E;
    [apply Z.leb_le in E; destruct Hi; lia|].
  cbn [blockBitmap].
  rewrite nth_alter by (rewrite Hl; now apply byte_index).
  pose proof (nth_byte b j Hwf Hj) as Hx.
  assert (0 <= i mod 8 < 8) as Hk by (apply Z.mod_pos_bound; lia).
  assert (0 <= j mod 8 < 8) as Hn by (apply Z.mod_pos_bound; lia).
  destruct Hi as [Hi0 Hi1], Hj as [Hj0 Hj1].
  destruct (decide (Z.to_nat (i / 8) = Z.to_nat (j / 8))) as [Hbyte|Hbyte].
  - assert (i / 8 = j / 8) as Hdiv
      by (pose proof (Z.div_pos i 8); pose proof (Z.div_pos j 8); lia).
    destruct (bit_ops _ (i mod 8) (j mod 8) Hx Hk Hn) as (_ & _ & Hs & Hc & _).
    fold (set_bit (nth (Z.to_nat (j / 8)) (blockBitmap b) 0) (i mod 8)).
    fold (clear_bit (nth (Z.to_nat (j / 8)) (blockBitmap b) 0) (i mod 8)).
    pose proof (Z.div_mod i 8 ltac:(lia)) as Di.
    pose proof (Z.div_mod j 8 ltac:(lia)) as Dj.
    destruct (decide (j = i)) as [->|Hne].
    + destruct v; [rewrite Hs | rewrite Hc]; rewrite Z.eqb_refl;
        [apply orb_true_r | apply andb_false_r].
    + assert ((j mod 8 =? i mod 8) = false) as Hm by (apply Z.eqb_neq; lia).
      destruct v; [rewrite Hs | rewrite Hc]; rewrite Hm;
        [apply orb_false_r | apply andb_true_r].
  - destruct (decide (j = i)) as [->|Hne]; [contradiction | reflexivity].
Qed.

Lemma getBit_saveBitmap j b : getBit j (saveBitmap b) = getBit j b.
Proof. reflexivity. Qed.

Lemma getBit_out j b : ~ in_range j -> 0 <= j -> getBit j b = false.
Proof.
  intros Hj H0. unfold getBit, in_range in *.
  destruct (Z.of_nat MAX_BLOCKS <=? j) eqn:E; [reflexivity|].
  apply Z.leb_gt in E. lia.
Qed.

Lemma isBlockFree_getBit j b :
  isBlockFree j b = if validateBlockId j then negb (getBit j b) else true.
Proof. unfold isBlockFree. now destruct (validateBlockId j). Qed.

Lemma validate_in_range j : validateBlockId j = true <-> in_range j.
Proof.
  unfold validateBlockId, in_range. rewrite andb_true_iff, Z.leb_le, Z.ltb_lt.
  reflexivity.
Qed.

(** The loop of [allocateBlock]. *)
Lemma allocate_loop_spec fuel : forall i b,
  0 <= i -> i + Z.of_nat fuel = Z.of_nat MAX_BLOCKS ->
  match allocate_loop fuel i b with
  | (r, b') =>
      (r = -1 /\ b' = b /\ forall j, i <= j -> in_range j -> getBit j b = true)
      \/ (i <= r /\ in_range r /\ getBit r b = false /\
          (forall j, i <= j < r -> getBit j b = true) /\
          b' = saveBitmap (setBit r true b))
  end.
Proof.
  induction fuel as [|fuel IH]; intros i b Hi Hsum; cbn [allocate_loop].
  - left. split; [reflexivity|]. split; [reflexivity|].
    intros j Hj [_ Hr]. lia.
  - destruct (getBit i b) eqn:E; cbn [negb].
    + specialize (IH (i + 1) b ltac:(lia) ltac:(lia)).
      destruct (allocate_loop fuel (i + 1) b) as [r b'].
      destruct IH as [(-> & -> & Hall)|(Hr & Hin & Hfree & Hused & ->)].
      * left. split; [reflexivity|]. split; [reflexivity|]. intros j Hj Hjr.
        destruct (decide (j = i)) as [->|Hne];
          [exact E | apply Hall; [lia|assumption]].
      * right. split; [lia|]. split; [exact Hin|]. split; [exact Hfree|].
        split; [|reflexivity].
        intros j Hj. destruct (decide (j = i)) as [->|Hne];
          [exact E | apply Hused; lia].
    + right. split; [lia|]. split; [unfold in_range; lia|].
      split; [exact E|]. split; [|reflexivity]. intros j Hj. lia.
Qed.

Lemma count_same (f g : Z -> bool) (l : list Z) :
  (forall j, j ∈ l -> g j = f j) ->
  length (filter (fun i => f i = false) l)
  = length (filter (fun i => g i = false) l).
Proof.
  induction l as [|x l IH]; intros Hsame; [reflexivity|].
  assert (g x = f x) as Hx by (apply Hsame; left).
  assert (length (filter (fun i => f i = false) l)
          = length (filter (fun i => g i = false) l)) as Hl
    by (apply IH; intros j Hj; apply Hsame; now right).
  destruct (f x) eqn:E.
  - rewrite filter_cons_False by (rewrite E; discriminate).
    rewrite filter_cons_False by (rewrite Hx; discriminate). exact Hl.
  - rewrite filter_cons_True by exact E.
    rewrite filter_cons_True by exact Hx. simpl. now rewrite Hl.
Qed.

(** Turning one free index into a used one lowers the count by one. *)
Lemma count_flip (f g : Z -> bool) (r : Z) (l : list Z) :
  NoDup l -> r ∈ l -> f r = false -> g r = true ->
  (forall j, j ∈ l -> j <> r -> g j = f j) ->
  length (filter (fun i => f i = false) l)
  = S (length (filter (fun i => g i = false) l)).
Proof.
  intros Hnd. induction Hnd as [|x l Hx Hnd IH]; intros Hr Hf Hg Hsame.
  - inversion Hr.
  - apply elem_of_cons in Hr as [<-|Hr].
    + rewrite filter_cons_True by exact Hf.
      rewrite filter_cons_False by (rewrite Hg; discriminate).
      simpl. f_equal. apply count_same. intros j Hj. apply Hsame; [now right|].
      intros ->. contradiction.
    + assert (x <> r) as Hne by (intros ->; contradiction).
      assert (g x = f x) as Hgx by (apply Hsame; [left | exact Hne]).
      assert (length (filter (fun i => f i = false) l)
              = S (length (filter (fun i => g i = false) l))) as Hl
        by (apply IH; try assumption; intros j Hj; apply Hsame; now right).
      destruct (f x) eqn:E.
      * rewrite filter_cons_False by (rewrite E; discriminate).
        rewrite filter_cons_False by (rewrite Hgx; discriminate). exact Hl.
      * rewrite filter_cons_True by exact E.
        rewrite filter_cons_True by exact Hgx. simpl. now rewrite Hl.
Qed.


Lemma seq_blocks j : j ∈ seqZ 0 (Z.of_nat MAX_BLOCKS) <-> in_range j.
Proof. rewrite elem_of_seqZ. unfold in_range. lia. Qed.

Lemma isBlockFree_in j b : in_range j -> isBlockFree j b = negb (getBit j b).
Proof.
  intros Hj. rewrite isBlockFree_getBit.
  now rewrite (proj2 (validate_in_range j) Hj).
Qed.

Lemma isBlockFree_out j b : ~ in_range j -> isBlockFree j b = true.
Proof.
  intros Hj. rewrite isBlockFree_getBit.
  destruct (validateBlockId j) eqn:E; [|reflexivity].
  apply validate_in_range in E. contradiction.
Qed.

Lemma bitmap_marked r v b :
  in_range r ->
  blockBitmap (saveBitmap (setBit r v b))
  = alter (fun x => if v then set_bit x (r mod 8) else clear_bit x (r mod 8))
      (Z.to_nat (r / 8)) (blockBitmap b).
Proof.
  intros Hin. unfold saveBitmap, setBit.
  destruct (Z.of_nat MAX_BLOCKS <=? r) eqn:E;
    [apply Z.leb_le in E; destruct Hin; lia|].
  reflexivity.
Qed.

(** What [setBit] followed by [saveBitmap] does to the free map. *)
Lemma mark_spec r v b :
  wf b -> in_range r -> getBit r b = negb v ->
  let b' := saveBitmap (setBit r v b) in
  wf b' /\ isBlockFree r b' = negb v /\
  (forall j, j <> r -> isBlockFree j b' = isBlockFree j b) /\
  (if v then S (getFreeBlocks b') = getFreeBlocks b
   else getFreeBlocks b' = S (getFreeBlocks b)).
Proof.
  intros Hwf Hr Hbit. cbv zeta.
  assert (Hget : forall j, in_range j ->
            getBit j (saveBitmap (setBit r v b))
            = if decide (j = r) then v else getBit j b).
  { intros j Hj. rewrite getBit_saveBitmap. now apply getBit_setBit. }
  split; [|split; [|split]].
  - apply (setBit_wf r v b Hwf Hr).
  - rewrite isBlockFree_in, Hget by exact Hr. now rewrite decide_True.
  - intros j Hne. destruct (decide (in_range j)) as [Hj|Hj].
    + rewrite !isBlockFree_in, Hget by exact Hj. now rewrite decide_False.
    + now rewrite !isBlockFree_out.
  - unfold getFreeBlocks. destruct v; cbn [negb] in Hbit.
    + symmetry. apply (count_flip _ _ r).
      * apply NoDup_seqZ.
      * now apply seq_blocks.
      * exact Hbit.
      * rewrite Hget by exact Hr. now rewrite decide_True.
      * intros j Hj Hne. apply seq_blocks in Hj.
        rewrite Hget by exact Hj. now rewrite decide_False.
    + apply (count_flip _ _ r).
      * apply NoDup_seqZ.
      * now apply seq_blocks.
      * rewrite Hget by exact Hr. now rewrite decide_True.
      * exact Hbit.
      * intros j Hj Hne. apply seq_blocks in Hj.
        rewrite Hget by exact Hj. now rewrite decide_False.
Qed.

(** X15. [allocateBlock] hands out the lowest free block: the block it
    returns was free, every block below it is in use, the block is in use
    afterwards, no other block changes and [getFreeBlocks] drops by one.
    It returns -1, changing nothing, exactly when no block is free. *)
Theorem allocateBlock_lowest_free (b : t) :
  wf b ->
  let r := (allocateBlock b).1 in
  let b' := (allocateBlock b).2 in
  if decide (r = -1) then
    b' = b /\ getFreeBlocks b = O /\
    forall j, in_range j -> isBlockFree j b = false
  else
    in_range r /\ isBlockFree r b = true /\
    (forall j, 0 <= j < r -> isBlockFree j b = false) /\
    wf b' /\ isBlockFree r b' = false /\
    (forall j, j <> r -> isBlockFree j b' = isBlockFree j b) /\
    S (getFreeBlocks b') = getFreeBlocks b.
Proof.
  intros Hwf. cbv zeta. unfold allocateBlock.
  pose proof (allocate_loop_spec MAX_BLOCKS 0 b ltac:(lia) ltac:(lia)) as Hspec.
  destruct (allocate_loop MAX_BLOCKS 0 b) as [r b']. cbn [fst snd].
  destruct Hspec as [(-> & -> & Hall)|(Hr0 & Hr & Hfree & Hused & ->)].
  - rewrite decide_True by reflexivity.
    assert (Hfull : forall j, in_range j -> getBit j b = true)
      by (intros j Hj; apply Hall; [apply Hj | exact Hj]).
    split; [reflexivity|]. split.
    + unfold getFreeBlocks.
      assert (forall l, (forall j, j ∈ l -> getBit j b = true) ->
                filter (fun i => getBit i b = false) l = []) as Hnone.
      { induction l as [|x l IH]; intros Hl; [reflexivity|].
        rewrite filter_cons_False
          by (rewrite (Hl x ltac:(left)); discriminate).
        apply IH. intros j Hj. apply Hl. now right. }
      rewrite Hnone; [reflexivity|]. intros j Hj. apply Hfull.
      now apply seq_blocks.
    + intros j Hj. rewrite isBlockFree_in by exact Hj. now rewrite Hfull.
  - rewrite decide_False by (destruct Hr; lia).
    destruct (mark_spec r true b Hwf Hr Hfree) as (Hwf' & Hr' & Hsame & Hcount).
    split; [exact Hr|]. split; [rewrite isBlockFree_in by exact Hr; now rewrite Hfree|].
    split.
    { intros j Hj. rewrite isBlockFree_in by (destruct Hr; split; lia).
      rewrite Hused by lia. reflexivity. }
    split; [exact Hwf'|]. split; [exact Hr'|]. split; [exact Hsame | exact Hcount].
Qed.

(** A store with the blocks 0 and 1 in use. *)
Definition two_used : t :=
  mk (3 :: replicate 127 0) (mkStream (3 :: replicate 127 0) true).

Lemma two_used_wf : wf two_used.
Proof.
  split; [reflexivity|]. unfold two_used. cbn [blockBitmap].
  constructor; [lia|]. apply Forall_replicate. lia.
Qed.

Lemma allocateBlock_lowest_free_witness :
  (allocateBlock two_used).1 = 2 /\
  isBlockFree 2 (allocateBlock two_used).2 = false.
Proof.
  pose proof (allocateBlock_lowest_free two_used two_used_wf) as Hspec.
  cbv zeta in Hspec.
  assert ((allocateBlock two_used).1 = 2) as E by (vm_compute; reflexivity).
  rewrite E in Hspec |- *. rewrite decide_False in Hspec by discriminate.
  split; [reflexivity | apply Hspec].
Defined.

(** X16. [freeBlock] succeeds exactly on a valid block that is in use;
    the block is then free, no other block changes and [getFreeBlocks]
    grows by one.  On an invalid or free block it returns false and
    changes nothing.  Freeing the block [allocateBlock] has just returned
    restores the bitmap. *)
Theorem freeBlock_releases (blockId : Z) (b : t) :
  wf b ->
  let ok := (freeBlock blockId b).1 in
  let b' := (freeBlock blockId b).2 in
  ok = validateBlockId blockId && negb (isBlockFree blockId b) /\
  (if ok then
     wf b' /\ isBlockFree blockId b' = true /\
     (forall j, j <> blockId -> isBlockFree j b' = isBlockFree j b) /\
     getFreeBlocks b' = S (getFreeBlocks b)
   else b' = b) /\
  ((allocateBlock b).1 <> -1 ->
   blockBitmap (freeBlock (allocateBlock b).1 (allocateBlock b).2).2
   = blockBitmap b).
Proof.
  intros Hwf. cbv zeta. split; [|split].
  - unfold freeBlock. destruct (validateBlockId blockId); cbn [negb orb andb];
      [|reflexivity]. now destruct (isBlockFree blockId b).
  - unfold freeBlock. destruct (validateBlockId blockId) eqn:Ev; cbn [negb orb];
      [|reflexivity].
    destruct (isBlockFree blockId b) eqn:Ef; cbn [fst snd]; [reflexivity|].
    apply validate_in_range in Ev.
    rewrite isBlockFree_in in Ef by exact Ev.
    assert (getBit blockId b = negb false) as Hbit
      by (destruct (getBit blockId b); [reflexivity | discriminate]).
    destruct (mark_spec blockId false b Hwf Ev Hbit) as (H1 & H2 & H3 & H4).
    split; [exact H1|]. split; [exact H2|]. split; [exact H3 | exact H4].
  - intros Hr. unfold allocateBlock in *.
    pose proof (allocate_loop_spec MAX_BLOCKS 0 b ltac:(lia) ltac:(lia)) as Hspec.
    destruct (allocate_loop MAX_BLOCKS 0 b) as [r b']. cbn [fst snd] in *.
    destruct Hspec as [(-> & _)|(Hr0 & Hin & Hfree & Hused & ->)];
      [contradiction|].
    destruct (mark_spec r true b Hwf Hin Hfree) as (Hwf' & Hr' & _ & _).
    unfold freeBlock. rewrite (proj2 (validate_in_range r) Hin), Hr'.
    cbn [negb orb snd].
    rewrite !bitmap_marked by exact Hin.
    pose proof Hwf as [Hl Hb].
    apply list_eq. intros n. rewrite !list_lookup_alter.
    destruct (decide (Z.to_nat (r / 8) = n)) as [<-|]; [|reflexivity].
    rewrite decide_True by reflexivity.
    destruct (blockBitmap b !! Z.to_nat (r / 8)) as [x|] eqn:Ex; [|reflexivity].
    cbn. f_equal.
    assert (0 <= x < 256) as Hx.
    { rewrite Forall_forall in Hb. apply Hb. eapply list_elem_of_lookup_2; eauto. }
    assert (0 <= r mod 8 < 8) as Hk by (apply Z.mod_pos_bound; lia).
    destruct (bit_ops x (r mod 8) 0 Hx Hk ltac:(lia)) as (_ & _ & _ & _ & Hback).
    apply Hback. rewrite getBit_bit in Hfree by exact Hin.
    rewrite nth_lookup, Ex in Hfree. exact Hfree.
Qed.

Lemma freeBlock_releases_witness :
  (freeBlock 1 two_used).1 = true /\
  isBlockFree 1 (freeBlock 1 two_used).2 = true.
Proof.
  destruct (freeBlock_releases 1 two_used two_used_wf) as (Hok & Hspec & _).
  assert ((freeBlock 1 two_used).1 = true) as E by (vm_compute; reflexivity).
  rewrite E in Hspec. split; [exact E | apply Hspec].
Defined.


(** *** The storage file *)

Lemma written_length (offset : nat) (data bs : list Z) :
  length (take offset bs ++ replicate (offset - length bs) 0) = offset.
Proof. rewrite length_app, length_take, length_replicate. lia. Qed.

Lemma read_write_at offset data f :
  good f = true ->
  read_at offset (length data) (write_at offset data f)
  = (data, write_at offset data f).
Proof.
  intros Hg. unfold write_at. rewrite Hg. unfold read_at. cbn [good bytes].
  rewrite app_assoc.
  rewrite (drop_app_length' _ _ _ (eq_sym (written_length offset data (bytes f)))).
  rewrite take_app_length.
  rewrite bool_decide_eq_true_2 by reflexivity.
  now rewrite <- app_assoc.
Qed.

Lemma write_at_outside offset data f p :
  good f = true ->
  (p < offset \/ offset + length data <= p)%nat ->
  (p < length (bytes f))%nat ->
  bytes (write_at offset data f) !! p = bytes f !! p.
Proof.
  intros Hg Hp Hlen. unfold write_at. rewrite Hg. cbn [bytes].
  destruct Hp as [Hp|Hp].
  - rewrite lookup_app_l by (rewrite length_take; lia).
    now rewrite lookup_take_lt.
  - replace (offset - length (bytes f))%nat with O by lia.
    cbn [replicate app].
    rewrite lookup_app_r by (rewrite length_take; lia).
    rewrite length_take.
    replace (offset `min` length (bytes f))%nat with offset by lia.
    rewrite lookup_app_r by lia.
    rewrite lookup_drop. f_equal. lia.
Qed.

Lemma write_at_good offset data f :
  good f = true -> good (write_at offset data f) = true.
Proof. intros Hg. unfold write_at. now rewrite Hg. Qed.

(** The byte range of a block lies behind the bitmap and apart from the
    range of every other block. *)
Lemma block_ranges i j :
  in_range i -> in_range j -> i <> j ->
  (BITMAP_BYTES <= getBlockOffset i)%nat /\
  (getBlockOffset j + BLOCK_SIZE <= getBlockOffset i \/
   getBlockOffset i + BLOCK_SIZE <= getBlockOffset j)%nat.
Proof.
  unfold in_range, getBlockOffset. intros Hi Hj Hne.
  change BLOCK_SIZE with 4096%nat. split; [lia|].
  destruct (decide (j < i)); [left | right]; lia.
Qed.

(** X17. A block that was written reads back: on a good stream
    [writeBlock] of at most [BLOCK_SIZE] bytes into a block in use returns
    true and a following [readBlock] returns the data, padded with zero
    bytes to [BLOCK_SIZE], whatever the caller's vector held.  The write
    changes neither the allocation bitmap, in memory or in the file, nor
    the bytes of any other block. *)
Theorem writeBlock_readBlock (blockId : Z) (data old : list Z) (b : t) :
  validateBlockId blockId = true -> isBlockFree blockId b = false ->
  (length data <= BLOCK_SIZE)%nat -> good (storageFile b) = true ->
  let b1 := (writeBlock blockId data b).2 in
  (writeBlock blockId data b).1 = true /\
  readBlock blockId old b1
  = (true, data ++ replicate (BLOCK_SIZE - length data) 0, b1) /\
  blockBitmap b1 = blockBitmap b /\
  (forall p, (p < BITMAP_BYTES)%nat ->
             (p < length (bytes (storageFile b)))%nat ->
             bytes (storageFile b1) !! p = bytes (storageFile b) !! p) /\
  (forall j p, validateBlockId j = true -> j <> blockId ->
               (getBlockOffset j <= p < getBlockOffset j + BLOCK_SIZE)%nat ->
               (p < length (bytes (storageFile b)))%nat ->
               bytes (storageFile b1) !! p = bytes (storageFile b) !! p).
Proof.
  intros Hv Hf Hlen Hg. cbv zeta.
  assert (Hw : writeBlock blockId data b
               = (true, mk (blockBitmap b)
                          (write_at (getBlockOffset blockId)
                             (data ++ replicate (BLOCK_SIZE - length data) 0)
                             (storageFile b)))).
  { unfold writeBlock. rewrite Hv, Hf. cbn [negb orb].
    now rewrite (proj2 (Nat.ltb_ge _ _) Hlen). }
  rewrite Hw. cbn [fst snd].
  set (blockData := data ++ replicate (BLOCK_SIZE - length data) 0).
  assert (Hbd : length blockData = BLOCK_SIZE)
    by (unfold blockData; rewrite length_app, length_replicate; lia).
  apply validate_in_range in Hv as Hin.
  split; [reflexivity|]. split; [|split; [reflexivity|split]].
  - unfold readBlock.
    assert (isBlockFree blockId
              (mk (blockBitmap b)
                  (write_at (getBlockOffset blockId) blockData (storageFile b)))
            = false) as -> by exact Hf.
    rewrite Hv. cbn [negb orb storageFile blockBitmap].
    replace (read_at (getBlockOffset blockId) BLOCK_SIZE
               (write_at (getBlockOffset blockId) blockData (storageFile b)))
      with (read_at (getBlockOffset blockId) (length blockData)
              (write_at (getBlockOffset blockId) blockData (storageFile b)))
      by now rewrite Hbd.
    rewrite read_write_at by exact Hg. cbn [fst snd].
    rewrite drop_ge; [now rewrite app_nil_r|].
    rewrite Hbd, length_app, length_take, length_replicate. lia.
  - intros p Hp Hpl. cbn [storageFile]. apply write_at_outside; [exact Hg| |exact Hpl].
    left. unfold getBlockOffset. lia.
  - intros j p Hj Hne Hp Hpl. cbn [storageFile].
    apply validate_in_range in Hj.
    destruct (block_ranges blockId j Hin Hj ltac:(congruence)) as [_ Hr].
    apply write_at_outside; [exact Hg| |exact Hpl]. rewrite Hbd. lia.
Qed.

Lemma writeBlock_readBlock_witness :
  readBlock 1 [9; 9] (writeBlock 1 [7] two_used).2
  = (true, 7 :: replicate 4095 0, (writeBlock 1 [7] two_used).2).
Proof.
  apply (writeBlock_readBlock 1 [7] [9; 9] two_used); try reflexivity.
  vm_compute. lia.
Defined.

Lemma saveBitmap_bytes b :
  wf b -> good (storageFile b) = true ->
  take BITMAP_BYTES (bytes (storageFile (saveBitmap b))) = blockBitmap b /\
  good (storageFile (saveBitmap b)) = true.
Proof.
  intros [Hl _] Hg. unfold saveBitmap. cbn [storageFile].
  split; [|now apply write_at_good].
  unfold write_at. rewrite Hg. cbn [bytes].
  rewrite take_0. change (0 - length (bytes (storageFile b)))%nat with O.
  cbn [replicate app].
  rewrite (take_ge (blockBitmap b)) by lia.
  apply take_app_length'. now rewrite Hl.
Qed.

Lemma create_loads (content : list Z) :
  (BITMAP_BYTES <= length content)%nat ->
  blockBitmap (create (Some content)) = take BITMAP_BYTES content.
Proof.
  intros Hlen. unfold create, loadBitmap, read_at.
  cbn [storageFile good bytes blockBitmap fst]. rewrite drop_0.
  rewrite drop_ge; [apply app_nil_r|].
  rewrite length_take, length_replicate. lia.
Qed.

(** X18. The allocation state survives a restart: after a successful
    [allocateBlock] or [freeBlock] on a good stream the file starts with
    the bitmap, and a [BlockManager] constructed on that file has the same
    bitmap. *)
Theorem bitmap_survives_restart (b : t) :
  wf b -> good (storageFile b) = true ->
  ((allocateBlock b).1 <> -1 ->
   blockBitmap (create (Some (bytes (storageFile (allocateBlock b).2))))
   = blockBitmap (allocateBlock b).2) /\
  (forall blockId, (freeBlock blockId b).1 = true ->
   blockBitmap (create (Some (bytes (storageFile (freeBlock blockId b).2))))
   = blockBitmap (freeBlock blockId b).2).
Proof.
  intros Hwf Hg.
  assert (Hsaved : forall r v, in_range r ->
            blockBitmap (create (Some (bytes (storageFile
                           (saveBitmap (setBit r v b))))))
            = blockBitmap (saveBitmap (setBit r v b))).
  { intros r v Hr.
    assert (wf (setBit r v b)) as Hwf' by now apply setBit_wf.
    assert (good (storageFile (setBit r v b)) = true) as Hg'.
    { unfold setBit. now destruct (Z.of_nat MAX_BLOCKS <=? r). }
    destruct (saveBitmap_bytes _ Hwf' Hg') as [Ht _].
    rewrite create_loads; [exact Ht|].
    pose proof (f_equal length Ht) as Hlen.
    rewrite length_take in Hlen.
    destruct Hwf' as [Hl' _].
    change (blockBitmap (saveBitmap (setBit r v b)))
      with (blockBitmap (setBit r v b)) in Ht.
    rewrite Hl' in Hlen. lia. }
  split.
  - intros Hr. unfold allocateBlock in *.
    pose proof (allocate_loop_spec MAX_BLOCKS 0 b ltac:(lia) ltac:(lia)) as Hspec.
    destruct (allocate_loop MAX_BLOCKS 0 b) as [r b']. cbn [fst snd] in *.
    destruct Hspec as [(-> & _)|(_ & Hin & _ & _ & ->)]; [contradiction|].
    now apply Hsaved.
  - intros blockId. unfold freeBlock.
    destruct (validateBlockId blockId) eqn:Ev; cbn [negb orb];
      [|discriminate].
    destruct (isBlockFree blockId b); cbn [fst snd]; [discriminate|].
    intros _. apply Hsaved. now apply validate_in_range.
Qed.

Lemma bitmap_survives_restart_witness :
  blockBitmap (create (Some (bytes (storageFile (allocateBlock two_used).2))))
  = blockBitmap (allocateBlock two_used).2.
Proof.
  refine (proj1 (bitmap_survives_restart two_used two_used_wf _) _).
  - reflexivity.
  - vm_compute. discriminate.
Defined.

End BlockManagerProperties.
Module AuthProperties.
Import AuthManager.
Section WithHash.
Variable hasher : string -> N.

(** The calls applied in order, first call first. *)
Definition applied (calls : list call) (a : t) : t :=
  fold_left (fun a c => apply hasher c a) calls a.

Lemma auth_applied_snoc calls c a :
  applied (calls ++ [c]) a = apply hasher c (applied calls a).
Proof. unfold applied. now rewrite fold_left_app. Qed.

(** The calls that can take the account [name] away or replace it:
    [removeUser(name)] and a [loadFromFile] that opens its file. *)
Definition replaces (name : string) (c : call) : Prop :=
  match c with
  | RemoveUser n => n = name
  | LoadFromFile (Some _) => True
  | _ => False
  end.

(** No other call touches the account [name]. *)
Lemma apply_keeps_account (c : call) (name : string) (u : User) (a : t) :
  ~ replaces name c ->
  users a !! name = Some u -> users (apply hasher c a) !! name = Some u.
Proof.
  intros Hc Hu. destruct c as [n p adm|n p|n| |[records|]]; cbn [apply];
    [| | | |now destruct Hc|exact Hu].
  - unfold registerUser. destruct (users a !! n) eqn:E; cbn [snd users];
      [exact Hu|].
    rewrite lookup_insert_ne; [exact Hu|]. intros ->. congruence.
  - unfold authenticate. destruct (users a !! n); [|exact Hu].
    case_bool_decide; exact Hu.
  - cbn [removeUser snd users]. rewrite lookup_delete_ne; [exact Hu|].
    intros ->. now apply Hc.
  - exact Hu.
Qed.

Lemma account_facts (name password : string) (admin : bool) (a : t) :
  users a !! name = Some (mkUser name (hashPassword hasher password) admin) ->
  authenticate hasher name password a = (true, mk (users a) name) /\
  userExists name a = true /\ isAdmin name a = admin /\
  forall password' admin',
    registerUser hasher name password' admin' a = (false, a).
Proof.
  intros Hu. split; [|split; [|split]].
  - unfold authenticate. rewrite Hu. cbn [passwordHash].
    now rewrite bool_decide_eq_true_2.
  - unfold userExists. rewrite Hu. apply bool_decide_eq_true_2. eauto.
  - unfold isAdmin. now rewrite Hu.
  - intros password' admin'. unfold registerUser. now rewrite Hu.
Qed.

(** X19. Credentials last: once [registerUser(name, password, admin)] has
    returned true, and for as long as [removeUser(name)] is not called and
    no [loadFromFile] replaces the accounts by those of a file,
    [authenticate(name, password)] returns true and makes [name] the
    current user, [userExists(name)] is true and [isAdmin(name)] is the
    flag given at registration; a later [registerUser] on the same name
    returns false and changes nothing, so the password cannot be replaced. *)
Theorem credentials_last (name password : string) (admin : bool)
    (calls : list call) (a : t) :
  (registerUser hasher name password admin a).1 = true ->
  Forall (fun c => ~ replaces name c) calls ->
  let a' := applied calls (registerUser hasher name password admin a).2 in
  authenticate hasher name password a' = (true, mk (users a') name) /\
  userExists name a' = true /\ isAdmin name a' = admin /\
  forall password' admin',
    registerUser hasher name password' admin' a' = (false, a').
Proof.
  intros Hreg Hcalls. cbv zeta. apply account_facts.
  induction calls as [|c calls IH] using rev_ind.
  - unfold registerUser in *. destruct (users a !! name); [discriminate|].
    cbn. now rewrite lookup_insert_eq.
  - apply Forall_app in Hcalls as [Hcalls Hc].
    apply Forall_cons in Hc as [Hc _].
    rewrite auth_applied_snoc. apply apply_keeps_account; [exact Hc|].
    now apply IH.
Qed.

(** X20. A failed login changes nothing: when [authenticate] returns
    false the accounts and the current user are as before, so whoever was
    logged in stays logged in.  It fails for an unknown name and whenever
    the hash of the password differs from the stored one. *)
Theorem failed_login_keeps_session (name password : string) (a : t) :
  let r := authenticate hasher name password a in
  (r.1 = false -> r.2 = a) /\
  (r.1 = true -> users r.2 = users a /\ getCurrentUser r.2 = name /\
                 isLoggedIn r.2 = negb (bool_decide (name = ""%string))) /\
  (r.1 = true <->
   exists u, users a !! name = Some u /\
             passwordHash u = hashPassword hasher password).
Proof.
  cbv zeta. unfold authenticate.
  destruct (users a !! name) as [u|] eqn:E.
  - case_bool_decide as Hp; cbn [fst snd].
    + split; [discriminate|]. split; [intros _; repeat split|].
      split; [eauto | reflexivity].
    + split; [reflexivity|]. split; [discriminate|].
      split; [discriminate|]. intros (u' & [= <-] & Hh). contradiction.
  - cbn [fst snd]. split; [reflexivity|]. split; [discriminate|].
    split; [discriminate|]. intros (u' & Hu' & _). discriminate.
Qed.

End WithHash.

Lemma credentials_last_witness :
  authenticate (fun _ => 7%N) "eve" "pw"
    (applied (fun _ => 7%N) [Logout; RegisterUser "eve" "other" true]
       (registerUser (fun _ => 7%N) "eve" "pw" false (create (fun _ => 7%N))).2)
  = (true,
     mk (users (applied (fun _ => 7%N) [Logout; RegisterUser "eve" "other" true]
                  (registerUser (fun _ => 7%N) "eve" "pw" false
                     (create (fun _ => 7%N))).2)) "eve").
Proof.
  apply (credentials_last (fun _ => 7%N) "eve" "pw" false
           [Logout; RegisterUser "eve" "other" true] (create (fun _ => 7%N))).
  - vm_compute. reflexivity.
  - repeat constructor; intros [].
Defined.

End AuthProperties.
Module FileSystemProperties.
Import FileSystem.

(** A [put] takes effect: the cache is not an LFU cache of capacity zero,
    whose [put] returns at once. *)
Definition puts_take_effect (m : CacheManager.t string string) : Prop :=
  match CacheManager.cache m with
  | CacheManager.OfLFU c => LFUCache.maxCapacity c <> O
  | _ => True
  end.

Section WithPlace.
Variable place : Z -> list Z -> nat.

Lemma manager_put_get (k v : string) (m m' : CacheManager.t string string) :
  puts_take_effect m ->
  CacheManager.put place k v m = Some m' ->
  exists m'', CacheManager.get place k m' = (Some v, m'').
Proof.
  unfold puts_take_effect, CacheManager.put, CacheManager.get.
  destruct m as [cap pol [c|c|c|c]];
    cbn [CacheManager.cache CacheManager.with_cache]; intros He Hp.
  - destruct (EnhancedLRUCache.put k v c) as [c'|] eqn:E; [|discriminate].
    injection Hp as <-. cbn [CacheManager.cache CacheManager.with_cache]. cbv zeta.
    rewrite (PutGet.LRU_put_get k v c c' E). eauto.
  - injection Hp as <-. cbn [CacheManager.cache CacheManager.with_cache]. cbv zeta.
    rewrite (PutGet.LFU_put_get place k v c He). eauto.
  - injection Hp as <-. cbn [CacheManager.cache CacheManager.with_cache]. cbv zeta.
    rewrite (PutGet.FIFO_put_get k v c). eauto.
  - injection Hp as <-. cbn [CacheManager.cache CacheManager.with_cache]. cbv zeta.
    rewrite (PutGet.LIFO_put_get k v c). eauto.
Qed.

Lemma LRU_evict_loop_capacity fuel :
  forall (c c' : EnhancedLRUCache.t string string),
  EnhancedLRUCache.evict_loop fuel c = Some c' ->
  EnhancedLRUCache.maxCapacity c' = EnhancedLRUCache.maxCapacity c.
Proof.
  induction fuel as [|fuel IH]; intros c c' Hl; [discriminate|].
  cbn [EnhancedLRUCache.evict_loop] in Hl.
  unfold EnhancedLRUCache.evict_step in Hl.
  destruct (last (EnhancedLRUCache.entries c)); [|now injection Hl as <-].
  case_bool_decide.
  - now injection Hl as <-.
  - match type of Hl with context [if ?b then _ else _] => destruct b end.
    + now injection Hl as <-.
    + apply IH in Hl. exact Hl.
Qed.

Lemma LFU_capacity_put k v (c : LFUCache.t string string) :
  LFUCache.maxCapacity (LFUCache.put place k v c) = LFUCache.maxCapacity c.
Proof.
  unfold LFUCache.put. destruct (_ =? _)%nat; [reflexivity|].
  destruct (_ !! _); [reflexivity|]. cbn [LFUCache.insert_new LFUCache.maxCapacity].
  destruct (_ <=? _)%nat; [|reflexivity].
  unfold LFUCache.evict. destruct (LFUCache.find_bucket _ _); [|reflexivity].
  now destruct (LFUCache.scan _ _) as [[[[k' f] l] fs]|].
Qed.

Lemma LFU_capacity_get k (c : LFUCache.t string string) :
  LFUCache.maxCapacity (LFUCache.get place k c).2 = LFUCache.maxCapacity c.
Proof. unfold LFUCache.get. now destruct (_ !! _). Qed.

Lemma put_keeps_effect k v (m m' : CacheManager.t string string) :
  CacheManager.put place k v m = Some m' ->
  puts_take_effect m -> puts_take_effect m'.
Proof.
  unfold puts_take_effect, CacheManager.put.
  destruct m as [cap pol [c|c|c|c]];
    cbn [CacheManager.cache CacheManager.with_cache]; intros Hp He.
  - destruct (EnhancedLRUCache.put k v c); [|discriminate].
    now injection Hp as <-.
  - injection Hp as <-. cbn. now rewrite LFU_capacity_put.
  - now injection Hp as <-.
  - now injection Hp as <-.
Qed.

Lemma get_keeps_effect k (m : CacheManager.t string string) :
  puts_take_effect m -> puts_take_effect (CacheManager.get place k m).2.
Proof.
  unfold puts_take_effect, CacheManager.get.
  destruct m as [cap pol [c|c|c|c]];
    cbn [CacheManager.cache CacheManager.with_cache snd]; intros He;
    try exact I.
  now rewrite LFU_capacity_get.
Qed.

(** *** The host under the coordinator's calls *)

Lemma saveMetadata_host fs k :
  k <> metadataFilePath fs ->
  host (saveMetadata fs) !! k = host fs !! k.
Proof.
  intros Hk. unfold saveMetadata, Host.open_truncate, Host.write.
  destruct (host fs !! metadataFilePath fs) as [[c m|m]|] eqn:E;
    cbn [host with_host]; try reflexivity.
  - rewrite lookup_insert_eq.
    rewrite !lookup_insert_ne by congruence. reflexivity.
  - rewrite lookup_insert_eq.
    rewrite !lookup_insert_ne by congruence. reflexivity.
Qed.

Lemma saveMetadata_exists fs k :
  is_Some (host fs !! k) -> is_Some (host (saveMetadata fs) !! k).
Proof.
  intros Hk. destruct (decide (k = metadataFilePath fs)) as [->|Hne].
  - unfold saveMetadata, Host.open_truncate, Host.write.
    destruct (host fs !! metadataFilePath fs) as [[c m|m]|] eqn:E;
      cbn [host with_host]; try (rewrite E; eauto).
    + rewrite lookup_insert_eq. rewrite lookup_insert_eq. eauto.
    + destruct Hk; discriminate.
  - now rewrite saveMetadata_host.
Qed.

Lemma saveMetadata_absent fs k :
  host (saveMetadata fs) !! k = None -> host fs !! k = None.
Proof.
  intros Hk. destruct (host fs !! k) eqn:E; [|reflexivity].
  destruct (saveMetadata_exists fs k ltac:(eauto)) as [? Hs]. congruence.
Qed.

Lemma saveMetadata_fields fs :
  rootPath (saveMetadata fs) = rootPath fs /\
  enhancedCache (saveMetadata fs) = enhancedCache fs /\
  stats (saveMetadata fs) = stats fs /\
  authManager (saveMetadata fs) = authManager fs /\
  fileMetadataMap (saveMetadata fs) = fileMetadataMap fs /\
  metadataFilePath (saveMetadata fs) = metadataFilePath fs.
Proof.
  unfold saveMetadata. destruct (Host.open_truncate _ _); repeat split.
Qed.

(** The permission check reads the owner from [getFileInfo], which leaves
    it empty: on an existing path its verdict depends on the session
    only. *)
Definition session_verdict (fs : t) : option Exception :=
  match authManager fs with
  | None => None
  | Some a =>
      let user := AuthManager.getCurrentUser a in
      if negb (bool_decide (""%string = user)) && negb (AuthManager.isAdmin user a)
      then Some (FSException "Permission denied: not owner or admin")
      else None
  end.

Lemma check_owner_existing path fs :
  is_Some (host fs !! fullPath path fs) ->
  check_owner path fs = session_verdict fs.
Proof.
  intros [n Hn]. unfold check_owner, session_verdict, getFileInfo, getMetadata.
  destruct (authManager fs) as [a|]; [|reflexivity].
  rewrite Hn. reflexivity.
Qed.

Lemma check_owner_missing path fs :
  host fs !! fullPath path fs = None ->
  check_owner path fs
  = match authManager fs with
    | Some _ => Some (FileNotFoundException path)
    | None => None
    end.
Proof.
  intros Hn. unfold check_owner, getFileInfo, getMetadata.
  destruct (authManager fs) as [a|]; [|reflexivity].
  now rewrite Hn.
Qed.

Lemma exists_true path fs :
  exists_ path fs = true <-> is_Some (host fs !! fullPath path fs).
Proof. unfold exists_. apply bool_decide_eq_true. Qed.

(** What a successful [writeFile] leaves. *)
Lemma writeFile_true path data fs fs1 :
  writeFile place path data fs = Some (inr true, fs1) ->
  not_logged_in fs = false /\ session_verdict fs = None /\
  rootPath fs1 = rootPath fs /\ authManager fs1 = authManager fs /\
  metadataFilePath fs1 = metadataFilePath fs /\
  is_Some (host fs1 !! fullPath path fs1) /\
  (fullPath path fs <> metadataFilePath fs ->
   Host.read (fullPath path fs1) (host fs1) = Some data) /\
  (forall k, k <> fullPath path fs -> k <> metadataFilePath fs ->
             host fs1 !! k = host fs !! k) /\
  size <$> fileMetadataMap fs1 !! path = Some (Z.of_nat (String.length data)) /\
  exists c, CacheManager.put place path data (enhancedCache fs) = Some c /\
            enhancedCache fs1 = c.
Proof.
  unfold writeFile. destruct (not_logged_in fs) eqn:Hl; [discriminate|].
  destruct (check_owner path fs) as [e|] eqn:Hc; [discriminate|].
  destruct (exists_ path fs) eqn:Hex; cbn [negb]; [|discriminate].
  apply exists_true in Hex. rewrite check_owner_existing in Hc by exact Hex.
  destruct (Host.open_truncate (fullPath path fs) (host fs)) as [h|] eqn:Ho;
    [|discriminate].
  cbn [enhancedCache with_host].
  destruct (CacheManager.put place path data (enhancedCache fs)) as [c|] eqn:Hp;
    [|discriminate].
  cbn [mbind option_bind]. intros Heq. injection Heq as <-.
  match goal with |- context [saveMetadata ?x] =>
    pose proof (saveMetadata_fields x) as (Hr & Hcache & Hs & Ha & Hm & Hmp);
    pose proof (saveMetadata_host x) as Hhost;
    pose proof (saveMetadata_exists x) as Hexi;
    set (fs' := x) in * end.
  assert (Hh : exists m, Host.write (fullPath path fs) data h
                         = <[fullPath path fs := Host.File data m]> h /\
                         forall k, k <> fullPath path fs -> h !! k = host fs !! k).
  { unfold Host.open_truncate in Ho. unfold Host.write.
    destruct (host fs !! fullPath path fs) as [[c0 m|m]|] eqn:E;
      [| discriminate |]; injection Ho as <-; rewrite lookup_insert_eq;
      (eexists; split; [reflexivity|]);
      intros k Hk; now rewrite lookup_insert_ne by congruence. }
  destruct Hh as (m & Hw & Hother).
  assert (Hroot : rootPath fs' = rootPath fs) by reflexivity.
  assert (Hfull : fullPath path (saveMetadata fs') = fullPath path fs)
    by (unfold fullPath; now rewrite Hr).
  assert (Hmeta : metadataFilePath fs' = metadataFilePath fs) by reflexivity.
  assert (Hhost' : host fs' = Host.write (fullPath path fs) data h) by reflexivity.
  split; [reflexivity|]. split; [exact Hc|].
  split; [now rewrite Hr|]. split; [now rewrite Ha|].
  split; [now rewrite Hmp|]. split; [|split; [|split; [|split]]].
  - rewrite Hfull. apply Hexi. rewrite Hhost', Hw, lookup_insert_eq. eauto.
  - intros Hne. rewrite Hfull. unfold Host.read.
    rewrite Hhost by (rewrite Hmeta; exact Hne).
    rewrite Hhost', Hw, lookup_insert_eq. reflexivity.
  - intros k Hk Hkm. rewrite Hhost by (rewrite Hmeta; exact Hkm).
    rewrite Hhost', Hw, lookup_insert_ne by congruence. now apply Hother.
  - rewrite Hm. cbn [fs' fileMetadataMap with_metadata].
    now rewrite lookup_insert_eq.
  - exists c. split; [reflexivity|]. now rewrite Hcache.
Qed.


Lemma not_logged_in_auth fs fs' :
  authManager fs' = authManager fs -> not_logged_in fs' = not_logged_in fs.
Proof. unfold not_logged_in. now intros ->. Qed.

Lemma session_verdict_auth fs fs' :
  authManager fs' = authManager fs -> session_verdict fs' = session_verdict fs.
Proof. unfold session_verdict. now intros ->. Qed.

Lemma check_owner_frame path fs fs' :
  authManager fs' = authManager fs -> host fs' = host fs ->
  rootPath fs' = rootPath fs -> check_owner path fs' = check_owner path fs.
Proof.
  intros Ha Hh Hr. unfold check_owner, getFileInfo, getMetadata, fullPath.
  now rewrite Ha, Hh, Hr.
Qed.

(** A read that finds the path in the cache. *)
Lemma readFile_hit path data fs m :
  not_logged_in fs = false -> check_owner path fs = None ->
  CacheManager.get place path (enhancedCache fs) = (Some data, m) ->
  exists fs2,
    readFile place path fs = Some (inr data, fs2) /\
    cacheHits (stats fs2) = wrap64 (cacheHits (stats fs) + 1) /\
    cacheMisses (stats fs2) = cacheMisses (stats fs) /\
    host fs2 = host fs /\ enhancedCache fs2 = m.
Proof.
  intros Hl Hv Hget. unfold readFile.
  rewrite Hl, Hv, Hget. cbn [fst snd].
  eexists. split; [reflexivity|]. repeat split.
Qed.

(** A value that was got is got again. *)
Lemma manager_get_get (k v : string) (m m' : CacheManager.t string string) :
  CacheManager.get place k m = (Some v, m') ->
  exists m'', CacheManager.get place k m' = (Some v, m'').
Proof.
  unfold CacheManager.get.
  destruct m as [cap pol [c|c|c|c]];
    cbn [CacheManager.cache CacheManager.with_cache]; cbv zeta;
    intros Hg; injection Hg as Hv <-;
    cbn [CacheManager.cache CacheManager.with_cache].
  - unfold EnhancedLRUCache.get in *.
    destruct (EnhancedLRUCache.find k (EnhancedLRUCache.entries c)) as [i|] eqn:E;
      [|discriminate].
    destruct (LRUCapacity.find_Some _ _ _ E) as (e & He & Hk).
    cbn [fst snd EnhancedLRUCache.entries] in *.
    rewrite He in Hv. injection Hv as Hv.
    unfold EnhancedLRUCache.moveToFront.
    rewrite list_lookup_alter, He, decide_True by reflexivity.
    cbn [fmap option_fmap option_map EnhancedLRUCache.find].
    rewrite bool_decide_eq_true_2 by exact Hk.
    cbn. rewrite Hv. eauto.
  - unfold LFUCache.get in *.
    destruct (LFUCache.keyToEntry c !! k) as [e|] eqn:E; [|discriminate].
    cbn [fst snd] in *. injection Hv as Hv.
    cbn [LFUCache.keyToEntry LFUCache.updateFrequency LFUCache.set_entry
         LFUCache.set_stats].
    rewrite lookup_insert_eq. cbn. rewrite Hv. eauto.
  - unfold FIFOCache.get in *.
    destruct (FIFOCache.entries c !! k) as [e|] eqn:E; [|discriminate].
    cbn [fst snd] in *. injection Hv as Hv.
    cbn [FIFOCache.entries]. rewrite lookup_insert_eq. cbn. rewrite Hv. eauto.
  - unfold LIFOCache.get in *.
    destruct (LIFOCache.entries c !! k) as [e|] eqn:E; [|discriminate].
    cbn [fst snd] in *. injection Hv as Hv.
    cbn [LIFOCache.entries]. rewrite lookup_insert_eq. cbn. rewrite Hv. eauto.
Qed.

Lemma next_read_hits (path data : string) (fs fs1 : t) :
  puts_take_effect (enhancedCache fs) ->
  writeFile place path data fs = Some (inr true, fs1) \/
  readFile place path fs = Some (inr data, fs1) ->
  exists fs2,
    readFile place path fs1 = Some (inr data, fs2) /\
    cacheHits (stats fs2) = wrap64 (cacheHits (stats fs1) + 1) /\
    cacheMisses (stats fs2) = cacheMisses (stats fs1) /\
    host fs2 = host fs1.
Proof.
  intros He [Hw|Hr].
  - destruct (writeFile_true _ _ _ _ Hw)
      as (Hl & Hv & Hroot & Ha & _ & Hex & _ & _ & _ & c & Hp & Hc).
    destruct (manager_put_get path data _ c He Hp) as [m Hg].
    rewrite <- Hc in Hg.
    destruct (readFile_hit path data fs1 m) as (fs2 & H1 & H2 & H3 & H4 & _);
      [now rewrite (not_logged_in_auth _ _ Ha)
      | rewrite (check_owner_existing path fs1 Hex);
        now rewrite (session_verdict_auth _ _ Ha)
      | exact Hg |].
    exists fs2. repeat split; assumption.
  - unfold readFile in Hr. destruct (not_logged_in fs) eqn:Hl; [discriminate|].
    destruct (check_owner path fs) as [e|] eqn:Hc; [discriminate|].
    destruct (CacheManager.get place path (enhancedCache fs)) as [[v|] m] eqn:Hg;
      cbn [fst snd] in Hr.
    + injection Hr as <- <-.
      destruct (manager_get_get path v _ m Hg) as [m' Hg'].
      destruct (readFile_hit path v
                  (with_stats
                     (mkPerf (wrap64 (cacheHits (stats (with_cache m fs)) + 1))
                        (cacheMisses (stats (with_cache m fs)))
                        (wrap64 (totalReads (stats (with_cache m fs)) + 1))
                        (totalWrites (stats (with_cache m fs)))
                        (wrap64 (totalFileOperations (stats (with_cache m fs)) + 1)))
                     (with_cache m fs)) m')
        as (fs2 & H1 & H2 & H3 & H4 & _); [exact Hl | exact Hc | exact Hg' |].
      exists fs2. repeat split; assumption.
    + destruct (negb (exists_ path _)); [discriminate|].
      cbn [host with_stats with_cache rootPath enhancedCache] in Hr.
      destruct (Host.read _ (host fs)) as [d|]; [|discriminate].
      destruct (CacheManager.put place path d m) as [c|] eqn:Hp; [|discriminate].
      cbn [mbind option_bind] in Hr. injection Hr as <- <-.
      assert (puts_take_effect m) as He'.
      { pose proof (get_keeps_effect path _ He) as He'. now rewrite Hg in He'. }
      destruct (manager_put_get path d m c He' Hp) as [m' Hg'].
      match goal with |- context [readFile place path ?x] =>
        destruct (readFile_hit path d x m') as (fs2 & H1 & H2 & H3 & H4 & _);
          [exact Hl | exact Hc | exact Hg' |] end.
      exists fs2. repeat split; assumption.
Qed.

(** A permission check that passes leaves the verdict of the session. *)
Lemma check_owner_verdict path fs :
  check_owner path fs = None -> session_verdict fs = None.
Proof.
  unfold check_owner, session_verdict, getFileInfo, getMetadata.
  destruct (authManager fs) as [a|]; [|reflexivity].
  destruct (host fs !! fullPath path fs); [|discriminate].
  cbn [owner]. auto.
Qed.

(** After a successful write or read the session passes the checks and
    the cache holds the data. *)
Lemma cached_after (path data : string) (fs fs1 : t) :
  puts_take_effect (enhancedCache fs) ->
  writeFile place path data fs = Some (inr true, fs1) \/
  readFile place path fs = Some (inr data, fs1) ->
  not_logged_in fs1 = false /\ session_verdict fs1 = None /\
  exists m, CacheManager.get place path (enhancedCache fs1) = (Some data, m).
Proof.
  intros He [Hw|Hr].
  - destruct (writeFile_true _ _ _ _ Hw)
      as (Hl & Hv & _ & Ha & _ & _ & _ & _ & _ & c & Hp & Hc).
    destruct (manager_put_get path data _ c He Hp) as [m Hg].
    rewrite <- Hc in Hg.
    split; [now rewrite (not_logged_in_auth _ _ Ha)|].
    split; [now rewrite (session_verdict_auth _ _ Ha)|]. eauto.
  - unfold readFile in Hr. destruct (not_logged_in fs) eqn:Hl; [discriminate|].
    destruct (check_owner path fs) as [e|] eqn:Hc; [discriminate|].
    apply check_owner_verdict in Hc.
    destruct (CacheManager.get place path (enhancedCache fs)) as [[v|] m] eqn:Hg;
      cbn [fst snd] in Hr.
    + injection Hr as <- <-.
      destruct (manager_get_get path v _ m Hg) as [m' Hg'].
      split; [exact Hl|]. split; [exact Hc|]. eauto.
    + destruct (negb (exists_ path _)); [discriminate|].
      cbn [host with_stats with_cache rootPath enhancedCache] in Hr.
      destruct (Host.read _ (host fs)) as [d|]; [|discriminate].
      destruct (CacheManager.put place path d m) as [c|] eqn:Hp; [|discriminate].
      cbn [mbind option_bind] in Hr. injection Hr as <- <-.
      assert (puts_take_effect m) as He'.
      { pose proof (get_keeps_effect path _ He) as He'. now rewrite Hg in He'. }
      destruct (manager_put_get path d m c He' Hp) as [m' Hg'].
      split; [exact Hl|]. split; [exact Hc|]. eauto.
Qed.

(** X21. What was written or read is served from the cache: after a
    successful [writeFile(path, data)], and after a successful [readFile]
    that returned [data], the next [readFile(path)] returns [data] and
    counts one cache hit and no miss.  The content of the host file is not
    consulted: the call returns [data] whatever the host holds by then,
    provided, when an [AuthManager] is attached, that the path still
    exists there ([getFileInfo] stats it before the cache is asked).  (The
    cache must not be an LFU cache of capacity zero, which stores
    nothing.) *)
Theorem read_is_served_from_cache (path data : string) (fs fs1 : t) :
  puts_take_effect (enhancedCache fs) ->
  writeFile place path data fs = Some (inr true, fs1) \/
  readFile place path fs = Some (inr data, fs1) ->
  (exists fs2,
     readFile place path fs1 = Some (inr data, fs2) /\
     cacheHits (stats fs2) = wrap64 (cacheHits (stats fs1) + 1) /\
     cacheMisses (stats fs2) = cacheMisses (stats fs1)) /\
  (forall h : gmap string Host.node,
     authManager fs1 = None \/ is_Some (h !! fullPath path fs1) ->
     exists fs2,
       readFile place path (with_host h fs1) = Some (inr data, fs2) /\
       cacheHits (stats fs2) = wrap64 (cacheHits (stats fs1) + 1) /\
       cacheMisses (stats fs2) = cacheMisses (stats fs1)).
Proof.
  intros He Hprev. split.
  - destruct (next_read_hits path data fs fs1 He Hprev)
      as (fs2 & H1 & H2 & H3 & _).
    eauto.
  - intros h Hh.
    destruct (cached_after path data fs fs1 He Hprev) as (Hl & Hv & m & Hg).
    destruct (readFile_hit path data (with_host h fs1) m)
      as (fs2 & H1 & H2 & H3 & _); [exact Hl | | exact Hg |].
    + destruct Hh as [Hnone|Hex].
      * unfold check_owner. cbn [authManager with_host]. now rewrite Hnone.
      * rewrite check_owner_existing by exact Hex. exact Hv.
    + exists fs2. repeat split; assumption.
Qed.


(** X22. With an [AuthManager] attached, only administrators get at file
    contents: [getFileInfo] never fills in the owner, so the check
    "owner or admin" compares the logged-in user with the empty string.
    For a logged-in user who is not an administrator [readFile],
    [writeFile] and [deleteFile] on an existing path throw "Permission
    denied: not owner or admin" and change nothing, also on a file that
    the same user has just created with [createFile]. *)
Theorem only_admins_pass_the_owner_check (a : AuthManager.t)
    (path data : string) (fs : t) :
  authManager fs = Some a -> AuthManager.isLoggedIn a = true ->
  AuthManager.isAdmin (AuthManager.getCurrentUser a) a = false ->
  let denied := FSException "Permission denied: not owner or admin" in
  (exists_ path fs = true ->
   readFile place path fs = Some (inl denied, fs) /\
   writeFile place path data fs = Some (inl denied, fs) /\
   deleteFile path fs = (inl denied, fs)) /\
  (forall fs1, createFile path fs = (inr true, fs1) ->
   owner <$> fileMetadataMap fs1 !! path = Some (AuthManager.getCurrentUser a) /\
   readFile place path fs1 = Some (inl denied, fs1)).
Proof.
  intros Ha Hin Hadm. cbv zeta.
  assert (Hl : not_logged_in fs = false)
    by (unfold not_logged_in; rewrite Ha, Hin; reflexivity).
  assert (Hv : session_verdict fs
               = Some (FSException "Permission denied: not owner or admin")).
  { unfold session_verdict. rewrite Ha. cbv zeta. rewrite Hadm.
    unfold AuthManager.isLoggedIn in Hin.
    rewrite bool_decide_eq_false_2; [reflexivity|].
    intros Hu. unfold AuthManager.getCurrentUser in Hu.
    rewrite <- Hu in Hin. rewrite bool_decide_eq_true_2 in Hin by reflexivity.
    discriminate. }
  split.
  - intros Hex. apply exists_true in Hex.
    unfold readFile, writeFile, deleteFile.
    rewrite Hl, (check_owner_existing path fs Hex), Hv. repeat split.
  - intros fs1 Hc. unfold createFile in Hc. rewrite Hl in Hc.
    destruct (Host.open_truncate (fullPath path fs) (host fs)) as [h|] eqn:Ho;
      [|discriminate].
    injection Hc as <-.
    match goal with |- context [saveMetadata ?x] =>
      pose proof (saveMetadata_fields x) as (Hr & Hcache & Hs & Ha' & Hm & Hmp);
      pose proof (saveMetadata_exists x (fullPath path fs)) as Hexi;
      set (fs' := x) in * end.
    split.
    + rewrite Hm. cbn [fs' fileMetadataMap with_metadata].
      rewrite lookup_insert_eq, Ha. reflexivity.
    + assert (is_Some (host (saveMetadata fs') !! fullPath path (saveMetadata fs')))
        as Hex.
      { replace (fullPath path (saveMetadata fs')) with (fullPath path fs)
          by (unfold fullPath; now rewrite Hr).
        apply Hexi.
        cbn [fs' host with_metadata with_host].
        unfold Host.open_truncate in Ho.
        destruct (host fs !! fullPath path fs) as [[c0 m|m]|];
          [| discriminate |]; injection Ho as <-;
          rewrite lookup_insert_eq; eauto. }
      unfold readFile.
      rewrite (not_logged_in_auth fs (saveMetadata fs') Ha'), Hl.
      rewrite (check_owner_existing path _ Hex).
      rewrite (session_verdict_auth fs (saveMetadata fs') Ha'), Hv. reflexivity.
Qed.

(** What a successful [deleteFile] leaves on the host. *)
Lemma deleteFile_host path fs fs' :
  deleteFile path fs = (inr true, fs') ->
  rootPath fs' = rootPath fs /\
  host fs' !! fullPath path fs = None /\
  fileMetadataMap fs' !! path = None /\
  forall k, k <> fullPath path fs -> k <> metadataFilePath fs ->
            host fs' !! k = host fs !! k.
Proof.
  unfold deleteFile. destruct (not_logged_in fs); [discriminate|].
  destruct (check_owner path fs); [discriminate|].
  destruct (negb (exists_ path fs)); [discriminate|].
  match goal with |- context [saveMetadata ?x] =>
    pose proof (saveMetadata_fields x) as (Hr & Hcache & Hs & Ha' & Hm & Hmp);
    pose proof (saveMetadata_host x) as Hhost;
    set (fs1 := x) in * end.
  unfold Host.unlink. unfold fullPath at 1 2. rewrite Hr.
  change (rootPath fs1) with (rootPath fs). fold (fullPath path fs).
  destruct (host (saveMetadata fs1) !! fullPath path fs) as [[c m|m]|] eqn:E;
    try discriminate.
  intros Heq. injection Heq as <-.
  cbn [rootPath host fileMetadataMap with_host].
  split; [exact Hr|]. split; [apply lookup_delete_eq|]. split.
  - rewrite Hm. cbn [fs1 fileMetadataMap with_metadata]. apply lookup_delete_eq.
  - intros k Hk Hkm. rewrite lookup_delete_ne by congruence.
    now rewrite Hhost by exact Hkm.
Qed.

Lemma deleteFile_gone (path : string) (fs fs' : t) :
  deleteFile path fs = (inr true, fs') ->
  exists_ path fs' = false /\
  fileMetadataMap fs' !! path = None /\
  exists fs'', readFile place path fs' = Some (inl (FileNotFoundException path), fs'').
Proof.
  intros Hd.
  destruct (FileSystemFacts.deleteFile_true path fs fs' Hd)
    as (Hcache & _ & _ & Ha & Hl & _).
  destruct (deleteFile_host path fs fs' Hd) as (Hr & Hgone & Hmeta & _).
  assert (Hnone : host fs' !! fullPath path fs' = None)
    by (unfold fullPath in *; now rewrite Hr).
  assert (Hex : exists_ path fs' = false).
  { unfold exists_. rewrite Hnone. apply bool_decide_eq_false_2.
    intros [? ?]; discriminate. }
  split; [exact Hex|]. split; [exact Hmeta|].
  unfold readFile. rewrite (not_logged_in_auth fs fs' Ha), Hl.
  rewrite (check_owner_missing path fs' Hnone).
  destruct (authManager fs') as [a|]; [eauto|].
  destruct (FileSystemFacts.get_after_clear place (enhancedCache fs) path)
    as (m' & Hg & _).
  rewrite Hcache, Hg. cbn [fst snd].
  match goal with |- context [exists_ path ?x] =>
    replace (exists_ path x) with false by (symmetry; exact Hex) end.
  cbn [negb]. eauto.
Qed.

(** X23. A deleted file is gone: after [deleteFile(path)] returned true
    the path does not exist on the host, has no metadata row, and the next
    [readFile(path)] throws [FileNotFoundException], the cache having been
    emptied by the delete. *)
Theorem deleted_file_is_gone (path : string) (fs fs' : t) :
  deleteFile path fs = (inr true, fs') ->
  exists_ path fs' = false /\
  fileMetadataMap fs' !! path = None /\
  exists fs'', readFile place path fs' = Some (inl (FileNotFoundException path), fs'').
Proof. apply deleteFile_gone. Qed.


Lemma readFile_frame path r fs fs1 :
  readFile place path fs = Some (r, fs1) ->
  rootPath fs1 = rootPath fs /\ authManager fs1 = authManager fs /\
  metadataFilePath fs1 = metadataFilePath fs /\
  fileMetadataMap fs1 = fileMetadataMap fs /\ host fs1 = host fs /\
  (puts_take_effect (enhancedCache fs) -> puts_take_effect (enhancedCache fs1)).
Proof.
  unfold readFile. destruct (not_logged_in fs).
  { intros [= <- <-]. repeat split. auto. }
  destruct (check_owner path fs).
  { intros [= <- <-]. repeat split. auto. }
  pose proof (get_keeps_effect path (enhancedCache fs)) as Hge.
  destruct (CacheManager.get place path (enhancedCache fs)) as [[v|] m];
    cbn [fst snd] in *.
  { intros [= <- <-]. repeat split. exact Hge. }
  destruct (negb (exists_ path _)).
  { intros [= <- <-]. repeat split. exact Hge. }
  cbn [host with_stats with_cache rootPath enhancedCache].
  destruct (Host.read _ (host fs)) as [d|].
  2:{ intros [= <- <-]. repeat split. exact Hge. }
  destruct (CacheManager.put place path d m) as [c|] eqn:Hp; [|discriminate].
  cbn [mbind option_bind]. intros [= <- <-]. repeat split.
  intros He. apply (put_keeps_effect path d m c Hp). now apply Hge.
Qed.

Lemma createFile_true path fs fs1 :
  createFile path fs = (inr true, fs1) ->
  rootPath fs1 = rootPath fs /\ authManager fs1 = authManager fs /\
  metadataFilePath fs1 = metadataFilePath fs /\
  enhancedCache fs1 = enhancedCache fs /\
  forall k, k <> fullPath path fs -> k <> metadataFilePath fs ->
            host fs1 !! k = host fs !! k.
Proof.
  unfold createFile. destruct (not_logged_in fs); [discriminate|].
  destruct (Host.open_truncate (fullPath path fs) (host fs)) as [h|] eqn:Ho;
    [|discriminate].
  intros Heq. injection Heq as <-.
  match goal with |- context [saveMetadata ?x] =>
    pose proof (saveMetadata_fields x) as (Hr & Hcache & Hs & Ha' & Hm & Hmp);
    pose proof (saveMetadata_host x) as Hhost;
    set (fs' := x) in * end.
  split; [exact Hr|]. split; [exact Ha'|]. split; [exact Hmp|].
  split; [exact Hcache|].
  intros k Hk Hkm. rewrite Hhost by exact Hkm.
  cbn [fs' host with_metadata with_host].
  unfold Host.open_truncate in Ho.
  destruct (host fs !! fullPath path fs) as [[c0 m|m]|];
    [| discriminate |]; injection Ho as <-;
    now rewrite lookup_insert_ne by congruence.
Qed.

Lemma fullPath_root path fs fs' :
  rootPath fs' = rootPath fs -> fullPath path fs' = fullPath path fs.
Proof. unfold fullPath. now intros ->. Qed.

(** What a successful [copyFile] leaves. *)
Lemma copyFile_true source destination fs fs3 :
  puts_take_effect (enhancedCache fs) ->
  copyFile place source destination fs = Some (inr true, fs3) ->
  rootPath fs3 = rootPath fs /\ metadataFilePath fs3 = metadataFilePath fs /\
  exists content fs1,
    readFile place source fs = Some (inr content, fs1) /\
    (exists fs4, readFile place destination fs3 = Some (inr content, fs4)) /\
    (fullPath destination fs <> metadataFilePath fs ->
     Host.read (fullPath destination fs3) (host fs3) = Some content) /\
    size <$> fileMetadataMap fs3 !! destination
    = Some (Z.of_nat (String.length content)).
Proof.
  intros He. unfold copyFile. destruct (negb (exists_ source fs)); [discriminate|].
  destruct (readFile place source fs) as [[[e|content] fs1]|] eqn:Hr;
    try discriminate.
  destruct (readFile_frame _ _ _ _ Hr) as (Hr1 & Ha1 & Hm1 & _ & _ & He1).
  destruct (createFile destination fs1) as [[e|[|]] fs2] eqn:Hc; try discriminate.
  destruct (createFile_true _ _ _ Hc) as (Hr2 & Ha2 & Hm2 & Hc2 & _).
  destruct (writeFile place destination content fs2) as [[[e|[|]] fs3']|] eqn:Hw;
    try discriminate.
  intros Heq. injection Heq as <-.
  destruct (writeFile_true _ _ _ _ Hw)
    as (_ & _ & Hr3 & Ha3 & Hm3 & _ & Hread & _ & Hsize & _).
  assert (puts_take_effect (enhancedCache fs2)) as He2
    by (rewrite Hc2; now apply He1).
  split; [congruence|]. split; [congruence|].
  exists content, fs1. split; [reflexivity|]. split; [|split].
  - destruct (next_read_hits destination content fs2 fs3' He2
                (or_introl Hw)) as (fs4 & H4 & _).
    eauto.
  - intros Hne. apply Hread.
    rewrite (fullPath_root destination fs fs2) by congruence.
    rewrite Hm2, Hm1. exact Hne.
  - exact Hsize.
Qed.

(** X24. [copyFile] copies through the cache: when it returns true,
    [readFile(source)] had returned some content, the next
    [readFile(destination)] returns that content, and the metadata row of
    the destination records its size.  The path names are compared as
    strings, as the cache and the metadata table do; nothing is said here
    of the host file behind the destination. *)
Theorem copyFile_copies (source destination : string) (fs fs3 : t) :
  puts_take_effect (enhancedCache fs) ->
  copyFile place source destination fs = Some (inr true, fs3) ->
  exists content fs1,
    readFile place source fs = Some (inr content, fs1) /\
    (exists fs4, readFile place destination fs3 = Some (inr content, fs4)) /\
    size <$> fileMetadataMap fs3 !! destination
    = Some (Z.of_nat (String.length content)).
Proof.
  intros He Hc.
  destruct (copyFile_true _ _ _ _ He Hc)
    as (_ & _ & content & fs1 & Hread & Hnext & _ & Hsize).
  exists content, fs1. repeat split; assumption.
Qed.

Lemma deleteFile_metadata path fs fs' :
  deleteFile path fs = (inr true, fs') ->
  fileMetadataMap fs' = delete path (fileMetadataMap fs).
Proof.
  unfold deleteFile. destruct (not_logged_in fs); [discriminate|].
  destruct (check_owner path fs); [discriminate|].
  destruct (negb (exists_ path fs)); [discriminate|].
  match goal with |- context [saveMetadata ?x] =>
    pose proof (saveMetadata_fields x) as (_ & _ & _ & _ & Hm & _) end.
  destruct (Host.unlink _ _) as [h|]; [|discriminate].
  intros Heq. injection Heq as <-.
  cbn [fileMetadataMap with_host]. exact Hm.
Qed.

(** X25. [moveFile] (and [renameFile], which calls it) is a copy followed
    by [deleteFile(source)]: when it returns true the source does not
    exist on the host, has no metadata row and is not readable, and the
    cache is empty, the copy included; when the two names differ the
    metadata row of the destination records the size of what
    [readFile(source)] had returned.  When the names are the same the
    call still returns true, and the file is gone.  Nothing is said here
    of the host file behind the destination. *)
Theorem moveFile_moves (source destination : string) (fs fs' : t) :
  puts_take_effect (enhancedCache fs) ->
  moveFile place source destination fs = Some (inr true, fs') ->
  renameFile place source destination fs = Some (inr true, fs') /\
  exists_ source fs' = false /\
  fileMetadataMap fs' !! source = None /\
  (exists fs'', readFile place source fs'
                = Some (inl (FileNotFoundException source), fs'')) /\
  CacheManager.size (enhancedCache fs') = O /\
  CacheManager.contains destination (enhancedCache fs') = false /\
  (source <> destination ->
   exists content fs1,
     readFile place source fs = Some (inr content, fs1) /\
     size <$> fileMetadataMap fs' !! destination
     = Some (Z.of_nat (String.length content))).
Proof.
  intros He Hm. split; [exact Hm|]. unfold moveFile in Hm.
  destruct (copyFile place source destination fs) as [[[e|[|]] fs3]|] eqn:Hc;
    try discriminate.
  destruct (copyFile_true _ _ _ _ He Hc)
    as (Hr3 & Hm3 & content & fs1 & Hread & _ & _ & Hsize).
  destruct (deleteFile source fs3) as [[e|[|]] fs4] eqn:Hd; try discriminate.
  2:{ destruct (deleteFile destination fs4) as [[e|b] fs5]; discriminate. }
  injection Hm as <-.
  destruct (deleteFile_gone source fs3 fs4 Hd) as (Hgone & Hrow & Hthrows).
  destruct (FileSystemFacts.deleteFile_true source fs3 fs4 Hd) as (Hcache & _).
  split; [exact Hgone|]. split; [exact Hrow|]. split; [exact Hthrows|].
  rewrite Hcache.
  split; [apply FileSystemFacts.contains_after_clear; exact source|].
  split; [apply FileSystemFacts.contains_after_clear|].
  intros Hne. exists content, fs1. split; [exact Hread|].
  rewrite (deleteFile_metadata source fs3 fs4 Hd).
  rewrite lookup_delete_ne by exact Hne. exact Hsize.
Qed.

Lemma manager_get_contains (k v : string) (m m' : CacheManager.t string string) :
  CacheManager.get place k m = (Some v, m') -> CacheManager.contains k m = true.
Proof.
  unfold CacheManager.get, CacheManager.contains.
  destruct m as [cap pol [c|c|c|c]]; cbn [CacheManager.cache]; cbv zeta;
    intros Hg; injection Hg as Hv _; apply bool_decide_eq_true_2.
  - unfold EnhancedLRUCache.get in Hv.
    destruct (EnhancedLRUCache.find k (EnhancedLRUCache.entries c));
      [eauto | discriminate].
  - unfold LFUCache.get in Hv.
    destruct (LFUCache.keyToEntry c !! k); [eauto | discriminate].
  - unfold FIFOCache.get in Hv.
    destruct (FIFOCache.entries c !! k); [eauto | discriminate].
  - unfold LIFOCache.get in Hv.
    destruct (LIFOCache.entries c !! k); [eauto | discriminate].
Qed.

Lemma manager_pin (k : string) (m : CacheManager.t string string) :
  CacheManager.contains k m = true ->
  CacheManager.isPinned k (CacheManager.pin k m) = true /\
  CacheManager.contains k (CacheManager.pin k m) = true.
Proof.
  unfold CacheManager.contains, CacheManager.isPinned, CacheManager.pin.
  destruct m as [cap pol [c|c|c|c]];
    cbn [CacheManager.cache CacheManager.with_cache]; intros Hc.
  - unfold EnhancedLRUCache.pin, EnhancedLRUCache.contains in *.
    rewrite Hc. split; [|exact Hc].
    apply bool_decide_eq_true_2. cbn. apply elem_of_union_l, elem_of_singleton.
    reflexivity.
  - unfold LFUCache.pin, LFUCache.contains in *.
    rewrite Hc. split; [|exact Hc].
    apply bool_decide_eq_true_2. cbn. apply elem_of_union_l, elem_of_singleton.
    reflexivity.
  - unfold FIFOCache.pin, FIFOCache.contains in *.
    rewrite Hc. split; [|exact Hc].
    apply bool_decide_eq_true_2. cbn. apply elem_of_union_l, elem_of_singleton.
    reflexivity.
  - unfold LIFOCache.pin, LIFOCache.contains in *.
    rewrite Hc. split; [|exact Hc].
    apply bool_decide_eq_true_2. cbn. apply elem_of_union_l, elem_of_singleton.
    reflexivity.
Qed.

Lemma manager_get_pins (k k' : string) (m : CacheManager.t string string) :
  CacheManager.isPinned k' (CacheManager.get place k m).2
  = CacheManager.isPinned k' m.
Proof.
  unfold CacheManager.get, CacheManager.isPinned.
  destruct m as [cap pol [c|c|c|c]];
    cbn [CacheManager.cache CacheManager.with_cache snd].
  - unfold EnhancedLRUCache.get. now destruct (EnhancedLRUCache.find _ _).
  - unfold LFUCache.get. now destruct (_ !! _).
  - unfold FIFOCache.get. now destruct (_ !! _).
  - unfold LIFOCache.get. now destruct (_ !! _).
Qed.

(** A path that was read is in the cache. *)
Lemma readFile_caches path data fs fs1 :
  puts_take_effect (enhancedCache fs) ->
  readFile place path fs = Some (inr data, fs1) ->
  CacheManager.contains path (enhancedCache fs1) = true.
Proof.
  intros He Hr. unfold readFile in Hr.
  destruct (not_logged_in fs); [discriminate|].
  destruct (check_owner path fs); [discriminate|].
  destruct (CacheManager.get place path (enhancedCache fs)) as [[v|] m] eqn:Hg;
    cbn [fst snd] in Hr.
  - injection Hr as <- <-. cbn [enhancedCache with_stats with_cache].
    destruct (manager_get_get path v _ m Hg) as [m' Hg'].
    apply (manager_get_contains path v m m' Hg').
  - destruct (negb (exists_ path _)); [discriminate|].
    cbn [host with_stats with_cache rootPath enhancedCache] in Hr.
    destruct (Host.read _ (host fs)) as [d|]; [|discriminate].
    destruct (CacheManager.put place path d m) as [c|] eqn:Hp; [|discriminate].
    cbn [mbind option_bind] in Hr. injection Hr as <- <-.
    cbn [enhancedCache with_stats with_cache].
    assert (puts_take_effect m) as He'.
    { pose proof (get_keeps_effect path _ He) as He'. now rewrite Hg in He'. }
    destruct (manager_put_get path d m c He' Hp) as [m' Hg'].
    apply (manager_get_contains path d c m' Hg').
Qed.

(** A read that throws leaves the pins alone. *)
Lemma readFile_fails_pins path e fs fs1 k :
  readFile place path fs = Some (inl e, fs1) ->
  isFilePinned k fs1 = isFilePinned k fs.
Proof.
  unfold readFile, isFilePinned.
  destruct (not_logged_in fs); [now intros [= <- <-]|].
  destruct (check_owner path fs); [now intros [= <- <-]|].
  pose proof (manager_get_pins path k (enhancedCache fs)) as Hpins.
  destruct (CacheManager.get place path (enhancedCache fs)) as [[v|] m];
    cbn [fst snd] in *; [discriminate|].
  destruct (negb (exists_ path _)); [now intros [= <- <-]|].
  cbn [host with_stats with_cache rootPath enhancedCache].
  destruct (Host.read _ (host fs)) as [d|]; [|now intros [= <- <-]].
  destruct (CacheManager.put place path d m) as [c|]; discriminate.
Qed.

(** X29. [pinFile] pins what it can bring into the cache: when the path
    is cached already, or [readFile(path)] succeeds, the path is cached and
    pinned afterwards; when [readFile] throws, the exception is swallowed
    and the pins are as before.  (The cache must not be an LFU cache of
    capacity zero.) *)
Theorem pinFile_pins (path : string) (fs fs' : t) :
  puts_take_effect (enhancedCache fs) ->
  pinFile place path fs = Some fs' ->
  (CacheManager.contains path (enhancedCache fs) = true \/
   (exists data fs1, readFile place path fs = Some (inr data, fs1)) ->
   isFilePinned path fs' = true /\
   CacheManager.contains path (enhancedCache fs') = true) /\
  (CacheManager.contains path (enhancedCache fs) = false ->
   forall e fs1, readFile place path fs = Some (inl e, fs1) ->
   fs' = fs1 /\ forall k, isFilePinned k fs' = isFilePinned k fs).
Proof.
  intros He Hpin. unfold pinFile in Hpin.
  destruct (CacheManager.contains path (enhancedCache fs)) eqn:Hc.
  - injection Hpin as <-. split; [|discriminate]. intros _.
    unfold isFilePinned. cbn [enhancedCache with_cache].
    now apply manager_pin.
  - split.
    + intros [Hcontra|(data & fs1 & Hr)]; [discriminate|].
      rewrite Hr in Hpin. injection Hpin as <-.
      unfold isFilePinned. cbn [enhancedCache with_cache].
      apply manager_pin. apply (readFile_caches path data fs fs1 He Hr).
    + intros _ e fs1 Hr. rewrite Hr in Hpin. injection Hpin as <-.
      split; [reflexivity|]. intros k.
      apply (readFile_fails_pins path e fs fs1 k Hr).
Qed.

End WithPlace.

(** A root with two files and no [AuthManager]. *)
Definition plain : FileSystem.t :=
  FileSystem.create "root" None
    (list_to_map [("root", Host.Dir mode_0777);
                  ("root/a.txt", Host.File "A" mode_0644);
                  ("root/b.txt", Host.File "B" mode_0644)]%string).

Definition result_state {A : Type} (r : option (A * FileSystem.t))
  : FileSystem.t :=
  match r with Some x => x.2 | None => plain end.

Definition plain_written : FileSystem.t :=
  result_state (writeFile (fun _ _ => O) "a.txt" "new" plain).

(** The file is written, the host loses every file behind the back of the
    coordinator, and the next read still returns the data. *)
Lemma read_is_served_from_cache_witness :
  exists fs2,
    readFile (fun _ _ => O) "a.txt" (with_host ∅ plain_written)
    = Some (inr "new"%string, fs2) /\
    cacheHits (stats fs2) = wrap64 (cacheHits (stats plain_written) + 1) /\
    cacheMisses (stats fs2) = cacheMisses (stats plain_written).
Proof.
  refine (proj2 (read_is_served_from_cache (fun _ _ => O) "a.txt" "new" plain
                   plain_written I _) ∅ _).
  - left. vm_compute. reflexivity.
  - left. reflexivity.
Defined.

(** The same root with the user bob, who is no administrator, logged in. *)
Definition bob_session : AuthManager.t :=
  AuthManager.mk {["bob"%string := AuthManager.mkUser "bob" "hash" false]} "bob".

Definition bobs : FileSystem.t :=
  FileSystem.create "root" (Some bob_session) (host plain).

Lemma only_admins_pass_the_owner_check_witness :
  readFile (fun _ _ => O) "a.txt" bobs
  = Some (inl (FSException "Permission denied: not owner or admin"), bobs) /\
  forall fs1, createFile "mine.txt" bobs = (inr true, fs1) ->
    owner <$> fileMetadataMap fs1 !! "mine.txt"%string = Some "bob"%string /\
    readFile (fun _ _ => O) "mine.txt" fs1
    = Some (inl (FSException "Permission denied: not owner or admin"), fs1).
Proof.
  destruct (only_admins_pass_the_owner_check (fun _ _ => O) bob_session
              "a.txt" "" bobs eq_refl eq_refl eq_refl) as [Hdenied _].
  destruct (only_admins_pass_the_owner_check (fun _ _ => O) bob_session
              "mine.txt" "" bobs eq_refl eq_refl eq_refl) as [_ Hmine].
  split; [apply Hdenied; vm_compute; reflexivity | exact Hmine].
Defined.

Definition plain_deleted : FileSystem.t := (deleteFile "a.txt" plain).2.

Lemma deleted_file_is_gone_witness :
  exists_ "a.txt" plain_deleted = false /\
  fileMetadataMap plain_deleted !! "a.txt"%string = None /\
  exists fs'', readFile (fun _ _ => O) "a.txt" plain_deleted
               = Some (inl (FileNotFoundException "a.txt"), fs'').
Proof.
  apply (deleted_file_is_gone (fun _ _ => O) "a.txt" plain plain_deleted).
  vm_compute. reflexivity.
Defined.

Definition plain_copied : FileSystem.t :=
  result_state (copyFile (fun _ _ => O) "a.txt" "c.txt" plain).

Lemma copyFile_copies_witness :
  exists content fs1,
    readFile (fun _ _ => O) "a.txt" plain = Some (inr content, fs1) /\
    (exists fs4, readFile (fun _ _ => O) "c.txt" plain_copied
                 = Some (inr content, fs4)) /\
    size <$> fileMetadataMap plain_copied !! "c.txt"%string
    = Some (Z.of_nat (String.length content)).
Proof.
  apply (copyFile_copies (fun _ _ => O) "a.txt" "c.txt" plain plain_copied).
  - exact I.
  - vm_compute. reflexivity.
Defined.

(** [renameFile("a.txt", "a.txt")]. *)
Definition plain_renamed : FileSystem.t :=
  result_state (moveFile (fun _ _ => O) "a.txt" "a.txt" plain).

Lemma moveFile_moves_witness :
  exists_ "a.txt" plain = true /\
  renameFile (fun _ _ => O) "a.txt" "a.txt" plain
  = Some (inr true, plain_renamed) /\
  exists_ "a.txt" plain_renamed = false.
Proof.
  split; [vm_compute; reflexivity|].
  destruct (moveFile_moves (fun _ _ => O) "a.txt" "a.txt" plain plain_renamed I)
    as (Hr & Hgone & _); [vm_compute; reflexivity|].
  split; [exact Hr | exact Hgone].
Defined.

Definition plain_pinned : FileSystem.t :=
  match pinFile (fun _ _ => O) "b.txt" plain with
  | Some fs' => fs'
  | None => plain
  end.

Lemma pinFile_pins_witness :
  isFilePinned "b.txt" plain_pinned = true /\
  CacheManager.contains "b.txt"%string (enhancedCache plain_pinned) = true.
Proof.
  apply (pinFile_pins (fun _ _ => O) "b.txt" plain plain_pinned I).
  - vm_compute. reflexivity.
  - right. eexists _, _. vm_compute. reflexivity.
Defined.

End FileSystemProperties.
